(** * AsyncLoader: a shallow embedding of src/Common/AsyncLoader.h

    Jobs are identified by the address held in their [LoadJobPtr]; the
    immutable part of a job (its dependencies and its name) lives in a job
    table, the mutable part (completion flag, captured exception, user-facing
    priority) in a heap that is threaded through every loader operation
    together with the loader's own fields.  The operations of the loader run
    under the loader mutex, so each of them is one atomic state transformer;
    [remove] alone gives the mutex up on its way, where it has to wait for a
    job that a worker is executing, and is modelled in the pieces that run
    under the mutex. *)

From Stdlib Require Import ZArith Lia Bool Sorted.
From stdpp Require Import base option list gmap sets strings.

Local Open Scope Z_scope.

(** ** Error codes and exceptions *)

(** The four [ErrorCodes] the header declares [extern]; only their being
    distinct matters. *)
Inductive ErrorCode :=
  | ASYNC_LOAD_SCHEDULE_FAILED
  | ASYNC_LOAD_FAILED
  | ASYNC_LOAD_CANCELED
  | ASYNC_LOAD_DEPENDENCY_FAILED.

Record Exception := mkException { code : ErrorCode; message : string }.

(** ** Jobs *)

Abbreviation LoadJobPtr := nat (only parsing).

(** [LoadJobSet] is an [unordered_set]: no duplicates, and an iteration order
    that the program does not control.  A list gives it in iteration order. *)
Abbreviation LoadJobSet := (list LoadJobPtr).

Inductive LoadStatus := PENDING | SUCCESS | FAILED.

(** The [const] members of [LoadJob]. *)
Record LoadJob := mkLoadJob { dependencies : LoadJobSet; name : string }.

(** The mutable members of [LoadJob] ([waiters] only drives notification). *)
Record JobState := mkJobState {
  priority : Z;
  is_finished : bool;
  exception : option Exception
}.

Definition fresh_job : JobState := mkJobState 0 false None.

(** [LoadJob::status] *)
Definition status (j : JobState) : LoadStatus :=
  if negb (is_finished j) then PENDING
  else match exception j with Some _ => FAILED | None => SUCCESS end.

(** What a blocking call does once the scheduler lets it run: it is still
    blocked, it returns, or it raises. *)
Inductive Outcome := Blocked | Returned | Raised (e : Exception).

(** [LoadJob::wait]: the condition variable lets the caller through when
    [is_finished] holds; then the captured exception, if any, is rethrown. *)
Definition wait (j : JobState) : Outcome :=
  if is_finished j then
    match exception j with Some e => Raised e | None => Returned end
  else Blocked.

(** [LoadJob::waitNoThrow] *)
Definition waitNoThrow (j : JobState) : Outcome :=
  if is_finished j then Returned else Blocked.

(** [LoadJob::setSuccess] *)
Definition setSuccess (j : JobState) : JobState :=
  mkJobState (priority j) true (exception j).

(** [LoadJob::setFailure] *)
Definition setFailure (ptr : Exception) (j : JobState) : JobState :=
  mkJobState (priority j) true (Some ptr).

(** [job->priority.store(p)] *)
Definition store_priority (p : Z) (j : JobState) : JobState :=
  mkJobState p (is_finished j) (exception j).

(** ** Ready keys *)

Definition UInt64_modulus : Z := 2 ^ 64.

Module ReadyKey.
Record t := mk { priority : Z; ready_seqno : Z }.

  (** [ReadyKey::operator<] *)
Definition ltb (lhs rhs : t) : bool :=
    if priority lhs =? priority rhs
    then ready_seqno lhs <? ready_seqno rhs
    else priority lhs >? priority rhs.

Definition lt (lhs rhs : t) : Prop := ltb lhs rhs = true.

  (** The equivalence [std::map] derives from the comparison. *)
Definition equiv (a b : t) : bool := negb (ltb a b) && negb (ltb b a).
End ReadyKey.

(** ** Scheduling information of a pending job *)

Module Info.
Record t := mk {
    priority : Z;
    dependencies_left : Z;
    ready_seqno : Z;
    dependent_jobs : LoadJobSet
  }.

  (** [Info{.priority = p}] *)
Definition init (p : Z) : t := mk p 0 0 [].

  (** [Info::key] *)
Definition key (i : t) : ReadyKey.t := ReadyKey.mk (priority i) (ready_seqno i).

Definition set_priority (p : Z) (i : t) : t :=
    mk p (dependencies_left i) (ready_seqno i) (dependent_jobs i).
Definition set_dependencies_left (n : Z) (i : t) : t :=
    mk (priority i) n (ready_seqno i) (dependent_jobs i).
Definition set_ready_seqno (n : Z) (i : t) : t :=
    mk (priority i) (dependencies_left i) n (dependent_jobs i).
Definition set_dependent_jobs (d : LoadJobSet) (i : t) : t :=
    mk (priority i) (dependencies_left i) (ready_seqno i) d.
End Info.

(** [unordered_set::insert]: nothing happens when the element is present. *)
Definition set_insert (x : LoadJobPtr) (s : LoadJobSet) : LoadJobSet :=
  if decide (x ∈ s) then s else s ++ [x].

(** [unordered_set::erase] *)
Definition set_erase (x : LoadJobPtr) (s : LoadJobSet) : LoadJobSet :=
  filter (λ y, y ≠ x) s.

(** ** The ready queue: a [std::map<ReadyKey, LoadJobPtr>], in key order *)

Abbreviation ReadyQueue := (list (ReadyKey.t * LoadJobPtr)).

(** [std::map::emplace]: the entry goes to its place in the order; a key that
    is already there keeps its old value. *)
Fixpoint rq_emplace (k : ReadyKey.t) (v : LoadJobPtr) (q : ReadyQueue) : ReadyQueue :=
  match q with
  | [] => [(k, v)]
  | (k', v') :: q' =>
      if ReadyKey.ltb k k' then (k, v) :: q
      else if ReadyKey.ltb k' k then (k', v') :: rq_emplace k v q'
      else q
  end.

(** [std::map::erase(key)] *)
Definition rq_erase (k : ReadyKey.t) (q : ReadyQueue) : ReadyQueue :=
  filter (λ e, ReadyKey.equiv k e.1 = false) q.

(** ** Results of operations that may throw *)

Inductive Result (A : Type) :=
  | Ok (a : A)
  | Throw (e : Exception)
  | OutOfFuel.
Arguments Ok {A} a.
Arguments Throw {A} e.
Arguments OutOfFuel {A}.

Definition bind {A B} (m : Result A) (k : A → Result B) : Result B :=
  match m with
  | Ok a => k a
  | Throw e => Throw e
  | OutOfFuel => OutOfFuel
  end.

Notation "'do' x <- m ; k" := (bind m (λ x, k))
  (at level 10, x pattern, m at level 100, k at level 200).

(** A range-based [for] whose body may throw. *)
Fixpoint for_each {A S} (body : A → S → Result S) (l : list A) (s : S) : Result S :=
  match l with
  | [] => Ok s
  | x :: l' => do s' <- body x s; for_each body l' s'
  end.

(** ** The loader *)

Record AsyncLoader := mkLoader {
  is_running : bool;
  scheduled_jobs : gmap LoadJobPtr Info.t;
  ready_queue : ReadyQueue;
  finished_jobs : gset LoadJobPtr;
  last_ready_seqno : Z;
  max_threads : Z;
  workers : Z;
  (** the mutable members of the job objects the loader has touched *)
  heap : gmap LoadJobPtr JobState
}.

Definition new_loader (max_threads_ : Z) : AsyncLoader :=
  mkLoader false ∅ [] ∅ 0 max_threads_ 0 ∅.

Definition job_state (s : AsyncLoader) (job : LoadJobPtr) : JobState :=
  default fresh_job (heap s !! job).

Definition set_running (b : bool) (s : AsyncLoader) : AsyncLoader :=
  mkLoader b (scheduled_jobs s) (ready_queue s) (finished_jobs s)
           (last_ready_seqno s) (max_threads s) (workers s) (heap s).
Definition set_scheduled (m : gmap LoadJobPtr Info.t) (s : AsyncLoader) : AsyncLoader :=
  mkLoader (is_running s) m (ready_queue s) (finished_jobs s)
           (last_ready_seqno s) (max_threads s) (workers s) (heap s).
Definition set_ready_queue (q : ReadyQueue) (s : AsyncLoader) : AsyncLoader :=
  mkLoader (is_running s) (scheduled_jobs s) q (finished_jobs s)
           (last_ready_seqno s) (max_threads s) (workers s) (heap s).
Definition set_finished (f : gset LoadJobPtr) (s : AsyncLoader) : AsyncLoader :=
  mkLoader (is_running s) (scheduled_jobs s) (ready_queue s) f
           (last_ready_seqno s) (max_threads s) (workers s) (heap s).
Definition set_last_ready_seqno (n : Z) (s : AsyncLoader) : AsyncLoader :=
  mkLoader (is_running s) (scheduled_jobs s) (ready_queue s) (finished_jobs s)
           n (max_threads s) (workers s) (heap s).
Definition set_workers (n : Z) (s : AsyncLoader) : AsyncLoader :=
  mkLoader (is_running s) (scheduled_jobs s) (ready_queue s) (finished_jobs s)
           (last_ready_seqno s) (max_threads s) n (heap s).
Definition set_heap (h : gmap LoadJobPtr JobState) (s : AsyncLoader) : AsyncLoader :=
  mkLoader (is_running s) (scheduled_jobs s) (ready_queue s) (finished_jobs s)
           (last_ready_seqno s) (max_threads s) (workers s) h.

(** A method call on the job object behind a pointer. *)
Definition update_job (f : JobState → JobState) (job : LoadJobPtr) (s : AsyncLoader) : AsyncLoader :=
  set_heap (<[job := f (job_state s job)]> (heap s)) s.

(** [scheduled_jobs[job]]: a missing entry is value-initialised first. *)
Definition info_at (s : AsyncLoader) (job : LoadJobPtr) : Info.t :=
  default (Info.init 0) (scheduled_jobs s !! job).

(** An assignment through a reference to [scheduled_jobs[job]]. *)
Definition update_info (f : Info.t → Info.t) (job : LoadJobPtr) (s : AsyncLoader) : AsyncLoader :=
  set_scheduled (<[job := f (info_at s job)]> (scheduled_jobs s)) s.

(** [UInt64] and [size_t] arithmetic. *)
Definition wrap64 (n : Z) : Z := n mod UInt64_modulus.

(** [AsyncLoader::spawn]; handing [worker] to the pool is the environment's
    part. *)
Definition spawn (s : AsyncLoader) : AsyncLoader :=
  set_workers (wrap64 (workers s + 1)) s.

(** [AsyncLoader::enqueue]; [info] is, at each call, the entry of [job] in
    [scheduled_jobs]. *)
Definition enqueue (job : LoadJobPtr) (s : AsyncLoader) : AsyncLoader :=
  let seqno := wrap64 (last_ready_seqno s + 1) in
  let s := set_last_ready_seqno seqno s in
  let s := update_info (Info.set_ready_seqno seqno) job s in
  let s := set_ready_queue (rq_emplace (Info.key (info_at s job)) job (ready_queue s)) s in
  if is_running s && (workers s <? max_threads s) then spawn s else s.

(** [AsyncLoader::finish] *)
Definition finish (job : LoadJobPtr) (s : AsyncLoader) : AsyncLoader :=
  let s := set_scheduled (delete job (scheduled_jobs s)) s in
  set_finished ({[job]} ∪ finished_jobs s) s.

(** The body of the loop of [AsyncLoader::loaded]. *)
Definition loaded_dep (dep : LoadJobPtr) (s : AsyncLoader) : AsyncLoader :=
  let left := wrap64 (Info.dependencies_left (info_at s dep) - 1) in
  let s := update_info (Info.set_dependencies_left left) dep s in
  if left =? 0 then enqueue dep s else s.

(** [AsyncLoader::loaded]; [chassert] compiles to nothing in a release
    build. *)
Definition loaded (job : LoadJobPtr) (s : AsyncLoader) : AsyncLoader :=
  let s := update_job setSuccess job s in
  let s := update_info id job s in
  let s := foldl (λ s dep, loaded_dep dep s) s (Info.dependent_jobs (info_at s job)) in
  finish job s.

Definition quoted_job (n : string) : string := "Load job '" +:+ n +:+ "'".

Section Loader.

  (** The job objects: what each pointer's [dependencies] and [name] are. *)
Variable J : LoadJobPtr → LoadJob.

  (** [getExceptionMessage(e, with_stack_trace = false)] of Common/Exception.h. *)
Variable getExceptionMessage : Exception → string.

  (** The exception [failed] builds for a dependent job. *)
Definition dependency_failed (dep : LoadJobPtr) (exception_from_job : Exception) : Exception :=
    mkException ASYNC_LOAD_DEPENDENCY_FAILED
      (quoted_job (name (J dep)) +:+ " -> " +:+ getExceptionMessage exception_from_job).

  (** "Clean dependency graph edges": one prerequisite of the failed job. *)
Definition clean_edge (job dep : LoadJobPtr) (s : AsyncLoader) : AsyncLoader :=
    match scheduled_jobs s !! dep with
    | Some dep_info =>
        update_info (Info.set_dependent_jobs (set_erase job (Info.dependent_jobs dep_info))) dep s
    | None => s
    end.

  (** [AsyncLoader::failed] *)
Fixpoint failed (fuel : nat) (job : LoadJobPtr) (exception_from_job : Exception)
      (s : AsyncLoader) : Result AsyncLoader :=
    match fuel with
    | O => OutOfFuel
    | S fuel =>
        let s := update_job (setFailure exception_from_job) job s in
        let dependent := Info.dependent_jobs (info_at s job) in
        let s := update_info (Info.set_dependent_jobs []) job s in
        do s <- for_each (λ dep, failed fuel dep (dependency_failed dep exception_from_job))
                         dependent s;
        let s := foldl (λ s dep, clean_edge job dep s) s (dependencies (J job)) in
        Ok (finish job s)
    end.

  (** [AsyncLoader::canceled] *)
Definition canceled (fuel : nat) (job : LoadJobPtr) (s : AsyncLoader) : Result AsyncLoader :=
    failed fuel job
      (mkException ASYNC_LOAD_CANCELED (quoted_job (name (J job)) +:+ " canceled")) s.

  (** [AsyncLoader::prioritize] (the private overload) *)
Fixpoint prioritize (fuel : nat) (job : LoadJobPtr) (new_priority : Z)
      (s : AsyncLoader) : Result AsyncLoader :=
    match fuel with
    | O => OutOfFuel
    | S fuel =>
        match scheduled_jobs s !! job with
        | None => Ok s
        | Some info =>
            if Info.priority info >=? new_priority then Ok s
            else
              let s := if Info.ready_seqno info =? 0 then s
                       else set_ready_queue (rq_erase (Info.key info) (ready_queue s)) s in
              let s := update_info (Info.set_priority new_priority) job s in
              let s := update_job (store_priority new_priority) job s in
              let s := if Info.ready_seqno (info_at s job) =? 0 then s
                       else set_ready_queue
                              (rq_emplace (Info.key (info_at s job)) job (ready_queue s)) s in
              for_each (λ dep, prioritize fuel dep new_priority) (dependencies (J job)) s
        end
    end.

  (** [AsyncLoader::checkCycleImpl]; the result is the chain and the two sets
      the call leaves behind. *)
Fixpoint checkCycleImpl (fuel : nat) (job : LoadJobPtr) (left visited : LoadJobSet)
      : Result (string * (LoadJobSet * LoadJobSet)) :=
    match fuel with
    | O => OutOfFuel
    | S fuel =>
        if decide (job ∈ left) then
          if decide (job ∈ visited) then
            Ok (name (J job), (left, set_erase job visited))
          else
            (fix deps_loop (deps : list LoadJobPtr) (left visited : LoadJobSet) :=
               match deps with
               | [] => Ok (EmptyString, (set_erase job left, visited))
               | dep :: deps' =>
                   do r <- checkCycleImpl fuel dep left visited;
                   let chain := r.1 in
                   let left' := r.2.1 in
                   let visited' := r.2.2 in
                   if decide (chain = EmptyString) then deps_loop deps' left' visited'
                   else if decide (job ∈ visited') then
                     Ok (name (J job) +:+ " -> " +:+ chain, (left', visited'))
                   else
                     Throw (mkException ASYNC_LOAD_SCHEDULE_FAILED
                              ("Load job dependency cycle detected: "
                                 +:+ name (J job) +:+ " -> " +:+ chain))
               end) (dependencies (J job)) left (set_insert job visited)
        else Ok (EmptyString, (left, visited))
    end.

  (** [AsyncLoader::checkCycle]: the [while] loop runs once per unit of
      [fuel]. *)
Fixpoint checkCycle_loop (fuel : nat) (left visited : LoadJobSet) {struct fuel}
      : Result unit :=
    match left with
    | [] => Ok tt
    | job :: _ =>
        match fuel with
        | O => OutOfFuel
        | S fuel' =>
            do r <- checkCycleImpl fuel job left visited;
            checkCycle_loop fuel' (r.2.1) (r.2.2)
        end
    end.

Definition checkCycle (fuel : nat) (jobs : LoadJobSet) : Result unit :=
    checkCycle_loop fuel jobs [].

  (** The "Sanity checks" of [schedule] for one job. *)
Definition sanity_check (s : AsyncLoader) (job : LoadJobPtr) : Result unit :=
    match status (job_state s job) with
    | PENDING =>
        match scheduled_jobs s !! job with
        | Some _ =>
            Throw (mkException ASYNC_LOAD_SCHEDULE_FAILED
                     (quoted_job (name (J job)) +:+ " has been already scheduled"))
        | None => Ok tt
        end
    | _ =>
        Throw (mkException ASYNC_LOAD_SCHEDULE_FAILED
                 ("Trying to schedule already finished load job '" +:+ name (J job) +:+ "'"))
    end.

  (** "Schedule all incoming jobs": [emplace] leaves an existing entry alone. *)
Definition emplace_job (priority_ : Z) (job : LoadJobPtr) (s : AsyncLoader) : AsyncLoader :=
    let s := match scheduled_jobs s !! job with
             | Some _ => s
             | None => set_scheduled (<[job := Info.init priority_]> (scheduled_jobs s)) s
             end in
    update_job (store_priority priority_) job s.

  (** "Process incoming dependencies": one dependency of one job. *)
Definition schedule_dep (fuel : nat) (priority_ : Z) (job dep : LoadJobPtr)
      (s : AsyncLoader) : Result AsyncLoader :=
    let s := match scheduled_jobs s !! dep with
             | Some dep_info =>
                 let s := update_info
                            (Info.set_dependent_jobs (set_insert job (Info.dependent_jobs dep_info)))
                            dep s in
                 update_info
                   (λ info, Info.set_dependencies_left (wrap64 (Info.dependencies_left info + 1)) info)
                   job s
             | None => s
             end in
    prioritize fuel dep priority_ s.

Definition schedule_job (fuel : nat) (priority_ : Z) (job : LoadJobPtr)
      (s : AsyncLoader) : Result AsyncLoader :=
    do s <- for_each (schedule_dep fuel priority_ job) (dependencies (J job)) s;
    Ok (if Info.dependencies_left (info_at s job) =? 0 then enqueue job s else s).

  (** [AsyncLoader::schedule]; the returned [Task] holds [jobs]. *)
Definition schedule (fuel : nat) (jobs : LoadJobSet) (priority_ : Z)
      (s : AsyncLoader) : Result AsyncLoader :=
    do _ <- for_each (λ job _, sanity_check s job) jobs tt;
    do _ <- checkCycle fuel jobs;
    let s := foldl (λ s job, emplace_job priority_ job s) s jobs in
    for_each (schedule_job fuel priority_) jobs s.

  (** The exception [worker] builds when a job body throws; [what] is
      [getCurrentExceptionMessage(true)]. *)
Definition load_failed (job : LoadJobPtr) (what : string) : Exception :=
    mkException ASYNC_LOAD_FAILED (quoted_job (name (J job)) +:+ " failed: " +:+ what).

  (** "Handle just executed job" in [worker]; [thrown] is what the body threw,
      if it threw. *)
Definition handle_executed (fuel : nat) (job : LoadJobPtr) (thrown : option string)
      (s : AsyncLoader) : Result AsyncLoader :=
    match thrown with
    | Some what => failed fuel job (load_failed job what) s
    | None => Ok (loaded job s)
    end.

  (** What [remove] does with one job of its set: it is done with the job and
      holds the lock still, or the job is executing and [remove] has to give
      up the lock and wait for it. *)
Inductive Removal :=
    | Removed (s : AsyncLoader)
    | MustWait.

  (** One job of the loop of [AsyncLoader::remove], up to the next job or up
      to [lock.unlock()]. *)
Definition remove_job (fuel : nat) (job : LoadJobPtr) (s : AsyncLoader) : Result Removal :=
    if decide (job ∈ finished_jobs s) then
      Ok (Removed (set_finished (finished_jobs s ∖ {[job]}) s))
    else
      match scheduled_jobs s !! job with
      | Some info =>
          if Info.dependencies_left info >? 0 then
            do s <- canceled fuel job s;
            Ok (Removed (set_finished (finished_jobs s ∖ {[job]}) s))
          else if negb (Info.ready_seqno info =? 0) then
            let s := set_ready_queue (rq_erase (Info.key info) (ready_queue s)) s in
            let s := update_info (Info.set_ready_seqno 0) job s in
            do s <- canceled fuel job s;
            Ok (Removed (set_finished (finished_jobs s ∖ {[job]}) s))
          else Ok MustWait
      | None => Ok (Removed s)
      end.

  (** How a stretch of [remove] under the lock ends: the call returns, or it
      has unlocked and is in [job->waitNoThrow()], with the jobs of [rest]
      still to go. *)
Inductive RemoveNext :=
    | RemoveReturns
    | RemoveWaits (job : LoadJobPtr) (rest : LoadJobSet).

  (** [AsyncLoader::remove], from taking the lock to giving it up: the loop
      over [jobs] until it is through or meets a job that is executing. *)
Fixpoint remove (fuel : nat) (jobs : LoadJobSet) (s : AsyncLoader)
      : Result (RemoveNext * AsyncLoader) :=
    match jobs with
    | [] => Ok (RemoveReturns, s)
    | job :: rest =>
        do r <- remove_job fuel job s;
        match r with
        | Removed s' => remove fuel rest s'
        | MustWait => Ok (RemoveWaits job rest, s)
        end
    end.

  (** [AsyncLoader::remove] from [lock.lock()] on, once [job->waitNoThrow()]
      has returned: [finished_jobs.erase(job)], and the loop goes on with the
      jobs of [rest]. *)
Definition remove_resumed (fuel : nat) (job : LoadJobPtr) (rest : LoadJobSet)
      (s : AsyncLoader) : Result (RemoveNext * AsyncLoader) :=
    remove fuel rest (set_finished (finished_jobs s ∖ {[job]}) s).

  (** How one pass through the locked part of [worker]'s loop ends. *)
Inductive WorkerNext :=
    | Exit
    | Run (job : LoadJobPtr).

  (** "Take next job to be executed from the ready queue", with the two exits
      before it. *)
Definition take_next (s : AsyncLoader) : WorkerNext * AsyncLoader :=
    if negb (is_running s) then (Exit, s)
    else match ready_queue s with
         | [] => (Exit, set_workers (wrap64 (workers s - 1)) s)
         | (_, job) :: rest =>
             let s := set_ready_queue rest s in
             (Run job, set_scheduled (alter (Info.set_ready_seqno 0) job (scheduled_jobs s)) s)
         end.

  (** The locked part of one iteration of [AsyncLoader::worker]. *)
Definition worker_iteration (fuel : nat) (executed : option (LoadJobPtr * option string))
      (s : AsyncLoader) : Result (WorkerNext * AsyncLoader) :=
    do s <- match executed with
            | Some (job, thrown) => handle_executed fuel job thrown s
            | None => Ok s
            end;
    Ok (take_next s).

  (** [AsyncLoader::start] *)
Fixpoint start_loop (n : nat) (i : Z) (s : AsyncLoader) : AsyncLoader :=
    match n with
    | O => s
    | S n' =>
        if (workers s <? max_threads s) && (i <? Z.of_nat (length (ready_queue s)))
        then start_loop n' (i + 1) (spawn s) else s
    end.

Definition start (s : AsyncLoader) : AsyncLoader :=
    let s := set_running true s in
    start_loop (length (ready_queue s)) 0 s.

  (** [AsyncLoader::stop], up to [pool.wait()]. *)
Definition stop (s : AsyncLoader) : AsyncLoader := set_running false s.

  (** ** The loader with its threads

      Callers and workers interleave at the granularity of the loader mutex.
      A configuration holds the loader, the jobs whose bodies worker threads
      are running (each worker's local [job]), and a log of what happened.
      A call of [remove] holds the mutex from one job of its set to the next
      unless it has to wait; the steps let the other threads in between any
      two jobs, which only adds interleavings. *)

Inductive Event :=
    | EvScheduled (jobs : LoadJobSet) (priority_ : Z) (pending : gset LoadJobPtr)
    | EvStarted (job : LoadJobPtr)
    | EvReturned (job : LoadJobPtr)
    | EvThrew (job : LoadJobPtr).

Record Config := mkConfig {
    loader : AsyncLoader;
    executing : list LoadJobPtr;
    log : list Event
  }.

Definition initial (max_threads_ : Z) : Config :=
    mkConfig (new_loader max_threads_) [] [].

Definition executed_event (executed : option (LoadJobPtr * option string)) : list Event :=
    match executed with
    | Some (job, None) => [EvReturned job]
    | Some (job, Some _) => [EvThrew job]
    | None => []
    end.

Definition executed_job (executed : option (LoadJobPtr * option string)) : list LoadJobPtr :=
    match executed with Some (job, _) => [job] | None => [] end.

Definition next_job (n : WorkerNext) : list LoadJobPtr :=
    match n with Run job => [job] | Exit => [] end.

  (** [remove] reaches a job that a worker is executing: it has to wait. *)
Definition is_executing (s : AsyncLoader) (job : LoadJobPtr) : Prop :=
    (job ∉ finished_jobs s) ∧
    (∃ info, scheduled_jobs s !! job = Some info ∧
             Info.dependencies_left info = 0 ∧ Info.ready_seqno info = 0).

Inductive step : Config → Config → Prop :=
    | step_schedule fuel jobs priority_ s s' ex lg :
        NoDup jobs →
        schedule fuel jobs priority_ s = Ok s' →
        step (mkConfig s ex lg)
             (mkConfig s' ex (lg ++ [EvScheduled jobs priority_ (dom (scheduled_jobs s))]))
    | step_prioritize fuel job new_priority s s' ex lg :
        prioritize fuel job new_priority s = Ok s' →
        step (mkConfig s ex lg) (mkConfig s' ex lg)
    | step_remove fuel job s s' ex lg :
        remove_job fuel job s = Ok (Removed s') →
        step (mkConfig s ex lg) (mkConfig s' ex lg)
    | step_start s ex lg :
        step (mkConfig s ex lg) (mkConfig (start s) ex lg)
    | step_stop s ex lg :
        step (mkConfig s ex lg) (mkConfig (stop s) ex lg)
    | step_worker fuel executed next s s' ex lg :
        executed_job executed ⊆ ex →
        worker_iteration fuel executed s = Ok (next, s') →
        step (mkConfig s ex lg)
             (mkConfig s'
                (next_job next ++ filter (λ j, j ∉ executed_job executed) ex)
                (lg ++ executed_event executed ++ map EvStarted (next_job next))).

Inductive reachable (max_threads_ : Z) : Config → Prop :=
    | reachable_initial : reachable max_threads_ (initial max_threads_)
    | reachable_step c c' :
        reachable max_threads_ c → step c c' → reachable max_threads_ c'.

  (** A call of [remove] among the other threads.  It runs under the lock
      until it returns or has to wait for a job; while it waits the lock is
      free and the other threads take their steps; when [waitNoThrow] has
      returned it takes the lock again and goes on.  [remove_rest next c c']:
      the call has given up the lock in [c] the way [next] tells, and returns
      in [c']. *)
Inductive remove_rest : RemoveNext → Config → Config → Prop :=
    | remove_rest_returns c : remove_rest RemoveReturns c c
    | remove_rest_waits fuel job rest next s2 c c2 c' :
        rtc step c c2 →
        waitNoThrow (job_state (loader c2) job) = Returned →
        remove_resumed fuel job rest (loader c2) = Ok (next, s2) →
        remove_rest next (mkConfig s2 (executing c2) (log c2)) c' →
        remove_rest (RemoveWaits job rest) c c'.

  (** [remove_call jobs c c']: [remove(jobs)] takes the lock in [c] and
      returns in [c']. *)
Inductive remove_call (jobs : LoadJobSet) (c c' : Config) : Prop :=
    | remove_call_runs fuel next s' :
        remove fuel jobs (loader c) = Ok (next, s') →
        remove_rest next (mkConfig s' (executing c) (log c)) c' →
        remove_call jobs c c'.

End Loader.


(** ** [AsyncLoader::Task]

    The helper that [schedule] hands out: it keeps the scheduled jobs and
    removes them from the loader when it is destroyed.  There is one loader,
    so the [loader] pointer of a task is either null or points to it. *)

Module Task.
Record t := mk {
    loader : bool;        (** [loader != nullptr] *)
    jobs : LoadJobSet
  }.

  (** [Task()] *)
Definition empty : t := mk false [].

  (** [Task(loader_, jobs_)] *)
Definition make (jobs_ : LoadJobSet) : t := mk true jobs_.

  (** [detach] *)
Definition detach (this : t) : t := mk false [].

Section Moves.
    (** What [std::move] leaves in the set it has moved from: the standard
        leaves it unspecified. *)
Variable moved_from : LoadJobSet → LoadJobSet.

    (** [Task(Task && o)]: the new task, and [o] afterwards. *)
Definition move (o : t) : t * t :=
      (mk (loader o) (jobs o), mk false (moved_from (jobs o))).

    (** [operator=(Task && o)]: [*this] and [o] afterwards. *)
Definition move_assign (this o : t) : t * t :=
      (mk (loader o) (jobs o), mk false (moved_from (jobs o))).

    (** [merge]: [*this] and [o] afterwards.  [unordered_set::merge] moves
        over the elements that [*this] lacks and leaves the others in the
        source. *)
Definition merge (this o : t) : t * t :=
      if negb (loader this) then move_assign this o
      else (mk (loader this) (foldl (λ acc x, set_insert x acc) (jobs this) (jobs o)),
            mk false (filter (λ x, x ∈ jobs this) (jobs o))).
End Moves.

Section Remove.
Variable J : LoadJobPtr → LoadJob.
Variable getExceptionMessage : Exception → string.

    (** [remove], which is also what [~Task] does, as far as it gets under
        the lock of the loader: how [loader->remove(jobs)] ends, and the task
        and the loader then.  [detach] comes when [loader->remove] has
        returned. *)
Definition remove (fuel : nat) (this : t) (s : AsyncLoader)
        : Result (RemoveNext * t * AsyncLoader) :=
      if loader this then
        do r <- remove J getExceptionMessage fuel (jobs this) s;
        match r.1 with
        | RemoveReturns => Ok (RemoveReturns, detach this, r.2)
        | RemoveWaits job rest => Ok (RemoveWaits job rest, this, r.2)
        end
      else Ok (RemoveReturns, this, s).
End Remove.
End Task.

(** [schedule] with the [Task] it returns. *)
Definition schedule_task (J : LoadJobPtr → LoadJob) (fuel : nat) (jobs : LoadJobSet)
    (priority_ : Z) (s : AsyncLoader) : Result (Task.t * AsyncLoader) :=
  do s' <- schedule J fuel jobs priority_ s;
  Ok (Task.make jobs, s').
(** ** The [setFailure] calls of [failed]

    [failed] sets the failure of its job first of all, under the mutex of the
    job, and then calls itself for the dependents: a thread in [wait] or
    [status] can see the job object between any two of these calls. *)

(** The calls that the loop of a range-based [for] makes, when each pass makes
    the calls [calls x s] and leaves the state [body x s]. *)
Fixpoint for_each_calls {A S C} (calls : A → S → list C) (body : A → S → Result S)
    (l : list A) (s : S) : list C :=
  match l with
  | [] => []
  | x :: l' =>
      calls x s ++
      match body x s with
      | Ok s' => for_each_calls calls body l' s'
      | _ => []
      end
  end.

Section Calls.
Variable J : LoadJobPtr → LoadJob.
Variable getExceptionMessage : Exception → string.

  (** The calls [job->setFailure(exception_from_job)] that a call of
      [AsyncLoader::failed] makes, its own and those of the calls for the
      dependents, in order. *)
Fixpoint failed_calls (fuel : nat) (job : LoadJobPtr) (exception_from_job : Exception)
      (s : AsyncLoader) : list (LoadJobPtr * Exception) :=
    match fuel with
    | O => []
    | S fuel =>
        let s := update_job (setFailure exception_from_job) job s in
        let dependent := Info.dependent_jobs (info_at s job) in
        let s := update_info (Info.set_dependent_jobs []) job s in
        (job, exception_from_job) ::
        for_each_calls
          (λ dep, failed_calls fuel dep
                    (dependency_failed J getExceptionMessage dep exception_from_job))
          (λ dep, failed J getExceptionMessage fuel dep
                    (dependency_failed J getExceptionMessage dep exception_from_job))
          dependent s
    end.
End Calls.
(** ** Vocabulary of the properties *)

(** [a] occurs in [b]. *)
Definition contains (a b : string) : Prop := ∃ pre post, b = pre +:+ a +:+ post.

(** The ready queue is in key order, as a [std::map] is. *)
Definition rq_sorted (q : ReadyQueue) : Prop := StronglySorted ReadyKey.lt (q.*1).

(** The ready queue of the loader is in key order. *)
Definition sorted (s : AsyncLoader) : Prop := rq_sorted (ready_queue s).

(** The sum of a weight over the pending jobs. *)
Definition weigh (w : LoadJobPtr → Info.t → nat) (m : gmap LoadJobPtr Info.t) : nat :=
  map_fold (λ job info n, (w job info + n)%nat) 0%nat m.

(** A bound on the number of nested calls of [failed]: every call below the
    first one uses up a back-link. *)
Definition dependents_total (m : gmap LoadJobPtr Info.t) : nat :=
  weigh (λ _ info, length (Info.dependent_jobs info)) m.

(** The number of pending jobs that still wait for a prerequisite, together
    with the jobs of [R], which [schedule] has inserted and not yet looked
    at: the jobs that have an [enqueue] ahead of them. *)
Definition waits (R : list LoadJobPtr) (job : LoadJobPtr) (info : Info.t) : nat :=
  if bool_decide (Info.dependencies_left info ≠ 0 ∨ job ∈ R) then 1%nat else 0%nat.

Definition waiting (R : list LoadJobPtr) (m : gmap LoadJobPtr Info.t) : nat :=
  weigh (waits R) m.

(** A bound on the number of nested calls of [prioritize]: every call that
    goes on to the dependencies has raised a job. *)
Definition below (p : Z) (m : gmap LoadJobPtr Info.t) : nat :=
  weigh (λ _ info, if Info.priority info <? p then 1%nat else 0%nat) m.

Definition prioritize_fuel (p : Z) (s : AsyncLoader) : nat := S (below p (scheduled_jobs s)).

Definition failed_fuel (s : AsyncLoader) : nat := S (dependents_total (scheduled_jobs s)).

(** [job] is pending: it has an entry in [scheduled_jobs]. *)
Definition pending (s : AsyncLoader) (job : LoadJobPtr) : Prop :=
  is_Some (scheduled_jobs s !! job).

(** A job that [failed] was called for while it propagated the exception
    [e] of [job]: it is finished and holds [e] itself (only [job] does) or an
    exception built for a dependent, of which [rel x e e'] tells what is
    recorded. *)
Definition fail_mark (rel : LoadJobPtr → Exception → Exception → Prop)
    (job : option LoadJobPtr) (e : Exception) (x : LoadJobPtr) (st : JobState) : Prop :=
  is_finished st = true ∧
  ∃ e', exception st = Some e' ∧ (rel x e e' ∨ (job = Some x ∧ e' = e)).

(** [dependent_jobs.erase(job)] on an entry of the pending map. *)
Definition erase_in (job : LoadJobPtr) (i : Info.t) : Info.t :=
  Info.set_dependent_jobs (set_erase job (Info.dependent_jobs i)) i.

(** Nothing recorded of the exception of a dependent. *)
Definition any_exception (x : LoadJobPtr) (e e' : Exception) : Prop := True.

(** What [failed] stores in a dependent, as far as the error code goes. *)
Definition dependency_code (x : LoadJobPtr) (e e' : Exception) : Prop :=
  code e' = ASYNC_LOAD_DEPENDENCY_FAILED.

(** The loader knows nothing of [job]: it is neither pending nor in the
    finished set. *)
Definition unknown (s : AsyncLoader) (job : LoadJobPtr) : Prop :=
  ¬ pending s job ∧ job ∉ finished_jobs s.

(** [x] is in the [dependent_jobs] of the pending job [p]. *)
Definition linked (s : AsyncLoader) (p x : LoadJobPtr) : Prop :=
  ∃ info, scheduled_jobs s !! p = Some info ∧ x ∈ Info.dependent_jobs info.

(** [d] is a pending job that the loader has registered as a dependent of
    [job], directly or through other pending jobs: there is a path of
    [dependent_jobs] back-links from [job] to [d]. *)
Inductive registered_dependent (s : AsyncLoader) (job : LoadJobPtr) : LoadJobPtr → Prop :=
  | registered_direct info d :
      scheduled_jobs s !! job = Some info →
      d ∈ Info.dependent_jobs info →
      pending s d →
      registered_dependent s job d
  | registered_next x info d :
      registered_dependent s job x →
      scheduled_jobs s !! x = Some info →
      d ∈ Info.dependent_jobs info →
      pending s d →
      registered_dependent s job d.

(** What an operation does to the [ready_seqno] stamps: the counter does not
    go back, and a job that carries a stamp afterwards either carried the same
    stamp before or has got one above the old value of the counter. *)
Record stamps_step (s s' : AsyncLoader) : Prop := mk_stamps_step {
  st_counter : last_ready_seqno s ≤ last_ready_seqno s';
  st_stamps : ∀ y i', scheduled_jobs s' !! y = Some i' → Info.ready_seqno i' ≠ 0 →
    (∃ i, scheduled_jobs s !! y = Some i ∧ Info.ready_seqno i = Info.ready_seqno i') ∨
    last_ready_seqno s < Info.ready_seqno i'
}.

(** What the loop of [loaded] over the dependents [l] does to the pending map:
    each job of [l] waits for one prerequisite less; a job outside [l] keeps
    its entry. *)
Record load_step (l : list LoadJobPtr) (s s' : AsyncLoader) : Prop := mk_load_step {
  ls_fwd : ∀ y i, scheduled_jobs s !! y = Some i →
    ∃ i', scheduled_jobs s' !! y = Some i' ∧
          Info.priority i' = Info.priority i ∧
          Info.dependent_jobs i' = Info.dependent_jobs i ∧
          Info.dependencies_left i' =
            (if decide (y ∈ l) then Info.dependencies_left i - 1
             else Info.dependencies_left i) ∧
          (y ∉ l → Info.ready_seqno i' = Info.ready_seqno i);
  ls_bwd : ∀ y, scheduled_jobs s !! y = None → scheduled_jobs s' !! y = None;
  ls_heap : heap s' = heap s;
  ls_finished : finished_jobs s' = finished_jobs s;
  ls_running : is_running s' = is_running s;
  ls_stamps : stamps_step s s'
}.

(** Priority inheritance: a pending job has at least the priority of every
    pending job in its [dependent_jobs]. *)
Definition prio_ok (s : AsyncLoader) : Prop :=
  ∀ a y ia iy, scheduled_jobs s !! a = Some ia → y ∈ Info.dependent_jobs ia →
               scheduled_jobs s !! y = Some iy → Info.priority iy ≤ Info.priority ia.

(** What [schedule] leaves alone while it processes the jobs [X]: the set of
    pending jobs, the completion state of every job, the finished set; the
    priorities only go up, and not above [p] from below; a job outside [X]
    keeps its stamp and its counter. *)
Record frame_step (p : Z) (X : list LoadJobPtr) (s s' : AsyncLoader) : Prop :=
  mk_frame_step {
  fr_pending : ∀ y, pending s' y ↔ pending s y;
  fr_info : ∀ y i i', scheduled_jobs s !! y = Some i → scheduled_jobs s' !! y = Some i' →
    Info.priority i ≤ Info.priority i' ∧
    (Info.priority i ≤ p → Info.priority i' ≤ p) ∧
    (y ∉ X → Info.ready_seqno i' = Info.ready_seqno i ∧
             Info.dependencies_left i' = Info.dependencies_left i);
  fr_heap : ∀ y, is_finished (job_state s' y) = is_finished (job_state s y) ∧
                 exception (job_state s' y) = exception (job_state s y);
  fr_finished : finished_jobs s' = finished_jobs s;
  fr_stamps : stamps_step s s'
}.

(** "Register every dependency on scheduled job with back-link to dependent
    job": the part of [schedule_dep] before [prioritize]. *)
Definition register (job dep : LoadJobPtr) (s : AsyncLoader) : AsyncLoader :=
  match scheduled_jobs s !! dep with
  | Some dep_info =>
      let s := update_info
                 (Info.set_dependent_jobs (set_insert job (Info.dependent_jobs dep_info)))
                 dep s in
      update_info
        (λ info, Info.set_dependencies_left (wrap64 (Info.dependencies_left info + 1)) info)
        job s
  | None => s
  end.

(** The loader after [prioritize] has raised the pending job [job], whose
    entry was [info], to [new_priority], before it goes on to the
    dependencies. *)
Definition raise (job : LoadJobPtr) (new_priority : Z) (info : Info.t) (s : AsyncLoader)
    : AsyncLoader :=
  let q := if Info.ready_seqno info =? 0 then ready_queue s
           else rq_emplace (Info.key (Info.set_priority new_priority info)) job
                  (rq_erase (Info.key info) (ready_queue s)) in
  set_ready_queue q
    (update_job (store_priority new_priority) job
       (update_info (Info.set_priority new_priority) job s)).

Section Vocabulary.
Variable J : LoadJobPtr → LoadJob.

  (** [e'] is what [failed] stores in dependent [x] of a job that failed with
      [e]: a [DEPENDENCY_FAILED] exception that names [x] and quotes [e]. *)
Definition dependency_failure_of (x : LoadJobPtr) (e e' : Exception) : Prop :=
    code e' = ASYNC_LOAD_DEPENDENCY_FAILED ∧
    (∃ rest, message e' = quoted_job (name (J x)) +:+ " -> " +:+ rest) ∧
    contains (message e) (message e').

  (** [d] declares [job] as a prerequisite, directly or through other jobs. *)
Inductive declared_dependent (job : LoadJobPtr) : LoadJobPtr → Prop :=
    | declared_direct d : job ∈ dependencies (J d) → declared_dependent job d
    | declared_next x d :
        declared_dependent job x → x ∈ dependencies (J d) → declared_dependent job d.

  (** [x] is in the [dependent_jobs] of some pending job. *)
Definition back_linked (s : AsyncLoader) (x : LoadJobPtr) : Prop :=
    ∃ p info, scheduled_jobs s !! p = Some info ∧ x ∈ Info.dependent_jobs info.

  (** What a run of [failed] calls does to the loader: pending jobs only
      leave, back-links only disappear, and a job that leaves is failed and
      finished.  [Q] tells what a job that was failed looks like, [N] which
      jobs the calls were made for; the calls touch only jobs that back-links
      lead to from there. *)
Record fail_step (Q : LoadJobPtr → JobState → Prop) (N : LoadJobPtr → Prop)
      (s s' : AsyncLoader) : Prop := mk_fail_step {
    fs_sched : ∀ x i', scheduled_jobs s' !! x = Some i' →
      ∃ i, scheduled_jobs s !! x = Some i ∧
           Info.priority i' = Info.priority i ∧
           Info.dependencies_left i' = Info.dependencies_left i ∧
           Info.ready_seqno i' = Info.ready_seqno i ∧
           (∀ y, y ∈ Info.dependent_jobs i' → y ∈ Info.dependent_jobs i) ∧
           (NoDup (Info.dependent_jobs i) → NoDup (Info.dependent_jobs i'));
    fs_heap : ∀ x, job_state s' x = job_state s x ∨
      (Q x (job_state s' x) ∧ ∃ r, N r ∧ rtc (linked s) r x);
    fs_gone : ∀ x, pending s x → ¬ pending s' x →
      x ∈ finished_jobs s' ∧ Q x (job_state s' x) ∧ ∃ r, N r ∧ rtc (linked s) r x;
    fs_closed : ∀ x i y, scheduled_jobs s !! x = Some i → ¬ pending s' x →
      y ∈ Info.dependent_jobs i → ¬ pending s' y;
    fs_edges : ∀ x i i' y, scheduled_jobs s !! x = Some i → scheduled_jobs s' !! x = Some i' →
      y ∈ Info.dependent_jobs i → y ∉ Info.dependent_jobs i' → ¬ pending s' y;
    fs_clean : ∀ x p i', pending s x → ¬ pending s' x → p ∈ dependencies (J x) →
      scheduled_jobs s' !! p = Some i' → x ∉ Info.dependent_jobs i';
    fs_finished : ∀ x, x ∈ finished_jobs s → x ∈ finished_jobs s';
    fs_new : ∀ x, x ∈ finished_jobs s' → x ∈ finished_jobs s ∨ N x ∨ back_linked s x;
    fs_left : ∀ x, x ∈ finished_jobs s' →
      x ∈ finished_jobs s ∨ (¬ pending s' x ∧ Q x (job_state s' x));
    fs_queue : ready_queue s' = ready_queue s;
    fs_seqno : last_ready_seqno s' = last_ready_seqno s;
    fs_running : is_running s' = is_running s;
    fs_workers : workers s' = workers s ∧ max_threads s' = max_threads s
  }.

  (** What a run of [prioritize p] calls does to the loader: priorities only
      go up, and only to [p]; nothing else about a pending job changes; and
      the pending prerequisites of a job that was raised are at [p] or
      above. *)
Record prio_step (p : Z) (s s' : AsyncLoader) : Prop := mk_prio_step {
    ps_fwd : ∀ x i, scheduled_jobs s !! x = Some i →
      ∃ i', scheduled_jobs s' !! x = Some i' ∧
            Info.dependencies_left i' = Info.dependencies_left i ∧
            Info.ready_seqno i' = Info.ready_seqno i ∧
            Info.dependent_jobs i' = Info.dependent_jobs i ∧
            (Info.priority i' = Info.priority i ∨
             (Info.priority i < p ∧ Info.priority i' = p));
    ps_bwd : ∀ x, scheduled_jobs s !! x = None → scheduled_jobs s' !! x = None;
    ps_closed : ∀ x i i' d id,
      scheduled_jobs s !! x = Some i → scheduled_jobs s' !! x = Some i' →
      Info.priority i' ≠ Info.priority i →
      d ∈ dependencies (J x) → scheduled_jobs s' !! d = Some id → p ≤ Info.priority id;
    ps_heap : ∀ x, is_finished (job_state s' x) = is_finished (job_state s x) ∧
                   exception (job_state s' x) = exception (job_state s x);
    ps_finished : finished_jobs s' = finished_jobs s;
    ps_seqno : last_ready_seqno s' = last_ready_seqno s;
    ps_running : is_running s' = is_running s;
    ps_workers : workers s' = workers s ∧ max_threads s' = max_threads s
  }.

  (** What a successful [schedule jobs p] does: the jobs were neither pending
      nor finished and are pending now, at priority [p]; each has back-links
      from exactly those of its declared prerequisites that are pending; each
      carries a stamp if it waits for nothing; the other pending jobs keep
      their stamps and counters, and their priorities only go up. *)
Record scheduled_step (jobs : LoadJobSet) (p : Z) (s s' : AsyncLoader) : Prop :=
    mk_scheduled_step {
    ss_fresh : ∀ x, x ∈ jobs → ¬ pending s x ∧ is_finished (job_state s x) = false;
    ss_pending : ∀ y, pending s' y ↔ pending s y ∨ y ∈ jobs;
    ss_links : ∀ a y, linked s' a y ↔
      linked s a y ∨ (y ∈ jobs ∧ a ∈ dependencies (J y) ∧ pending s' a);
    ss_new : ∀ x, x ∈ jobs →
      ∃ i', scheduled_jobs s' !! x = Some i' ∧
            (Info.dependencies_left i' = 0 → Info.ready_seqno i' ≠ 0) ∧
            Info.priority i' = p;
    ss_old : ∀ y i, y ∉ jobs → scheduled_jobs s !! y = Some i →
      ∃ i', scheduled_jobs s' !! y = Some i' ∧
            Info.ready_seqno i' = Info.ready_seqno i ∧
            Info.dependencies_left i' = Info.dependencies_left i ∧
            Info.priority i ≤ Info.priority i';
    ss_heap : ∀ y, is_finished (job_state s' y) = is_finished (job_state s y) ∧
                   exception (job_state s' y) = exception (job_state s y);
    ss_finished : finished_jobs s' = finished_jobs s;
    ss_stamps : stamps_step s s'
  }.

  (** The jobs are well formed: [dependencies] is a set, and its size fits
      [size_t]. *)
Definition jobs_wf : Prop :=
    ∀ x, NoDup (dependencies (J x)) ∧
         Z.of_nat (length (dependencies (J x))) < UInt64_modulus.

Definition linkedb (s : AsyncLoader) (p x : LoadJobPtr) : bool :=
    match scheduled_jobs s !! p with
    | Some info => bool_decide (x ∈ Info.dependent_jobs info)
    | None => false
    end.

  (** The number of declared prerequisites of [x] that are pending and have
      [x] among their [dependent_jobs]. *)
Definition registered_count (s : AsyncLoader) (x : LoadJobPtr) : Z :=
    Z.of_nat (length (filter (λ p, linkedb s p x = true) (dependencies (J x)))).

  (** The dependency graph the loader keeps is consistent: back-links lead to
      pending jobs and mirror declared dependencies, [dependencies_left]
      counts them, and the jobs of the finished set are finished and not
      pending. *)
Record graph_ok (s : AsyncLoader) : Prop := mk_graph_ok {
    g_links : ∀ p x, linked s p x → pending s x ∧ p ∈ dependencies (J x);
    g_nodup : ∀ p info, scheduled_jobs s !! p = Some info → NoDup (Info.dependent_jobs info);
    g_count : ∀ x info, scheduled_jobs s !! x = Some info →
      Info.dependencies_left info = registered_count s x;
    g_disjoint : ∀ x, x ∈ finished_jobs s → ¬ pending s x;
    g_finished : ∀ x, x ∈ finished_jobs s → is_finished (job_state s x) = true
  }.
End Vocabulary.

(** The ready queue agrees with the pending map: its entries are the pending
    jobs that carry a [ready_seqno], under their keys; the stamps are distinct
    and no larger than the counter; a stamped job waits for nothing.  The
    counter can still take [slack] steps and one step for each waiting job
    before it reaches [n]. *)
Record queue_ok (n : Z) (slack : Z) (R : list LoadJobPtr) (s : AsyncLoader) : Prop :=
  mk_queue_ok {
    q_sorted : rq_sorted (ready_queue s);
    q_entries : ∀ k x, (k, x) ∈ ready_queue s ↔
      ∃ info, scheduled_jobs s !! x = Some info ∧ Info.ready_seqno info ≠ 0 ∧ k = Info.key info;
    q_distinct : ∀ x y ix iy,
      scheduled_jobs s !! x = Some ix → scheduled_jobs s !! y = Some iy →
      Info.ready_seqno ix = Info.ready_seqno iy → Info.ready_seqno ix ≠ 0 → x = y;
    q_range : ∀ x info, scheduled_jobs s !! x = Some info →
      0 ≤ Info.ready_seqno info ≤ last_ready_seqno s;
    q_ready : ∀ x info, scheduled_jobs s !! x = Some info →
      Info.ready_seqno info ≠ 0 → Info.dependencies_left info = 0;
    q_potential :
      last_ready_seqno s + Z.of_nat (waiting R (scheduled_jobs s)) + slack ≤ n;
    q_bound : 0 ≤ last_ready_seqno s ∧ n < UInt64_modulus
  }.



(** The invariant of the loader: graph, queue and priorities are consistent,
    and the counter has room up to [n]. *)
Definition loader_ok (J : LoadJobPtr → LoadJob) (n : Z) (s : AsyncLoader) : Prop :=
  graph_ok J s ∧ queue_ok n 0 [] s ∧ prio_ok s.

(** What an operation other than [schedule] does to the pending jobs, as far
    as the threads are concerned: a job leaves the pending map only finished,
    no job enters it, priorities only go up, a back-link to a job that stays
    pending goes away only when it comes from a job of [L], and a pending job
    outside [N] that waits for nothing and carries no stamp stays so. *)
Record calm_step (N L : LoadJobPtr → Prop) (s s' : AsyncLoader) : Prop := mk_calm_step {
  cs_heap : ∀ x, is_finished (job_state s x) = true → is_finished (job_state s' x) = true;
  cs_gone : ∀ x, pending s x → pending s' x ∨ is_finished (job_state s' x) = true;
  cs_old : ∀ x, pending s' x → pending s x;
  cs_prio : ∀ x i i', scheduled_jobs s !! x = Some i → scheduled_jobs s' !! x = Some i' →
    Info.priority i ≤ Info.priority i';
  cs_links : ∀ d x, pending s' x → linked s d x → linked s' d x ∨ L d;
  cs_exec : ∀ x i, scheduled_jobs s !! x = Some i →
    Info.dependencies_left i = 0 → Info.ready_seqno i = 0 → ¬ N x →
    ∃ i', scheduled_jobs s' !! x = Some i' ∧
          Info.dependencies_left i' = 0 ∧ Info.ready_seqno i' = 0
}.

(** The number of jobs that the [schedule] calls of the log have accepted. *)
Fixpoint scheduled_total (lg : list Event) : Z :=
  match lg with
  | [] => 0
  | EvScheduled jobs _ _ :: lg => Z.of_nat (length jobs) + scheduled_total lg
  | _ :: lg => scheduled_total lg
  end.

Section Threads.
Variable J : LoadJobPtr → LoadJob.

  (** When the body of a job starts, the bodies of its prerequisites have
      returned: those prerequisites, that is, that were pending when the job
      was scheduled or were scheduled together with it. *)
Definition log_ok (lg : list Event) : Prop :=
    ∀ l1 l2 j, lg = l1 ++ EvStarted j :: l2 →
      ∀ jobs p P d, EvScheduled jobs p P ∈ l1 → j ∈ jobs →
        d ∈ dependencies (J j) → d ∈ P ∨ d ∈ jobs → EvReturned d ∈ l1.

  (** The invariant of the loader with its threads. *)
Record config_ok (c : Config) : Prop := mk_config_ok {
    c_loader : loader_ok J (scheduled_total (log c)) (loader c);
    c_nodup : NoDup (executing c);
    c_exec : ∀ x, x ∈ executing c →
      ∃ i, scheduled_jobs (loader c) !! x = Some i ∧
           Info.dependencies_left i = 0 ∧ Info.ready_seqno i = 0;
    c_links : ∀ jobs p P j d, EvScheduled jobs p P ∈ log c → j ∈ jobs →
      pending (loader c) j → d ∈ dependencies (J j) → d ∈ P ∨ d ∈ jobs →
      linked (loader c) d j ∨ EvReturned d ∈ log c;
    c_prio : ∀ jobs p P j i, EvScheduled jobs p P ∈ log c → j ∈ jobs →
      scheduled_jobs (loader c) !! j = Some i → p ≤ Info.priority i;
    c_once : ∀ jobs p P j, EvScheduled jobs p P ∈ log c → j ∈ jobs →
      pending (loader c) j ∨ is_finished (job_state (loader c) j) = true;
    c_order : log_ok (log c)
  }.
End Threads.


(** ** Vocabulary of the properties of a run *)

(** The jobs whose bodies the log says were started, in order. *)
Definition started (lg : list Event) : list LoadJobPtr :=
  omap (λ e, match e with EvStarted j => Some j | _ => None end) lg.

(** What an operation does to the completion state of the job objects: the
    [is_finished] flag and the captured exception of a job stay what they
    are, unless the job was pending, has left the pending map and is
    finished. *)
Definition settle_step (s s' : AsyncLoader) : Prop :=
  ∀ x, (is_finished (job_state s' x) = is_finished (job_state s x) ∧
        exception (job_state s' x) = exception (job_state s x)) ∨
       (pending s x ∧ ¬ pending s' x ∧ is_finished (job_state s' x) = true).

(** What holds of the job objects along a run: a pending job is not
    finished, a job that is not finished holds no exception, a pending job
    was scheduled, a job is executing only after its body was started, a job
    whose body was started is executing or finished, no body was started
    twice, the jobs whose bodies returned or threw ended [SUCCESS] or
    [FAILED] with an [ASYNC_LOAD_FAILED] exception, a body was started only
    for a job that was scheduled, and returned or threw only after it was
    started. *)
Record run_ok (c : Config) : Prop := mk_run_ok {
  r_pending : ∀ x, pending (loader c) x → is_finished (job_state (loader c) x) = false;
  r_fresh : ∀ x, is_finished (job_state (loader c) x) = false →
                 exception (job_state (loader c) x) = None;
  r_known : ∀ x, pending (loader c) x → ∃ jobs p P, EvScheduled jobs p P ∈ log c ∧ x ∈ jobs;
  r_exec : ∀ x, x ∈ executing c → x ∈ started (log c);
  r_started : ∀ x, x ∈ started (log c) →
    x ∈ executing c ∨ is_finished (job_state (loader c) x) = true;
  r_once : NoDup (started (log c));
  r_returned : ∀ x, EvReturned x ∈ log c → status (job_state (loader c) x) = SUCCESS;
  r_threw : ∀ x, EvThrew x ∈ log c →
    ∃ e, exception (job_state (loader c) x) = Some e ∧ code e = ASYNC_LOAD_FAILED ∧
         is_finished (job_state (loader c) x) = true;
  r_origin : ∀ x, x ∈ started (log c) → ∃ jobs p P, EvScheduled jobs p P ∈ log c ∧ x ∈ jobs;
  r_outcome : ∀ x, EvReturned x ∈ log c ∨ EvThrew x ∈ log c → x ∈ started (log c)
}.

(** The user-facing [priority] of a pending job is the priority the loader
    schedules it with. *)
Definition prio_sync (s : AsyncLoader) : Prop :=
  ∀ x i, scheduled_jobs s !! x = Some i → priority (job_state s x) = Info.priority i.

(** What an operation other than [schedule] does to the pending map: an
    entry that is there afterwards was there before, with at least the same
    [dependent_jobs]; and if it waits for nothing and carries no stamp, it
    did so before, or the job is one of [T]. *)
Definition origin_step (T : LoadJobPtr → Prop) (s s' : AsyncLoader) : Prop :=
  ∀ x i', scheduled_jobs s' !! x = Some i' →
    ∃ i, scheduled_jobs s !! x = Some i ∧
         (∀ y, y ∈ Info.dependent_jobs i' → y ∈ Info.dependent_jobs i) ∧
         (Info.dependencies_left i' = 0 → Info.ready_seqno i' = 0 →
          (Info.dependencies_left i = 0 ∧ Info.ready_seqno i = 0) ∨ T x).

(** A pending job that waits for nothing and is not in the ready queue is
    one that a worker is executing. *)
Definition idle_ok (c : Config) : Prop :=
  ∀ x i, scheduled_jobs (loader c) !! x = Some i →
    Info.dependencies_left i = 0 → Info.ready_seqno i = 0 → x ∈ executing c.

(** No job waits for itself through the back-links. *)
Definition links_acyclic (s : AsyncLoader) : Prop := ∀ x, ¬ tc (linked s) x x.

(** An operation has left the job [y] alone: its state is what it was, and
    if it was pending it still is, with the priority, the counter and the
    stamp it had. *)
Definition untouched (s s' : AsyncLoader) (y : LoadJobPtr) : Prop :=
  job_state s' y = job_state s y ∧
  (pending s' y → pending s y) ∧
  ∀ i, scheduled_jobs s !! y = Some i →
    ∃ i', scheduled_jobs s' !! y = Some i' ∧
          Info.priority i' = Info.priority i ∧
          Info.dependencies_left i' = Info.dependencies_left i ∧
          Info.ready_seqno i' = Info.ready_seqno i.

(** The jobs that a call of [remove] has still to deal with when it gives
    up the lock. *)
Definition left_over (next : RemoveNext) : LoadJobSet :=
  match next with
  | RemoveReturns => []
  | RemoveWaits job rest => job :: rest
  end.

(** A job whose body was started is executing, or the log tells how its body
    ended. *)
Definition outcome_ok (c : Config) : Prop :=
  ∀ x, x ∈ started (log c) → x ∈ executing c ∨ EvReturned x ∈ log c ∨ EvThrew x ∈ log c.


(** What an operation does to the worker count: [max_threads] and
    [is_running] stay; a stopped loader keeps its count; and when the count
    and the limit are [size_t] values with the count not negative, the count
    only grows, and not beyond the limit unless it was there already. *)
Record spawn_step (s s' : AsyncLoader) : Prop := mk_spawn_step {
  sp_limit : max_threads s' = max_threads s;
  sp_running : is_running s' = is_running s;
  sp_stopped : is_running s = false → workers s' = workers s;
  sp_count : 0 ≤ workers s → max_threads s < UInt64_modulus →
    workers s ≤ workers s' ≤ Z.max (workers s) (max_threads s)
}.

(** ** Vocabulary of the cycle check *)

Section CycleVocabulary.
Variable J : LoadJobPtr → LoadJob.

  (** The loop of [checkCycleImpl] over the dependencies of [job], from the
      dependency list [deps] on. *)
Fixpoint check_deps (fuel : nat) (job : LoadJobPtr) (deps : list LoadJobPtr)
      (left visited : LoadJobSet) : Result (string * (LoadJobSet * LoadJobSet)) :=
    match deps with
    | [] => Ok (EmptyString, (set_erase job left, visited))
    | dep :: deps' =>
        do r <- checkCycleImpl J fuel dep left visited;
        if decide (r.1 = EmptyString) then check_deps fuel job deps' (r.2.1) (r.2.2)
        else if decide (job ∈ r.2.2) then
          Ok (name (J job) +:+ " -> " +:+ r.1, (r.2.1, r.2.2))
        else
          Throw (mkException ASYNC_LOAD_SCHEDULE_FAILED
                   ("Load job dependency cycle detected: "
                      +:+ name (J job) +:+ " -> " +:+ r.1))
    end.

  (** [a] declares [b] as a dependency, both being jobs of the set. *)
Definition depends_in (jobs : LoadJobSet) (a b : LoadJobPtr) : Prop :=
    a ∈ jobs ∧ b ∈ jobs ∧ b ∈ dependencies (J a).

  (** No job of the set depends on itself through jobs of the set. *)
Definition acyclic_in (jobs : LoadJobSet) : Prop :=
    ∀ x, ¬ tc (depends_in jobs) x x.
End CycleVocabulary.

(** The number of jobs of [left] that are not in [visited]. *)
Definition unvisited (left visited : LoadJobSet) : nat :=
  size (list_to_set left ∖ list_to_set visited : gset LoadJobPtr).

(** The jobs of [jobs] that the cycle check has taken out of [left] are done
    with: what they depend on in the set is done with too, and none of them
    depends on itself. *)
Definition done_ok (J : LoadJobPtr → LoadJob) (jobs left : LoadJobSet) : Prop :=
  (∀ a b, depends_in J jobs a b → a ∉ left → b ∉ left) ∧
  (∀ x, x ∈ jobs → x ∉ left → ¬ tc (depends_in J jobs) x x).
(** ** Vocabulary of cancellation *)

(** The exception [canceled] builds for a job. *)
Definition load_canceled (J : LoadJobPtr → LoadJob) (job : LoadJobPtr) : Exception :=
  mkException ASYNC_LOAD_CANCELED (quoted_job (name (J job)) +:+ " canceled").

(** The loader has forgotten the job: the job is finished, and the loader
    knows nothing of it any more. *)
Definition forgotten (s : AsyncLoader) (x : LoadJobPtr) : Prop :=
  unknown s x ∧ is_finished (job_state s x) = true.
(** ** Concrete jobs and loaders, for the examples *)

(** [getExceptionMessage] as the bare message. *)
Definition plain_message (e : Exception) : string := message e.

(** Jobs A, B and C: B depends on A and C depends on B. *)
Definition chain_jobs (job : LoadJobPtr) : LoadJob :=
  match job with
  | 0%nat => mkLoadJob [] "A"
  | 1%nat => mkLoadJob [0%nat] "B"
  | 2%nat => mkLoadJob [1%nat] "C"
  | _ => mkLoadJob [] "X"
  end.

Definition ok_or {A} (d : A) (r : Result A) : A :=
  match r with Ok a => a | _ => d end.

(** {A, B, C} scheduled at priority 0 on a loader with one thread. *)
Definition chain_scheduled : AsyncLoader :=
  ok_or (new_loader 1) (schedule chain_jobs 4 [0; 1; 2]%nat 0 (new_loader 1)).

(** B is scheduled alone, before its prerequisite A: the loader takes A for
    an external job that is done, and B is ready at once. *)
Definition late_b : AsyncLoader :=
  ok_or (new_loader 1) (schedule chain_jobs 4 [1%nat] 0 (new_loader 1)).

(** Then A is scheduled, at priority 5, and the loader is started. *)
Definition late_ab : AsyncLoader :=
  start (ok_or late_b (schedule chain_jobs 4 [0%nat] 5 late_b)).

(** The worker takes A, the job of highest priority. *)
Definition late_running_a : AsyncLoader := (take_next late_ab).2.

(** The body of A throws: the worker handles that and takes B. *)
Definition late_a_failed : AsyncLoader :=
  ok_or late_running_a
    (handle_executed chain_jobs plain_message (failed_fuel late_running_a) 0%nat
       (Some "boom"%string) late_running_a).

(** Two jobs without a name that depend on each other. *)
Definition unnamed_cycle (job : LoadJobPtr) : LoadJob :=
  match job with
  | 0%nat => mkLoadJob [1%nat] EmptyString
  | _ => mkLoadJob [0%nat] EmptyString
  end.

(** The same two jobs with names. *)
Definition named_cycle (job : LoadJobPtr) : LoadJob :=
  match job with
  | 0%nat => mkLoadJob [1%nat] "A"
  | _ => mkLoadJob [0%nat] "B"
  end.


(** {A, B, C} scheduled and the loader started; the worker takes A; the body
    of A returns and the worker takes B. *)
Definition chain_started : AsyncLoader := start chain_scheduled.

Definition chain_running_a : AsyncLoader := (take_next chain_started).2.

Definition chain_running_b : AsyncLoader :=
  match worker_iteration chain_jobs plain_message 4 (Some (0%nat, None)) chain_running_a with
  | Ok (_, s) => s
  | _ => chain_running_a
  end.

(** B is scheduled alone, then A at the same priority, and the loader is
    started: the worker takes B, which was enqueued first. *)
Definition late_ba : AsyncLoader :=
  start (ok_or late_b (schedule chain_jobs 4 [0%nat] 0 late_b)).

Definition late_running_b : AsyncLoader := (take_next late_ba).2.

(** B is scheduled alone at priority 5, then A at priority 0. *)
Definition prio_b : AsyncLoader :=
  ok_or (new_loader 1) (schedule chain_jobs 4 [1%nat] 5 (new_loader 1)).

Definition prio_ba : AsyncLoader :=
  ok_or prio_b (schedule chain_jobs 4 [0%nat] 0 prio_b).

(** {A, B} scheduled at priority 0. *)
Definition pair_scheduled : AsyncLoader :=
  ok_or (new_loader 1) (schedule chain_jobs 4 [0; 1]%nat 0 (new_loader 1)).



(** The chain with A done and B running, as a configuration. *)
Definition chain_running_b_config : Config :=
  mkConfig chain_running_b [1%nat]
    [EvScheduled [0; 1; 2]%nat 0 ∅; EvStarted 0%nat; EvReturned 0%nat; EvStarted 1%nat].

Definition chain_scheduled_config : Config :=
  mkConfig chain_scheduled [] [EvScheduled [0; 1; 2]%nat 0 ∅].

(** C is raised to priority 7, and B and A with it. *)
Definition chain_prio_c : AsyncLoader :=
  ok_or chain_scheduled (prioritize chain_jobs 4 2%nat 7 chain_scheduled).

(** The loader is stopped while A runs; A returns. *)
Definition chain_stopped_after_a : AsyncLoader :=
  match worker_iteration chain_jobs plain_message 4 (Some (0%nat, None)) (stop chain_running_a) with
  | Ok (_, s) => s
  | _ => stop chain_running_a
  end.

(** C is removed from the scheduled chain. *)
Definition chain_without_c : AsyncLoader :=
  match remove chain_jobs plain_message 4 [2%nat] chain_scheduled with
  | Ok (_, s) => s
  | _ => chain_scheduled
  end.

(** A is scheduled alone and the loader is started: the worker takes A. *)
Definition solo_a : AsyncLoader :=
  ok_or (new_loader 1) (schedule chain_jobs 4 [0%nat] 0 (new_loader 1)).

Definition solo_running_a : AsyncLoader := (take_next (start solo_a)).2.

Definition solo_running_a_config : Config :=
  mkConfig solo_running_a [0%nat] [EvScheduled [0%nat] 0 ∅; EvStarted 0%nat].

(** While A runs, the job X, which the loader did not know, is scheduled. *)
Definition solo_x_scheduled : AsyncLoader :=
  ok_or solo_running_a (schedule chain_jobs 4 [3%nat] 0 solo_running_a).

Definition solo_x_scheduled_config : Config :=
  mkConfig solo_x_scheduled [0%nat]
    [EvScheduled [0%nat] 0 ∅; EvStarted 0%nat; EvScheduled [3%nat] 0 {[0%nat]}].

(** The body of A returns and the worker takes X. *)
Definition solo_running_x : AsyncLoader :=
  match worker_iteration chain_jobs plain_message 4 (Some (0%nat, None)) solo_x_scheduled with
  | Ok (_, s) => s
  | _ => solo_x_scheduled
  end.

Definition solo_running_x_config : Config :=
  mkConfig solo_running_x [3%nat]
    [EvScheduled [0%nat] 0 ∅; EvStarted 0%nat; EvScheduled [3%nat] 0 {[0%nat]};
     EvReturned 0%nat; EvStarted 3%nat].

(** A is erased from the finished set. *)
Definition solo_a_erased : AsyncLoader :=
  set_finished (finished_jobs solo_running_x ∖ {[0%nat]}) solo_running_x.

Definition solo_a_erased_config : Config :=
  mkConfig solo_a_erased [3%nat]
    [EvScheduled [0%nat] 0 ∅; EvStarted 0%nat; EvScheduled [3%nat] 0 {[0%nat]};
     EvReturned 0%nat; EvStarted 3%nat].

(** Jobs A, B and D: B depends on A, and D on A and on B. *)
Definition diamond_jobs (job : LoadJobPtr) : LoadJob :=
  match job with
  | 0%nat => mkLoadJob [] "A"
  | 1%nat => mkLoadJob [0%nat] "B"
  | 2%nat => mkLoadJob [0%nat; 1%nat] "D"
  | _ => mkLoadJob [] "X"
  end.

(** {A, B, D} scheduled at priority 0 on a loader with one thread. *)
Definition diamond_scheduled : AsyncLoader :=
  ok_or (new_loader 1) (schedule diamond_jobs 4 [0; 1; 2]%nat 0 (new_loader 1)).

Definition diamond_scheduled_config : Config :=
  mkConfig diamond_scheduled [] [EvScheduled [0; 1; 2]%nat 0 ∅].
(** * Properties *)

(** ** Waiting for a job *)

(** C9: [wait] gets past its condition variable exactly when the status of the
    job is no longer [PENDING]; it returns normally exactly when the status is
    [SUCCESS]; when the status is [FAILED] it raises the captured exception. *)
Theorem wait_follows_status (j : JobState) :
  (wait j ≠ Blocked ↔ status j ≠ PENDING) ∧
  (wait j = Returned ↔ status j = SUCCESS) ∧
  (∀ e, wait j = Raised e ↔ status j = FAILED ∧ exception j = Some e).
Proof.
  destruct j as [p [] [e'|]]; unfold wait, status; simpl;
    (split; [|split]); try intros e; split; intros H;
    try congruence; try (destruct H; congruence);
    try (split; congruence).
Qed.

(** [waitNoThrow] never raises, and returns as soon as [wait] is through. *)
Lemma waitNoThrow_returns (j : JobState) :
  waitNoThrow j = (if is_finished j then Returned else Blocked) ∧
  (waitNoThrow j = Returned ↔ status j ≠ PENDING).
Proof.
  destruct j as [p [] [e'|]]; unfold waitNoThrow, status; simpl; split;
    try reflexivity; split; congruence.
Qed.

(** ** The order of ready keys *)

Module ReadyKeyFacts.
Import ReadyKey.

Lemma ltb_spec (a b : t) :
    ltb a b = true ↔
    priority a > priority b ∨ (priority a = priority b ∧ ready_seqno a < ready_seqno b).
  Proof.
    unfold ltb. destruct (Z.eqb_spec (priority a) (priority b)) as [E|E].
    - rewrite Z.ltb_lt. lia.
    - rewrite Z.gtb_gt. lia.
  Qed.

Lemma lt_irrefl (a : t) : ¬ lt a a.
  Proof. unfold lt. rewrite ltb_spec. lia. Qed.

Lemma lt_trans (a b c : t) : lt a b → lt b c → lt a c.
  Proof. unfold lt. rewrite !ltb_spec. lia. Qed.

Lemma lt_total (a b : t) : lt a b ∨ a = b ∨ lt b a.
  Proof.
    unfold lt. rewrite !ltb_spec. destruct a as [pa sa], b as [pb sb]; simpl.
    destruct (Z.lt_total pa pb) as [?|[->|?]]; [lia| |lia].
    destruct (Z.lt_total sa sb) as [?|[->|?]]; [lia| |lia].
    right; left; reflexivity.
  Qed.

Lemma equiv_eq (a b : t) : equiv a b = true ↔ a = b.
  Proof.
    unfold equiv. rewrite andb_true_iff, !negb_true_iff.
    split.
    - intros [H1 H2]. destruct (lt_total a b) as [H|[H|H]]; unfold lt in H; congruence.
    - intros ->. pose proof (lt_irrefl b) as H. unfold lt in H.
      destruct (ltb b b); [exfalso; auto|auto].
  Qed.

Lemma equiv_false (a b : t) : equiv a b = false ↔ a ≠ b.
  Proof. rewrite <- equiv_eq. destruct (equiv a b); split; congruence. Qed.
End ReadyKeyFacts.

(** ** Results and loops *)

Lemma bind_Ok {A B} (m : Result A) (k : A → Result B) (b : B) :
  bind m k = Ok b ↔ ∃ a, m = Ok a ∧ k a = Ok b.
Proof.
  destruct m as [a|e|]; simpl; split.
  - intros H. exists a. auto.
  - intros (a' & H1 & H2). inversion H1; subst. exact H2.
  - discriminate.
  - intros (a' & H1 & _). discriminate.
  - discriminate.
  - intros (a' & H1 & _). discriminate.
Qed.

Lemma for_each_app {A S} (body : A → S → Result S) (l1 l2 : list A) (s : S) :
  for_each body (l1 ++ l2) s = (do s' <- for_each body l1 s; for_each body l2 s').
Proof.
  revert s. induction l1 as [|x l1 IH]; intros s; simpl; [reflexivity|].
  destruct (body x s); simpl; auto.
Qed.

(** A loop whose every pass is within a preorder [R] stays within [R], and
    what a pass establishes for its element survives the later passes. *)
Lemma for_each_rel {A S} (R : S → S → Prop) (P : A → S → Prop)
    (body : A → S → Result S) (l : list A) :
  (∀ s, R s s) →
  (∀ a b c, R a b → R b c → R a c) →
  (∀ x s s', P x s → R s s' → P x s') →
  (∀ x s s', x ∈ l → body x s = Ok s' → R s s' ∧ P x s') →
  ∀ s s', for_each body l s = Ok s' → R s s' ∧ ∀ x, x ∈ l → P x s'.
Proof.
  intros Hrefl Htrans Hkeep. induction l as [|x l IH]; intros Hbody s s' Hrun; simpl in Hrun.
  - inversion Hrun; subst. split; [apply Hrefl|]. intros x Hx. inversion Hx.
  - apply bind_Ok in Hrun as (s1 & H1 & H2).
    destruct (Hbody x s s1) as [HR HP]; [left|exact H1|].
    destruct (IH (λ y t t' Hy, Hbody y t t' (list_elem_of_further _ _ _  Hy)) s1 s' H2) as [HR' HP'].
    split; [eapply Htrans; eauto|].
    intros y Hy. apply elem_of_cons in Hy as [->|Hy]; [eapply Hkeep; eauto|auto].
Qed.

Lemma for_each_inv {A S} (P : S → Prop) (body : A → S → Result S) (l : list A) :
  (∀ x s s', P s → body x s = Ok s' → P s') →
  ∀ s, P s → ∀ s', for_each body l s = Ok s' → P s'.
Proof.
  intros Hbody s Hs s' Hrun.
  apply (for_each_rel (λ a b, P a → P b) (λ _ _, True)) in Hrun as [HR _]; auto.
  intros x t t' _ Hb. split; [intros Ht; eapply Hbody; eauto|exact I].
Qed.

Lemma foldl_inv {A S} (P : S → Prop) (f : S → A → S) (l : list A) :
  (∀ s x, x ∈ l → P s → P (f s x)) → ∀ s, P s → P (foldl f s l).
Proof.
  induction l as [|x l IH]; intros Hf s Hs; simpl; [exact Hs|].
  apply IH; [intros; apply Hf; [right|]; auto|apply Hf; [left|exact Hs]].
Qed.

(** ** Strings *)

Lemma string_app_assoc (a b c : string) : (a +:+ b) +:+ c = a +:+ (b +:+ c).
Proof.
  induction a as [|ch a IH]; [reflexivity|].
  change (String ch ((a +:+ b) +:+ c) = String ch (a +:+ (b +:+ c))). f_equal. exact IH.
Qed.

Lemma string_app_nil_r (a : string) : a +:+ EmptyString = a.
Proof.
  induction a as [|ch a IH]; [reflexivity|].
  change (String ch (a +:+ EmptyString) = String ch a). f_equal. exact IH.
Qed.

Lemma contains_refl (a : string) : contains a a.
Proof. exists EmptyString, EmptyString. rewrite string_app_nil_r. reflexivity. Qed.

Lemma contains_app_r (a b p : string) : contains a b → contains a (p +:+ b).
Proof.
  intros (pre & post & ->). exists (p +:+ pre), post. rewrite string_app_assoc. reflexivity.
Qed.

Lemma contains_app_l (a b p : string) : contains a b → contains a (b +:+ p).
Proof.
  intros (pre & post & ->). exists pre, (post +:+ p).
  rewrite !string_app_assoc. reflexivity.
Qed.

Lemma contains_trans (a b c : string) : contains a b → contains b c → contains a c.
Proof.
  intros Hab (pre & post & ->). apply contains_app_r, contains_app_l. exact Hab.
Qed.

(** ** Failure propagation *)

Section Failure.
Variable J : LoadJobPtr → LoadJob.
Variable getExceptionMessage : Exception → string.

Lemma not_pending_None s x : ¬ pending s x ↔ scheduled_jobs s !! x = None.
  Proof. unfold pending. rewrite eq_None_not_Some. reflexivity. Qed.

Lemma fail_step_refl Q N s : fail_step J Q N s s.
  Proof.
    constructor.
    - intros x i' H. exists i'. repeat split; auto.
    - auto.
    - intros x Hp Hn. contradiction.
    - intros x i y Hx Hn. exfalso. apply Hn. exists i. exact Hx.
    - intros x i i' y H1 H2 Hy Hn. congruence.
    - intros x p i' Hp Hn. contradiction.
    - auto.
    - auto.
    - auto.
    - reflexivity.
    - reflexivity.
    - reflexivity.
    - auto.
  Qed.

Lemma fail_step_trans Q N a b c :
    fail_step J Q N a b → fail_step J Q N b c → fail_step J Q N a c.
  Proof.
    intros [A1 A2 A3 A4 A5 A6 A7 A8 A13 A9 A10 A11 A12]
           [B1 B2 B3 B4 B5 B6 B7 B8 B13 B9 B10 B11 B12].
    assert (Hmono : ∀ x, ¬ pending b x → ¬ pending c x).
    { intros x Hn [i' Hc]. destruct (B1 _ _ Hc) as (i & Hi & _). apply Hn. exists i. exact Hi. }
    assert (Hreach : ∀ x, (∃ r, N r ∧ rtc (linked b) r x) → ∃ r, N r ∧ rtc (linked a) r x).
    { intros x (r & Hr & Hpath). exists r. split; [exact Hr|].
      eapply (rtc_subrel (linked b)); [|exact Hpath].
      intros p y (ib & Hp & Hy). destruct (A1 _ _ Hp) as (ia & Hpa & _ & _ & _ & Hs & _).
      exists ia. auto. }
    constructor.
    - intros x i'' Hc. destruct (B1 _ _ Hc) as (i' & Hb & E1 & E2 & E3 & Hs & Hn).
      destruct (A1 _ _ Hb) as (i & Ha & F1 & F2 & F3 & Hs' & Hn').
      exists i. repeat split; try congruence; auto.
    - intros x. destruct (B2 x) as [E|[H Hr]].
      + rewrite E. apply A2.
      + right. split; [exact H|]. apply Hreach, Hr.
    - intros x Ha Hc. destruct (decide (pending b x)) as [Hb|Hb].
      + destruct (B3 x Hb Hc) as (Hf & HQ & Hr). auto.
      + destruct (A3 x Ha Hb) as (Hf & HQ & Hr). split; [auto|]. split; [|exact Hr].
        destruct (B2 x) as [E|[H _]]; [rewrite E; exact HQ|exact H].
    - intros x i y Ha Hc Hy. destruct (scheduled_jobs b !! x) as [i1|] eqn:Hb.
      + destruct (decide (y ∈ Info.dependent_jobs i1)) as [Hy1|Hy1].
        * eapply B4; eauto.
        * apply Hmono. eapply A5; eauto.
      + apply Hmono. eapply A4; eauto. apply not_pending_None. exact Hb.
    - intros x i i'' y Ha Hc Hy Hny. destruct (B1 _ _ Hc) as (i1 & Hb & _).
      destruct (decide (y ∈ Info.dependent_jobs i1)) as [Hy1|Hy1].
      + eapply B5; eauto.
      + apply Hmono. eapply A5; eauto.
    - intros x p i'' Ha Hc Hp Hpc. destruct (decide (pending b x)) as [Hb|Hb].
      + eapply B6; eauto.
      + destruct (B1 _ _ Hpc) as (i1 & Hpb & _ & _ & _ & Hs & _).
        intros Hin. eapply A6; eauto.
    - auto.
    - intros x Hx. destruct (B8 x Hx) as [H|[H|H]]; auto.
      right; right. destruct H as (p & i1 & Hb & Hin).
      destruct (A1 _ _ Hb) as (i & Ha & _ & _ & _ & Hs & _). exists p, i. auto.
    - intros x Hx. destruct (B13 x Hx) as [H|H]; [|auto].
      destruct (A13 x H) as [H'|[H1 H2]]; [auto|]. right. split; [auto|].
      destruct (B2 x) as [E|[HQ _]]; [rewrite E; exact H2|exact HQ].
    - congruence.
    - congruence.
    - congruence.
    - destruct A12, B12. split; congruence.
  Qed.

Lemma fail_step_mono (Q Q' : LoadJobPtr → JobState → Prop) (N N' : LoadJobPtr → Prop) s s' :
    (∀ x st, Q x st → Q' x st) → (∀ x, N x → N' x) →
    fail_step J Q N s s' → fail_step J Q' N' s s'.
  Proof.
    intros HQ HN [A1 A2 A3 A4 A5 A6 A7 A8 A13 A9 A10 A11 A12].
    constructor; try assumption.
    - intros x. destruct (A2 x) as [?|(? & r & ? & ?)]; [auto|]. right. split; [auto|]. eauto.
    - intros x Hp Hn. destruct (A3 x Hp Hn) as (? & ? & r & ? & ?).
      split; [auto|]. split; [auto|]. eauto.
    - intros x Hx. destruct (A8 x Hx) as [H|[H|H]]; auto.
    - intros x Hx. destruct (A13 x Hx) as [H|[H1 H2]]; auto.
  Qed.

  (** [rel x e e'] is what is recorded of the exception [e'] that [failed]
      stores in a dependent [x] of a job that failed with [e]. *)
Variable rel : LoadJobPtr → Exception → Exception → Prop.

Lemma elem_of_set_erase x y l : x ∈ set_erase y l ↔ x ∈ l ∧ x ≠ y.
  Proof. unfold set_erase. rewrite list_elem_of_filter. tauto. Qed.

Lemma set_erase_idemp y l : set_erase y (set_erase y l) = set_erase y l.
  Proof.
    unfold set_erase. apply list_filter_filter_l. auto.
  Qed.

Lemma clean_edge_lookup job d s p :
    scheduled_jobs (clean_edge job d s) !! p =
    if decide (p = d) then erase_in job <$> scheduled_jobs s !! p else scheduled_jobs s !! p.
  Proof.
    unfold clean_edge. destruct (scheduled_jobs s !! d) as [di|] eqn:Hd; simpl.
    - unfold info_at. rewrite Hd. simpl. destruct (decide (p = d)) as [->|Hne].
      + rewrite lookup_insert_eq, Hd. reflexivity.
      + rewrite lookup_insert_ne by congruence. reflexivity.
    - destruct (decide (p = d)) as [->|Hne]; [rewrite Hd|]; reflexivity.
  Qed.

Lemma clean_edges_lookup job deps s p :
    scheduled_jobs (foldl (λ s dep, clean_edge job dep s) s deps) !! p =
    if decide (p ∈ deps) then erase_in job <$> scheduled_jobs s !! p else scheduled_jobs s !! p.
  Proof.
    revert s. induction deps as [|d deps IH]; intros s; simpl.
    - destruct (decide (p ∈ [])) as [H|H]; [inversion H|reflexivity].
    - rewrite IH, clean_edge_lookup.
      destruct (decide (p = d)) as [->|Hne].
      + destruct (decide (d ∈ d :: deps)) as [_|H]; [|exfalso; apply H; left].
        destruct (decide (d ∈ deps)); [|reflexivity].
        destruct (scheduled_jobs s !! d) as [i|]; [|reflexivity]. simpl.
        unfold erase_in. simpl. rewrite set_erase_idemp. reflexivity.
      + destruct (decide (p ∈ deps)) as [H|H];
          destruct (decide (p ∈ d :: deps)) as [H'|H']; try reflexivity.
        * exfalso. apply H'. right. exact H.
        * exfalso. apply elem_of_cons in H' as [?|?]; auto.
  Qed.

Lemma clean_edges_other job deps s :
    let s' := foldl (λ s dep, clean_edge job dep s) s deps in
    heap s' = heap s ∧ finished_jobs s' = finished_jobs s ∧ ready_queue s' = ready_queue s ∧
    last_ready_seqno s' = last_ready_seqno s ∧ is_running s' = is_running s ∧
    workers s' = workers s ∧ max_threads s' = max_threads s.
  Proof.
    simpl. apply (foldl_inv (λ t, heap t = heap s ∧ finished_jobs t = finished_jobs s ∧
      ready_queue t = ready_queue s ∧ last_ready_seqno t = last_ready_seqno s ∧
      is_running t = is_running s ∧ workers t = workers s ∧ max_threads t = max_threads s));
      [|repeat split].
    intros t x _ H. unfold clean_edge. destruct (scheduled_jobs t !! x); simpl; exact H.
  Qed.
Local Abbreviation failed := (failed J getExceptionMessage).
Local Abbreviation dependency_failed := (dependency_failed J getExceptionMessage).

Hypothesis rel_dependency_failed : ∀ dep e, rel dep e (dependency_failed dep e).
Hypothesis rel_chain : ∀ dep e x e', rel x (dependency_failed dep e) e' → rel x e e'.

Lemma failed_S fuel job e s :
    failed (S fuel) job e s =
    (do s2 <- for_each (λ dep, failed fuel dep (dependency_failed dep e))
                (Info.dependent_jobs (info_at s job))
                (update_info (Info.set_dependent_jobs []) job
                   (update_job (setFailure e) job s));
     Ok (finish job (foldl (λ s dep, clean_edge job dep s) s2 (dependencies (J job))))).
  Proof. reflexivity. Qed.

Lemma fail_mark_dep dep e x st :
    fail_mark rel (Some dep) (dependency_failed dep e) x st → fail_mark rel None e x st.
  Proof.
    intros (Hf & e' & He' & Hcase). split; [exact Hf|]. exists e'. split; [exact He'|].
    left. destruct Hcase as [Hr|[Heq ->]].
    - eapply rel_chain. exact Hr.
    - inversion Heq; subst. apply rel_dependency_failed.
  Qed.

Lemma fail_mark_weaken job e x st : fail_mark rel None e x st → fail_mark rel job e x st.
  Proof.
    intros (Hf & e' & He' & [H|[H _]]); [|discriminate].
    split; [exact Hf|]. exists e'. auto.
  Qed.

Lemma job_state_update_job f job s x :
    job_state (update_job f job s) x =
    if decide (x = job) then f (job_state s job) else job_state s x.
  Proof.
    unfold job_state, update_job. simpl. destruct (decide (x = job)) as [->|Hne].
    - rewrite lookup_insert_eq. reflexivity.
    - rewrite lookup_insert_ne by congruence. reflexivity.
  Qed.

Lemma info_at_lookup s x i : scheduled_jobs s !! x = Some i → info_at s x = i.
  Proof. unfold info_at. intros ->. reflexivity. Qed.

  (** What one call of [failed] does, whatever the state it starts in. *)
Lemma failed_spec fuel : ∀ job e s s',
    failed fuel job e s = Ok s' →
    fail_step J (fail_mark rel (Some job) e) (λ x, x = job) s s' ∧
    ¬ pending s' job ∧ job ∈ finished_jobs s' ∧
    fail_mark rel (Some job) e job (job_state s' job) ∧
    (exception (job_state s' job) = Some e ∨ tc (linked s) job job).
  Proof.
    induction fuel as [|fuel IH]; intros job e s s' H; [discriminate|].
    rewrite failed_S in H. apply bind_Ok in H as (s2 & Hloop & Hfin).
    injection Hfin as Hs'.
    set (dependent := Info.dependent_jobs (info_at s job)) in *.
    set (s1 := update_info (Info.set_dependent_jobs []) job
                 (update_job (setFailure e) job s)) in *.
    set (s3 := foldl (λ s dep, clean_edge job dep s) s2 (dependencies (J job))) in *.
    apply (for_each_rel (fail_step J (fail_mark rel None e) (λ x, x ∈ dependent))
             (λ x t, ¬ pending t x)) in Hloop as [HR Hgone].
    2: { apply fail_step_refl. }
    2: { apply fail_step_trans. }
    2: { intros x t t' HP Ht [i' Hi']. destruct (fs_sched _ _ _ _ _ Ht _ _ Hi') as (i & Hi & _).
         apply HP. exists i. exact Hi. }
    2: { intros x t t' Hx Hb. destruct (IH _ _ _ _ Hb) as (HS & Hnp & _ & _ & _).
         split; [|exact Hnp]. eapply fail_step_mono; [| |exact HS].
         - intros y st. apply fail_mark_dep.
         - intros y ->. exact Hx. }
    destruct HR as [R1 R2 R3 R4 R5 R6 R7 R8 R13 R9 R10 R11 R12].
    destruct (clean_edges_other job (dependencies (J job)) s2)
      as (C1 & C2 & C3 & C4 & C5 & C6 & C7). fold s3 in C1, C2, C3, C4, C5, C6, C7.
    assert (L1 : ∀ x, x ≠ job → scheduled_jobs s1 !! x = scheduled_jobs s !! x).
    { intros x Hne. unfold s1. simpl. rewrite lookup_insert_ne by congruence. reflexivity. }
    assert (L1' : scheduled_jobs s1 !! job = Some (Info.set_dependent_jobs [] (info_at s job))).
    { unfold s1. simpl. rewrite lookup_insert_eq. reflexivity. }
    assert (L2 : ∀ x, scheduled_jobs s' !! x =
                      if decide (x = job) then None
                      else if decide (x ∈ dependencies (J job))
                           then erase_in job <$> scheduled_jobs s2 !! x
                           else scheduled_jobs s2 !! x).
    { intros x. rewrite <- Hs'. simpl. destruct (decide (x = job)) as [->|Hne].
      - apply lookup_delete_eq.
      - rewrite lookup_delete_ne by congruence. apply clean_edges_lookup. }
    assert (L3 : ∀ x i', scheduled_jobs s' !! x = Some i' →
                 x ≠ job ∧ ∃ i2, scheduled_jobs s2 !! x = Some i2 ∧
                   Info.priority i' = Info.priority i2 ∧
                   Info.dependencies_left i' = Info.dependencies_left i2 ∧
                   Info.ready_seqno i' = Info.ready_seqno i2 ∧
                   (∀ y, y ∈ Info.dependent_jobs i' → y ∈ Info.dependent_jobs i2 ∧
                      (x ∈ dependencies (J job) → y ≠ job)) ∧
                   (∀ y, y ∈ Info.dependent_jobs i2 → y ≠ job → y ∈ Info.dependent_jobs i') ∧
                   (NoDup (Info.dependent_jobs i2) → NoDup (Info.dependent_jobs i'))).
    { intros x i' Hx. rewrite L2 in Hx. destruct (decide (x = job)); [discriminate|].
      split; [assumption|]. destruct (decide (x ∈ dependencies (J job))) as [Hd|Hd].
      - destruct (scheduled_jobs s2 !! x) as [i2|]; [|discriminate].
        simpl in Hx. injection Hx as <-. exists i2. simpl.
        do 4 (split; [reflexivity|]). split; [|split].
        + intros y Hy. apply elem_of_set_erase in Hy. split; [tauto|intros _; tauto].
        + intros y Hy Hne. apply elem_of_set_erase. auto.
        + apply NoDup_filter.
      - exists i'. split; [exact Hx|]. do 3 (split; [reflexivity|]). split; [|auto].
        intros y Hy. split; [exact Hy|]. intros; contradiction. }
    assert (L4 : ∀ x, x ≠ job → ¬ pending s' x → ¬ pending s2 x).
    { intros x Hne Hn [i2 Hi2]. apply Hn. unfold pending. rewrite L2.
      destruct (decide (x = job)); [contradiction|].
      destruct (decide (x ∈ dependencies (J job))); rewrite Hi2; simpl; eauto. }
    assert (L5 : ¬ pending s' job).
    { unfold pending. rewrite L2. destruct (decide (job = job)); [|contradiction].
      intros [? ?]; discriminate. }
    assert (L6 : ∀ x, job_state s1 x =
                      if decide (x = job) then setFailure e (job_state s job) else job_state s x).
    { intros x. unfold s1. apply job_state_update_job. }
    assert (L7 : ∀ x, job_state s' x = job_state s2 x).
    { intros x. rewrite <- Hs'. unfold job_state. simpl. rewrite C1. reflexivity. }
    assert (L8 : ∀ x, x ∈ finished_jobs s' ↔ x = job ∨ x ∈ finished_jobs s2).
    { intros x. rewrite <- Hs'. simpl. rewrite C2, elem_of_union, elem_of_singleton. tauto. }
    assert (Hup : ∀ x, (∃ r, r ∈ dependent ∧ rtc (linked s1) r x) → tc (linked s) job x).
    { intros x (r & Hr & Hpath).
      assert (Hjr : linked s job r).
      { unfold dependent, info_at in Hr.
        destruct (scheduled_jobs s !! job) as [i|] eqn:Hj; simpl in Hr; [|inversion Hr].
        exists i. split; [exact Hj|exact Hr]. }
      eapply tc_rtc_r.
      - apply tc_once. exact Hjr.
      - eapply (rtc_subrel (linked s1)); [|exact Hpath].
        intros p y (ip & Hp & Hy). destruct (decide (p = job)) as [->|Hne].
        + rewrite L1' in Hp. injection Hp as <-. simpl in Hy. inversion Hy.
        + rewrite L1 in Hp by exact Hne. exists ip. auto. }
    assert (Hjob : fail_mark rel (Some job) e job (job_state s' job)).
    { rewrite L7. destruct (R2 job) as [E|[HQ _]].
      - rewrite E, L6. destruct (decide (job = job)); [|contradiction].
        split; [reflexivity|]. exists e. split; [reflexivity|]. right. auto.
      - apply fail_mark_weaken. exact HQ. }
    assert (Hexc : exception (job_state s' job) = Some e ∨ tc (linked s) job job).
    { rewrite L7. destruct (R2 job) as [E|[_ Hr]].
      - left. rewrite E, L6. destruct (decide (job = job)); [reflexivity|contradiction].
      - right. apply Hup, Hr. }
    assert (Hheap : ∀ x, job_state s' x = job_state s x ∨
                         (fail_mark rel (Some job) e x (job_state s' x) ∧
                          ∃ r, r = job ∧ rtc (linked s) r x)).
    { intros x. destruct (decide (x = job)) as [->|Hne].
      { right. split; [exact Hjob|]. exists job. split; [reflexivity|apply rtc_refl]. }
      rewrite L7. destruct (R2 x) as [E|[HQ Hr]].
      - left. rewrite E, L6. destruct (decide (x = job)); [contradiction|reflexivity].
      - right. split; [apply fail_mark_weaken; exact HQ|].
        exists job. split; [reflexivity|apply tc_rtc, Hup, Hr]. }
    split; [|split; [exact L5|split; [apply L8; auto|split; [exact Hjob|exact Hexc]]]].
    constructor.
    - (* fs_sched *)
      intros x i' Hx. destruct (L3 _ _ Hx) as (Hne & i2 & H2 & E1 & E2 & E3 & Hs & _ & Hn).
      destruct (R1 _ _ H2) as (i1 & H1 & F1 & F2 & F3 & Hs1 & Hn1).
      rewrite L1 in H1 by exact Hne. exists i1.
      repeat split; try congruence; [|auto]. intros y Hy. apply Hs1, Hs, Hy.
    - exact Hheap.
    - (* fs_gone *)
      intros x Hp Hn. destruct (decide (x = job)) as [->|Hne].
      + split; [apply L8; auto|]. split; [exact Hjob|].
        exists job. split; [reflexivity|apply rtc_refl].
      + destruct (R3 x) as (Hf & HQ & Hr).
        * unfold pending. rewrite L1 by exact Hne. exact Hp.
        * apply L4; assumption.
        * split; [apply L8; auto|]. split; [rewrite L7; apply fail_mark_weaken; exact HQ|].
          exists job. split; [reflexivity|apply tc_rtc, Hup, Hr].
    - (* fs_closed *)
      intros x i y Hx Hn Hy. destruct (decide (y = job)) as [->|Hyj]; [exact L5|].
      intros Hpy. assert (Hpy2 : pending s2 y).
      { destruct Hpy as [i' Hi']. destruct (L3 _ _ Hi') as (_ & i2 & H2 & _). exists i2. exact H2. }
      revert Hpy2. destruct (decide (x = job)) as [->|Hne].
      + apply Hgone. unfold dependent. rewrite (info_at_lookup _ _ _ Hx). exact Hy.
      + eapply R4; [rewrite L1 by exact Hne; exact Hx| |exact Hy]. apply L4; assumption.
    - (* fs_edges *)
      intros x i i' y Hx Hx' Hy Hny. destruct (decide (y = job)) as [->|Hyj]; [exact L5|].
      destruct (L3 _ _ Hx') as (Hne & i2 & H2 & _ & _ & _ & _ & Hback & _).
      intros Hpy. assert (Hpy2 : pending s2 y).
      { destruct Hpy as [iy Hiy]. destruct (L3 _ _ Hiy) as (_ & j2 & Hj2 & _). exists j2. exact Hj2. }
      revert Hpy2. eapply R5; [rewrite L1 by exact Hne; exact Hx|exact H2|exact Hy|].
      intros Hin. apply Hny, Hback; assumption.
    - (* fs_clean *)
      intros x p i' Hp Hn Hdep Hp' Hin.
      destruct (L3 _ _ Hp') as (Hpne & i2 & H2 & _ & _ & _ & Hs & _ & _).
      destruct (Hs _ Hin) as [Hin2 Hnej].
      destruct (decide (x = job)) as [->|Hne]; [exact (Hnej Hdep eq_refl)|].
      eapply R6; [| |exact Hdep|exact H2|exact Hin2].
      + unfold pending. rewrite L1 by exact Hne. exact Hp.
      + apply L4; assumption.
    - (* fs_finished *)
      intros x Hx. apply L8. right. apply R7. exact Hx.
    - (* fs_new *)
      intros x Hx. apply L8 in Hx as [->|Hx]; [auto|].
      destruct (R8 x Hx) as [H|[H|H]].
      + left. exact H.
      + right; right. unfold dependent, info_at in H.
        destruct (scheduled_jobs s !! job) as [i|] eqn:Hj; simpl in H; [|inversion H].
        exists job, i. auto.
      + destruct H as (p & i1 & H1 & Hin). destruct (decide (p = job)) as [->|Hne].
        * rewrite L1' in H1. inversion H1; subst. simpl in Hin. inversion Hin.
        * rewrite L1 in H1 by exact Hne. right; right. exists p, i1. auto.
    - (* fs_left *)
      intros x Hx. apply L8 in Hx as [->|Hx]; [right; split; [exact L5|exact Hjob]|].
      destruct (R13 x Hx) as [H|[H HQ]]; [left; exact H|].
      right. split; [|rewrite L7; apply fail_mark_weaken; exact HQ].
      intros [i' Hi']. apply H. destruct (L3 _ _ Hi') as (_ & i2 & H2 & _). exists i2. exact H2.
    - rewrite <- Hs'. simpl. rewrite C3. exact R9.
    - rewrite <- Hs'. simpl. rewrite C4. exact R10.
    - rewrite <- Hs'. simpl. rewrite C5. exact R11.
    - rewrite <- Hs'. simpl. rewrite C6, C7. exact R12.
  Qed.

  (** *** [failed] returns: the back-links bound its recursion *)

Lemma weigh_delete w (m : gmap LoadJobPtr Info.t) k i :
    m !! k = Some i → weigh w m = (w k i + weigh w (delete k m))%nat.
  Proof.
    intros Hk. unfold weigh.
    apply (map_fold_delete_L (λ job info n, (w job info + n)%nat)); [|exact Hk].
    intros. lia.
  Qed.

Lemma weigh_insert_fresh w (m : gmap LoadJobPtr Info.t) k i :
    m !! k = None → weigh w (<[k := i]> m) = (w k i + weigh w m)%nat.
  Proof.
    intros Hk. unfold weigh.
    apply (map_fold_insert_L (λ job info n, (w job info + n)%nat)); [|exact Hk].
    intros. lia.
  Qed.

Lemma weigh_insert w (m : gmap LoadJobPtr Info.t) k i :
    weigh w (<[k := i]> m) = (w k i + weigh w (delete k m))%nat.
  Proof.
    rewrite <- insert_delete_eq. apply weigh_insert_fresh, lookup_delete_eq.
  Qed.

Lemma weigh_delete_le w (m : gmap LoadJobPtr Info.t) k :
    (weigh w (delete k m) ≤ weigh w m)%nat.
  Proof.
    destruct (m !! k) as [i|] eqn:Hk.
    - rewrite (weigh_delete w m k i Hk). lia.
    - rewrite delete_id by exact Hk. lia.
  Qed.

Lemma dependents_total_delete (m : gmap LoadJobPtr Info.t) k i :
    m !! k = Some i →
    dependents_total m = (length (Info.dependent_jobs i) + dependents_total (delete k m))%nat.
  Proof. apply weigh_delete. Qed.

Lemma dependents_total_insert (m : gmap LoadJobPtr Info.t) k i :
    dependents_total (<[k := i]> m) =
    (length (Info.dependent_jobs i) + dependents_total (delete k m))%nat.
  Proof. apply weigh_insert. Qed.

Lemma dependents_total_delete_le (m : gmap LoadJobPtr Info.t) k :
    (dependents_total (delete k m) ≤ dependents_total m)%nat.
  Proof. apply weigh_delete_le. Qed.

Lemma clean_edge_total job d s :
    (dependents_total (scheduled_jobs (clean_edge job d s)) ≤ dependents_total (scheduled_jobs s))%nat.
  Proof.
    unfold clean_edge. destruct (scheduled_jobs s !! d) as [i|] eqn:Hd; [|lia].
    simpl. rewrite dependents_total_insert, (dependents_total_delete _ _ _ Hd).
    unfold info_at. rewrite Hd. simpl. unfold set_erase.
    apply Nat.add_le_mono_r, length_filter.
  Qed.

Lemma failed_enough fuel : ∀ job e s,
    (dependents_total (scheduled_jobs s) < fuel)%nat →
    ∃ s', failed fuel job e s = Ok s' ∧
          (dependents_total (scheduled_jobs s') ≤ dependents_total (scheduled_jobs s))%nat.
  Proof.
    induction fuel as [|fuel IH]; intros job e s Hlt; [lia|].
    rewrite failed_S.
    set (dependent := Info.dependent_jobs (info_at s job)).
    set (s1 := update_info (Info.set_dependent_jobs []) job
                 (update_job (setFailure e) job s)).
    assert (Hs1 : (dependents_total (scheduled_jobs s1) + length dependent
                   ≤ dependents_total (scheduled_jobs s))%nat).
    { unfold s1, dependent, info_at. simpl. rewrite dependents_total_insert. simpl.
      destruct (scheduled_jobs s !! job) as [i|] eqn:Hj; simpl.
      - rewrite (dependents_total_delete _ _ _ Hj). lia.
      - rewrite delete_id by exact Hj. lia. }
    clearbody dependent s1.
    assert (Hloop : ∀ l t, (l = [] ∨ dependents_total (scheduled_jobs t) < fuel)%nat →
              ∃ t', for_each (λ dep, failed fuel dep (dependency_failed dep e)) l t = Ok t' ∧
                    (dependents_total (scheduled_jobs t') ≤ dependents_total (scheduled_jobs t))%nat).
    { induction l as [|x l IHl]; intros t Ht; simpl.
      - exists t. split; [reflexivity|lia].
      - destruct Ht as [Ht|Ht]; [discriminate|].
        destruct (IH x (dependency_failed x e) t Ht) as (t1 & H1 & Hle1).
        rewrite H1. simpl. destruct (IHl t1) as (t2 & H2 & Hle2); [right; lia|].
        exists t2. split; [exact H2|lia]. }
    destruct (Hloop dependent s1) as (s2 & H2 & Hle2).
    { destruct dependent as [|x l]; [left; reflexivity|right]. simpl in Hs1. lia. }
    rewrite H2. simpl. eexists. split; [reflexivity|].
    simpl. etransitivity; [apply dependents_total_delete_le|].
    etransitivity; [|etransitivity; [exact Hle2|lia]].
    apply (foldl_inv (λ t, (dependents_total (scheduled_jobs t)
                            ≤ dependents_total (scheduled_jobs s2))%nat)); [|lia].
    intros t x _ Ht. etransitivity; [apply clean_edge_total|exact Ht].
  Qed.

  (** With the fuel [failed_fuel] provides, [failed] returns. *)
Lemma failed_total job e s : ∃ s', failed (failed_fuel s) job e s = Ok s'.
  Proof.
    destruct (failed_enough (failed_fuel s) job e s) as (s' & H & _);
      [unfold failed_fuel; lia|eauto].
  Qed.
End Failure.

(** The two instances: nothing recorded, and what the exception of a
    dependent says. *)
Section FailureRecords.
Variable J : LoadJobPtr → LoadJob.
Variable getExceptionMessage : Exception → string.

Lemma failed_step fuel job e s s' :
    failed J getExceptionMessage fuel job e s = Ok s' →
    fail_step J (fail_mark any_exception (Some job) e) (λ x, x = job) s s' ∧
    ¬ pending s' job ∧ job ∈ finished_jobs s'.
  Proof.
    intros H.
    destruct (failed_spec J getExceptionMessage any_exception
                (λ _ _, I) (λ _ _ _ _ _, I) fuel job e s s' H) as (H1 & H2 & H3 & _).
    auto.
  Qed.

Hypothesis getExceptionMessage_quotes :
    ∀ e, contains (message e) (getExceptionMessage e).

Lemma dependency_failed_of dep e :
    dependency_failure_of J dep e (dependency_failed J getExceptionMessage dep e).
  Proof.
    split; [reflexivity|]. split.
    - exists (getExceptionMessage e). reflexivity.
    - simpl. apply contains_app_r, contains_app_r, getExceptionMessage_quotes.
  Qed.

Lemma dependency_failure_chain dep e x e' :
    dependency_failure_of J x (dependency_failed J getExceptionMessage dep e) e' →
    dependency_failure_of J x e e'.
  Proof.
    intros (Hc & Hn & Hq). split; [exact Hc|]. split; [exact Hn|].
    eapply contains_trans; [|exact Hq]. apply (dependency_failed_of dep e).
  Qed.

Lemma failed_quotes fuel job e s s' :
    failed J getExceptionMessage fuel job e s = Ok s' →
    fail_step J (fail_mark (dependency_failure_of J) (Some job) e) (λ x, x = job) s s' ∧
    ¬ pending s' job ∧ job ∈ finished_jobs s' ∧
    fail_mark (dependency_failure_of J) (Some job) e job (job_state s' job) ∧
    (exception (job_state s' job) = Some e ∨ tc (linked s) job job).
  Proof.
    apply failed_spec; [apply dependency_failed_of|apply dependency_failure_chain].
  Qed.
End FailureRecords.

(** ** Failure fan-out *)

Section FailureFanOut.
Variable J : LoadJobPtr → LoadJob.
Variable getExceptionMessage : Exception → string.
Hypothesis getExceptionMessage_quotes :
    ∀ e, contains (message e) (getExceptionMessage e).

Lemma registered_dependent_gone Q N s s' job d :
    fail_step J Q N s s' → ¬ pending s' job →
    registered_dependent s job d → ¬ pending s' d.
  Proof.
    intros HS Hjob Hd. induction Hd as [info d Hj Hin _|x info d _ IH Hx Hin _].
    - eapply (fs_closed _ _ _ _ _ HS); eauto.
    - eapply (fs_closed _ _ _ _ _ HS); eauto.
  Qed.

Lemma registered_dependent_pending s job d : registered_dependent s job d → pending s d.
  Proof. intros [? ? _ _ H|? ? ? _ _ _ H]; exact H. Qed.

Lemma fail_mark_FAILED rel job e x st : fail_mark rel job e x st → status st = FAILED.
  Proof.
    intros (Hf & e' & He' & _). unfold status. rewrite Hf, He'. reflexivity.
  Qed.

  (** C4, amended: when the body of [job] raises, every other pending job that
      the loader has registered as a direct or transitive dependent of [job]
      ends [FAILED] with a [DEPENDENCY_FAILED] exception that names it and
      whose message quotes the failed job, is gone from the [dependent_jobs]
      of its own prerequisites, and has moved from the pending map to the
      finished set. *)
Theorem failure_reaches_registered_dependents s job what d :
    registered_dependent s job d → d ≠ job →
    ∃ s', handle_executed J getExceptionMessage (failed_fuel s) job (Some what) s = Ok s' ∧
      status (job_state s' d) = FAILED ∧
      (∃ e', exception (job_state s' d) = Some e' ∧
             code e' = ASYNC_LOAD_DEPENDENCY_FAILED ∧
             (∃ rest, message e' = quoted_job (name (J d)) +:+ " -> " +:+ rest) ∧
             contains (quoted_job (name (J job))) (message e')) ∧
      (∀ p info, p ∈ dependencies (J d) → scheduled_jobs s' !! p = Some info →
                 d ∉ Info.dependent_jobs info) ∧
      ¬ pending s' d ∧ d ∈ finished_jobs s'.
  Proof.
    intros Hd Hne. simpl.
    destruct (failed_total J getExceptionMessage job (load_failed J job what) s) as [s' Hs'].
    exists s'. split; [exact Hs'|].
    destruct (failed_quotes J getExceptionMessage getExceptionMessage_quotes _ _ _ _ _ Hs')
      as (HS & Hjob & _ & _ & _).
    pose proof (registered_dependent_pending _ _ _ Hd) as Hp.
    pose proof (registered_dependent_gone _ _ _ _ _ _ HS Hjob Hd) as Hgone.
    destruct (fs_gone _ _ _ _ _ HS d Hp Hgone) as (Hfin & Hmark & _).
    split; [eapply fail_mark_FAILED; exact Hmark|].
    split.
    - destruct Hmark as (_ & e' & He' & [(Hc & Hn & Hq)|[Heq _]]); [|congruence].
      exists e'. repeat split; try assumption.
      eapply contains_trans; [|exact Hq]. simpl.
      apply contains_app_l, contains_refl.
    - split; [|auto]. intros p info Hdep Hpi. eapply (fs_clean _ _ _ _ _ HS); eauto.
  Qed.
End FailureFanOut.

(** ** What [schedule] rejects *)

Section ScheduleRejects.
Variable J : LoadJobPtr → LoadJob.

Lemma sanity_check_throws s job :
    status (job_state s job) ≠ PENDING ∨ pending s job →
    ∃ e, sanity_check J s job = Throw e ∧ code e = ASYNC_LOAD_SCHEDULE_FAILED.
  Proof.
    intros H. unfold sanity_check.
    destruct (status (job_state s job)) eqn:Hst; try (eexists; split; reflexivity).
    destruct H as [H|[i Hi]]; [congruence|]. rewrite Hi. eexists; split; reflexivity.
  Qed.

Lemma sanity_checks_throw s jobs :
    (∃ job, job ∈ jobs ∧ (status (job_state s job) ≠ PENDING ∨ pending s job)) →
    ∃ e, for_each (λ job _, sanity_check J s job) jobs tt = Throw e ∧
         code e = ASYNC_LOAD_SCHEDULE_FAILED.
  Proof.
    induction jobs as [|x jobs IH]; intros (job & Hin & Hbad).
    - inversion Hin.
    - simpl. destruct (sanity_check J s x) as [[]|e|] eqn:Hx.
      + simpl. apply IH. apply elem_of_cons in Hin as [->|Hin]; [|eauto].
        destruct (sanity_check_throws s x Hbad) as (e & He & _). congruence.
      + simpl. exists e. split; [reflexivity|].
        unfold sanity_check in Hx.
        destruct (status (job_state s x)); [destruct (scheduled_jobs s !! x)|..];
          inversion Hx; reflexivity.
      + unfold sanity_check in Hx.
        destruct (status (job_state s x)); [destruct (scheduled_jobs s !! x)|..]; discriminate.
  Qed.

  (** A job that is finished or already scheduled makes [schedule] throw
      [ASYNC_LOAD_SCHEDULE_FAILED]; a throw hands back no new loader state,
      since the checks come before the first assignment. *)
Lemma schedule_rejects_finished_or_scheduled fuel jobs priority_ s :
    (∃ job, job ∈ jobs ∧ (status (job_state s job) ≠ PENDING ∨ pending s job)) →
    ∃ e, schedule J fuel jobs priority_ s = Throw e ∧ code e = ASYNC_LOAD_SCHEDULE_FAILED.
  Proof.
    intros H. destruct (sanity_checks_throw s jobs H) as (e & He & Hc).
    exists e. unfold schedule. rewrite He. auto.
  Qed.
End ScheduleRejects.

(** C1 fails on the code: the two jobs of [unnamed_cycle] depend on each other,
    and [schedule] accepts them.  [checkCycleImpl] signals "no cycle" with an
    empty chain, and the chain of a cycle that closes at a job without a name
    is empty.  Both jobs are then pending for good, each waiting for the
    other.  With names, the same set is rejected. *)
Theorem schedule_accepts_unnamed_cycle :
  1%nat ∈ dependencies (unnamed_cycle 0%nat) ∧ 0%nat ∈ dependencies (unnamed_cycle 1%nat) ∧
  (∃ s', schedule unnamed_cycle 4 [0; 1]%nat 0 (new_loader 1) = Ok s' ∧
         pending s' 0%nat ∧ pending s' 1%nat ∧ ready_queue s' = [] ∧
         Info.dependencies_left (info_at s' 0%nat) = 1 ∧
         Info.dependencies_left (info_at s' 1%nat) = 1) ∧
  schedule named_cycle 4 [0; 1]%nat 0 (new_loader 1) =
    Throw (mkException ASYNC_LOAD_SCHEDULE_FAILED
             "Load job dependency cycle detected: A -> B -> A").
Proof.
  split; [left|]. split; [left|]. split.
  - eexists. split; [vm_compute; reflexivity|].
    split; [vm_compute; eexists; reflexivity|].
    split; [vm_compute; eexists; reflexivity|].
    repeat split; vm_compute; reflexivity.
  - vm_compute. reflexivity.
Qed.

(** ** The ready queue stays in key order *)

Lemma rq_sorted_emplace k v q : rq_sorted q → rq_sorted (rq_emplace k v q).
Proof.
  unfold rq_sorted. induction q as [|[k' v'] q IH]; intros Hs; simpl.
  - repeat constructor.
  - inversion Hs as [|? ? Hq Hall]; subst.
    destruct (ReadyKey.ltb k k') eqn:E1.
    + simpl. constructor; [exact Hs|]. constructor; [exact E1|].
      eapply Forall_impl; [exact Hall|]. intros k2 H2.
      eapply ReadyKeyFacts.lt_trans; [exact E1|exact H2].
    + destruct (ReadyKey.ltb k' k) eqn:E2; [|exact Hs].
      simpl. constructor; [apply IH; exact Hq|].
      clear IH Hs Hq. induction q as [|[k2 v2] q IHq]; simpl.
      * constructor; [exact E2|constructor].
      * inversion Hall; subst.
        destruct (ReadyKey.ltb k k2); [|destruct (ReadyKey.ltb k2 k)]; simpl;
          repeat (constructor; try assumption); auto.
Qed.

Lemma rq_sorted_erase k q : rq_sorted q → rq_sorted (rq_erase k q).
Proof.
  unfold rq_sorted, rq_erase. induction q as [|[k' v'] q IH]; intros Hs.
  - simpl. constructor.
  - rewrite fmap_cons in Hs. inversion Hs as [|? ? Hq Hall]; subst. rewrite filter_cons.
    destruct (decide (ReadyKey.equiv k (k', v').1 = false)); [|auto].
    rewrite fmap_cons. constructor; [auto|].
    apply Forall_forall. intros k2 Hk2. rewrite Forall_forall in Hall. apply Hall.
    apply list_elem_of_fmap in Hk2 as (en & -> & He). apply list_elem_of_filter in He as [_ He].
    apply list_elem_of_fmap. eauto.
Qed.

Lemma rq_sorted_tail e q : rq_sorted (e :: q) → rq_sorted q.
Proof. unfold rq_sorted. simpl. inversion 1; assumption. Qed.

(** The first entry of a queue in key order has the smallest key. *)
Lemma rq_sorted_head k v q k' v' :
  rq_sorted ((k, v) :: q) → (k', v') ∈ q → ReadyKey.lt k k'.
Proof.
  unfold rq_sorted. simpl. inversion 1 as [|? ? _ Hall]; subst. intros Hin.
  rewrite Forall_forall in Hall. apply Hall. apply list_elem_of_fmap.
  exists (k', v'). auto.
Qed.

Section QueueSorted.
Variable J : LoadJobPtr → LoadJob.
Variable getExceptionMessage : Exception → string.

Lemma sorted_enqueue job s : sorted s → sorted (enqueue job s).
  Proof.
    unfold sorted, enqueue. intros H.
    destruct (_ && _); simpl; apply rq_sorted_emplace; exact H.
  Qed.

Lemma sorted_loaded job s : sorted s → sorted (loaded job s).
  Proof.
    intros H. unfold loaded, finish. simpl.
    apply (foldl_inv sorted); [|exact H].
    intros t x _ Ht. unfold loaded_dep. destruct (_ =? 0); [apply sorted_enqueue|]; exact Ht.
  Qed.

Lemma failed_queue fuel : ∀ job e s s',
    failed J getExceptionMessage fuel job e s = Ok s' → ready_queue s' = ready_queue s.
  Proof.
    induction fuel as [|fuel IH]; intros job e s s' H; [discriminate|].
    simpl in H. apply bind_Ok in H as (s2 & Hloop & Hfin). injection Hfin as <-.
    apply (for_each_rel (λ a b, ready_queue b = ready_queue a) (λ _ _, True)) in Hloop as [HR _].
    - simpl. destruct (clean_edges_other job (dependencies (J job)) s2) as (_ & _ & -> & _).
      exact HR.
    - reflexivity.
    - intros; congruence.
    - auto.
    - intros x t t' _ Hb. split; [eapply IH; exact Hb|exact I].
  Qed.

Lemma prioritize_S fuel job p s :
    prioritize J (S fuel) job p s =
    match scheduled_jobs s !! job with
    | None => Ok s
    | Some info =>
        if Info.priority info >=? p then Ok s
        else for_each (λ dep, prioritize J fuel dep p) (dependencies (J job)) (raise job p info s)
    end.
  Proof.
    simpl. destruct (scheduled_jobs s !! job) as [info|] eqn:Hj; [|reflexivity].
    destruct (Info.priority info >=? p); [reflexivity|].
    f_equal. unfold raise, info_at. simpl.
    destruct (Info.ready_seqno info =? 0) eqn:E; simpl;
      rewrite ?lookup_insert_eq, ?Hj; simpl; rewrite ?E; try reflexivity.
    - rewrite (info_at_lookup _ _ _ Hj), E. reflexivity.
    - unfold info_at. simpl. rewrite Hj. simpl. rewrite E. reflexivity.
  Qed.

Lemma sorted_raise job p info s : sorted s → sorted (raise job p info s).
  Proof.
    unfold sorted, raise. simpl. intros H.
    destruct (Info.ready_seqno info =? 0); [exact H|].
    apply rq_sorted_emplace, rq_sorted_erase. exact H.
  Qed.

Lemma sorted_prioritize fuel : ∀ job p s s',
    prioritize J fuel job p s = Ok s' → sorted s → sorted s'.
  Proof.
    induction fuel as [|fuel IH]; intros job p s s' H Hs; [discriminate|].
    rewrite prioritize_S in H. destruct (scheduled_jobs s !! job) as [info|] eqn:Hj;
      [|injection H as <-; exact Hs].
    destruct (Info.priority info >=? p); [injection H as <-; exact Hs|].
    apply (for_each_rel (λ a b, sorted a → sorted b) (λ _ _, True)) in H as [HR _].
    - apply HR, sorted_raise, Hs.
    - auto.
    - auto.
    - auto.
    - intros x t t' _ Hb. split; [eapply IH; exact Hb|exact I].
  Qed.

Lemma sorted_schedule fuel jobs p s s' :
    schedule J fuel jobs p s = Ok s' → sorted s → sorted s'.
  Proof.
    unfold schedule. intros H Hs.
    apply bind_Ok in H as (_ & _ & H). apply bind_Ok in H as (_ & _ & H).
    revert H. apply for_each_inv.
    - intros job t t' Ht Hjob. unfold schedule_job in Hjob.
      apply bind_Ok in Hjob as (t1 & Hdeps & Hfin). injection Hfin as <-.
      assert (sorted t1) as Ht1.
      { revert Hdeps. apply for_each_inv; [|exact Ht].
        intros dep u u' Hu Hdep. unfold schedule_dep in Hdep.
        eapply sorted_prioritize; [exact Hdep|].
        destruct (scheduled_jobs u !! dep); exact Hu. }
      destruct (_ =? 0); [apply sorted_enqueue|]; exact Ht1.
    - apply (foldl_inv sorted); [|exact Hs].
      intros t x _ Ht. unfold emplace_job. destruct (scheduled_jobs t !! x); exact Ht.
  Qed.

Lemma sorted_handle_executed fuel job thrown s s' :
    handle_executed J getExceptionMessage fuel job thrown s = Ok s' → sorted s → sorted s'.
  Proof.
    unfold handle_executed. destruct thrown as [what|]; intros H Hs.
    - unfold sorted. rewrite (failed_queue _ _ _ _ _ H). exact Hs.
    - injection H as <-. apply sorted_loaded, Hs.
  Qed.

Lemma sorted_remove_job fuel job s s' :
    remove_job J getExceptionMessage fuel job s = Ok (Removed s') → sorted s → sorted s'.
  Proof.
    unfold remove_job. intros H Hs.
    destruct (decide (job ∈ finished_jobs s)); [injection H as <-; exact Hs|].
    destruct (scheduled_jobs s !! job) as [info|]; [|injection H as <-; exact Hs].
    destruct (Info.dependencies_left info >? 0).
    - apply bind_Ok in H as (s1 & H1 & H2). injection H2 as <-. change (sorted s1).
      unfold sorted. rewrite (failed_queue _ _ _ _ _ H1). exact Hs.
    - destruct (negb (Info.ready_seqno info =? 0)); [|discriminate].
      apply bind_Ok in H as (s1 & H1 & H2). injection H2 as <-. change (sorted s1).
      unfold sorted. rewrite (failed_queue _ _ _ _ _ H1). simpl.
      apply rq_sorted_erase, Hs.
  Qed.

Lemma sorted_take_next s : sorted s → sorted (take_next s).2.
  Proof.
    unfold take_next, sorted. intros Hs. destruct (negb (is_running s)); [exact Hs|].
    destruct (ready_queue s) as [|[k job] rest] eqn:Hq; simpl; [rewrite Hq; exact Hs|].
    eapply rq_sorted_tail. exact Hs.
  Qed.

Lemma start_loop_queue n : ∀ i s, ready_queue (start_loop n i s) = ready_queue s.
  Proof.
    induction n as [|n IH]; intros i s; simpl; [reflexivity|].
    destruct (_ && _); [rewrite IH|]; reflexivity.
  Qed.

  (** The ready queue of every reachable loader is in key order. *)
Lemma reachable_sorted max_threads_ c :
    reachable J getExceptionMessage max_threads_ c → sorted (loader c).
  Proof.
    induction 1 as [|c c' _ IH Hstep]; [constructor|].
    destruct Hstep as [fuel jobs p s s' ex lg _ H|fuel job p s s' ex lg H
                      |fuel job s s' ex lg H|s ex lg|s ex lg
                      |fuel executed next s s' ex lg _ H]; simpl in *.
    - eapply sorted_schedule; eauto.
    - eapply sorted_prioritize; eauto.
    - eapply sorted_remove_job; eauto.
    - unfold sorted, start. rewrite start_loop_queue. exact IH.
    - exact IH.
    - unfold worker_iteration in H. apply bind_Ok in H as (s1 & H1 & H2).
      injection H2 as H2. replace s' with (take_next s1).2 by (rewrite H2; reflexivity).
      apply sorted_take_next.
      destruct executed as [[job thrown]|]; [|injection H1 as <-; exact IH].
      eapply sorted_handle_executed; eauto.
  Qed.
End QueueSorted.

(** ** Priority inheritance *)

Section Prioritize.
Variable J : LoadJobPtr → LoadJob.

Lemma prio_step_refl p s : prio_step J p s s.
  Proof.
    constructor; auto.
    - intros x i Hx. exists i. repeat split; auto.
    - intros x i i' d id H1 H2 Hne. congruence.
  Qed.

Lemma prio_step_trans p a b c :
    prio_step J p a b → prio_step J p b c → prio_step J p a c.
  Proof.
    intros [A1 A2 A3 A4 A5 A6 A7 A8] [B1 B2 B3 B4 B5 B6 B7 B8]. constructor.
    - intros x i Ha. destruct (A1 _ _ Ha) as (i1 & Hb & E1 & E2 & E3 & Hp1).
      destruct (B1 _ _ Hb) as (i2 & Hc & F1 & F2 & F3 & Hp2).
      exists i2. repeat split; try congruence. lia.
    - auto.
    - intros x i i2 d id Ha Hc Hne Hd Hdc.
      destruct (A1 _ _ Ha) as (i1 & Hb & _ & _ & _ & Hp1).
      destruct (decide (Info.priority i1 = Info.priority i)) as [E|E].
      + eapply B3; eauto. congruence.
      + destruct (scheduled_jobs b !! d) as [idb|] eqn:Hdb.
        * pose proof (A3 _ _ _ _ _ Ha Hb E Hd Hdb) as Hle.
          destruct (B1 _ _ Hdb) as (id' & Hdc' & _ & _ & _ & Hp2).
          assert (id' = id) by congruence. subst id'. lia.
        * rewrite (B2 _ Hdb) in Hdc. discriminate.
    - intros x. destruct (A4 x), (B4 x). split; congruence.
    - congruence.
    - congruence.
    - congruence.
    - destruct A8, B8. split; congruence.
  Qed.

Lemma job_state_set_ready_queue q s x : job_state (set_ready_queue q s) x = job_state s x.
  Proof. reflexivity. Qed.

  (** Raising one job, before the recursion. *)
Lemma raise_lookup job p info s x :
    scheduled_jobs s !! job = Some info →
    scheduled_jobs (raise job p info s) !! x =
    if decide (x = job) then Some (Info.set_priority p info) else scheduled_jobs s !! x.
  Proof.
    intros Hj. unfold raise. simpl. rewrite (info_at_lookup _ _ _ Hj).
    destruct (decide (x = job)) as [->|Hne].
    - apply lookup_insert_eq.
    - apply lookup_insert_ne. congruence.
  Qed.

Lemma prioritize_spec fuel : ∀ job p s s',
    prioritize J fuel job p s = Ok s' →
    prio_step J p s s' ∧
    (∀ i', scheduled_jobs s' !! job = Some i' → p ≤ Info.priority i').
  Proof.
    induction fuel as [|fuel IH]; intros job p s s' H; [discriminate|].
    rewrite prioritize_S in H. destruct (scheduled_jobs s !! job) as [info|] eqn:Hj.
    2: { injection H as <-. split; [apply prio_step_refl|]. intros i' Hi'. congruence. }
    destruct (Info.priority info >=? p) eqn:Hge.
    { injection H as <-. split; [apply prio_step_refl|]. intros i' Hi'.
      assert (i' = info) by congruence. subst. lia. }
    apply (for_each_rel (prio_step J p)
             (λ d t, ∀ id, scheduled_jobs t !! d = Some id → p ≤ Info.priority id))
      in H as [HR Hdeps].
    2: { apply prio_step_refl. }
    2: { apply prio_step_trans. }
    2: { intros d t t' HP Ht id Hid. destruct (scheduled_jobs t !! d) as [id0|] eqn:Hd0.
         - destruct (ps_fwd _ _ _ _ Ht _ _ Hd0) as (id' & Hid' & _ & _ & _ & Hp).
           pose proof (HP _ eq_refl). assert (id' = id) by congruence. subst. lia.
         - rewrite (ps_bwd _ _ _ _ Ht _ Hd0) in Hid. discriminate. }
    2: { intros d t t' _ Hb. apply IH. exact Hb. }
    set (s1 := raise job p info s) in *.
    assert (L : ∀ x, scheduled_jobs s1 !! x =
                if decide (x = job) then Some (Info.set_priority p info)
                else scheduled_jobs s !! x).
    { intros x. apply raise_lookup. exact Hj. }
    destruct HR as [R1 R2 R3 R4 R5 R6 R7 R8].
    assert (Hjob : ∀ i', scheduled_jobs s' !! job = Some i' → Info.priority i' = p).
    { intros i' Hi'. destruct (R1 job (Info.set_priority p info)) as (i2 & H2 & _ & _ & _ & Hp).
      - rewrite L. destruct (decide (job = job)); [reflexivity|contradiction].
      - assert (i2 = i') by congruence. subst. simpl in Hp. lia. }
    split; [|intros i' Hi'; rewrite (Hjob _ Hi'); lia].
    constructor.
    - intros x i Hx. destruct (decide (x = job)) as [->|Hne].
      + assert (i = info) by congruence. subst i.
        destruct (R1 job (Info.set_priority p info)) as (i2 & H2 & E1 & E2 & E3 & Hp).
        { rewrite L. destruct (decide (job = job)); [reflexivity|contradiction]. }
        exists i2. simpl in *. repeat split; try assumption. right. lia.
      + apply R1. rewrite L. destruct (decide (x = job)); [contradiction|exact Hx].
    - intros x Hx. apply R2. rewrite L. destruct (decide (x = job)) as [->|Hne]; [congruence|exact Hx].
    - intros x i i' d id Hx Hx' Hne Hd Hdi. destruct (decide (x = job)) as [->|Hnej].
      + eapply Hdeps; eauto.
      + apply (R3 x i i' d id); try assumption.
        rewrite L. destruct (decide (x = job)); [contradiction|exact Hx].
    - intros x. destruct (R4 x) as [E1 E2]. rewrite E1, E2. unfold s1, raise.
      rewrite job_state_set_ready_queue, job_state_update_job.
      destruct (decide (x = job)) as [->|_]; split; reflexivity.
    - rewrite R5. reflexivity.
    - rewrite R6. reflexivity.
    - rewrite R7. reflexivity.
    - destruct R8 as [E1 E2]. rewrite E1, E2. split; reflexivity.
  Qed.

  (** *** [prioritize] returns *)

Lemma below_raise job p info s :
    scheduled_jobs s !! job = Some info → Info.priority info < p →
    (below p (scheduled_jobs (raise job p info s)) + 1 = below p (scheduled_jobs s))%nat.
  Proof.
    intros Hj Hlt. unfold raise. simpl. rewrite (info_at_lookup _ _ _ Hj).
    unfold below. rewrite weigh_insert, (weigh_delete _ _ _ _ Hj). simpl.
    destruct (Z.ltb_spec p p); [lia|]. destruct (Z.ltb_spec (Info.priority info) p); lia.
  Qed.

Lemma prioritize_enough fuel : ∀ job p s,
    (below p (scheduled_jobs s) < fuel)%nat →
    ∃ s', prioritize J fuel job p s = Ok s' ∧
          (below p (scheduled_jobs s') ≤ below p (scheduled_jobs s))%nat.
  Proof.
    induction fuel as [|fuel IH]; intros job p s Hlt; [lia|].
    rewrite prioritize_S. destruct (scheduled_jobs s !! job) as [info|] eqn:Hj.
    2: { exists s. split; [reflexivity|lia]. }
    destruct (Info.priority info >=? p) eqn:Hge.
    { exists s. split; [reflexivity|lia]. }
    assert (Hp : Info.priority info < p) by lia.
    pose proof (below_raise job p info s Hj Hp) as Hb.
    assert (Hloop : ∀ l t, (below p (scheduled_jobs t) < fuel)%nat →
              ∃ t', for_each (λ dep, prioritize J fuel dep p) l t = Ok t' ∧
                    (below p (scheduled_jobs t') ≤ below p (scheduled_jobs t))%nat).
    { induction l as [|x l IHl]; intros t Ht; simpl.
      - exists t. split; [reflexivity|lia].
      - destruct (IH x p t Ht) as (t1 & H1 & Hle1). rewrite H1. simpl.
        destruct (IHl t1) as (t2 & H2 & Hle2); [lia|].
        exists t2. split; [exact H2|lia]. }
    destruct (Hloop (dependencies (J job)) (raise job p info s)) as (s' & Hs' & Hle); [lia|].
    exists s'. split; [exact Hs'|lia].
  Qed.

  (** With the fuel [prioritize_fuel] provides, [prioritize] returns. *)
Lemma prioritize_total job p s : ∃ s', prioritize J (prioritize_fuel p s) job p s = Ok s'.
  Proof.
    destruct (prioritize_enough (prioritize_fuel p s) job p s) as (s' & H & _);
      [unfold prioritize_fuel; lia|eauto].
  Qed.

  (** *** [prioritize] keeps the graph and the queue consistent *)

Lemma prio_step_rev p s s' x i' :
    prio_step J p s s' → scheduled_jobs s' !! x = Some i' →
    ∃ i, scheduled_jobs s !! x = Some i ∧
         Info.dependencies_left i' = Info.dependencies_left i ∧
         Info.ready_seqno i' = Info.ready_seqno i ∧
         Info.dependent_jobs i' = Info.dependent_jobs i ∧
         (Info.priority i' = Info.priority i ∨ (Info.priority i < p ∧ Info.priority i' = p)).
  Proof.
    intros HS Hx. destruct (scheduled_jobs s !! x) as [i|] eqn:Hs.
    - destruct (ps_fwd _ _ _ _ HS _ _ Hs) as (i2 & H2 & E). exists i.
      assert (i2 = i') by congruence. subst. auto.
    - rewrite (ps_bwd _ _ _ _ HS _ Hs) in Hx. discriminate.
  Qed.

Lemma prio_step_linkedb p s s' a x :
    prio_step J p s s' → linkedb s' a x = linkedb s a x.
  Proof.
    intros HS. unfold linkedb. destruct (scheduled_jobs s !! a) as [i|] eqn:Hs.
    - destruct (ps_fwd _ _ _ _ HS _ _ Hs) as (i2 & -> & _ & _ & -> & _). reflexivity.
    - rewrite (ps_bwd _ _ _ _ HS _ Hs). reflexivity.
  Qed.

Lemma prio_step_pending p s s' x : prio_step J p s s' → pending s' x ↔ pending s x.
  Proof.
    intros HS. split.
    - intros [i' Hi']. destruct (prio_step_rev _ _ _ _ _ HS Hi') as (i & Hi & _). exists i. exact Hi.
    - intros [i Hi]. destruct (ps_fwd _ _ _ _ HS _ _ Hi) as (i' & Hi' & _). exists i'. exact Hi'.
  Qed.

Lemma prio_step_graph_ok p s s' : prio_step J p s s' → graph_ok J s → graph_ok J s'.
  Proof.
    intros HS [G1 G2 G3 G4 G5]. constructor.
    - intros a x (i' & Ha & Hx). destruct (prio_step_rev _ _ _ _ _ HS Ha) as (i & Hi & _ & _ & E & _).
      rewrite (prio_step_pending _ _ _ _ HS). apply G1. exists i. rewrite <- E. auto.
    - intros a i' Ha. destruct (prio_step_rev _ _ _ _ _ HS Ha) as (i & Hi & _ & _ & E & _).
      rewrite E. eauto.
    - intros x i' Hx. destruct (prio_step_rev _ _ _ _ _ HS Hx) as (i & Hi & E & _).
      rewrite E, (G3 _ _ Hi). unfold registered_count. do 2 f_equal.
      apply list_filter_iff. intros a. rewrite (prio_step_linkedb _ _ _ _ _ HS). reflexivity.
    - intros x Hx. rewrite (prio_step_pending _ _ _ _ HS). apply G4.
      rewrite <- (ps_finished _ _ _ _ HS). exact Hx.
    - intros x Hx. rewrite (proj1 (ps_heap _ _ _ _ HS x)). apply G5.
      rewrite <- (ps_finished _ _ _ _ HS). exact Hx.
  Qed.
End Prioritize.

(** ** The ready queue agrees with the pending map *)

Lemma elem_of_rq_erase k q e : e ∈ rq_erase k q ↔ e ∈ q ∧ e.1 ≠ k.
Proof.
  unfold rq_erase. rewrite list_elem_of_filter, ReadyKeyFacts.equiv_false.
  split; intros [H1 H2]; split; auto.
Qed.

Lemma elem_of_rq_emplace_inv k v q e : e ∈ rq_emplace k v q → e = (k, v) ∨ e ∈ q.
Proof.
  induction q as [|[k' v'] q IH]; simpl.
  - intros H. apply list_elem_of_singleton in H. auto.
  - destruct (ReadyKey.ltb k k'); [|destruct (ReadyKey.ltb k' k)].
    + intros H. apply elem_of_cons in H as [H|H]; auto.
    + intros H. apply elem_of_cons in H as [H|H].
      * right. rewrite H. left.
      * destruct (IH H) as [?|?]; auto. right. right. assumption.
    + auto.
Qed.

Lemma elem_of_rq_emplace_old k v q e : e ∈ q → e ∈ rq_emplace k v q.
Proof.
  induction q as [|[k' v'] q IH]; simpl; intros H.
  - inversion H.
  - destruct (ReadyKey.ltb k k'); [|destruct (ReadyKey.ltb k' k)].
    + right. exact H.
    + apply elem_of_cons in H as [->|H]; [left|right; auto].
    + exact H.
Qed.

Lemma elem_of_rq_emplace_new k v q : (∀ v', (k, v') ∉ q) → (k, v) ∈ rq_emplace k v q.
Proof.
  induction q as [|[k' v'] q IH]; simpl; intros H.
  - left.
  - destruct (ReadyKey.ltb k k') eqn:E1; [left|].
    destruct (ReadyKey.ltb k' k) eqn:E2.
    + right. apply IH. intros v2 Hin. apply (H v2). right. exact Hin.
    + exfalso. apply (H v'). assert (k = k') as ->; [|left].
      apply ReadyKeyFacts.equiv_eq. unfold ReadyKey.equiv. rewrite E1, E2. reflexivity.
Qed.

Lemma elem_of_rq_emplace k v q e :
  (∀ v', (k, v') ∉ q) → e ∈ rq_emplace k v q ↔ e = (k, v) ∨ e ∈ q.
Proof.
  intros H. split; [apply elem_of_rq_emplace_inv|].
  intros [->|Hin]; [apply elem_of_rq_emplace_new, H|apply elem_of_rq_emplace_old, Hin].
Qed.

Lemma waiting_insert_same R (m : gmap LoadJobPtr Info.t) x i i' :
  m !! x = Some i → Info.dependencies_left i' = Info.dependencies_left i →
  waiting R (<[x := i']> m) = waiting R m.
Proof.
  intros Hx E. unfold waiting. rewrite weigh_insert, (weigh_delete _ _ _ _ Hx).
  unfold waits. rewrite E. reflexivity.
Qed.

Lemma key_inj i i' :
  Info.key i = Info.key i' →
  Info.priority i = Info.priority i' ∧ Info.ready_seqno i = Info.ready_seqno i'.
Proof. unfold Info.key. intros H. injection H. auto. Qed.

Lemma queue_ok_raise n slack R job p info s :
  queue_ok n slack R s → scheduled_jobs s !! job = Some info → Info.priority info < p →
  queue_ok n slack R (raise job p info s).
Proof.
  intros [Q1 Q2 Q3 Q4 Q5 Q6 Q7] Hj Hp.
  assert (L : ∀ x, scheduled_jobs (raise job p info s) !! x =
                   if decide (x = job) then Some (Info.set_priority p info)
                   else scheduled_jobs s !! x).
  { intros x. apply raise_lookup. exact Hj. }
  assert (Lrev : ∀ x i', scheduled_jobs (raise job p info s) !! x = Some i' →
                 ∃ i, scheduled_jobs s !! x = Some i ∧
                      Info.ready_seqno i' = Info.ready_seqno i ∧
                      Info.dependencies_left i' = Info.dependencies_left i).
  { intros x i' Hx. rewrite L in Hx. destruct (decide (x = job)) as [->|Hne].
    - injection Hx as <-. exists info. auto.
    - exists i'. auto. }
  constructor.
  - apply sorted_raise. exact Q1.
  - intros k x. unfold raise at 1. simpl.
    destruct (Info.ready_seqno info =? 0) eqn:E.
    + apply Z.eqb_eq in E. rewrite Q2. split.
      * intros (i & Hi & Hs & Hk). rewrite L.
        destruct (decide (x = job)) as [->|Hne]; [congruence|eauto].
      * intros (i' & Hi' & Hs & Hk). rewrite L in Hi'.
        destruct (decide (x = job)) as [->|Hne]; [|eauto].
        injection Hi' as <-. simpl in Hs. contradiction.
    + apply Z.eqb_neq in E.
      rewrite elem_of_rq_emplace.
      2: { intros v' Hin. apply elem_of_rq_erase in Hin as [Hin _].
           apply Q2 in Hin as (iv & Hv & Hsv & Hkv). apply key_inj in Hkv as [Hkp Hks].
           simpl in Hkp, Hks. assert (v' = job) as -> by (eapply Q3; eauto; congruence).
           assert (iv = info) by congruence. subst. lia. }
      rewrite elem_of_rq_erase, Q2, L. split.
      * intros [Heq|[(i & Hi & Hs & Hk) Hne]].
        -- injection Heq as -> ->. destruct (decide (job = job)); [|contradiction].
           eexists. split; [reflexivity|]. split; [exact E|reflexivity].
        -- destruct (decide (x = job)) as [->|Hnej]; [|eauto].
           exfalso. apply Hne. simpl. congruence.
      * intros (i' & Hi' & Hs & Hk). destruct (decide (x = job)) as [->|Hnej].
        -- injection Hi' as <-. left. rewrite Hk. reflexivity.
        -- right. split; [eauto|]. simpl. intros Heq. apply Hnej.
           rewrite Hk in Heq. apply key_inj in Heq as [_ Hks].
           eapply Q3; eauto.
  - intros x y ix iy Hx Hy Heq Hnz.
    destruct (Lrev _ _ Hx) as (jx & Hjx & Ex & _), (Lrev _ _ Hy) as (jy & Hjy & Ey & _).
    eapply Q3; eauto; congruence.
  - intros x i' Hx. destruct (Lrev _ _ Hx) as (i & Hi & E & _). rewrite E.
    unfold raise. simpl. eauto.
  - intros x i' Hx Hs. destruct (Lrev _ _ Hx) as (i & Hi & E1 & E2). rewrite E2.
    eapply Q5; eauto. congruence.
  - unfold raise. simpl. rewrite (info_at_lookup _ _ _ Hj).
    rewrite (waiting_insert_same R _ _ info); [exact Q6|exact Hj|reflexivity].
  - unfold raise. simpl. exact Q7.
Qed.

Lemma queue_ok_prioritize J n slack R fuel : ∀ job p s s',
  prioritize J fuel job p s = Ok s' → queue_ok n slack R s → queue_ok n slack R s'.
Proof.
  induction fuel as [|fuel IH]; intros job p s s' H Hs; [discriminate|].
  rewrite prioritize_S in H. destruct (scheduled_jobs s !! job) as [info|] eqn:Hj;
    [|injection H as <-; exact Hs].
  destruct (Info.priority info >=? p) eqn:Hge; [injection H as <-; exact Hs|].
  revert H. apply for_each_inv.
  - intros x t t' Ht Hb. eapply IH; eauto.
  - apply queue_ok_raise; [exact Hs|exact Hj|lia].
Qed.

Lemma wrap64_small z : 0 ≤ z < UInt64_modulus → wrap64 z = z.
Proof. intros H. unfold wrap64. apply Z.mod_small. exact H. Qed.

(** Changing the potential alone. *)
Lemma queue_ok_potential n slack R n' slack' R' s :
  queue_ok n slack R s →
  last_ready_seqno s + Z.of_nat (waiting R' (scheduled_jobs s)) + slack' ≤ n' →
  n' < UInt64_modulus →
  queue_ok n' slack' R' s.
Proof.
  intros [Q1 Q2 Q3 Q4 Q5 Q6 Q7] H Hn. constructor; auto. split; [apply Q7|exact Hn].
Qed.

(** An assignment to the entry of a pending job that leaves its priority and
    its stamp alone. *)
Lemma queue_ok_set_info n slack R slack' x i i' s :
  queue_ok n slack R s → scheduled_jobs s !! x = Some i →
  Info.priority i' = Info.priority i → Info.ready_seqno i' = Info.ready_seqno i →
  (Info.ready_seqno i ≠ 0 → Info.dependencies_left i' = 0) →
  last_ready_seqno s + Z.of_nat (waiting R (<[x := i']> (scheduled_jobs s))) + slack' ≤ n →
  queue_ok n slack' R (set_scheduled (<[x := i']> (scheduled_jobs s)) s).
Proof.
  intros [Q1 Q2 Q3 Q4 Q5 Q6 Q7] Hx Hp Hs Hd Hpot.
  assert (Lrev : ∀ y j', <[x := i']> (scheduled_jobs s) !! y = Some j' →
                 ∃ j, scheduled_jobs s !! y = Some j ∧ Info.key j' = Info.key j ∧
                      (Info.ready_seqno j ≠ 0 → Info.dependencies_left j' = 0)).
  { intros y j' Hy. destruct (decide (y = x)) as [->|Hne].
    - rewrite lookup_insert_eq in Hy. injection Hy as <-. exists i.
      split; [exact Hx|]. split; [unfold Info.key; congruence|exact Hd].
    - rewrite lookup_insert_ne in Hy by congruence. exists j'. split; [exact Hy|].
      split; [reflexivity|]. intros Hnz. eapply Q5; eauto. }
  assert (Lfwd : ∀ y j, scheduled_jobs s !! y = Some j →
                 ∃ j', <[x := i']> (scheduled_jobs s) !! y = Some j' ∧ Info.key j' = Info.key j).
  { intros y j Hy. destruct (decide (y = x)) as [->|Hne].
    - rewrite lookup_insert_eq. exists i'. split; [reflexivity|].
      assert (j = i) by congruence. subst. unfold Info.key. congruence.
    - rewrite lookup_insert_ne by congruence. eauto. }
  constructor; simpl.
  - exact Q1.
  - intros k y. rewrite Q2. split.
    + intros (j & Hj & Hnz & Hk). destruct (Lfwd _ _ Hj) as (j' & Hj' & Hkey).
      exists j'. split; [exact Hj'|]. apply key_inj in Hkey as [? ?].
      split; [congruence|]. unfold Info.key in *. congruence.
    + intros (j' & Hj' & Hnz & Hk). destruct (Lrev _ _ Hj') as (j & Hj & Hkey & _).
      exists j. split; [exact Hj|]. apply key_inj in Hkey as [? ?].
      split; [congruence|]. unfold Info.key in *. congruence.
  - intros y z jy jz Hy Hz Heq Hnz.
    destruct (Lrev _ _ Hy) as (ky & Hky & Ey & _), (Lrev _ _ Hz) as (kz & Hkz & Ez & _).
    apply key_inj in Ey as [_ Ey]. apply key_inj in Ez as [_ Ez].
    eapply Q3; eauto; congruence.
  - intros y j' Hy. destruct (Lrev _ _ Hy) as (j & Hj & Ej & _).
    apply key_inj in Ej as [_ Ej]. rewrite Ej. eauto.
  - intros y j' Hy Hnz. destruct (Lrev _ _ Hy) as (j & Hj & Ej & Hd').
    apply key_inj in Ej as [_ Ej]. apply Hd'. congruence.
  - exact Hpot.
  - exact Q7.
Qed.

(** [enqueue] of a pending job that carries no stamp and waits for nothing. *)
Lemma queue_ok_enqueue n slack R x i s :
  queue_ok n (slack + 1) R s → 0 ≤ slack →
  scheduled_jobs s !! x = Some i →
  Info.ready_seqno i = 0 → Info.dependencies_left i = 0 →
  queue_ok n slack R (enqueue x s).
Proof.
  intros [Q1 Q2 Q3 Q4 Q5 Q6 Q7] Hslack Hx Hs Hd.
  assert (Hc : wrap64 (last_ready_seqno s + 1) = last_ready_seqno s + 1).
  { apply wrap64_small. pose proof (Nat2Z.is_nonneg (waiting R (scheduled_jobs s))). lia. }
  set (i' := Info.set_ready_seqno (last_ready_seqno s + 1) i).
  assert (Hsched : scheduled_jobs (enqueue x s) = <[x := i']> (scheduled_jobs s)).
  { unfold enqueue, update_info, info_at. simpl. rewrite Hx, Hc. simpl.
    destruct (_ && _); reflexivity. }
  assert (Hqueue : ready_queue (enqueue x s) = rq_emplace (Info.key i') x (ready_queue s)).
  { unfold enqueue, update_info, info_at. simpl. rewrite lookup_insert_eq, Hx, Hc. simpl.
    destruct (_ && _); reflexivity. }
  assert (Hlast : last_ready_seqno (enqueue x s) = last_ready_seqno s + 1).
  { unfold enqueue. rewrite Hc. destruct (_ && _); reflexivity. }
  assert (Hfresh : ∀ v', (Info.key i', v') ∉ ready_queue s).
  { intros v' Hin. apply Q2 in Hin as (j & Hj & _ & Hk). apply key_inj in Hk as [_ Hk].
    simpl in Hk. pose proof (Q4 _ _ Hj). lia. }
  assert (L : ∀ y, scheduled_jobs (enqueue x s) !! y =
                   if decide (y = x) then Some i' else scheduled_jobs s !! y).
  { intros y. rewrite Hsched. destruct (decide (y = x)) as [->|Hne].
    - apply lookup_insert_eq.
    - apply lookup_insert_ne. congruence. }
  constructor.
  - rewrite Hqueue. apply rq_sorted_emplace, Q1.
  - intros k y. rewrite Hqueue, (elem_of_rq_emplace _ _ _ _ Hfresh), Q2, L. split.
    + intros [Heq|(j & Hj & Hnz & Hk)].
      * injection Heq as -> ->. destruct (decide (x = x)); [|contradiction].
        exists i'. split; [reflexivity|]. split; [simpl; lia|reflexivity].
      * destruct (decide (y = x)) as [->|Hne]; [congruence|eauto].
    + intros (j & Hj & Hnz & Hk). destruct (decide (y = x)) as [->|Hne].
      * injection Hj as <-. left. rewrite Hk. reflexivity.
      * right. eauto.
  - intros y z jy jz Hy Hz Heq Hnz. rewrite L in Hy, Hz.
    destruct (decide (y = x)) as [->|Hy'], (decide (z = x)) as [->|Hz']; auto.
    + injection Hy as <-. simpl in Heq. pose proof (Q4 _ _ Hz). lia.
    + injection Hz as <-. simpl in Heq. pose proof (Q4 _ _ Hy). lia.
    + eapply Q3; eauto.
  - intros y j Hy. rewrite Hlast. rewrite L in Hy. destruct (decide (y = x)) as [->|Hne].
    + injection Hy as <-. simpl. lia.
    + pose proof (Q4 _ _ Hy). lia.
  - intros y j Hy Hnz. rewrite L in Hy. destruct (decide (y = x)) as [->|Hne].
    + injection Hy as <-. simpl. exact Hd.
    + eapply Q5; eauto.
  - rewrite Hlast, Hsched. rewrite (waiting_insert_same R _ _ i); [lia|exact Hx|reflexivity].
  - rewrite Hlast. split; [lia|apply Q7].
Qed.

Lemma queue_ok_update_job n slack R f job s :
  queue_ok n slack R s → queue_ok n slack R (update_job f job s).
Proof. intros [Q1 Q2 Q3 Q4 Q5 Q6 Q7]. constructor; assumption. Qed.

Lemma queue_ok_set_finished n slack R f s :
  queue_ok n slack R s → queue_ok n slack R (set_finished f s).
Proof. intros [Q1 Q2 Q3 Q4 Q5 Q6 Q7]. constructor; assumption. Qed.

(** ** The stamps only grow *)

Lemma stamps_step_refl s : stamps_step s s.
Proof. constructor; [lia|]. intros y i' Hy _. left. eauto. Qed.

Lemma stamps_step_trans a b c : stamps_step a b → stamps_step b c → stamps_step a c.
Proof.
  intros [A1 A2] [B1 B2]. constructor; [lia|].
  intros y i' Hy Hnz. destruct (B2 y i' Hy Hnz) as [(ib & Hib & E)|Hlt]; [|right; lia].
  destruct (A2 y ib Hib) as [(ia & Hia & E')|Hlt]; [congruence| |right; lia].
  left. exists ia. split; [exact Hia|congruence].
Qed.

(** An operation that hands out no stamp. *)
Lemma stamps_step_ext s s' :
  last_ready_seqno s' = last_ready_seqno s →
  (∀ y i', scheduled_jobs s' !! y = Some i' → Info.ready_seqno i' ≠ 0 →
     ∃ i, scheduled_jobs s !! y = Some i ∧ Info.ready_seqno i = Info.ready_seqno i') →
  stamps_step s s'.
Proof. intros E H. constructor; [lia|]. intros y i' Hy Hnz. left. eauto. Qed.


(** [enqueue] hands out the next value of the counter. *)
Lemma enqueue_stamps x i s :
  scheduled_jobs s !! x = Some i →
  0 ≤ last_ready_seqno s → last_ready_seqno s + 1 < UInt64_modulus →
  stamps_step s (enqueue x s).
Proof.
  intros Hx H0 Hn.
  assert (Hw : wrap64 (last_ready_seqno s + 1) = last_ready_seqno s + 1)
    by (apply wrap64_small; lia).
  assert (Hc : last_ready_seqno (enqueue x s) = last_ready_seqno s + 1).
  { unfold enqueue. destruct (_ && _); simpl; exact Hw. }
  constructor; [lia|]. intros y i' Hy Hnz.
  assert (Hl : scheduled_jobs (enqueue x s) !! y =
               if decide (y = x) then Some (Info.set_ready_seqno (last_ready_seqno s + 1) i)
               else scheduled_jobs s !! y).
  { unfold enqueue, update_info, info_at. destruct (_ && _); simpl; rewrite Hx, Hw; simpl;
      (destruct (decide (y = x)) as [->|Hne];
        [apply lookup_insert_eq|apply lookup_insert_ne; congruence]). }
  rewrite Hl in Hy. destruct (decide (y = x)) as [->|Hne].
  - injection Hy as <-. right. simpl. lia.
  - left. eauto.
Qed.

Lemma prio_step_stamps J p s s' : prio_step J p s s' → stamps_step s s'.
Proof.
  intros HS. apply stamps_step_ext; [apply (ps_seqno _ _ _ _ HS)|].
  intros y i' Hy _. destruct (scheduled_jobs s !! y) as [i|] eqn:Hs.
  - destruct (ps_fwd _ _ _ _ HS _ _ Hs) as (i2 & H2 & _ & E & _).
    exists i. split; [reflexivity|]. congruence.
  - rewrite (ps_bwd _ _ _ _ HS _ Hs) in Hy. discriminate.
Qed.


(** ** Successful completion *)

Lemma waiting_insert R (m : gmap LoadJobPtr Info.t) x i i' :
  m !! x = Some i →
  (waiting R (<[x := i']> m) + waits R x i = waiting R m + waits R x i')%nat.
Proof.
  intros Hx. unfold waiting. rewrite weigh_insert, (weigh_delete _ _ _ _ Hx). lia.
Qed.

Lemma enqueue_other x s :
  heap (enqueue x s) = heap s ∧ finished_jobs (enqueue x s) = finished_jobs s ∧
  is_running (enqueue x s) = is_running s.
Proof. unfold enqueue. destruct (_ && _); simpl; auto. Qed.

Lemma enqueue_lookup x i s y :
  scheduled_jobs s !! x = Some i →
  scheduled_jobs (enqueue x s) !! y =
  if decide (y = x)
  then Some (Info.set_ready_seqno (wrap64 (last_ready_seqno s + 1)) i)
  else scheduled_jobs s !! y.
Proof.
  intros Hx.
  assert (scheduled_jobs (enqueue x s) =
          <[x := Info.set_ready_seqno (wrap64 (last_ready_seqno s + 1)) i]> (scheduled_jobs s)) as ->.
  { unfold enqueue, update_info, info_at. simpl. rewrite Hx. simpl.
    destruct (_ && _); reflexivity. }
  destruct (decide (y = x)) as [->|Hne].
  - apply lookup_insert_eq.
  - apply lookup_insert_ne. congruence.
Qed.

(** One pass of the loop of [loaded], for a dependent that waits for at least
    one prerequisite. *)
Lemma loaded_dep_spec n x i s :
  queue_ok n 0 [] s → scheduled_jobs s !! x = Some i →
  1 ≤ Info.dependencies_left i < UInt64_modulus →
  queue_ok n 0 [] (loaded_dep x s) ∧ load_step [x] s (loaded_dep x s).
Proof.
  intros HQ Hx Hd.
  assert (Hs0 : Info.ready_seqno i = 0).
  { destruct (decide (Info.ready_seqno i = 0)) as [E|E]; [exact E|].
    pose proof (q_ready _ _ _ _ HQ _ _ Hx E). lia. }
  assert (Hw : wrap64 (Info.dependencies_left i - 1) = Info.dependencies_left i - 1).
  { apply wrap64_small. lia. }
  set (i1 := Info.set_dependencies_left (Info.dependencies_left i - 1) i).
  set (s1 := set_scheduled (<[x := i1]> (scheduled_jobs s)) s).
  assert (Hs1 : update_info
                  (Info.set_dependencies_left (wrap64 (Info.dependencies_left (info_at s x) - 1)))
                  x s = s1).
  { unfold update_info. rewrite (info_at_lookup _ _ _ Hx), Hw. reflexivity. }
  assert (Hx1 : scheduled_jobs s1 !! x = Some i1) by apply lookup_insert_eq.
  pose proof (waiting_insert [] (scheduled_jobs s) x i i1 Hx) as Hwait.
  assert (Hin : waits [] x i = 1%nat).
  { unfold waits. rewrite bool_decide_eq_true_2; [reflexivity|left; lia]. }
  rewrite Hin in Hwait.
  assert (Hst1 : stamps_step s s1).
  { apply stamps_step_ext; [reflexivity|]. intros y j Hy _. unfold s1 in Hy. simpl in Hy.
    destruct (decide (y = x)) as [->|Hne].
    - rewrite lookup_insert_eq in Hy. injection Hy as <-. exists i. auto.
    - rewrite lookup_insert_ne in Hy by congruence. eauto. }
  unfold loaded_dep. rewrite Hs1, (info_at_lookup _ _ _ Hx), Hw.
  destruct (Z.eqb_spec (Info.dependencies_left i - 1) 0) as [E0|E0].
  - assert (Hq1 : queue_ok n 1 [] s1).
    { apply (queue_ok_set_info n 0 [] 1 x i i1 s HQ Hx); try reflexivity.
      - intros; contradiction.
      - assert (waits [] x i1 = 0%nat) as Hf.
        { unfold waits. rewrite bool_decide_eq_false_2; [reflexivity|].
          intros [H|H]; [simpl in H; lia|inversion H]. }
        rewrite Hf in Hwait. pose proof (q_potential _ _ _ _ HQ). lia. }
    split.
    + apply (queue_ok_enqueue n 0 [] x i1 s1 Hq1); [lia|exact Hx1|exact Hs0|exact E0].
    + destruct (enqueue_other x s1) as (E1 & E2 & E3). constructor.
      * intros y j Hy. rewrite (enqueue_lookup x i1 s1 y Hx1).
        destruct (decide (y = x)) as [->|Hne].
        -- assert (j = i) by congruence. subst j. eexists. split; [reflexivity|]. simpl.
           destruct (decide (x ∈ [x])) as [_|Hn]; [|exfalso; apply Hn; left].
           repeat split; auto. intros Hn. exfalso. apply Hn. left.
        -- unfold s1. simpl. rewrite lookup_insert_ne by congruence. exists j.
           destruct (decide (y ∈ [x])) as [Hy'|_];
             [apply list_elem_of_singleton in Hy'; contradiction|]. auto.
      * intros y Hy. rewrite (enqueue_lookup x i1 s1 y Hx1).
        destruct (decide (y = x)) as [->|Hne]; [congruence|].
        unfold s1. simpl. rewrite lookup_insert_ne by congruence. exact Hy.
      * rewrite E1. reflexivity.
      * rewrite E2. reflexivity.
      * rewrite E3. reflexivity.
      * apply (stamps_step_trans _ s1); [exact Hst1|].
        pose proof (q_bound _ _ _ _ Hq1) as [? ?]. pose proof (q_potential _ _ _ _ Hq1).
        apply (enqueue_stamps x i1 s1 Hx1); lia.
  - split.
    + apply (queue_ok_set_info n 0 [] 0 x i i1 s HQ Hx); try reflexivity.
      * intros; contradiction.
      * assert (waits [] x i1 = 1%nat) as Hf.
        { unfold waits. rewrite bool_decide_eq_true_2; [reflexivity|left; simpl; exact E0]. }
        rewrite Hf in Hwait. pose proof (q_potential _ _ _ _ HQ). lia.
    + constructor; try reflexivity.
      * intros y j Hy. unfold s1. simpl. destruct (decide (y = x)) as [->|Hne].
        -- rewrite lookup_insert_eq. assert (j = i) by congruence. subst j.
           exists i1. split; [reflexivity|]. simpl.
           destruct (decide (x ∈ [x])) as [_|Hn]; [|exfalso; apply Hn; left].
           repeat split; auto.
        -- rewrite lookup_insert_ne by congruence. exists j.
           destruct (decide (y ∈ [x])) as [Hy'|_];
             [apply list_elem_of_singleton in Hy'; contradiction|]. auto.
      * intros y Hy. unfold s1. simpl. destruct (decide (y = x)) as [->|Hne]; [congruence|].
        rewrite lookup_insert_ne by congruence. exact Hy.
      * exact Hst1.
Qed.

Lemma load_step_nil s : load_step [] s s.
Proof.
  constructor; auto; [|apply stamps_step_refl]. intros y i Hy. exists i.
  destruct (decide (y ∈ [])) as [H|_]; [inversion H|]. auto.
Qed.

Lemma load_step_cons x l a b c :
  x ∉ l → load_step [x] a b → load_step l b c → load_step (x :: l) a c.
Proof.
  intros Hx [A1 A2 A3 A4 A5 A6] [B1 B2 B3 B4 B5 B6]. constructor; try congruence.
  3: { eapply stamps_step_trans; eauto. }
  - intros y i Hy. destruct (A1 _ _ Hy) as (i1 & H1 & P1 & D1 & L1 & S1).
    destruct (B1 _ _ H1) as (i2 & H2 & P2 & D2 & L2 & S2).
    exists i2. split; [exact H2|]. split; [congruence|]. split; [congruence|]. split.
    + rewrite L2, L1. destruct (decide (y = x)) as [->|Hne].
      * destruct (decide (x ∈ l)); [contradiction|].
        destruct (decide (x ∈ [x])) as [_|Hn]; [|exfalso; apply Hn; left].
        destruct (decide (x ∈ x :: l)) as [_|Hn]; [reflexivity|exfalso; apply Hn; left].
      * destruct (decide (y ∈ [x])) as [Hy'|_];
          [apply list_elem_of_singleton in Hy'; contradiction|].
        destruct (decide (y ∈ l)) as [Hl|Hl];
          destruct (decide (y ∈ x :: l)) as [Hl'|Hl']; try reflexivity.
        -- exfalso. apply Hl'. right. exact Hl.
        -- exfalso. apply elem_of_cons in Hl' as [?|?]; auto.
    + intros Hn. rewrite S2, S1; [reflexivity| |].
      * intros H. apply Hn. apply list_elem_of_singleton in H. subst. left.
      * intros H. apply Hn. right. exact H.
  - auto.
Qed.

(** The whole loop of [loaded]. *)
Lemma loaded_deps_spec n : ∀ l s,
  NoDup l → queue_ok n 0 [] s →
  (∀ x, x ∈ l → ∃ i, scheduled_jobs s !! x = Some i ∧
                     1 ≤ Info.dependencies_left i < UInt64_modulus) →
  queue_ok n 0 [] (foldl (λ s dep, loaded_dep dep s) s l) ∧
  load_step l s (foldl (λ s dep, loaded_dep dep s) s l).
Proof.
  induction l as [|x l IH]; intros s Hnd HQ Hl; simpl.
  - split; [exact HQ|apply load_step_nil].
  - apply NoDup_cons in Hnd as [Hx Hnd].
    destruct (Hl x) as (i & Hi & Hd); [left|].
    destruct (loaded_dep_spec n x i s HQ Hi Hd) as [HQ1 HS1].
    destruct (IH (loaded_dep x s) Hnd HQ1) as [HQ2 HS2].
    { intros y Hy. destruct (Hl y) as (j & Hj & Hdj); [right; exact Hy|].
      destruct (ls_fwd _ _ _ HS1 _ _ Hj) as (j1 & Hj1 & _ & _ & L1 & _).
      exists j1. split; [exact Hj1|]. rewrite L1.
      destruct (decide (y ∈ [x])) as [Hy'|_]; [|exact Hdj].
      apply list_elem_of_singleton in Hy'. subst. contradiction. }
    split; [exact HQ2|]. eapply load_step_cons; eauto.
Qed.

Lemma loaded_unfold job info s :
  scheduled_jobs s !! job = Some info →
  loaded job s =
  finish job (foldl (λ s dep, loaded_dep dep s) (update_job setSuccess job s)
                (Info.dependent_jobs info)).
Proof.
  intros Hj. unfold loaded.
  assert (update_info id job (update_job setSuccess job s) = update_job setSuccess job s) as ->.
  { unfold update_info, info_at. simpl. rewrite Hj. simpl. rewrite (insert_id _ _ _ Hj).
    destruct s; reflexivity. }
  unfold info_at. simpl. rewrite Hj. reflexivity.
Qed.

(** Dropping a pending job that carries no stamp keeps the queue consistent. *)
Lemma queue_ok_finish n slack R x s :
  queue_ok n slack R s →
  (∀ i, scheduled_jobs s !! x = Some i → Info.ready_seqno i = 0) →
  queue_ok n slack R (finish x s).
Proof.
  intros [Q1 Q2 Q3 Q4 Q5 Q6 Q7] Hx.
  assert (L : ∀ y j, delete x (scheduled_jobs s) !! y = Some j ↔
                     y ≠ x ∧ scheduled_jobs s !! y = Some j).
  { intros y j. destruct (decide (y = x)) as [->|Hne].
    - rewrite lookup_delete_eq. split; [discriminate|intros [? _]; contradiction].
    - rewrite lookup_delete_ne by congruence. tauto. }
  constructor; simpl.
  - exact Q1.
  - intros k y. rewrite Q2. split.
    + intros (j & Hj & Hnz & Hk). exists j. rewrite L. repeat split; auto.
      intros ->. apply Hnz, Hx. exact Hj.
    + intros (j & Hj & Hnz & Hk). apply L in Hj as [_ Hj]. eauto.
  - intros y z jy jz Hy Hz. apply L in Hy as [_ Hy]. apply L in Hz as [_ Hz]. eauto.
  - intros y j Hy. apply L in Hy as [_ Hy]. eauto.
  - intros y j Hy. apply L in Hy as [_ Hy]. eauto.
  - pose proof (weigh_delete_le (waits R) (scheduled_jobs s) x). unfold waiting in *. lia.
  - exact Q7.
Qed.

Lemma linkedb_true s a x : linkedb s a x = true ↔ linked s a x.
Proof.
  unfold linkedb, linked. destruct (scheduled_jobs s !! a) as [i|].
  - rewrite bool_decide_eq_true. split; [eauto|]. intros (j & Hj & Hx). congruence.
  - split; [discriminate|]. intros (j & Hj & _). discriminate.
Qed.

Lemma length_filter_drop {A} `{EqDecision A} (P Q : A → Prop)
    `{!∀ x, Decision (P x)} `{!∀ x, Decision (Q x)} (l : list A) (j : A) :
  NoDup l → (∀ a, a ∈ l → (Q a ↔ P a ∧ a ≠ j)) →
  length (filter P l) =
  (length (filter Q l) + (if decide (j ∈ l ∧ P j) then 1 else 0))%nat.
Proof.
  induction l as [|a l IH]; intros Hnd HQ.
  - simpl. destruct (decide (j ∈ [] ∧ P j)) as [[Hm _]|_]; [inversion Hm|reflexivity].
  - apply NoDup_cons in Hnd as [Ha Hnd].
    specialize (IH Hnd (λ b Hb, HQ b (list_elem_of_further _ _ _ Hb))).
    pose proof (HQ a (list_elem_of_here _ _)) as Ha'.
    assert (Hiff : j ∈ a :: l ∧ P j ↔ (a = j ∧ P j) ∨ (j ∈ l ∧ P j)).
    { rewrite elem_of_cons. split.
      - intros [[->|?] ?]; auto.
      - intros [[-> ?]|[? ?]]; auto. }
    rewrite !filter_cons. destruct (decide (a = j)) as [->|Hne].
    + destruct (decide (Q j)) as [Hq|Hq]; [apply Ha' in Hq as [_ ?]; contradiction|].
      destruct (decide (j ∈ l ∧ P j)) as [[? _]|_]; [contradiction|].
      destruct (decide (P j)) as [Hp|Hp];
        destruct (decide (j ∈ j :: l ∧ P j)) as [Hal|Hal]; simpl; rewrite IH;
        try lia; exfalso.
      * apply Hal, Hiff. auto.
      * destruct Hal as [_ ?]. contradiction.
    + assert (Hsame : j ∈ a :: l ∧ P j ↔ j ∈ l ∧ P j).
      { rewrite Hiff. split; [intros [[? _]|?]; [contradiction|assumption]|auto]. }
      destruct (decide (P a)) as [Hp|Hp]; destruct (decide (Q a)) as [Hq|Hq];
        try (exfalso; tauto); simpl; rewrite IH;
        destruct (decide (j ∈ l ∧ P j)) as [Hl|Hl];
        destruct (decide (j ∈ a :: l ∧ P j)) as [Hal|Hal]; try lia; exfalso; tauto.
Qed.

Section Loaded.
Variable J : LoadJobPtr → LoadJob.
Hypothesis J_wf : jobs_wf J.

Lemma registered_count_bound s x : 0 ≤ registered_count J s x < UInt64_modulus.
  Proof.
    unfold registered_count. destruct (J_wf x) as [_ Hlen].
    pose proof (length_filter (λ p, linkedb s p x = true) (dependencies (J x))). lia.
  Qed.

Lemma registered_count_pos s a x :
    linked s a x → a ∈ dependencies (J x) → 1 ≤ registered_count J s x.
  Proof.
    intros Hl Ha. unfold registered_count.
    assert (a ∈ filter (λ p, linkedb s p x = true) (dependencies (J x))) as Hin.
    { apply list_elem_of_filter. split; [apply linkedb_true; exact Hl|exact Ha]. }
    destruct (filter _ _) as [|b l]; [inversion Hin|]. simpl. lia.
  Qed.

Lemma registered_count_zero s x :
    registered_count J s x = 0 → ∀ a, a ∈ dependencies (J x) → ¬ linked s a x.
  Proof.
    intros H0 a Ha Hl. pose proof (registered_count_pos s a x Hl Ha). lia.
  Qed.

Lemma load_step_rev l s s' y i' :
    load_step l s s' → scheduled_jobs s' !! y = Some i' →
    ∃ i, scheduled_jobs s !! y = Some i ∧
         Info.priority i' = Info.priority i ∧
         Info.dependent_jobs i' = Info.dependent_jobs i ∧
         Info.dependencies_left i' =
           (if decide (y ∈ l) then Info.dependencies_left i - 1 else Info.dependencies_left i) ∧
         (y ∉ l → Info.ready_seqno i' = Info.ready_seqno i).
  Proof.
    intros HS Hy. destruct (scheduled_jobs s !! y) as [i|] eqn:Hs.
    - destruct (ls_fwd _ _ _ HS _ _ Hs) as (i2 & H2 & E). exists i.
      assert (i2 = i') by congruence. subst. auto.
    - rewrite (ls_bwd _ _ _ HS _ Hs) in Hy. discriminate.
  Qed.

  (** [loaded] of a pending job that waits for nothing and is not in the
      ready queue keeps the graph and the queue consistent. *)
Lemma loaded_spec n job info s :
    graph_ok J s → queue_ok n 0 [] s →
    scheduled_jobs s !! job = Some info →
    Info.dependencies_left info = 0 → Info.ready_seqno info = 0 →
    graph_ok J (loaded job s) ∧ queue_ok n 0 [] (loaded job s) ∧
    ∃ s2, load_step (Info.dependent_jobs info) (update_job setSuccess job s) s2 ∧
          loaded job s = finish job s2.
  Proof.
    intros HG HQ Hj Hd Hs. rewrite (loaded_unfold _ _ _ Hj).
    set (l := Info.dependent_jobs info) in *.
    set (s0 := update_job setSuccess job s).
    destruct HG as [G1 G2 G3 G4 G5].
    assert (Hl : ∀ x, x ∈ l → ∃ i, scheduled_jobs s0 !! x = Some i ∧
                       1 ≤ Info.dependencies_left i < UInt64_modulus).
    { intros x Hx. assert (linked s job x) as Hlk by (exists info; auto).
      destruct (G1 _ _ Hlk) as [[i Hi] Hdep]. exists i. split; [exact Hi|].
      rewrite (G3 _ _ Hi). pose proof (registered_count_pos s job x Hlk Hdep).
      pose proof (registered_count_bound s x). lia. }
    destruct (loaded_deps_spec n l s0 (G2 _ _ Hj) (queue_ok_update_job _ _ _ _ _ _ HQ) Hl)
      as [HQ2 HS2].
    set (s2 := foldl (λ s dep, loaded_dep dep s) s0 l) in *.
    assert (Hno : ∀ a, ¬ linked s a job).
    { intros a Hlk. destruct (G1 _ _ Hlk) as [_ Hdep].
      pose proof (registered_count_pos s a job Hlk Hdep). rewrite <- (G3 _ _ Hj) in H. lia. }
    assert (L : ∀ y i', scheduled_jobs (finish job s2) !! y = Some i' ↔
                        y ≠ job ∧ scheduled_jobs s2 !! y = Some i').
    { intros y i'. simpl. destruct (decide (y = job)) as [->|Hne].
      - rewrite lookup_delete_eq. split; [discriminate|intros [? _]; contradiction].
      - rewrite lookup_delete_ne by congruence. tauto. }
    assert (Hlk : ∀ a x, linked (finish job s2) a x ↔ linked s a x ∧ a ≠ job).
    { intros a x. split.
      - intros (i' & Ha & Hx). apply L in Ha as [Hne Ha].
        destruct (load_step_rev _ _ _ _ _ HS2 Ha) as (i & Hi & _ & E & _).
        split; [|exact Hne]. exists i. rewrite <- E. auto.
      - intros [(i & Hi & Hx) Hne]. destruct (ls_fwd _ _ _ HS2 _ _ Hi) as (i' & Hi' & _ & E & _).
        exists i'. rewrite L, E. auto. }
    assert (Hpend : ∀ x, pending (finish job s2) x ↔ pending s x ∧ x ≠ job).
    { intros x. split.
      - intros [i' Hx]. apply L in Hx as [Hne Hx].
        destruct (load_step_rev _ _ _ _ _ HS2 Hx) as (i & Hi & _). split; [exists i; exact Hi|exact Hne].
      - intros [[i Hi] Hne]. destruct (ls_fwd _ _ _ HS2 _ _ Hi) as (i' & Hi' & _).
        exists i'. apply L. auto. }
    split; [|split].
    - constructor.
      + intros a x Hax. apply Hlk in Hax as [Hax Hne]. destruct (G1 _ _ Hax) as [Hp Hdep].
        split; [|exact Hdep]. apply Hpend. split; [exact Hp|].
        intros ->. exact (Hno _ Hax).
      + intros a i' Ha. apply L in Ha as [_ Ha].
        destruct (load_step_rev _ _ _ _ _ HS2 Ha) as (i & Hi & _ & E & _). rewrite E. eauto.
      + intros y i' Hy. apply L in Hy as [Hne Hy].
        destruct (load_step_rev _ _ _ _ _ HS2 Hy) as (i & Hi & _ & _ & E & _).
        rewrite E, (G3 _ _ Hi). unfold registered_count.
        rewrite (length_filter_drop (λ p, linkedb s p y = true)
                   (λ p, linkedb (finish job s2) p y = true) _ job (proj1 (J_wf y))).
        2: { intros a _. rewrite !linkedb_true. apply Hlk. }
        destruct (decide (y ∈ l)) as [Hyl|Hyl].
        * assert (linked s job y) as Hjy by (exists info; auto).
          destruct (decide (job ∈ dependencies (J y) ∧ linkedb s job y = true)) as [_|Hn].
          -- lia.
          -- exfalso. apply Hn. split; [apply (G1 _ _ Hjy)|apply linkedb_true; exact Hjy].
        * destruct (decide (job ∈ dependencies (J y) ∧ linkedb s job y = true)) as [[_ Hb]|_].
          -- exfalso. apply Hyl. apply linkedb_true in Hb as (i0 & Hi0 & Hin).
             assert (i0 = info) by congruence. subst. exact Hin.
          -- lia.
      + intros x Hx. rewrite Hpend. intros [Hp Hne]. simpl in Hx.
        rewrite (ls_finished _ _ _ HS2) in Hx. apply elem_of_union in Hx as [Hx|Hx].
        * apply elem_of_singleton in Hx. contradiction.
        * exact (G4 _ Hx Hp).
      + intros x Hx. simpl in Hx. rewrite (ls_finished _ _ _ HS2) in Hx.
        unfold job_state. simpl. rewrite (ls_heap _ _ _ HS2).
        fold (job_state s0 x). unfold s0. rewrite job_state_update_job.
        destruct (decide (x = job)) as [->|Hne]; [reflexivity|].
        apply G5. apply elem_of_union in Hx as [Hx|Hx]; [|exact Hx].
        apply elem_of_singleton in Hx. contradiction.
    - apply queue_ok_finish; [exact HQ2|]. intros i' Hi'.
      destruct (load_step_rev _ _ _ _ _ HS2 Hi') as (i & Hi & _ & _ & _ & Hst).
      assert (i = info) by (unfold s0 in Hi; simpl in Hi; congruence).
      subst i. rewrite Hst; [exact Hs|].
      intros Hin. apply (Hno job). exists info. auto.
    - exists s2. split; [exact HS2|reflexivity].
  Qed.
End Loaded.

(** ** Failure keeps the graph and the queue consistent *)

Lemma weigh_mono w' w (m' : gmap LoadJobPtr Info.t) : ∀ m,
  (∀ x i', m' !! x = Some i' → ∃ i, m !! x = Some i ∧ w' x i' = w x i) →
  (weigh w' m' ≤ weigh w m)%nat.
Proof.
  induction m' as [|x i' m0 Hx _ IH] using map_first_key_ind; intros m H.
  - unfold weigh. rewrite map_fold_empty. lia.
  - rewrite (weigh_insert_fresh _ _ _ _ Hx).
    destruct (H x i') as (i & Hi & Hw); [apply lookup_insert_eq|].
    rewrite (weigh_delete _ _ _ _ Hi), Hw.
    apply Nat.add_le_mono_l, IH. intros y j' Hy.
    assert (y ≠ x) as Hne by (intros ->; congruence).
    destruct (H y j') as (j & Hj & Hwj); [rewrite lookup_insert_ne by congruence; exact Hy|].
    exists j. rewrite lookup_delete_ne by congruence. auto.
Qed.

Lemma weigh_ext w w' (m : gmap LoadJobPtr Info.t) :
  (∀ x i, m !! x = Some i → w x i = w' x i) → weigh w m = weigh w' m.
Proof.
  intros H. apply Nat.le_antisymm; apply weigh_mono; intros x i Hx; exists i;
    split; auto. symmetry. auto.
Qed.

Lemma waiting_cons R x i (m : gmap LoadJobPtr Info.t) :
  m !! x = Some i → x ∉ R →
  (waiting (x :: R) m + waits R x i = waiting R m + 1)%nat.
Proof.
  intros Hx HR. unfold waiting. rewrite !(weigh_delete _ _ _ _ Hx).
  rewrite (weigh_ext (waits (x :: R)) (waits R) (delete x m)).
  - assert (waits (x :: R) x i = 1%nat) as ->; [|lia].
    unfold waits. rewrite bool_decide_eq_true_2; [reflexivity|]. right. left.
  - intros y j Hy. assert (y ≠ x) as Hne.
    { intros ->. rewrite lookup_delete_eq in Hy. discriminate. }
    unfold waits. erewrite bool_decide_ext; [reflexivity|]. rewrite elem_of_cons. tauto.
Qed.

Section FailureInvariants.
Variable J : LoadJobPtr → LoadJob.
Hypothesis J_wf : jobs_wf J.

Lemma rtc_linked_end s r x : rtc (linked s) r x → x = r ∨ back_linked s x.
  Proof.
    intros H. apply rtc_inv_r in H as [->|(a & _ & (i & Ha & Hx))]; [auto|].
    right. exists a, i. auto.
  Qed.

Lemma fail_step_invariants (Q : LoadJobPtr → JobState → Prop) (N : LoadJobPtr → Prop)
      n slack R s s' :
    fail_step J Q N s s' → graph_ok J s → queue_ok n slack R s →
    (∀ x st, Q x st → is_finished st = true) →
    (∀ x i, N x → scheduled_jobs s !! x = Some i → Info.ready_seqno i = 0) →
    graph_ok J s' ∧ queue_ok n slack R s'.
  Proof.
    intros [F1 F2 F3 F4 F5 F6 F7 F8 F13 F9 F10 F11 F12] [G1 G2 G3 G4 G5]
           [Q1 Q2 Q3 Q4 Q5 Q6 Q7] HQfin HN.
    assert (Hstamp : ∀ x i, scheduled_jobs s !! x = Some i → ¬ pending s' x →
                            Info.ready_seqno i = 0).
    { intros x i Hx Hgone. destruct (F3 x (ex_intro _ i Hx) Hgone) as (_ & _ & r & Hr & Hpath).
      apply rtc_linked_end in Hpath as [->|(a & ia & Ha & Hin)]; [eapply HN; eauto|].
      destruct (decide (Info.ready_seqno i = 0)) as [E|E]; [exact E|].
      pose proof (Q5 _ _ Hx E) as Hz. rewrite (G3 _ _ Hx) in Hz.
      assert (linked s a x) as Hl by (exists ia; auto).
      pose proof (registered_count_pos J s a x Hl (proj2 (G1 _ _ Hl))). lia. }
    assert (Hlk : ∀ a x, pending s' x → linked s' a x ↔ linked s a x).
    { intros a x Hp. split.
      - intros (i' & Ha & Hx). destruct (F1 _ _ Ha) as (i & Hi & _ & _ & _ & Hs & _).
        exists i. auto.
      - intros (i & Hi & Hx). destruct (scheduled_jobs s' !! a) as [i'|] eqn:Ha.
        + exists i'. split; [exact Ha|].
          destruct (decide (x ∈ Info.dependent_jobs i')) as [Hin|Hin]; [exact Hin|].
          exfalso. exact (F5 _ _ _ _ Hi Ha Hx Hin Hp).
        + exfalso. apply not_pending_None in Ha. exact (F4 _ _ _ Hi Ha Hx Hp). }
    split.
    - constructor.
      + intros a x Hax. destruct Hax as (i' & Ha & Hx).
        destruct (F1 _ _ Ha) as (i & Hi & _ & _ & _ & Hs & _).
        assert (linked s a x) as Hl by (exists i; auto).
        destruct (G1 _ _ Hl) as [Hp Hdep]. split; [|exact Hdep].
        destruct (decide (pending s' x)) as [Hp'|Hp']; [exact Hp'|].
        exfalso. exact (F6 _ _ _ Hp Hp' Hdep Ha Hx).
      + intros a i' Ha. destruct (F1 _ _ Ha) as (i & Hi & _ & _ & _ & _ & Hn). eauto.
      + intros y i' Hy. destruct (F1 _ _ Hy) as (i & Hi & _ & E & _).
        rewrite E, (G3 _ _ Hi). unfold registered_count. do 2 f_equal.
        apply list_filter_iff. intros a. rewrite !linkedb_true.
        symmetry. apply Hlk. exists i'. exact Hy.
      + intros x Hx. destruct (F13 x Hx) as [H|[H _]]; [|exact H].
        intros [i' Hi']. destruct (F1 _ _ Hi') as (i & Hi & _). apply (G4 x H). exists i. exact Hi.
      + intros x Hx. destruct (F13 x Hx) as [H|[_ H]]; [|eapply HQfin; exact H].
        destruct (F2 x) as [E|[H' _]]; [rewrite E; apply G5, H|eapply HQfin; exact H'].
    - constructor.
      + rewrite F9. exact Q1.
      + intros k x. rewrite F9, Q2. split.
        * intros (i & Hi & Hnz & Hk). destruct (scheduled_jobs s' !! x) as [i'|] eqn:Hx.
          -- destruct (F1 _ _ Hx) as (i0 & Hi0 & E1 & _ & E3 & _).
             assert (i0 = i) by congruence. subst i0. exists i'.
             split; [reflexivity|]. split; [congruence|]. subst k. unfold Info.key. f_equal; congruence.
          -- exfalso. apply Hnz. apply (Hstamp _ _ Hi). apply not_pending_None. exact Hx.
        * intros (i' & Hi' & Hnz & Hk). destruct (F1 _ _ Hi') as (i & Hi & E1 & _ & E3 & _).
          exists i. split; [exact Hi|]. split; [congruence|]. subst k. unfold Info.key. f_equal; congruence.
      + intros x y ix iy Hx Hy Heq Hnz.
        destruct (F1 _ _ Hx) as (jx & Hjx & _ & _ & Ex & _).
        destruct (F1 _ _ Hy) as (jy & Hjy & _ & _ & Ey & _).
        eapply Q3; eauto; congruence.
      + intros x i' Hx. destruct (F1 _ _ Hx) as (i & Hi & _ & _ & E & _).
        rewrite E, F10. eauto.
      + intros x i' Hx Hnz. destruct (F1 _ _ Hx) as (i & Hi & _ & E2 & E3 & _).
        rewrite E2. eapply Q5; eauto. congruence.
      + rewrite F10. assert (waiting R (scheduled_jobs s') ≤ waiting R (scheduled_jobs s))%nat.
        { apply weigh_mono. intros x i' Hx.
          destruct (F1 _ _ Hx) as (i & Hi & _ & E2 & _). exists i. split; [exact Hi|].
          unfold waits. rewrite E2. reflexivity. }
        lia.
      + rewrite F10. exact Q7.
  Qed.
End FailureInvariants.

(** ** Taking the next job *)

Section TakeNext.
Variable J : LoadJobPtr → LoadJob.

  (** The graph is consistent as long as the pending jobs, their back-links
      and counters, and the finished set stay what they are. *)
Lemma graph_ok_ext s s' :
    (∀ x i', scheduled_jobs s' !! x = Some i' →
       ∃ i, scheduled_jobs s !! x = Some i ∧
            Info.dependencies_left i' = Info.dependencies_left i ∧
            Info.dependent_jobs i' = Info.dependent_jobs i) →
    (∀ x, scheduled_jobs s' !! x = None → scheduled_jobs s !! x = None) →
    (∀ x, x ∈ finished_jobs s' → x ∈ finished_jobs s) →
    (∀ x, is_finished (job_state s' x) = is_finished (job_state s x)) →
    graph_ok J s → graph_ok J s'.
  Proof.
    intros Hrev Hnone Hfin Hheap [G1 G2 G3 G4 G5].
    assert (Hlk : ∀ a x, linked s' a x ↔ linked s a x).
    { intros a x. split.
      - intros (i' & Ha & Hx). destruct (Hrev _ _ Ha) as (i & Hi & _ & E). exists i.
        rewrite <- E. auto.
      - intros (i & Hi & Hx). destruct (scheduled_jobs s' !! a) as [i'|] eqn:Ha.
        + destruct (Hrev _ _ Ha) as (i0 & Hi0 & _ & E). exists i'.
          split; [exact Ha|]. rewrite E. congruence.
        + rewrite (Hnone _ Ha) in Hi. discriminate. }
    assert (Hp : ∀ x, pending s' x ↔ pending s x).
    { intros x. split.
      - intros [i' Hx]. destruct (Hrev _ _ Hx) as (i & Hi & _). exists i. exact Hi.
      - intros [i Hi]. destruct (scheduled_jobs s' !! x) as [i'|] eqn:Hx; [eexists; eauto|].
        rewrite (Hnone _ Hx) in Hi. discriminate. }
    constructor.
    - intros a x Hax. rewrite Hp. apply G1, Hlk, Hax.
    - intros a i' Ha. destruct (Hrev _ _ Ha) as (i & Hi & _ & E). rewrite E. eauto.
    - intros x i' Hx. destruct (Hrev _ _ Hx) as (i & Hi & E & _).
      rewrite E, (G3 _ _ Hi). unfold registered_count. do 2 f_equal.
      apply list_filter_iff. intros a. rewrite !linkedb_true. symmetry. apply Hlk.
    - intros x Hx. rewrite Hp. apply G4, Hfin, Hx.
    - intros x Hx. rewrite Hheap. apply G5, Hfin, Hx.
  Qed.

Lemma take_next_run s job s' :
    take_next s = (Run job, s') →
    ∃ k rest, ready_queue s = (k, job) :: rest ∧ is_running s = true ∧
      s' = set_scheduled (alter (Info.set_ready_seqno 0) job (scheduled_jobs s))
             (set_ready_queue rest s).
  Proof.
    unfold take_next. destruct (is_running s); simpl; [|discriminate].
    destruct (ready_queue s) as [|[k x] rest]; [discriminate|].
    intros H. injection H as -> <-. eauto.
  Qed.

Lemma take_next_exit s s' :
    take_next s = (Exit, s') → s' = s ∨ s' = set_workers (wrap64 (workers s - 1)) s.
  Proof.
    unfold take_next. destruct (is_running s); simpl; [|intros H; injection H as <-; auto].
    destruct (ready_queue s) as [|[k x] rest]; [|discriminate].
    intros H. injection H as <-. auto.
  Qed.

  (** The worker takes the first entry: the job loses its stamp and stays
      pending. *)
Lemma take_next_spec n slack R s job s' :
    graph_ok J s → queue_ok n slack R s → take_next s = (Run job, s') →
    graph_ok J s' ∧ queue_ok n slack R s' ∧
    ∃ i, scheduled_jobs s !! job = Some i ∧
         Info.ready_seqno i ≠ 0 ∧ Info.dependencies_left i = 0 ∧
         scheduled_jobs s' = <[job := Info.set_ready_seqno 0 i]> (scheduled_jobs s) ∧
         heap s' = heap s ∧ finished_jobs s' = finished_jobs s.
  Proof.
    intros HG HQ Ht. destruct (take_next_run _ _ _ Ht) as (k & rest & Hq & _ & ->).
    pose proof HQ as [Q1 Q2 Q3 Q4 Q5 Q6 Q7].
    destruct (proj1 (Q2 k job)) as (i & Hi & Hnz & Hk); [rewrite Hq; left|].
    assert (Hm : alter (Info.set_ready_seqno 0) job (scheduled_jobs s)
                 = <[job := Info.set_ready_seqno 0 i]> (scheduled_jobs s)).
    { apply map_eq. intros y. destruct (decide (y = job)) as [->|Hne].
      - rewrite lookup_alter_eq, lookup_insert_eq, Hi. reflexivity.
      - rewrite lookup_alter_ne, lookup_insert_ne by congruence. reflexivity. }
    simpl. rewrite Hm.
    assert (L : ∀ y j', <[job := Info.set_ready_seqno 0 i]> (scheduled_jobs s) !! y = Some j' →
                ∃ j, scheduled_jobs s !! y = Some j ∧
                     Info.dependencies_left j' = Info.dependencies_left j ∧
                     Info.dependent_jobs j' = Info.dependent_jobs j ∧
                     Info.priority j' = Info.priority j ∧
                     (y ≠ job → j' = j) ∧ (y = job → Info.ready_seqno j' = 0)).
    { intros y j' Hy. destruct (decide (y = job)) as [->|Hne].
      - rewrite lookup_insert_eq in Hy. injection Hy as <-. exists i. repeat split; auto.
        intros; contradiction.
      - rewrite lookup_insert_ne in Hy by congruence. exists j'. repeat split; auto.
        intros; contradiction. }
    split; [|split].
    - apply (graph_ok_ext s); [| |auto|auto|exact HG].
      + intros y j' Hy. destruct (L _ _ Hy) as (j & Hj & E1 & E2 & _). eauto.
      + intros y Hy. simpl in Hy. destruct (decide (y = job)) as [->|Hne].
        * rewrite lookup_insert_eq in Hy. discriminate.
        * rewrite lookup_insert_ne in Hy by congruence. exact Hy.
    - assert (Hhead : ∀ k' y, (k', y) ∈ rest → ReadyKey.lt k k').
      { intros k' y Hin. eapply rq_sorted_head; [|exact Hin]. rewrite <- Hq. exact Q1. }
      constructor; simpl.
      + eapply rq_sorted_tail. rewrite <- Hq. exact Q1.
      + intros k' y. split.
        * intros Hin. pose proof (Hhead _ _ Hin) as Hlt.
          destruct (proj1 (Q2 k' y)) as (j & Hj & Hjz & Hjk); [rewrite Hq; right; exact Hin|].
          assert (y ≠ job) as Hne.
          { intros ->. assert (j = i) by congruence. subst j.
            rewrite Hjk, <- Hk in Hlt. exact (ReadyKeyFacts.lt_irrefl _ Hlt). }
          exists j. rewrite lookup_insert_ne by congruence. auto.
        * intros (j' & Hj' & Hjz & Hjk). destruct (L _ _ Hj') as (j & Hj & _ & _ & _ & Heq & Hz).
          destruct (decide (y = job)) as [->|Hne]; [rewrite (Hz eq_refl) in Hjz; contradiction|].
          rewrite (Heq Hne) in *.
          assert (Hin : (k', y) ∈ ready_queue s) by (apply Q2; eauto).
          rewrite Hq in Hin. apply elem_of_cons in Hin as [Hin|Hin]; [|exact Hin].
          injection Hin as _ ->. contradiction.
      + intros y z jy jz Hy Hz Heq Hyz.
        destruct (L _ _ Hy) as (ky & Hky & _ & _ & _ & Ey & Zy).
        destruct (L _ _ Hz) as (kz & Hkz & _ & _ & _ & Ez & Zz).
        destruct (decide (y = job)) as [->|Hny]; [rewrite (Zy eq_refl) in Hyz; contradiction|].
        destruct (decide (z = job)) as [->|Hnz'].
        { rewrite (Zz eq_refl) in Heq. congruence. }
        rewrite (Ey Hny) in *. rewrite (Ez Hnz') in *. eapply Q3; eauto.
      + intros y j' Hy. destruct (L _ _ Hy) as (j & Hj & _ & _ & _ & Ey & Zy).
        destruct (decide (y = job)) as [->|Hny].
        * rewrite (Zy eq_refl). lia.
        * rewrite (Ey Hny). eauto.
      + intros y j' Hy Hyz. destruct (L _ _ Hy) as (j & Hj & E & _ & _ & Ey & Zy).
        destruct (decide (y = job)) as [->|Hny]; [rewrite (Zy eq_refl) in Hyz; contradiction|].
        rewrite (Ey Hny) in *. eauto.
      + rewrite (waiting_insert_same R _ _ i); [exact Q6|exact Hi|reflexivity].
      + exact Q7.
    - exists i. repeat split; auto. eapply Q5; eauto.
  Qed.
End TakeNext.

(** ** Scheduling *)

Lemma frame_step_refl p X s : frame_step p X s s.
Proof.
  constructor; auto; [|apply stamps_step_refl].
  intros y i i' H1 H2. assert (i' = i) by congruence. subst.
  split; [lia|auto].
Qed.

Lemma frame_step_trans p X a b c :
  frame_step p X a b → frame_step p X b c → frame_step p X a c.
Proof.
  intros [A1 A2 A3 A4 A5] [B1 B2 B3 B4 B5]. constructor.
  5: { eapply stamps_step_trans; eauto. }
  - intros y. rewrite B1. apply A1.
  - intros y i i2 Ha Hc.
    assert (pending b y) as [i1 Hb] by (apply A1; exists i; exact Ha).
    destruct (A2 _ _ _ Ha Hb) as (P1 & C1 & E1), (B2 _ _ _ Hb Hc) as (P2 & C2 & E2).
    split; [lia|]. split; [auto|]. intros Hy. destruct (E1 Hy), (E2 Hy). split; congruence.
  - intros y. destruct (A3 y), (B3 y). split; congruence.
  - congruence.
Qed.

Lemma frame_step_weaken p X X' s s' :
  (∀ y, y ∈ X → y ∈ X') → frame_step p X s s' → frame_step p X' s s'.
Proof.
  intros HX [A1 A2 A3 A4 A5]. constructor; auto.
  intros y i i' H1 H2. destruct (A2 _ _ _ H1 H2) as (P & C & E).
  split; [exact P|]. split; [exact C|auto].
Qed.

Lemma prio_step_frame J p s s' : prio_step J p s s' → frame_step p [] s s'.
Proof.
  intros HS. constructor.
  - intros y. apply (prio_step_pending J p). exact HS.
  - intros y i i' H1 H2. destruct (ps_fwd _ _ _ _ HS _ _ H1) as (i2 & Hi2 & E1 & E2 & _ & Hp).
    assert (i2 = i') by congruence. subst. split; [lia|]. split; [lia|auto].
  - apply (ps_heap _ _ _ _ HS).
  - apply (ps_finished _ _ _ _ HS).
  - apply (prio_step_stamps J p), HS.
Qed.

Lemma prio_step_linked J p s s' a x : prio_step J p s s' → linked s' a x ↔ linked s a x.
Proof.
  intros HS. rewrite <- !linkedb_true, (prio_step_linkedb J p s s' a x HS). reflexivity.
Qed.

Lemma elem_of_set_insert x y l : x ∈ set_insert y l ↔ x = y ∨ x ∈ l.
Proof.
  unfold set_insert. destruct (decide (y ∈ l)) as [H|H].
  - split; [auto|]. intros [->|?]; auto.
  - rewrite elem_of_app, list_elem_of_singleton. tauto.
Qed.

Lemma NoDup_set_insert y l : NoDup l → NoDup (set_insert y l).
Proof.
  unfold set_insert. intros H. destruct (decide (y ∈ l)) as [Hy|Hy]; [exact H|].
  apply NoDup_app. split; [exact H|]. split.
  - intros x Hx Hx'. apply list_elem_of_singleton in Hx'. subst. contradiction.
  - apply NoDup_singleton.
Qed.

Lemma update_info_lookup f job s i y :
  scheduled_jobs s !! job = Some i →
  scheduled_jobs (update_info f job s) !! y =
  if decide (y = job) then Some (f i) else scheduled_jobs s !! y.
Proof.
  intros Hj. unfold update_info. simpl. rewrite (info_at_lookup _ _ _ Hj).
  destruct (decide (y = job)) as [->|Hne].
  - apply lookup_insert_eq.
  - apply lookup_insert_ne. congruence.
Qed.

Lemma update_info_eq f job s i :
  scheduled_jobs s !! job = Some i →
  update_info f job s = set_scheduled (<[job := f i]> (scheduled_jobs s)) s.
Proof. intros Hj. unfold update_info. rewrite (info_at_lookup _ _ _ Hj). reflexivity. Qed.

Lemma waiting_insert_in R (m : gmap LoadJobPtr Info.t) x i i' :
  m !! x = Some i → x ∈ R → waiting R (<[x := i']> m) = waiting R m.
Proof.
  intros Hx HR. pose proof (waiting_insert R m x i i' Hx) as H.
  unfold waits in H. rewrite !bool_decide_eq_true_2 in H by auto. lia.
Qed.

Section Register.
Variable J : LoadJobPtr → LoadJob.
Hypothesis J_wf : jobs_wf J.

Lemma registered_count_room s dep x :
    dep ∈ dependencies (J x) → ¬ linked s dep x →
    registered_count J s x + 1 < UInt64_modulus.
  Proof.
    intros Hdep Hn. unfold registered_count. destruct (J_wf x) as [_ Hlen].
    assert (length (filter (λ p, linkedb s p x = true) (dependencies (J x)))
            < length (dependencies (J x)))%nat.
    { eapply length_filter_lt; [exact Hdep|]. rewrite linkedb_true. exact Hn. }
    lia.
  Qed.

Lemma register_spec n R p x dep t xi :
    graph_ok J t → queue_ok n 0 R t → x ∈ R →
    scheduled_jobs t !! x = Some xi → Info.ready_seqno xi = 0 →
    dep ∈ dependencies (J x) → ¬ linked t dep x →
    graph_ok J (register x dep t) ∧ queue_ok n 0 R (register x dep t) ∧
    frame_step p [x] t (register x dep t) ∧
    (∀ a y, linked (register x dep t) a y ↔
            linked t a y ∨ (a = dep ∧ y = x ∧ pending t dep)) ∧
    (∃ xi1, scheduled_jobs (register x dep t) !! x = Some xi1 ∧ Info.ready_seqno xi1 = 0) ∧
    (∀ y i i', scheduled_jobs t !! y = Some i →
               scheduled_jobs (register x dep t) !! y = Some i' →
               Info.priority i' = Info.priority i).
  Proof.
    intros HG HQ HR Hx Hs Hdep Hnl. unfold register.
    destruct (scheduled_jobs t !! dep) as [di|] eqn:Hd.
    2: { split; [exact HG|]. split; [exact HQ|]. split; [apply frame_step_refl|].
         split; [|split; [eauto|intros; congruence]]. intros a y. split; [auto|].
         intros [H|(_ & _ & [? ?])]; [exact H|congruence]. }
    set (di' := Info.set_dependent_jobs (set_insert x (Info.dependent_jobs di)) di).
    set (ta := update_info (Info.set_dependent_jobs (set_insert x (Info.dependent_jobs di))) dep t).
    assert (La : ∀ y, scheduled_jobs ta !! y =
                      if decide (y = dep) then Some di' else scheduled_jobs t !! y).
    { intros y. unfold ta. rewrite (update_info_lookup _ _ _ _ y Hd). reflexivity. }
    set (xa := if decide (x = dep) then di' else xi).
    assert (Hxa : scheduled_jobs ta !! x = Some xa).
    { rewrite La. unfold xa. destruct (decide (x = dep)); [reflexivity|exact Hx]. }
    assert (Hxa_left : Info.dependencies_left xa = Info.dependencies_left xi).
    { unfold xa. destruct (decide (x = dep)) as [->|_]; [|reflexivity].
      assert (di = xi) by congruence. subst. reflexivity. }
    assert (Hxa_stamp : Info.ready_seqno xa = 0).
    { unfold xa. destruct (decide (x = dep)) as [->|_]; [|exact Hs].
      assert (di = xi) by congruence. subst. exact Hs. }
    assert (Hxa_prio : Info.priority xa = Info.priority xi).
    { unfold xa. destruct (decide (x = dep)) as [->|_]; [|reflexivity].
      assert (di = xi) by congruence. subst. reflexivity. }
    pose proof (g_count _ _ HG _ _ Hx) as Hcount.
    pose proof (registered_count_room t dep x Hdep Hnl) as Hroom.
    pose proof (registered_count_bound J J_wf t x) as Hbound.
    assert (Hw : wrap64 (Info.dependencies_left xa + 1) = Info.dependencies_left xi + 1).
    { rewrite Hxa_left. apply wrap64_small. lia. }
    set (f := λ info, Info.set_dependencies_left (wrap64 (Info.dependencies_left info + 1)) info).
    set (t1 := update_info f x ta).
    assert (L1 : ∀ y, scheduled_jobs t1 !! y =
                      if decide (y = x) then Some (f xa) else scheduled_jobs ta !! y).
    { intros y. unfold t1. apply update_info_lookup. exact Hxa. }
    assert (Lrel : ∀ y i', scheduled_jobs t1 !! y = Some i' →
              ∃ i, scheduled_jobs t !! y = Some i ∧
                Info.priority i' = Info.priority i ∧ Info.ready_seqno i' = Info.ready_seqno i ∧
                Info.dependent_jobs i' =
                  (if decide (y = dep) then set_insert x (Info.dependent_jobs i)
                   else Info.dependent_jobs i) ∧
                Info.dependencies_left i' =
                  (if decide (y = x) then Info.dependencies_left i + 1
                   else Info.dependencies_left i)).
    { intros y i' Hy. rewrite L1 in Hy. destruct (decide (y = x)) as [->|Hyx].
      - injection Hy as <-. exists xi. split; [exact Hx|]. unfold f. simpl.
        rewrite Hw, Hxa_prio. split; [reflexivity|]. split; [congruence|]. split; [|reflexivity].
        unfold xa. destruct (decide (x = dep)) as [->|_]; [|reflexivity].
        assert (di = xi) by congruence. subst. reflexivity.
      - rewrite La in Hy. destruct (decide (y = dep)) as [->|Hyd].
        + injection Hy as <-. exists di. auto.
        + exists i'. auto. }
    assert (Lfwd : ∀ y i, scheduled_jobs t !! y = Some i → ∃ i', scheduled_jobs t1 !! y = Some i').
    { intros y i Hy. rewrite L1. destruct (decide (y = x)); [eauto|].
      rewrite La. destruct (decide (y = dep)); eauto. }
    assert (Hpend : ∀ y, pending t1 y ↔ pending t y).
    { intros y. split.
      - intros [i' Hy]. destruct (Lrel _ _ Hy) as (i & Hi & _). exists i. exact Hi.
      - intros [i Hy]. exact (Lfwd _ _ Hy). }
    assert (Hlk : ∀ a y, linked t1 a y ↔ linked t a y ∨ (a = dep ∧ y = x ∧ pending t dep)).
    { intros a y. split.
      - intros (i' & Ha & Hy). destruct (Lrel _ _ Ha) as (i & Hi & _ & _ & E & _).
        rewrite E in Hy. destruct (decide (a = dep)) as [->|Hne].
        + apply elem_of_set_insert in Hy as [->|Hy].
          * right. repeat split. exists di. exact Hd.
          * left. exists i. auto.
        + left. exists i. auto.
      - intros [(i & Hi & Hy)|(-> & -> & _)].
        + destruct (Lfwd _ _ Hi) as (i' & Hi'). exists i'. split; [exact Hi'|].
          destruct (Lrel _ _ Hi') as (i0 & Hi0 & _ & _ & E & _).
          assert (i0 = i) by congruence. subst i0. rewrite E.
          destruct (decide (a = dep)); [apply elem_of_set_insert; auto|exact Hy].
        + destruct (Lfwd _ _ Hd) as (i' & Hi'). exists i'. split; [exact Hi'|].
          destruct (Lrel _ _ Hi') as (i0 & Hi0 & _ & _ & E & _).
          rewrite E. destruct (decide (dep = dep)); [|contradiction].
          apply elem_of_set_insert. auto. }
    split; [|split; [|split; [|split; [exact Hlk|split]]]].
    - destruct HG as [G1 G2 G3 G4 G5]. constructor.
      + intros a y Hay. apply Hlk in Hay as [Hay|(-> & -> & _)].
        * destruct (G1 _ _ Hay) as [Hp Hdy]. split; [apply Hpend; exact Hp|exact Hdy].
        * split; [apply Hpend; exists xi; exact Hx|exact Hdep].
      + intros a i' Ha. destruct (Lrel _ _ Ha) as (i & Hi & _ & _ & E & _). rewrite E.
        destruct (decide (a = dep)); [apply NoDup_set_insert|]; eauto.
      + intros y i' Hy. destruct (Lrel _ _ Hy) as (i & Hi & _ & _ & _ & E). rewrite E.
        rewrite (G3 _ _ Hi). unfold registered_count. destruct (decide (y = x)) as [->|Hyx].
        * rewrite (length_filter_drop (λ p, linkedb t1 p x = true)
                     (λ p, linkedb t p x = true) _ dep (proj1 (J_wf x))).
          2: { intros a _. rewrite !linkedb_true, Hlk. split.
               - intros H. split; [auto|]. intros ->. contradiction.
               - intros [[H|(-> & _)] Hne]; [exact H|contradiction]. }
          destruct (decide (dep ∈ dependencies (J x) ∧ linkedb t1 dep x = true)) as [_|Hn]; [lia|].
          exfalso. apply Hn. split; [exact Hdep|]. apply linkedb_true, Hlk.
          right. repeat split. exists di. exact Hd.
        * do 2 f_equal. apply list_filter_iff. intros a. rewrite !linkedb_true, Hlk.
          split; [auto|intros [H|(_ & -> & _)]; [exact H|contradiction]].
      + intros y Hy. rewrite Hpend. apply G4. exact Hy.
      + intros y Hy. apply G5. exact Hy.
    - assert (HQa : queue_ok n 0 R ta).
      { unfold ta. rewrite (update_info_eq _ _ _ _ Hd).
        apply (queue_ok_set_info n 0 R 0 dep di di' t HQ Hd); try reflexivity.
        - intros Hnz. simpl. eapply q_ready; eauto.
        - rewrite (waiting_insert_same R _ _ di); [apply (q_potential _ _ _ _ HQ)|exact Hd|reflexivity]. }
      unfold t1. rewrite (update_info_eq _ _ _ _ Hxa).
      apply (queue_ok_set_info n 0 R 0 x xa (f xa) ta HQa Hxa); try reflexivity.
      + intros Hnz. contradiction.
      + rewrite (waiting_insert_in R _ _ xa); [apply (q_potential _ _ _ _ HQa)|exact Hxa|exact HR].
    - constructor.
      + exact Hpend.
      + intros y i i' Hy Hy'. destruct (Lrel _ _ Hy') as (i0 & Hi0 & E1 & E2 & _ & E4).
        assert (i0 = i) by congruence. subst i0. split; [lia|]. split; [lia|]. intros Hny.
        split; [exact E2|]. rewrite E4. destruct (decide (y = x)) as [->|_]; [|reflexivity].
        exfalso. apply Hny. left.
      + auto.
      + reflexivity.
      + apply stamps_step_ext; [reflexivity|]. intros y i' Hy _.
        destruct (Lrel _ _ Hy) as (i & Hi & _ & E & _). eauto.
    - exists (f xa). split; [rewrite L1; destruct (decide (x = x)); [reflexivity|contradiction]|].
      exact Hxa_stamp.
    - intros y i i' Hy Hy'. destruct (Lrel _ _ Hy') as (i0 & Hi0 & E & _).
      assert (i0 = i) by congruence. subst. exact E.
  Qed.
End Register.

Section ScheduleDep.
Variable J : LoadJobPtr → LoadJob.
Hypothesis J_wf : jobs_wf J.

  (** [prioritize] restores priority inheritance when the only back-link that
      may break it leads from [root] to a job at [p] or below. *)
Lemma prio_step_prio_ok p root s s' :
    prio_step J p s s' → graph_ok J s →
    (∀ a y ia iy, scheduled_jobs s !! a = Some ia → y ∈ Info.dependent_jobs ia →
                  scheduled_jobs s !! y = Some iy →
                  Info.priority iy ≤ Info.priority ia ∨ (Info.priority iy ≤ p ∧ a = root)) →
    (∀ i', scheduled_jobs s' !! root = Some i' → p ≤ Info.priority i') →
    prio_ok s'.
  Proof.
    intros HS HG Hpre Hroot a y ia' iy' Ha Hy Hyi.
    destruct (prio_step_rev J _ _ _ _ _ HS Ha) as (ia & Hia & _ & _ & Ed & Hpa).
    destruct (prio_step_rev J _ _ _ _ _ HS Hyi) as (iy & Hiy & _ & _ & _ & Hpy).
    rewrite Ed in Hy.
    destruct (decide (Info.priority iy' = Info.priority iy)) as [E|E].
    - destruct (Hpre _ _ _ _ Hia Hy Hiy) as [Hle|[Hle ->]]; [lia|].
      pose proof (Hroot _ Ha). lia.
    - assert (Info.priority iy' = p) as -> by lia.
      assert (linked s a y) as Hl by (exists ia; auto).
      destruct (g_links _ _ HG _ _ Hl) as [_ Hdep].
      exact (ps_closed _ _ _ _ HS _ _ _ _ _ Hiy Hyi E Hdep Ha).
  Qed.

Lemma schedule_dep_spec n R fuel p x dep t t' xi :
    graph_ok J t → queue_ok n 0 R t → prio_ok t → x ∈ R →
    scheduled_jobs t !! x = Some xi → Info.ready_seqno xi = 0 → Info.priority xi ≤ p →
    dep ∈ dependencies (J x) → ¬ linked t dep x →
    schedule_dep J fuel p x dep t = Ok t' →
    graph_ok J t' ∧ queue_ok n 0 R t' ∧ prio_ok t' ∧ frame_step p [x] t t' ∧
    (∀ a y, linked t' a y ↔ linked t a y ∨ (a = dep ∧ y = x ∧ pending t dep)) ∧
    (∃ xi', scheduled_jobs t' !! x = Some xi' ∧ Info.ready_seqno xi' = 0 ∧
            Info.priority xi' ≤ p).
  Proof.
    intros HG HQ HP HR Hx Hs Hxp Hdep Hnl Hrun.
    change (prioritize J fuel dep p (register x dep t) = Ok t') in Hrun.
    destruct (register_spec J J_wf n R p x dep t xi HG HQ HR Hx Hs Hdep Hnl)
      as (HG1 & HQ1 & HF1 & Hlk1 & (xi1 & Hx1 & Hs1) & Hprio1).
    destruct (prioritize_spec J _ _ _ _ _ Hrun) as [HS Hroot].
    pose proof (Hprio1 _ _ _ Hx Hx1) as Hxi1.
    split; [eapply prio_step_graph_ok; eauto|].
    split; [eapply queue_ok_prioritize; eauto|].
    split; [|split; [|split]].
    - apply (prio_step_prio_ok p dep _ _ HS HG1); [|exact Hroot].
      intros a y ia iy Ha Hy Hyi.
      assert (linked (register x dep t) a y) as Hl by (exists ia; auto).
      apply Hlk1 in Hl as [(ia0 & Hia0 & Hy0)|(-> & -> & _)].
      + left.
        assert (pending t y) as [iy0 Hiy0] by (apply (fr_pending _ _ _ _ HF1); exists iy; exact Hyi).
        pose proof (HP _ _ _ _ Hia0 Hy0 Hiy0) as Hle.
        rewrite (Hprio1 _ _ _ Hia0 Ha), (Hprio1 _ _ _ Hiy0 Hyi). exact Hle.
      + right. split; [|reflexivity]. assert (iy = xi1) by congruence. subst. lia.
    - eapply frame_step_trans; [exact HF1|].
      eapply frame_step_weaken; [|eapply prio_step_frame; exact HS]. intros ? H; inversion H.
    - intros a y. rewrite (prio_step_linked J p _ _ a y HS). apply Hlk1.
    - destruct (ps_fwd _ _ _ _ HS _ _ Hx1) as (xi' & Hx' & _ & Es & _ & Hp).
      exists xi'. split; [exact Hx'|]. split; [congruence|]. lia.
  Qed.
End ScheduleDep.

Section ScheduleJob.
Variable J : LoadJobPtr → LoadJob.
Hypothesis J_wf : jobs_wf J.

Lemma schedule_deps_spec n R fuel p x : ∀ ds t t',
    NoDup ds → (∀ d, d ∈ ds → d ∈ dependencies (J x) ∧ ¬ linked t d x) →
    graph_ok J t → queue_ok n 0 R t → prio_ok t → x ∈ R →
    (∃ xi, scheduled_jobs t !! x = Some xi ∧ Info.ready_seqno xi = 0 ∧ Info.priority xi ≤ p) →
    for_each (schedule_dep J fuel p x) ds t = Ok t' →
    graph_ok J t' ∧ queue_ok n 0 R t' ∧ prio_ok t' ∧ frame_step p [x] t t' ∧
    (∀ a y, linked t' a y ↔ linked t a y ∨ (y = x ∧ a ∈ ds ∧ pending t a)) ∧
    (∃ xi', scheduled_jobs t' !! x = Some xi' ∧ Info.ready_seqno xi' = 0 ∧
            Info.priority xi' ≤ p).
  Proof.
    induction ds as [|d ds IH]; intros t t' Hnd Hds HG HQ HP HR Hx Hrun; simpl in Hrun.
    - injection Hrun as <-. split; [exact HG|]. split; [exact HQ|]. split; [exact HP|].
      split; [apply frame_step_refl|]. split; [|exact Hx].
      intros a y. split; [auto|]. intros [H|(_ & H & _)]; [exact H|inversion H].
    - apply bind_Ok in Hrun as (t1 & H1 & H2). apply NoDup_cons in Hnd as [Hd Hnd].
      destruct Hx as (xi & Hx & Hs & Hp). destruct (Hds d) as [Hdd Hdl]; [left|].
      destruct (schedule_dep_spec J J_wf n R fuel p x d t t1 xi HG HQ HP HR Hx Hs Hp Hdd Hdl H1)
        as (HG1 & HQ1 & HP1 & HF1 & Hlk1 & Hx1).
      destruct (IH t1 t' Hnd) as (HG2 & HQ2 & HP2 & HF2 & Hlk2 & Hx2); auto.
      { intros d' Hd'. destruct (Hds d') as [Hdd' Hdl']; [right; exact Hd'|].
        split; [exact Hdd'|]. rewrite Hlk1. intros [H|(-> & _)]; contradiction. }
      split; [exact HG2|]. split; [exact HQ2|]. split; [exact HP2|].
      split; [eapply frame_step_trans; eauto|]. split; [|exact Hx2].
      intros a y. rewrite Hlk2, Hlk1, elem_of_cons, (fr_pending _ _ _ _ HF1). split.
      + intros [[H|(-> & -> & H)]|(-> & H1' & H2')]; auto.
      + intros [H|(-> & [->|H1'] & H2')]; auto.
  Qed.

Lemma prio_ok_sub s s' :
    (∀ y i', scheduled_jobs s' !! y = Some i' →
       ∃ i, scheduled_jobs s !! y = Some i ∧ Info.priority i' = Info.priority i ∧
            (∀ z, z ∈ Info.dependent_jobs i' → z ∈ Info.dependent_jobs i)) →
    prio_ok s → prio_ok s'.
  Proof.
    intros H HP a y ia' iy' Ha Hy Hyi.
    destruct (H _ _ Ha) as (ia & Hia & Ea & Da), (H _ _ Hyi) as (iy & Hiy & Ey & _).
    rewrite Ea, Ey. eapply HP; eauto.
  Qed.

Lemma prio_ok_ext s s' :
    (∀ y i', scheduled_jobs s' !! y = Some i' →
       ∃ i, scheduled_jobs s !! y = Some i ∧ Info.priority i' = Info.priority i ∧
            Info.dependent_jobs i' = Info.dependent_jobs i) →
    prio_ok s → prio_ok s'.
  Proof.
    intros H. apply prio_ok_sub. intros y i' Hy.
    destruct (H _ _ Hy) as (i & Hi & Ep & Ed). exists i. rewrite Ed. auto.
  Qed.

Lemma enqueue_frame p x i t :
    scheduled_jobs t !! x = Some i →
    0 ≤ last_ready_seqno t → last_ready_seqno t + 1 < UInt64_modulus →
    graph_ok J t → prio_ok t →
    graph_ok J (enqueue x t) ∧ prio_ok (enqueue x t) ∧ frame_step p [x] t (enqueue x t) ∧
    (∀ a y, linked (enqueue x t) a y ↔ linked t a y).
  Proof.
    intros Hx Hc0 Hc1 HG HP. destruct (enqueue_other x t) as (E1 & E2 & E3).
    assert (L : ∀ y j', scheduled_jobs (enqueue x t) !! y = Some j' →
                ∃ j, scheduled_jobs t !! y = Some j ∧ Info.priority j' = Info.priority j ∧
                     Info.dependent_jobs j' = Info.dependent_jobs j ∧
                     Info.dependencies_left j' = Info.dependencies_left j ∧
                     (y ≠ x → j' = j)).
    { intros y j' Hy. rewrite (enqueue_lookup x i t y Hx) in Hy.
      destruct (decide (y = x)) as [->|Hne].
      - injection Hy as <-. exists i. repeat split; auto. intros; contradiction.
      - exists j'. repeat split; auto. }
    assert (Lnone : ∀ y, scheduled_jobs (enqueue x t) !! y = None → scheduled_jobs t !! y = None).
    { intros y Hy. rewrite (enqueue_lookup x i t y Hx) in Hy.
      destruct (decide (y = x)); [discriminate|exact Hy]. }
    assert (Hheap : ∀ y, job_state (enqueue x t) y = job_state t y).
    { intros y. unfold job_state. rewrite E1. reflexivity. }
    split; [|split; [|split]].
    - apply (graph_ok_ext J t); auto.
      + intros y j' Hy. destruct (L _ _ Hy) as (j & Hj & _ & Ed & El & _). eauto.
      + intros y. rewrite E2. auto.
      + intros y. rewrite Hheap. reflexivity.
    - apply (prio_ok_ext t); [|exact HP].
      intros y j' Hy. destruct (L _ _ Hy) as (j & Hj & Ep & Ed & _). eauto.
    - constructor.
      + intros y. split.
        * intros [j' Hy]. destruct (L _ _ Hy) as (j & Hj & _). exists j. exact Hj.
        * intros [j Hy]. destruct (scheduled_jobs (enqueue x t) !! y) as [j'|] eqn:Hy';
            [eexists; eauto|]. rewrite (Lnone _ Hy') in Hy. discriminate.
      + intros y j j' Hy Hy'. destruct (L _ _ Hy') as (j0 & Hj0 & Ep & _ & _ & Heq).
        assert (j0 = j) by congruence. subst j0. split; [lia|]. split; [lia|].
        intros Hne. rewrite Heq; [auto|]. intros ->. apply Hne. left.
      + intros y. rewrite Hheap. auto.
      + exact E2.
      + apply (enqueue_stamps x i t Hx); assumption.
    - intros a y. split.
      + intros (j' & Ha & Hy). destruct (L _ _ Ha) as (j & Hj & _ & Ed & _).
        exists j. rewrite <- Ed. auto.
      + intros (j & Ha & Hy). destruct (scheduled_jobs (enqueue x t) !! a) as [j'|] eqn:Ha'.
        * destruct (L _ _ Ha') as (j0 & Hj0 & _ & Ed & _). exists j'.
          split; [exact Ha'|]. rewrite Ed. congruence.
        * rewrite (Lnone _ Ha') in Ha. discriminate.
  Qed.

  (** One job of "Process incoming dependencies". *)
Lemma schedule_job_spec n R' fuel p x t t' :
    x ∉ R' → graph_ok J t → queue_ok n 0 (x :: R') t → prio_ok t →
    (∃ xi, scheduled_jobs t !! x = Some xi ∧ Info.ready_seqno xi = 0 ∧ Info.priority xi ≤ p) →
    (∀ a, ¬ linked t a x) →
    schedule_job J fuel p x t = Ok t' →
    graph_ok J t' ∧ queue_ok n 0 R' t' ∧ prio_ok t' ∧ frame_step p [x] t t' ∧
    (∀ a y, linked t' a y ↔
            linked t a y ∨ (y = x ∧ a ∈ dependencies (J x) ∧ pending t a)) ∧
    (∃ xi', scheduled_jobs t' !! x = Some xi' ∧
            (Info.dependencies_left xi' = 0 → Info.ready_seqno xi' ≠ 0) ∧
            Info.priority xi' ≤ p).
  Proof.
    intros HR HG HQ HP Hx Hnl Hrun. unfold schedule_job in Hrun.
    apply bind_Ok in Hrun as (t2 & Hloop & Hfin). injection Hfin as <-.
    destruct (schedule_deps_spec n (x :: R') fuel p x (dependencies (J x)) t t2)
      as (HG2 & HQ2 & HP2 & HF2 & Hlk2 & (xi2 & Hx2 & Hs2 & Hp2)); auto.
    { apply (J_wf x). }
    { left. }
    rewrite (info_at_lookup _ _ _ Hx2).
    pose proof (waiting_cons R' x xi2 _ Hx2 HR) as Hwait.
    pose proof (q_potential _ _ _ _ HQ2) as Hpot.
    destruct (Z.eqb_spec (Info.dependencies_left xi2) 0) as [E0|E0].
    - assert (waits R' x xi2 = 0%nat) as Hw.
      { unfold waits. rewrite bool_decide_eq_false_2; [reflexivity|]. intros [?|?]; auto. }
      assert (HQ3 : queue_ok n 1 R' t2).
      { apply (queue_ok_potential n 0 (x :: R')); [exact HQ2| |apply (q_bound _ _ _ _ HQ2)]. lia. }
      destruct (enqueue_frame p x xi2 t2 Hx2) as (HG3 & HP3 & HF3 & Hlk3); [| |exact HG2|exact HP2|].
      { apply (q_bound _ _ _ _ HQ3). }
      { pose proof (q_bound _ _ _ _ HQ3) as [? ?]. pose proof (q_potential _ _ _ _ HQ3).
        pose proof (Nat2Z.is_nonneg (waiting R' (scheduled_jobs t2))). lia. }
      pose proof (queue_ok_enqueue n 0 R' x xi2 t2 HQ3 (Z.le_refl 0) Hx2 Hs2 E0) as HQ4.
      split; [exact HG3|]. split; [exact HQ4|]. split; [exact HP3|].
      split; [eapply frame_step_trans; eauto|]. split.
      + intros a y. rewrite Hlk3. apply Hlk2.
      + rewrite (enqueue_lookup x xi2 t2 x Hx2). destruct (decide (x = x)); [|contradiction].
        eexists. split; [reflexivity|]. simpl. split; [|exact Hp2]. intros _.
        rewrite wrap64_small; [pose proof (q_bound _ _ _ _ HQ2); lia|].
        pose proof (q_bound _ _ _ _ HQ3) as [? ?].
        pose proof (q_potential _ _ _ _ HQ3). lia.
    - assert (waits R' x xi2 = 1%nat) as Hw.
      { unfold waits. rewrite bool_decide_eq_true_2; [reflexivity|]. left. exact E0. }
      split; [exact HG2|]. split.
      { apply (queue_ok_potential n 0 (x :: R')); [exact HQ2| |apply (q_bound _ _ _ _ HQ2)]. lia. }
      split; [exact HP2|]. split; [exact HF2|]. split; [exact Hlk2|].
      exists xi2. split; [exact Hx2|]. split; [intros; contradiction|exact Hp2].
  Qed.

  (** The whole of "Process incoming dependencies". *)
Lemma schedule_jobs_spec n fuel p : ∀ R t t',
    NoDup R → graph_ok J t → queue_ok n 0 R t → prio_ok t →
    (∀ x, x ∈ R →
       (∃ xi, scheduled_jobs t !! x = Some xi ∧ Info.ready_seqno xi = 0 ∧
              Info.priority xi ≤ p) ∧
       ∀ a, ¬ linked t a x) →
    for_each (schedule_job J fuel p) R t = Ok t' →
    graph_ok J t' ∧ queue_ok n 0 [] t' ∧ prio_ok t' ∧ frame_step p R t t' ∧
    (∀ a y, linked t' a y ↔
            linked t a y ∨ (y ∈ R ∧ a ∈ dependencies (J y) ∧ pending t a)) ∧
    (∀ x, x ∈ R → ∃ xi', scheduled_jobs t' !! x = Some xi' ∧
                         (Info.dependencies_left xi' = 0 → Info.ready_seqno xi' ≠ 0) ∧
                         Info.priority xi' ≤ p).
  Proof.
    induction R as [|x R' IH]; intros t t' Hnd HG HQ HP Hpre Hrun; simpl in Hrun.
    - injection Hrun as <-. split; [exact HG|]. split; [exact HQ|]. split; [exact HP|].
      split; [apply frame_step_refl|]. split.
      + intros a y. split; [auto|]. intros [H|(H & _)]; [exact H|inversion H].
      + intros x Hx. inversion Hx.
    - apply bind_Ok in Hrun as (t1 & H1 & H2). apply NoDup_cons in Hnd as [Hx Hnd].
      destruct (Hpre x) as [Hxi Hnl]; [left|].
      destruct (schedule_job_spec n R' fuel p x t t1 Hx HG HQ HP Hxi Hnl H1)
        as (HG1 & HQ1 & HP1 & HF1 & Hlk1 & (xi1 & Hx1 & Hz1 & Hp1)).
      destruct (IH t1 t' Hnd HG1 HQ1 HP1) as (HG2 & HQ2 & HP2 & HF2 & Hlk2 & Hfin2); auto.
      { intros y Hy. destruct (Hpre y) as [(yi & Hyi & Hys & Hyp) Hynl]; [right; exact Hy|].
        assert (y ≠ x) as Hne by (intros ->; contradiction).
        assert (pending t1 y) as [yi1 Hyi1] by (apply (fr_pending _ _ _ _ HF1); exists yi; exact Hyi).
        destruct (fr_info _ _ _ _ HF1 _ _ _ Hyi Hyi1) as (_ & Hcap & Hsame).
        destruct Hsame as [Es _]; [intros H; apply list_elem_of_singleton in H; contradiction|].
        split.
        - exists yi1. split; [exact Hyi1|]. split; [congruence|auto].
        - intros a. rewrite Hlk1. intros [H|(-> & _)]; [exact (Hynl a H)|contradiction]. }
      split; [exact HG2|]. split; [exact HQ2|]. split; [exact HP2|]. split; [|split].
      + eapply frame_step_trans.
        * eapply frame_step_weaken; [|exact HF1]. intros y Hy.
          apply list_elem_of_singleton in Hy. subst. left.
        * eapply frame_step_weaken; [|exact HF2]. intros y Hy. right. exact Hy.
      + intros a y. rewrite Hlk2, Hlk1, elem_of_cons, (fr_pending _ _ _ _ HF1). split.
        * intros [[H|(-> & H)]|(H & H')]; auto.
        * intros [H|([->|H] & H')]; auto.
      + intros y Hy. apply elem_of_cons in Hy as [->|Hy]; [|auto].
        assert (pending t' x) as [xi' Hx'] by (apply (fr_pending _ _ _ _ HF2); exists xi1; exact Hx1).
        destruct (fr_info _ _ _ _ HF2 _ _ _ Hx1 Hx') as (_ & Hcap & Hsame).
        destruct (Hsame Hx) as [Es El]. exists xi'. split; [exact Hx'|].
        split; [|auto]. rewrite Es, El. exact Hz1.
  Qed.
End ScheduleJob.

(** "Schedule all incoming jobs": the jobs are not pending yet. *)
Lemma emplace_job_fresh p x s :
  scheduled_jobs s !! x = None →
  scheduled_jobs (emplace_job p x s) = <[x := Info.init p]> (scheduled_jobs s) ∧
  (∀ y, is_finished (job_state (emplace_job p x s) y) = is_finished (job_state s y) ∧
        exception (job_state (emplace_job p x s) y) = exception (job_state s y)) ∧
  finished_jobs (emplace_job p x s) = finished_jobs s ∧
  ready_queue (emplace_job p x s) = ready_queue s ∧
  last_ready_seqno (emplace_job p x s) = last_ready_seqno s.
Proof.
  intros Hx. unfold emplace_job. rewrite Hx. simpl. split; [reflexivity|].
  split; [|auto]. intros y. rewrite job_state_update_job.
  destruct (decide (y = x)) as [->|_]; split; reflexivity.
Qed.

Lemma emplace_jobs_spec p R : ∀ jobs s,
  NoDup jobs → (∀ x, x ∈ jobs → scheduled_jobs s !! x = None ∧ x ∈ R) →
  let s1 := foldl (λ s job, emplace_job p job s) s jobs in
  (∀ y, scheduled_jobs s1 !! y =
        if decide (y ∈ jobs) then Some (Info.init p) else scheduled_jobs s !! y) ∧
  (∀ y, is_finished (job_state s1 y) = is_finished (job_state s y) ∧
        exception (job_state s1 y) = exception (job_state s y)) ∧
  finished_jobs s1 = finished_jobs s ∧ ready_queue s1 = ready_queue s ∧
  last_ready_seqno s1 = last_ready_seqno s ∧
  waiting R (scheduled_jobs s1) = (waiting R (scheduled_jobs s) + length jobs)%nat.
Proof.
  induction jobs as [|x jobs IH]; intros s Hnd Hfresh; simpl.
  - repeat split; auto.
  - apply NoDup_cons in Hnd as [Hx Hnd]. destruct (Hfresh x) as [Hxs HxR]; [left|].
    destruct (emplace_job_fresh p x s Hxs) as (E1 & E2 & E3 & E4 & E5).
    destruct (IH (emplace_job p x s) Hnd) as (F1 & F2 & F3 & F4 & F5 & F6).
    { intros y Hy. destruct (Hfresh y) as [Hys HyR]; [right; exact Hy|]. split; [|exact HyR].
      rewrite E1, lookup_insert_ne; [exact Hys|]. intros ->. contradiction. }
    split; [|split; [|split; [|split; [|split]]]].
    + intros y. rewrite F1, E1. destruct (decide (y = x)) as [->|Hne].
      * destruct (decide (x ∈ jobs)); [contradiction|]. rewrite lookup_insert_eq.
        destruct (decide (x ∈ x :: jobs)) as [_|Hn]; [reflexivity|exfalso; apply Hn; left].
      * rewrite lookup_insert_ne by congruence.
        destruct (decide (y ∈ jobs)) as [Hy|Hy];
          destruct (decide (y ∈ x :: jobs)) as [Hy'|Hy']; try reflexivity.
        -- exfalso. apply Hy'. right. exact Hy.
        -- exfalso. apply elem_of_cons in Hy' as [?|?]; auto.
    + intros y. destruct (F2 y), (E2 y). split; congruence.
    + congruence.
    + congruence.
    + congruence.
    + rewrite F6, E1. unfold waiting. rewrite (weigh_insert_fresh _ _ _ _ Hxs).
      assert (waits R x (Info.init p) = 1%nat) as ->; [|lia].
      unfold waits. rewrite bool_decide_eq_true_2; [reflexivity|]. right. exact HxR.
Qed.

Lemma sanity_checks_pass J s : ∀ jobs,
  for_each (λ job _, sanity_check J s job) jobs tt = Ok tt →
  ∀ x, x ∈ jobs → scheduled_jobs s !! x = None ∧ is_finished (job_state s x) = false.
Proof.
  induction jobs as [|y jobs IH]; intros Hrun x Hx; [inversion Hx|].
  simpl in Hrun. apply bind_Ok in Hrun as ([] & H1 & H2).
  apply elem_of_cons in Hx as [->|Hx]; [|auto].
  unfold sanity_check, status in H1.
  destruct (is_finished (job_state s y)); simpl in H1.
  - destruct (exception (job_state s y)); discriminate.
  - destruct (scheduled_jobs s !! y); [discriminate|auto].
Qed.

Lemma filter_none {A} (P : A → Prop) `{!∀ x, Decision (P x)} (l : list A) :
  (∀ a, a ∈ l → ¬ P a) → filter P l = [].
Proof.
  intros Hnone. destruct (filter P l) as [|b l'] eqn:E; [reflexivity|].
  assert (b ∈ filter P l) as Hb by (rewrite E; left).
  apply list_elem_of_filter in Hb as [Hp Hin]. exfalso. exact (Hnone b Hin Hp).
Qed.

Section ScheduleSpec.
Variable J : LoadJobPtr → LoadJob.
Hypothesis J_wf : jobs_wf J.

  (** A successful [schedule] keeps the graph, the queue and the priorities
      consistent, and does what [scheduled_step] says. *)
Lemma schedule_spec n fuel jobs p s s' :
    NoDup jobs → graph_ok J s → queue_ok n 0 [] s → prio_ok s →
    n + Z.of_nat (length jobs) < UInt64_modulus →
    schedule J fuel jobs p s = Ok s' →
    graph_ok J s' ∧ queue_ok (n + Z.of_nat (length jobs)) 0 [] s' ∧ prio_ok s' ∧
    scheduled_step J jobs p s s'.
  Proof.
    intros Hnd HG HQ HP Hn Hrun. unfold schedule in Hrun.
    apply bind_Ok in Hrun as ([] & Hsan & Hrun). apply bind_Ok in Hrun as (_ & _ & Hrun).
    pose proof (sanity_checks_pass J s jobs Hsan) as Hfresh.
    destruct (emplace_jobs_spec p jobs jobs s Hnd) as (E1 & E2 & E3 & E4 & E5 & E6).
    { intros x Hx. split; [apply (Hfresh x Hx)|exact Hx]. }
    set (s1 := foldl (λ s job, emplace_job p job s) s jobs) in *.
    destruct HG as [G1 G2 G3 G4 G5]. pose proof HQ as [Q1 Q2 Q3 Q4 Q5 Q6 Q7].
    assert (Hnot : ∀ x, x ∈ jobs → ¬ pending s x).
    { intros x Hx [i Hi]. destruct (Hfresh x Hx) as [Hnone _]. congruence. }
    assert (Hlk1 : ∀ a y, linked s1 a y ↔ linked s a y).
    { intros a y. unfold linked. rewrite E1. destruct (decide (a ∈ jobs)) as [Ha|Ha].
      - split.
        + intros (i & Hi & Hy). injection Hi as <-. inversion Hy.
        + intros (i & Hi & _). exfalso. apply (Hnot a Ha). exists i. exact Hi.
      - reflexivity. }
    assert (Hp1 : ∀ y, pending s1 y ↔ pending s y ∨ y ∈ jobs).
    { intros y. unfold pending. rewrite E1. destruct (decide (y ∈ jobs)) as [Hy|Hy].
      - split; [auto|eauto].
      - split; [auto|]. intros [H|H]; [exact H|contradiction]. }
    assert (Hold : ∀ y i, scheduled_jobs s !! y = Some i → scheduled_jobs s1 !! y = Some i).
    { intros y i Hy. rewrite E1. destruct (decide (y ∈ jobs)) as [Hj|_]; [|exact Hy].
      exfalso. apply (Hnot y Hj). exists i. exact Hy. }
    assert (Hrev : ∀ y i, scheduled_jobs s1 !! y = Some i →
                   (y ∈ jobs ∧ i = Info.init p) ∨ ((y ∉ jobs) ∧ scheduled_jobs s !! y = Some i)).
    { intros y i Hy. rewrite E1 in Hy. destruct (decide (y ∈ jobs)); [|auto].
      injection Hy as <-. auto. }
    assert (HG1 : graph_ok J s1).
    { constructor.
      - intros a y Hay. apply Hlk1 in Hay. destruct (G1 _ _ Hay) as [Hp Hd].
        split; [apply Hp1; auto|exact Hd].
      - intros a i Ha. destruct (Hrev _ _ Ha) as [[_ ->]|[_ Hs]]; [apply NoDup_nil_2|eauto].
      - intros y i Hy. unfold registered_count.
        rewrite (list_filter_iff _ (λ a, linkedb s a y = true)).
        2: { intros a. rewrite !linkedb_true. apply Hlk1. }
        destruct (Hrev _ _ Hy) as [[Hj ->]|[_ Hs]]; [|apply (G3 _ _ Hs)].
        rewrite filter_none; [reflexivity|]. intros a _. rewrite linkedb_true. intros Hl.
        apply (Hnot y Hj). apply (G1 _ _ Hl).
      - intros y Hy. rewrite E3 in Hy. rewrite Hp1. intros [H|H]; [exact (G4 _ Hy H)|].
        destruct (Hfresh y H) as [_ Hf]. rewrite (G5 _ Hy) in Hf. discriminate.
      - intros y Hy. rewrite E3 in Hy. rewrite (proj1 (E2 y)). apply G5, Hy. }
    assert (HQ1 : queue_ok (n + Z.of_nat (length jobs)) 0 jobs s1).
    { constructor.
      - rewrite E4. exact Q1.
      - intros k y. rewrite E4, Q2. split.
        + intros (i & Hi & H). exists i. split; [apply Hold; exact Hi|exact H].
        + intros (i & Hi & Hnz & Hk). destruct (Hrev _ _ Hi) as [[_ ->]|[_ Hs]]; [|eauto].
          simpl in Hnz. contradiction.
      - intros y z iy iz Hy Hz Heq Hnz.
        destruct (Hrev _ _ Hy) as [[_ ->]|[_ Hys]]; [simpl in Hnz; contradiction|].
        destruct (Hrev _ _ Hz) as [[_ ->]|[_ Hzs]]; [simpl in Heq; congruence|].
        eapply Q3; eauto.
      - intros y i Hy. rewrite E5. destruct (Hrev _ _ Hy) as [[_ ->]|[_ Hs]]; [|eauto].
        simpl. destruct Q7. lia.
      - intros y i Hy Hnz. destruct (Hrev _ _ Hy) as [[_ ->]|[_ Hs]]; [reflexivity|eauto].
      - rewrite E5, E6. unfold waiting.
        rewrite (weigh_ext (waits jobs) (waits []) (scheduled_jobs s)).
        + unfold waiting in Q6. lia.
        + intros y i Hy. unfold waits. erewrite bool_decide_ext; [reflexivity|].
          split; [intros [H|H]; [auto|]|intros [H|H]; [auto|inversion H]].
          exfalso. apply (Hnot y H). exists i. exact Hy.
      - rewrite E5. split; [apply Q7|exact Hn]. }
    assert (HP1 : prio_ok s1).
    { intros a y ia iy Ha Hy Hyi.
      destruct (Hrev _ _ Ha) as [[_ ->]|[_ Has]]; [inversion Hy|].
      assert (linked s a y) as Hl by (exists ia; auto).
      destruct (G1 _ _ Hl) as [[iy0 Hiy0] _]. pose proof (Hold _ _ Hiy0).
      assert (iy0 = iy) by congruence. subst. eapply HP; eauto. }
    destruct (schedule_jobs_spec J J_wf (n + Z.of_nat (length jobs)) fuel p jobs s1 s'
                Hnd HG1 HQ1 HP1) as (HG2 & HQ2 & HP2 & HF2 & Hlk2 & Hfin2); [|exact Hrun|].
    { intros x Hx. split.
      - exists (Info.init p). rewrite E1. destruct (decide (x ∈ jobs)); [|contradiction].
        simpl. repeat split; auto. lia.
      - intros a. rewrite Hlk1. intros Hl. apply (Hnot x Hx). apply (G1 _ _ Hl). }
    split; [exact HG2|]. split; [exact HQ2|]. split; [exact HP2|]. constructor.
    - intros x Hx. split; [apply Hnot, Hx|apply (Hfresh x Hx)].
    - intros y. rewrite (fr_pending _ _ _ _ HF2). apply Hp1.
    - intros a y. rewrite Hlk2, Hlk1, (fr_pending _ _ _ _ HF2). reflexivity.
    - intros x Hx. destruct (Hfin2 x Hx) as (i' & Hi' & Hz & Hp). exists i'.
      split; [exact Hi'|]. split; [exact Hz|].
      assert (scheduled_jobs s1 !! x = Some (Info.init p)) as Hx1.
      { rewrite E1. destruct (decide (x ∈ jobs)); [reflexivity|contradiction]. }
      destruct (fr_info _ _ _ _ HF2 _ _ _ Hx1 Hi') as (Hle & _). simpl in Hle. lia.
    - intros y i Hy Hs. pose proof (Hold _ _ Hs) as Hs1.
      assert (pending s' y) as [i' Hi'] by (apply (fr_pending _ _ _ _ HF2); exists i; exact Hs1).
      destruct (fr_info _ _ _ _ HF2 _ _ _ Hs1 Hi') as (Hle & _ & Hsame).
      destruct (Hsame Hy) as [Es El]. exists i'. auto.
    - intros y. destruct (fr_heap _ _ _ _ HF2 y) as [F1 F2], (E2 y) as [F3 F4].
      split; congruence.
    - rewrite (fr_finished _ _ _ _ HF2). exact E3.
    - apply (stamps_step_trans _ s1); [|apply (fr_stamps _ _ _ _ HF2)].
      apply stamps_step_ext; [exact E5|]. intros y i Hy Hnz.
      destruct (Hrev _ _ Hy) as [[_ ->]|[_ Hs]]; [simpl in Hnz; contradiction|eauto].
  Qed.
End ScheduleSpec.

(** ** The invariant of the loader, operation by operation *)

Section LoaderOk.
Variable J : LoadJobPtr → LoadJob.
Variable getExceptionMessage : Exception → string.
Hypothesis J_wf : jobs_wf J.

Lemma loader_ok_new max_threads_ : loader_ok J 0 (new_loader max_threads_).
  Proof.
    assert (Hno : ∀ x i, scheduled_jobs (new_loader max_threads_) !! x = Some i → False).
    { intros x i Hi. simpl in Hi. rewrite lookup_empty in Hi. discriminate. }
    split; [|split].
    - constructor.
      + intros a y (i & Hi & _). destruct (Hno _ _ Hi).
      + intros a i Hi. destruct (Hno _ _ Hi).
      + intros a i Hi. destruct (Hno _ _ Hi).
      + intros x Hx. simpl in Hx. apply not_elem_of_empty in Hx. contradiction.
      + intros x Hx. simpl in Hx. apply not_elem_of_empty in Hx. contradiction.
    - constructor.
      + constructor.
      + intros k x. split; [intros H; inversion H|].
        intros (i & Hi & _). destruct (Hno _ _ Hi).
      + intros x y ix iy Hx. destruct (Hno _ _ Hx).
      + intros x i Hx. destruct (Hno _ _ Hx).
      + intros x i Hx. destruct (Hno _ _ Hx).
      + unfold waiting, weigh. simpl. rewrite map_fold_empty. simpl. lia.
      + split; [simpl; lia|reflexivity].
    - intros a y ia iy Ha. destruct (Hno _ _ Ha).
  Qed.

Lemma loader_ok_schedule n fuel jobs p s s' :
    NoDup jobs → loader_ok J n s → n + Z.of_nat (length jobs) < UInt64_modulus →
    schedule J fuel jobs p s = Ok s' →
    loader_ok J (n + Z.of_nat (length jobs)) s' ∧ scheduled_step J jobs p s s'.
  Proof.
    intros Hnd (HG & HQ & HP) Hn Hrun.
    destruct (schedule_spec J J_wf n fuel jobs p s s' Hnd HG HQ HP Hn Hrun) as (H1 & H2 & H3 & H4).
    exact (conj (conj H1 (conj H2 H3)) H4).
  Qed.

Lemma loader_ok_prioritize n fuel job p s s' :
    loader_ok J n s → prioritize J fuel job p s = Ok s' →
    loader_ok J n s' ∧ prio_step J p s s' ∧
    (∀ i', scheduled_jobs s' !! job = Some i' → p ≤ Info.priority i').
  Proof.
    intros (HG & HQ & HP) Hrun. destruct (prioritize_spec J _ _ _ _ _ Hrun) as [HS Hroot].
    split; [|auto]. split; [eapply prio_step_graph_ok; eauto|].
    split; [eapply queue_ok_prioritize; eauto|].
    apply (prio_step_prio_ok J p job s s' HS HG); [|exact Hroot].
    intros a y ia iy Ha Hy Hyi. left. eapply HP; eauto.
  Qed.

Lemma loader_ok_loaded n job info s :
    loader_ok J n s → scheduled_jobs s !! job = Some info →
    Info.dependencies_left info = 0 → Info.ready_seqno info = 0 →
    loader_ok J n (loaded job s) ∧
    ∃ s2, load_step (Info.dependent_jobs info) (update_job setSuccess job s) s2 ∧
          loaded job s = finish job s2.
  Proof.
    intros (HG & HQ & HP) Hj Hd Hs.
    destruct (loaded_spec J J_wf n job info s HG HQ Hj Hd Hs) as (HG' & HQ' & s2 & HS & Heq).
    split; [|eauto]. split; [exact HG'|]. split; [exact HQ'|].
    rewrite Heq. apply (prio_ok_sub s); [|exact HP].
    intros y i' Hy. simpl in Hy. destruct (decide (y = job)) as [->|Hne].
    - rewrite lookup_delete_eq in Hy. discriminate.
    - rewrite lookup_delete_ne in Hy by congruence.
      destruct (load_step_rev _ _ _ _ _ HS Hy) as (i & Hi & Ep & Ed & _).
      exists i. rewrite Ed. auto.
  Qed.

Lemma loader_ok_fail_step (Q : LoadJobPtr → JobState → Prop) (N : LoadJobPtr → Prop) n s s' :
    fail_step J Q N s s' → loader_ok J n s →
    (∀ x st, Q x st → is_finished st = true) →
    (∀ x i, N x → scheduled_jobs s !! x = Some i → Info.ready_seqno i = 0) →
    loader_ok J n s'.
  Proof.
    intros HS (HG & HQ & HP) HQfin HN.
    destruct (fail_step_invariants J Q N n 0 [] s s' HS HG HQ HQfin HN) as [HG' HQ'].
    split; [exact HG'|]. split; [exact HQ'|].
    apply (prio_ok_sub s); [|exact HP]. intros y i' Hy.
    destruct (fs_sched _ _ _ _ _ HS _ _ Hy) as (i & Hi & Ep & _ & _ & Hs & _). eauto.
  Qed.

Lemma loader_ok_failed n fuel job e s s' :
    loader_ok J n s →
    (∀ i, scheduled_jobs s !! job = Some i → Info.ready_seqno i = 0) →
    failed J getExceptionMessage fuel job e s = Ok s' →
    loader_ok J n s'.
  Proof.
    intros Hok Hroot Hrun. destruct (failed_step J getExceptionMessage _ _ _ _ _ Hrun) as (HS & _).
    eapply loader_ok_fail_step; [exact HS|exact Hok| |].
    - intros x st [Hf _]. exact Hf.
    - intros x i -> Hx. eauto.
  Qed.

Lemma loader_ok_take_next n s job s' :
    loader_ok J n s → take_next s = (Run job, s') →
    loader_ok J n s' ∧
    ∃ i, scheduled_jobs s !! job = Some i ∧
         Info.ready_seqno i ≠ 0 ∧ Info.dependencies_left i = 0 ∧
         scheduled_jobs s' = <[job := Info.set_ready_seqno 0 i]> (scheduled_jobs s) ∧
         heap s' = heap s ∧ finished_jobs s' = finished_jobs s.
  Proof.
    intros (HG & HQ & HP) Ht.
    destruct (take_next_spec J n 0 [] s job s' HG HQ Ht) as (HG' & HQ' & i & Hi & Hnz & Hd & Hm & E).
    split; [|exists i; auto]. split; [exact HG'|]. split; [exact HQ'|].
    apply (prio_ok_ext s); [|exact HP]. intros y j' Hy. rewrite Hm in Hy.
    destruct (decide (y = job)) as [->|Hne].
    - rewrite lookup_insert_eq in Hy. injection Hy as <-. exists i. auto.
    - rewrite lookup_insert_ne in Hy by congruence. exists j'. auto.
  Qed.

Lemma loader_ok_frame n s s' :
    scheduled_jobs s' = scheduled_jobs s → ready_queue s' = ready_queue s →
    last_ready_seqno s' = last_ready_seqno s → heap s' = heap s →
    (∀ x, x ∈ finished_jobs s' → x ∈ finished_jobs s) →
    loader_ok J n s → loader_ok J n s'.
  Proof.
    intros E1 E2 E3 E4 E5 ([G1 G2 G3 G4 G5] & [Q1 Q2 Q3 Q4 Q5 Q6 Q7] & HP).
    assert (Hlk : ∀ a y, linked s' a y ↔ linked s a y) by (intros; unfold linked; rewrite E1; tauto).
    assert (Hp : ∀ y, pending s' y ↔ pending s y) by (intros; unfold pending; rewrite E1; tauto).
    split; [|split].
    - constructor.
      + intros a y Hay. rewrite Hp. apply G1, Hlk, Hay.
      + intros a i Ha. rewrite E1 in Ha. eauto.
      + intros y i Hy. rewrite E1 in Hy. rewrite (G3 _ _ Hy). unfold registered_count.
        do 2 f_equal. apply list_filter_iff. intros a. rewrite !linkedb_true. symmetry. apply Hlk.
      + intros y Hy. rewrite Hp. auto.
      + intros y Hy. unfold job_state. rewrite E4. apply G5. auto.
    - constructor; rewrite ?E1, ?E2, ?E3; auto.
    - unfold prio_ok. rewrite E1. exact HP.
  Qed.
End LoaderOk.

(** ** Removing jobs *)

Section Remove.
Variable J : LoadJobPtr → LoadJob.
Variable getExceptionMessage : Exception → string.
Hypothesis J_wf : jobs_wf J.

  (** What [remove] does to a job of the ready queue before it cancels it. *)
Lemma unqueue_eq job info s :
    scheduled_jobs s !! job = Some info →
    update_info (Info.set_ready_seqno 0) job
      (set_ready_queue (rq_erase (Info.key info) (ready_queue s)) s) =
    set_scheduled (<[job := Info.set_ready_seqno 0 info]> (scheduled_jobs s))
      (set_ready_queue (rq_erase (Info.key info) (ready_queue s)) s).
  Proof. intros Hj. unfold update_info, info_at. simpl. rewrite Hj. reflexivity. Qed.

Lemma unqueue_lookup job info (m : gmap LoadJobPtr Info.t) y j' :
    m !! job = Some info → <[job := Info.set_ready_seqno 0 info]> m !! y = Some j' →
    ∃ j, m !! y = Some j ∧
         Info.dependencies_left j' = Info.dependencies_left j ∧
         Info.dependent_jobs j' = Info.dependent_jobs j ∧
         Info.priority j' = Info.priority j ∧
         (y ≠ job → j' = j) ∧ (y = job → Info.ready_seqno j' = 0).
  Proof.
    intros Hj Hy. destruct (decide (y = job)) as [->|Hne].
    - rewrite lookup_insert_eq in Hy. injection Hy as <-. exists info. repeat split; auto.
      intros; contradiction.
    - rewrite lookup_insert_ne in Hy by congruence. exists j'. repeat split; auto.
      intros; contradiction.
  Qed.

Lemma loader_ok_unqueue n job info s :
    loader_ok J n s → scheduled_jobs s !! job = Some info → Info.ready_seqno info ≠ 0 →
    loader_ok J n
      (update_info (Info.set_ready_seqno 0) job
         (set_ready_queue (rq_erase (Info.key info) (ready_queue s)) s)).
  Proof.
    intros (HG & HQ & HP) Hj Hnz. rewrite (unqueue_eq _ _ _ Hj).
    pose proof (unqueue_lookup job info (scheduled_jobs s)) as L.
    split; [|split].
    - apply (graph_ok_ext J s); [| |auto|auto|exact HG].
      + intros y j' Hy. destruct (L _ _ Hj Hy) as (j & Hy' & E1 & E2 & _). eauto.
      + intros y Hy. simpl in Hy. destruct (decide (y = job)) as [->|Hne].
        * rewrite lookup_insert_eq in Hy. discriminate.
        * rewrite lookup_insert_ne in Hy by congruence. exact Hy.
    - destruct HQ as [Q1 Q2 Q3 Q4 Q5 Q6 Q7]. constructor; simpl.
      + apply rq_sorted_erase, Q1.
      + intros k' y. rewrite elem_of_rq_erase. simpl. split.
        * intros [Hin Hk]. destruct (proj1 (Q2 k' y) Hin) as (j & Hy & Hjz & Hjk).
          assert (y ≠ job) as Hne.
          { intros ->. assert (j = info) by congruence. subst j. contradiction. }
          exists j. rewrite lookup_insert_ne by congruence. auto.
        * intros (j' & Hy & Hjz & Hjk).
          destruct (L _ _ Hj Hy) as (j & Hy' & _ & _ & _ & Heq & Hz).
          destruct (decide (y = job)) as [->|Hne]; [rewrite (Hz eq_refl) in Hjz; contradiction|].
          rewrite (Heq Hne) in *. split; [apply Q2; eauto|].
          intros Hk. apply Hne. apply (Q3 y job j info Hy' Hj); [|exact Hjz].
          rewrite Hjk in Hk. apply key_inj in Hk. tauto.
      + intros y z jy jz Hy Hz Heq Hyz.
        destruct (L _ _ Hj Hy) as (ky & Hky & _ & _ & _ & Ey & Zy).
        destruct (L _ _ Hj Hz) as (kz & Hkz & _ & _ & _ & Ez & Zz).
        destruct (decide (y = job)) as [->|Hny]; [rewrite (Zy eq_refl) in Hyz; contradiction|].
        destruct (decide (z = job)) as [->|Hnz'].
        { rewrite (Zz eq_refl) in Heq. congruence. }
        rewrite (Ey Hny) in *. rewrite (Ez Hnz') in *. eapply Q3; eauto.
      + intros y j' Hy. destruct (L _ _ Hj Hy) as (j & Hy' & _ & _ & _ & Ey & Zy).
        destruct (decide (y = job)) as [->|Hny].
        * rewrite (Zy eq_refl). lia.
        * rewrite (Ey Hny). eauto.
      + intros y j' Hy Hyz. destruct (L _ _ Hj Hy) as (j & Hy' & E & _ & _ & Ey & Zy).
        destruct (decide (y = job)) as [->|Hny]; [rewrite (Zy eq_refl) in Hyz; contradiction|].
        rewrite (Ey Hny) in *. eauto.
      + rewrite (waiting_insert_same [] _ _ info); [exact Q6|exact Hj|reflexivity].
      + exact Q7.
    - apply (prio_ok_ext s); [|exact HP]. intros y j' Hy. simpl in Hy.
      destruct (L _ _ Hj Hy) as (j & Hy' & _ & E2 & E3 & _). eauto.
  Qed.

Lemma loader_ok_set_finished n f s :
    (∀ x, x ∈ f → x ∈ finished_jobs s) → loader_ok J n s → loader_ok J n (set_finished f s).
  Proof. intros Hf. apply loader_ok_frame; auto. Qed.


  (** The two ways in which [remove] goes on from a pending job: the job
      waited for a prerequisite, or it was in the ready queue. *)
Lemma remove_job_pending fuel job info s s' :
    job ∉ finished_jobs s → scheduled_jobs s !! job = Some info →
    remove_job J getExceptionMessage fuel job s = Ok (Removed s') →
    ∃ t, s' = set_finished (finished_jobs t ∖ {[job]}) t ∧
      (((Info.dependencies_left info >? 0) = true ∧
        canceled J getExceptionMessage fuel job s = Ok t) ∨
       ((Info.dependencies_left info >? 0) = false ∧ (Info.ready_seqno info =? 0) = false ∧
        canceled J getExceptionMessage fuel job
          (update_info (Info.set_ready_seqno 0) job
             (set_ready_queue (rq_erase (Info.key info) (ready_queue s)) s)) = Ok t)).
  Proof.
    intros Hfin Hj. unfold remove_job. rewrite decide_False by exact Hfin. rewrite Hj.
    destruct (Info.dependencies_left info >? 0) eqn:Hd.
    - intros H. apply bind_Ok in H as (t & Ht & H). injection H as <-. eauto.
    - destruct (Info.ready_seqno info =? 0) eqn:Hz; simpl; [discriminate|].
      intros H. apply bind_Ok in H as (t & Ht & H). injection H as <-. eauto 6.
  Qed.

  (** [remove] has to wait for a job exactly when the job is executing. *)
Lemma remove_job_MustWait fuel job s :
    remove_job J getExceptionMessage fuel job s = Ok MustWait →
    job ∉ finished_jobs s ∧
    ∃ info, scheduled_jobs s !! job = Some info ∧
            (Info.dependencies_left info >? 0) = false ∧ Info.ready_seqno info = 0.
  Proof.
    unfold remove_job. destruct (decide (job ∈ finished_jobs s)) as [Hfin|Hfin]; [discriminate|].
    destruct (scheduled_jobs s !! job) as [info|]; [|discriminate].
    destruct (Info.dependencies_left info >? 0) eqn:Hd.
    { intros H. apply bind_Ok in H as (t & _ & H). discriminate. }
    destruct (Info.ready_seqno info =? 0) eqn:Hz; simpl.
    - intros _. split; [exact Hfin|]. exists info. split; [reflexivity|]. split; [exact Hd|lia].
    - intros H. apply bind_Ok in H as (t & _ & H). discriminate.
  Qed.

Lemma remove_job_executing fuel job s :
    is_executing s job → remove_job J getExceptionMessage fuel job s = Ok MustWait.
  Proof.
    intros (Hfin & info & Hj & Hd & Hz). unfold remove_job.
    rewrite decide_False by exact Hfin. rewrite Hj, Hd, Hz. reflexivity.
  Qed.

Lemma remove_job_not_executing fuel job s s' :
    remove_job J getExceptionMessage fuel job s = Ok (Removed s') → ¬ is_executing s job.
  Proof.
    intros H He. rewrite (remove_job_executing fuel job s He) in H. discriminate.
  Qed.

Lemma loader_ok_remove_job n fuel job s s' :
    loader_ok J n s → remove_job J getExceptionMessage fuel job s = Ok (Removed s') →
    loader_ok J n s'.
  Proof.
    intros Hok Hrun. pose proof Hok as (HG & HQ & HP).
    destruct (decide (job ∈ finished_jobs s)) as [Hfin|Hfin].
    { unfold remove_job in Hrun. rewrite decide_True in Hrun by exact Hfin.
      injection Hrun as <-. apply loader_ok_set_finished; [|exact Hok].
      intros x Hx. apply elem_of_difference in Hx. tauto. }
    destruct (scheduled_jobs s !! job) as [info|] eqn:Hj.
    2: { unfold remove_job in Hrun. rewrite decide_False, Hj in Hrun by exact Hfin.
         injection Hrun as <-. exact Hok. }
    destruct (remove_job_pending _ _ _ _ _ Hfin Hj Hrun) as (t & -> & [[Hd Ht]|(Hd & Hz & Ht)]).
    all: apply loader_ok_set_finished; [intros x Hx; apply elem_of_difference in Hx; tauto|].
    { eapply loader_ok_failed; [exact Hok| |exact Ht].
      intros i Hi. assert (i = info) by congruence. subst i.
      destruct (decide (Info.ready_seqno info = 0)) as [E|E]; [exact E|].
      pose proof (q_ready _ _ _ _ HQ _ _ Hj E). lia. }
    eapply loader_ok_failed; [apply loader_ok_unqueue; [exact Hok|exact Hj|lia]| |exact Ht].
    intros i Hi. rewrite (unqueue_eq _ _ _ Hj) in Hi. simpl in Hi.
    rewrite lookup_insert_eq in Hi. injection Hi as <-. reflexivity.
  Qed.

Lemma loader_ok_remove n fuel jobs : ∀ s next s',
    loader_ok J n s → remove J getExceptionMessage fuel jobs s = Ok (next, s') →
    loader_ok J n s'.
  Proof.
    induction jobs as [|x jobs IH]; intros s next s' Hok Hrun; simpl in Hrun.
    - injection Hrun as <- <-. exact Hok.
    - apply bind_Ok in Hrun as (r & Hx & Hrest). destruct r as [t|].
      + apply (IH t next s'); [|exact Hrest]. eapply loader_ok_remove_job; eauto.
      + injection Hrest as <- <-. exact Hok.
  Qed.
End Remove.

(** ** What the operations do to the threads' view of the loader *)

Section Calm.
Variable J : LoadJobPtr → LoadJob.
Variable getExceptionMessage : Exception → string.
Hypothesis J_wf : jobs_wf J.

Lemma calm_step_refl N L s : calm_step N L s s.
  Proof.
    constructor; auto.
    - intros x i i' Hi Hi'. assert (i = i') by congruence. subst. lia.
    - intros x i Hi Hd Hz _. eauto.
  Qed.

Lemma calm_step_trans N L a b c : calm_step N L a b → calm_step N L b c → calm_step N L a c.
  Proof.
    intros [A1 A2 A3 A4 A5 A6] [B1 B2 B3 B4 B5 B6]. constructor.
    - auto.
    - intros x Hx. destruct (A2 x Hx) as [Hb|Hb]; auto.
    - auto.
    - intros x i i' Hi Hi'. destruct (B3 x (ex_intro _ i' Hi')) as [ib Hib].
      pose proof (A4 _ _ _ Hi Hib). pose proof (B4 _ _ _ Hib Hi'). lia.
    - intros d x Hx Hl. destruct (A5 d x (B3 x Hx) Hl) as [Hb|Hb]; auto.
    - intros x i Hi Hd Hz HN. destruct (A6 x i Hi Hd Hz HN) as (ib & Hib & Hdb & Hzb). eauto.
  Qed.

Lemma calm_step_mono (N N' L L' : LoadJobPtr → Prop) s s' :
    (∀ x, N x → N' x) → (∀ x, L x → L' x) → calm_step N L s s' → calm_step N' L' s s'.
  Proof.
    intros HN HL [A1 A2 A3 A4 A5 A6]. constructor; auto.
    - intros d x Hx Hl. destruct (A5 d x Hx Hl); auto.
    - intros x i Hi Hd Hz Hx. apply (A6 x i Hi Hd Hz). intros Hn. apply Hx, HN, Hn.
  Qed.

  (** An operation that leaves the completion state alone and changes
      nothing about a pending job but its priority, upwards, and its stamp,
      when it had one. *)
Lemma calm_step_ext N L s s' :
    (∀ x, is_finished (job_state s' x) = is_finished (job_state s x)) →
    (∀ x i, scheduled_jobs s !! x = Some i →
       ∃ i', scheduled_jobs s' !! x = Some i' ∧
             Info.dependencies_left i' = Info.dependencies_left i ∧
             Info.dependent_jobs i' = Info.dependent_jobs i ∧
             Info.priority i ≤ Info.priority i' ∧
             (Info.ready_seqno i = 0 → Info.ready_seqno i' = 0)) →
    (∀ x, scheduled_jobs s !! x = None → scheduled_jobs s' !! x = None) →
    calm_step N L s s'.
  Proof.
    intros Hheap Hfwd Hbwd. constructor.
    - intros x. rewrite Hheap. auto.
    - intros x [i Hi]. left. destruct (Hfwd _ _ Hi) as (i' & Hi' & _). exists i'. exact Hi'.
    - intros x [i' Hi']. destruct (scheduled_jobs s !! x) as [i|] eqn:Hi; [eexists; eauto|].
      rewrite (Hbwd _ Hi) in Hi'. discriminate.
    - intros x i i' Hi Hi'. destruct (Hfwd _ _ Hi) as (i2 & Hi2 & _ & _ & Hp & _).
      assert (i2 = i') by congruence. subst. exact Hp.
    - intros d x _ (i & Hi & Hx). left. destruct (Hfwd _ _ Hi) as (i' & Hi' & _ & Ed & _).
      exists i'. rewrite Ed. auto.
    - intros x i Hi Hd Hz _. destruct (Hfwd _ _ Hi) as (i' & Hi' & Ed & _ & _ & Ez).
      exists i'. rewrite Ed. auto.
  Qed.

Lemma calm_prio_step N L p s s' : prio_step J p s s' → calm_step N L s s'.
  Proof.
    intros HS. apply calm_step_ext.
    - intros x. apply (ps_heap _ _ _ _ HS).
    - intros x i Hi. destruct (ps_fwd _ _ _ _ HS _ _ Hi) as (i' & Hi' & Ed & Ez & El & Hp).
      exists i'. repeat split; auto; [lia|congruence].
    - apply (ps_bwd _ _ _ _ HS).
  Qed.

Lemma calm_fail_step (Q : LoadJobPtr → JobState → Prop) (N L : LoadJobPtr → Prop) s s' :
    fail_step J Q N s s' → graph_ok J s →
    (∀ x st, Q x st → is_finished st = true) →
    calm_step N L s s'.
  Proof.
    intros HS HG HQ. constructor.
    - intros x Hx. destruct (fs_heap _ _ _ _ _ HS x) as [E|[Hq _]]; [rewrite E; exact Hx|eauto].
    - intros x Hx. destruct (decide (pending s' x)) as [Hp|Hp]; [auto|].
      right. destruct (fs_gone _ _ _ _ _ HS x Hx Hp) as (_ & Hq & _). eauto.
    - intros x [i' Hi']. destruct (fs_sched _ _ _ _ _ HS _ _ Hi') as (i & Hi & _). eexists; eauto.
    - intros x i i' Hi Hi'. destruct (fs_sched _ _ _ _ _ HS _ _ Hi') as (i2 & Hi2 & Ep & _).
      assert (i2 = i) by congruence. subst. lia.
    - intros d x Hx (i & Hi & Hin). left.
      destruct (scheduled_jobs s' !! d) as [i'|] eqn:Hd.
      + exists i'. split; [exact Hd|].
        destruct (decide (x ∈ Info.dependent_jobs i')) as [Hy|Hn]; [exact Hy|].
        destruct (fs_edges _ _ _ _ _ HS _ _ _ _ Hi Hd Hin Hn Hx).
      + exfalso. eapply (fs_closed _ _ _ _ _ HS d i x Hi); [|exact Hin|exact Hx].
        intros [? ?]. congruence.
    - intros x i Hi Hd Hz HN.
      assert (Hp : pending s' x).
      { destruct (decide (pending s' x)) as [Hp|Hp]; [exact Hp|]. exfalso.
        destruct (fs_gone _ _ _ _ _ HS x (ex_intro _ i Hi) Hp) as (_ & _ & r & Hr & Hpath).
        apply rtc_linked_end in Hpath as [->|(a & ia & Ha & Hin)]; [contradiction|].
        assert (Hl : linked s a x) by (exists ia; auto).
        destruct (g_links _ _ HG _ _ Hl) as [_ Hdep].
        pose proof (registered_count_pos J s a x Hl Hdep).
        pose proof (g_count _ _ HG _ _ Hi). lia. }
      destruct Hp as [i' Hi']. destruct (fs_sched _ _ _ _ _ HS _ _ Hi') as (i2 & Hi2 & _ & Ed & Ez & _).
      assert (i2 = i) by congruence. subst. exists i'. split; [exact Hi'|]. split; congruence.
  Qed.

Lemma calm_failed (L : LoadJobPtr → Prop) fuel job e s s' :
    graph_ok J s → failed J getExceptionMessage fuel job e s = Ok s' →
    calm_step (λ x, x = job) L s s' ∧ ¬ pending s' job ∧
    is_finished (job_state s' job) = true.
  Proof.
    intros HG Hrun. destruct (failed_step J getExceptionMessage _ _ _ _ _ Hrun) as (HS & Hgone & _).
    assert (HC : calm_step (λ x, x = job) L s s').
    { eapply calm_fail_step; [exact HS|exact HG|]. intros x st [Hf _]. exact Hf. }
    split; [exact HC|]. split; [exact Hgone|].
    destruct (failed_spec J getExceptionMessage any_exception
                (λ _ _, I) (λ _ _ _ _ _, I) fuel job e s s' Hrun) as (_ & _ & _ & [Hf _] & _).
    exact Hf.
  Qed.

Lemma calm_loaded n job info s :
    graph_ok J s → queue_ok n 0 [] s →
    scheduled_jobs s !! job = Some info →
    Info.dependencies_left info = 0 → Info.ready_seqno info = 0 →
    calm_step (λ x, x = job) (λ x, x = job) s (loaded job s) ∧
    ¬ pending (loaded job s) job ∧ is_finished (job_state (loaded job s) job) = true.
  Proof.
    intros HG HQ Hj Hd Hz.
    destruct (loaded_spec J J_wf n job info s HG HQ Hj Hd Hz) as (_ & _ & s2 & HS & Heq).
    rewrite Heq.
    assert (Hheap : ∀ x, job_state (finish job s2) x = job_state (update_job setSuccess job s) x).
    { intros x. unfold job_state. simpl. rewrite (ls_heap _ _ _ HS). reflexivity. }
    assert (Hlook : ∀ x, scheduled_jobs (finish job s2) !! x =
                         if decide (x = job) then None else scheduled_jobs s2 !! x).
    { intros x. simpl. destruct (decide (x = job)) as [->|Hne].
      - apply lookup_delete_eq.
      - apply lookup_delete_ne. congruence. }
    assert (Hfin : is_finished (job_state (finish job s2) job) = true).
    { rewrite Hheap, job_state_update_job, decide_True by reflexivity. reflexivity. }
    split; [|split; [|exact Hfin]].
    2: { intros [i Hi]. rewrite Hlook, decide_True in Hi by reflexivity. discriminate. }
    constructor.
    - intros x Hx. rewrite Hheap, job_state_update_job.
      destruct (decide (x = job)); [reflexivity|exact Hx].
    - intros x [i Hi]. destruct (decide (x = job)) as [->|Hne]; [right; exact Hfin|].
      left. destruct (ls_fwd _ _ _ HS x i Hi) as (i' & Hi' & _). exists i'.
      rewrite Hlook, decide_False by exact Hne. exact Hi'.
    - intros x [i' Hi']. rewrite Hlook in Hi'. destruct (decide (x = job)); [discriminate|].
      destruct (load_step_rev _ _ _ _ _ HS Hi') as (i & Hi & _). exists i. exact Hi.
    - intros x i i' Hi Hi'. rewrite Hlook in Hi'. destruct (decide (x = job)); [discriminate|].
      destruct (load_step_rev _ _ _ _ _ HS Hi') as (i2 & Hi2 & Ep & _).
      simpl in Hi2. assert (i2 = i) by congruence. subst. lia.
    - intros d x Hx (i & Hi & Hin). destruct (decide (d = job)) as [->|Hne]; [right; reflexivity|].
      left. destruct (ls_fwd _ _ _ HS d i Hi) as (i' & Hi' & _ & Ed & _). exists i'.
      rewrite Hlook, decide_False by exact Hne. rewrite Ed. auto.
    - intros x i Hi Hdx Hzx Hne.
      destruct (ls_fwd _ _ _ HS x i Hi) as (i' & Hi' & _ & _ & Ed & Ez). exists i'.
      rewrite Hlook, decide_False by exact Hne.
      assert (Hnot : x ∉ Info.dependent_jobs info).
      { intros Hin. assert (Hl : linked s job x) by (exists info; auto).
        destruct (g_links _ _ HG _ _ Hl) as [_ Hdep].
        pose proof (registered_count_pos J s job x Hl Hdep).
        pose proof (g_count _ _ HG _ _ Hi). lia. }
      rewrite decide_False in Ed by exact Hnot. rewrite (Ez Hnot).
      split; [exact Hi'|]. split; [simpl in Ed; lia|exact Hzx].
  Qed.
End Calm.

(** ** The invariant of the loader with its threads *)

Lemma scheduled_total_app l1 l2 :
  scheduled_total (l1 ++ l2) = scheduled_total l1 + scheduled_total l2.
Proof.
  induction l1 as [|e l1 IH]; simpl; [lia|]. destruct e; lia.
Qed.

Lemma scheduled_total_nonneg l : 0 ≤ scheduled_total l.
Proof. induction l as [|e l IH]; simpl; [lia|]. destruct e; lia. Qed.

Lemma scheduled_total_quiet evs :
  (∀ e, e ∈ evs → ∀ jobs p P, e ≠ EvScheduled jobs p P) → scheduled_total evs = 0.
Proof.
  induction evs as [|e evs IH]; intros H; [reflexivity|]. simpl.
  assert (scheduled_total evs = 0) as E by (apply IH; intros; apply H; right; assumption).
  destruct e; try exact E. exfalso. eapply H; [left|reflexivity].
Qed.

Lemma snoc_split {A} (lg l1 l2 : list A) e x :
  lg ++ [e] = l1 ++ x :: l2 →
  (l2 = [] ∧ lg = l1 ∧ e = x) ∨ ∃ l2', l2 = l2' ++ [e] ∧ lg = l1 ++ x :: l2'.
Proof.
  destruct l2 as [|a l2' _] using rev_ind; intros H.
  - left. apply app_inj_tail in H as [-> ->]. auto.
  - right. exists l2'. change (l1 ++ x :: l2' ++ [a]) with (l1 ++ (x :: l2') ++ [a]) in H.
    rewrite app_assoc in H. apply app_inj_tail in H as [-> ->]. auto.
Qed.

Section LogOk.
Variable J : LoadJobPtr → LoadJob.

Lemma log_ok_nil : log_ok J [].
  Proof. intros l1 l2 j H. destruct l1; discriminate. Qed.

Lemma log_ok_snoc lg e :
    log_ok J lg →
    (∀ j, e = EvStarted j → ∀ jobs p P d, EvScheduled jobs p P ∈ lg → j ∈ jobs →
       d ∈ dependencies (J j) → d ∈ P ∨ d ∈ jobs → EvReturned d ∈ lg) →
    log_ok J (lg ++ [e]).
  Proof.
    intros Hok He l1 l2 j H. apply snoc_split in H as [(_ & -> & ->)|(l2' & _ & ->)].
    - apply He. reflexivity.
    - eapply Hok. reflexivity.
  Qed.

Lemma log_ok_app lg evs :
    log_ok J lg → (∀ e, e ∈ evs → ∀ j, e ≠ EvStarted j) → log_ok J (lg ++ evs).
  Proof.
    revert lg. induction evs as [|e evs IH]; intros lg Hok H; [rewrite app_nil_r; exact Hok|].
    change (lg ++ e :: evs) with (lg ++ [e] ++ evs). rewrite app_assoc. apply IH.
    - apply log_ok_snoc; [exact Hok|]. intros j ->. exfalso. eapply H; [left|reflexivity].
    - intros e' He'. apply H. right. exact He'.
  Qed.
End LogOk.

Lemma start_loop_frame n : ∀ i s,
  scheduled_jobs (start_loop n i s) = scheduled_jobs s ∧
  heap (start_loop n i s) = heap s ∧
  finished_jobs (start_loop n i s) = finished_jobs s ∧
  last_ready_seqno (start_loop n i s) = last_ready_seqno s.
Proof.
  induction n as [|n IH]; intros i s; simpl; [auto|].
  destruct (_ && _); [|auto]. destruct (IH (i + 1) (spawn s)) as (-> & -> & -> & ->). auto.
Qed.

Section ConfigOk.
Variable J : LoadJobPtr → LoadJob.
Variable getExceptionMessage : Exception → string.
Hypothesis J_wf : jobs_wf J.

Local Abbreviation idle s x :=
    (∃ i, scheduled_jobs s !! x = Some i ∧
          Info.dependencies_left i = 0 ∧ Info.ready_seqno i = 0).

Lemma config_ok_calm N L s ex lg s' ex' evs :
    config_ok J (mkConfig s ex lg) → loader_ok J (scheduled_total lg) s' →
    calm_step N L s s' →
    (∀ e, e ∈ evs → ∀ jobs p P, e ≠ EvScheduled jobs p P) →
    (∀ d, L d → EvReturned d ∈ lg ++ evs) →
    NoDup ex' → (∀ x, x ∈ ex' → idle s' x) → log_ok J (lg ++ evs) →
    config_ok J (mkConfig s' ex' (lg ++ evs)).
  Proof.
    intros [C1 C2 C3 C4 C5 C6 C7] Hok HC Hq HL Hnd Hex Hlog. simpl in *.
    assert (Hev : ∀ jobs p P, EvScheduled jobs p P ∈ lg ++ evs → EvScheduled jobs p P ∈ lg).
    { intros jobs p P Hin. apply elem_of_app in Hin as [Hin|Hin]; [exact Hin|].
      exfalso. eapply Hq; [exact Hin|reflexivity]. }
    constructor; simpl.
    - rewrite scheduled_total_app, (scheduled_total_quiet evs Hq), Z.add_0_r. exact Hok.
    - exact Hnd.
    - exact Hex.
    - intros jobs p P j d He Hj Hp Hd HP. apply Hev in He.
      destruct (C4 jobs p P j d He Hj (cs_old _ _ _ _ HC _ Hp) Hd HP) as [Hl|Hr].
      + destruct (cs_links _ _ _ _ HC d j Hp Hl) as [Hl'|Hl']; [left; exact Hl'|right; auto].
      + right. apply elem_of_app. left. exact Hr.
    - intros jobs p P j i' He Hj Hi'. apply Hev in He.
      destruct (cs_old _ _ _ _ HC j (ex_intro _ i' Hi')) as [i Hi].
      pose proof (C5 jobs p P j i He Hj Hi). pose proof (cs_prio _ _ _ _ HC _ _ _ Hi Hi'). lia.
    - intros jobs p P j He Hj. apply Hev in He. destruct (C6 jobs p P j He Hj) as [Hp|Hf].
      + apply (cs_gone _ _ _ _ HC), Hp.
      + right. apply (cs_heap _ _ _ _ HC), Hf.
    - exact Hlog.
  Qed.

  (** An operation that logs nothing and takes no job from its thread. *)
Lemma config_ok_quiet N L s ex lg s' :
    config_ok J (mkConfig s ex lg) → loader_ok J (scheduled_total lg) s' →
    calm_step N L s s' → (∀ x, x ∈ ex → ¬ N x) → (∀ d, ¬ L d) →
    config_ok J (mkConfig s' ex lg).
  Proof.
    intros HC Hok Hcalm HN HL. rewrite <- (app_nil_r lg).
    eapply config_ok_calm; [exact HC|exact Hok|exact Hcalm| | | | |].
    - intros e He. inversion He.
    - intros d Hd. destruct (HL d Hd).
    - exact (c_nodup _ _ HC).
    - intros x Hx. destruct (c_exec _ _ HC x Hx) as (i & Hi & Hd & Hz).
      apply (cs_exec _ _ _ _ Hcalm x i Hi Hd Hz), HN, Hx.
    - rewrite app_nil_r. exact (c_order _ _ HC).
  Qed.

Lemma calm_frame N L s s' :
    scheduled_jobs s' = scheduled_jobs s → heap s' = heap s → calm_step N L s s'.
  Proof.
    intros E1 E2. apply calm_step_ext.
    - intros x. unfold job_state. rewrite E2. reflexivity.
    - intros x i Hi. exists i. rewrite E1. repeat split; auto. lia.
    - intros x Hx. rewrite E1. exact Hx.
  Qed.

Lemma calm_remove_job n fuel job s s' :
    loader_ok J n s →
    remove_job J getExceptionMessage fuel job s = Ok (Removed s') →
    calm_step (λ x, x = job) (λ _, False) s s'.
  Proof.
    intros Hok Hrun. pose proof Hok as (HG & HQ & HP).
    destruct (decide (job ∈ finished_jobs s)) as [Hfin|Hfin].
    { unfold remove_job in Hrun. rewrite decide_True in Hrun by exact Hfin.
      injection Hrun as <-. apply calm_frame; reflexivity. }
    destruct (scheduled_jobs s !! job) as [info|] eqn:Hj.
    2: { unfold remove_job in Hrun. rewrite decide_False, Hj in Hrun by exact Hfin.
         injection Hrun as <-. apply calm_step_refl. }
    destruct (remove_job_pending J getExceptionMessage _ _ _ _ _ Hfin Hj Hrun)
      as (t & -> & [[Hd Ht]|(Hd & Hz & Ht)]).
    all: apply (calm_step_trans _ _ s t); [|apply calm_frame; reflexivity].
    { exact (proj1 (calm_failed J getExceptionMessage _ _ _ _ _ _ HG Ht)). }
    destruct (loader_ok_unqueue J n job info s Hok Hj) as (HG1 & _); [lia|].
    eapply calm_step_trans; [|exact (proj1 (calm_failed J getExceptionMessage _ _ _ _ _ _ HG1 Ht))].
    rewrite (unqueue_eq _ _ _ Hj). apply calm_step_ext.
    - intros x. reflexivity.
    - intros x i Hi. simpl. destruct (decide (x = job)) as [->|Hx].
      + rewrite lookup_insert_eq. exists (Info.set_ready_seqno 0 info).
        assert (i = info) by congruence. subst. simpl. repeat split; auto. lia.
      + rewrite lookup_insert_ne by congruence. exists i. repeat split; auto. lia.
    - intros x Hx. simpl. destruct (decide (x = job)) as [->|Hxj]; [congruence|].
      rewrite lookup_insert_ne by congruence. exact Hx.
  Qed.

Lemma config_ok_schedule fuel jobs p s s' ex lg :
    config_ok J (mkConfig s ex lg) → NoDup jobs →
    scheduled_total lg + Z.of_nat (length jobs) < UInt64_modulus →
    schedule J fuel jobs p s = Ok s' →
    config_ok J (mkConfig s' ex (lg ++ [EvScheduled jobs p (dom (scheduled_jobs s))])).
  Proof.
    intros [C1 C2 C3 C4 C5 C6 C7] Hnd Hn Hrun. simpl in *.
    destruct (loader_ok_schedule J J_wf _ fuel jobs p s s' Hnd C1 Hn Hrun) as [Hok HS].
    assert (Hold : ∀ jobs0 p0 P0 j, EvScheduled jobs0 p0 P0 ∈ lg → j ∈ jobs0 →
                     pending s' j → pending s j ∧ j ∉ jobs).
    { intros jobs0 p0 P0 j He Hj Hp.
      assert (j ∉ jobs) as Hnj.
      { intros Hin. destruct (ss_fresh _ _ _ _ _ HS j Hin) as [Hnp Hnf].
        destruct (C6 _ _ _ _ He Hj) as [?|Hf]; [contradiction|congruence]. }
      split; [|exact Hnj]. apply (ss_pending _ _ _ _ _ HS) in Hp as [?|?]; [assumption|contradiction]. }
    constructor; simpl.
    - rewrite scheduled_total_app. simpl. rewrite Z.add_0_r. exact Hok.
    - exact C2.
    - intros x Hx. destruct (C3 x Hx) as (i & Hi & Hd & Hz).
      assert (x ∉ jobs) as Hnj.
      { intros Hin. destruct (ss_fresh _ _ _ _ _ HS x Hin) as [Hnp _]. apply Hnp. eexists; eauto. }
      destruct (ss_old _ _ _ _ _ HS x i Hnj Hi) as (i' & Hi' & Ez & Ed & _).
      exists i'. split; [exact Hi'|]. split; congruence.
    - intros jobs0 p0 P0 j d He Hj Hp Hd HP.
      apply elem_of_app in He as [He|He].
      + destruct (Hold _ _ _ _ He Hj Hp) as [Hps Hnj].
        destruct (C4 _ _ _ _ _ He Hj Hps Hd HP) as [Hl|Hr].
        * left. apply (ss_links _ _ _ _ _ HS). left. exact Hl.
        * right. apply elem_of_app. left. exact Hr.
      + apply list_elem_of_singleton in He. injection He as -> -> ->.
        left. apply (ss_links _ _ _ _ _ HS). right. split; [exact Hj|]. split; [exact Hd|].
        apply (ss_pending _ _ _ _ _ HS). destruct HP as [HP|HP]; [left|right; exact HP].
        apply elem_of_dom in HP. exact HP.
    - intros jobs0 p0 P0 j i' He Hj Hi'.
      apply elem_of_app in He as [He|He].
      + destruct (Hold _ _ _ _ He Hj (ex_intro _ i' Hi')) as [[i Hi] Hnj].
        destruct (ss_old _ _ _ _ _ HS j i Hnj Hi) as (i2 & Hi2 & _ & _ & Hp).
        assert (i2 = i') by congruence. subst. pose proof (C5 _ _ _ _ _ He Hj Hi). lia.
      + apply list_elem_of_singleton in He. injection He as -> -> ->.
        destruct (ss_new _ _ _ _ _ HS j Hj) as (i2 & Hi2 & _ & Hp).
        assert (i2 = i') by congruence. subst. lia.
    - intros jobs0 p0 P0 j He Hj. apply elem_of_app in He as [He|He].
      + destruct (C6 _ _ _ _ He Hj) as [Hp|Hf].
        * left. apply (ss_pending _ _ _ _ _ HS). left. exact Hp.
        * right. rewrite (proj1 (ss_heap _ _ _ _ _ HS j)). exact Hf.
      + apply list_elem_of_singleton in He. injection He as -> -> ->.
        left. apply (ss_pending _ _ _ _ _ HS). right. exact Hj.
    - apply log_ok_snoc; [exact C7|]. intros j Hj. discriminate.
  Qed.

  (** "Handle just executed job" *)
Lemma config_ok_commit fuel executed s s1 ex lg :
    config_ok J (mkConfig s ex lg) → executed_job executed ⊆ ex →
    match executed with
    | Some (job, thrown) => handle_executed J getExceptionMessage fuel job thrown s
    | None => Ok s
    end = Ok s1 →
    config_ok J (mkConfig s1 (filter (λ j, j ∉ executed_job executed) ex)
                   (lg ++ executed_event executed)).
  Proof.
    intros HC Hsub Hrun. pose proof HC as [C1 C2 C3 C4 C5 C6 C7]. simpl in *.
    pose proof C1 as (HG & HQ & HP).
    assert (Hidle : ∀ N L t, calm_step N L s t →
              (∀ x, N x → x ∈ executed_job executed) →
              ∀ x, x ∈ filter (λ j, j ∉ executed_job executed) ex →
                   ∃ i, scheduled_jobs t !! x = Some i ∧
                        Info.dependencies_left i = 0 ∧ Info.ready_seqno i = 0).
    { intros N L t Hcalm HN x Hx. apply list_elem_of_filter in Hx as [Hnx Hx].
      destruct (C3 x Hx) as (i & Hi & Hd & Hz).
      apply (cs_exec _ _ _ _ Hcalm x i Hi Hd Hz). intros Hn. apply Hnx, HN, Hn. }
    destruct executed as [[job [what|]]|]; simpl in *.
    - assert (Hjob : job ∈ ex) by (apply Hsub; left).
      destruct (C3 job Hjob) as (info & Hj & Hd & Hz).
      destruct (calm_failed J getExceptionMessage (λ _, False) _ _ _ _ _ HG Hrun) as (Hcalm & _).
      eapply config_ok_calm; [exact HC| |exact Hcalm| | | | |].
      + eapply loader_ok_failed; [exact C1| |exact Hrun]. intros i Hi. congruence.
      + intros e He. apply list_elem_of_singleton in He. subst e. discriminate.
      + intros d [].
      + apply NoDup_filter, C2.
      + apply (Hidle _ _ _ Hcalm). intros x ->. left.
      + apply log_ok_app; [exact C7|]. intros e He. apply list_elem_of_singleton in He.
        subst e. discriminate.
    - assert (Hjob : job ∈ ex) by (apply Hsub; left).
      destruct (C3 job Hjob) as (info & Hj & Hd & Hz). injection Hrun as <-.
      destruct (calm_loaded J J_wf _ job info s HG HQ Hj Hd Hz) as (Hcalm & _).
      eapply config_ok_calm; [exact HC| |exact Hcalm| | | | |].
      + eapply loader_ok_loaded; eauto.
      + intros e He. apply list_elem_of_singleton in He. subst e. discriminate.
      + intros d ->. apply elem_of_app. right. left.
      + apply NoDup_filter, C2.
      + apply (Hidle _ _ _ Hcalm). intros x ->. left.
      + apply log_ok_app; [exact C7|]. intros e He. apply list_elem_of_singleton in He.
        subst e. discriminate.
    - injection Hrun as <-.
      eapply config_ok_calm; [exact HC|exact C1|apply (calm_step_refl (λ _, False) (λ _, False))| | | | |].
      + intros e He. inversion He.
      + intros d [].
      + apply NoDup_filter, C2.
      + apply (Hidle _ _ _ (calm_step_refl (λ _, False) (λ _, False) s)). intros x [].
      + rewrite app_nil_r. exact C7.
  Qed.

  (** "Take next job to be executed from the ready queue" *)
Lemma config_ok_take next s s' ex lg :
    config_ok J (mkConfig s ex lg) → take_next s = (next, s') →
    config_ok J (mkConfig s' (next_job next ++ ex) (lg ++ map EvStarted (next_job next))).
  Proof.
    intros HC Ht. pose proof HC as [C1 C2 C3 C4 C5 C6 C7]. simpl in *.
    pose proof C1 as (HG & HQ & HP).
    destruct next as [|job]; simpl.
    - rewrite app_nil_r.
      assert (E : scheduled_jobs s' = scheduled_jobs s ∧ heap s' = heap s ∧
                  ready_queue s' = ready_queue s ∧ last_ready_seqno s' = last_ready_seqno s ∧
                  finished_jobs s' = finished_jobs s).
      { destruct (take_next_exit _ _ Ht) as [->| ->]; simpl; auto. }
      destruct E as (E1 & E2 & E3 & E4 & E5).
      apply (config_ok_quiet (λ _, False) (λ _, False) s); auto.
      + apply (loader_ok_frame J _ s); auto. intros x. rewrite E5. auto.
      + apply calm_frame; auto.
    - destruct (loader_ok_take_next J _ s job s' C1 Ht) as (Hok & i & Hi & Hnz & Hd & Hm & Hheap & _).
      assert (Hcalm : calm_step (λ _, False) (λ _, False) s s').
      { apply calm_step_ext.
        - intros x. unfold job_state. rewrite Hheap. reflexivity.
        - intros x ix Hx. rewrite Hm. destruct (decide (x = job)) as [->|Hne].
          + rewrite lookup_insert_eq. assert (ix = i) by congruence. subst.
            exists (Info.set_ready_seqno 0 i). simpl. repeat split; auto. lia.
          + rewrite lookup_insert_ne by congruence. exists ix. repeat split; auto. lia.
        - intros x Hx. rewrite Hm. destruct (decide (x = job)) as [->|Hne]; [congruence|].
          rewrite lookup_insert_ne by congruence. exact Hx. }
      eapply config_ok_calm; [exact HC|exact Hok|exact Hcalm| | | | |].
      + intros e He. apply list_elem_of_singleton in He. subst e. discriminate.
      + intros d [].
      + apply NoDup_cons. split; [|exact C2]. intros Hin.
        destruct (C3 job Hin) as (i2 & Hi2 & _ & Hz). congruence.
      + intros x Hx. apply elem_of_cons in Hx as [->|Hx].
        * exists (Info.set_ready_seqno 0 i). rewrite Hm, lookup_insert_eq. auto.
        * destruct (C3 x Hx) as (ix & Hix & Hdx & Hzx).
          apply (cs_exec _ _ _ _ Hcalm x ix Hix Hdx Hzx). tauto.
      + apply log_ok_snoc; [exact C7|]. intros j Hj jobs p P d He Hjin Hdep HPd.
        injection Hj as <-.
        destruct (C4 jobs p P job d He Hjin (ex_intro _ i Hi) Hdep HPd) as [Hl|Hr]; [|exact Hr].
        exfalso. pose proof (registered_count_pos J s d job Hl Hdep).
        pose proof (g_count _ _ HG _ _ Hi). lia.
  Qed.

Lemma config_ok_initial max_threads_ : config_ok J (initial max_threads_).
  Proof.
    constructor; simpl.
    - apply loader_ok_new.
    - constructor.
    - intros x Hx. inversion Hx.
    - intros jobs p P j d He. inversion He.
    - intros jobs p P j i He. inversion He.
    - intros jobs p P j He. inversion He.
    - apply log_ok_nil.
  Qed.

Lemma scheduled_total_step c c' :
    step J getExceptionMessage c c' → scheduled_total (log c) ≤ scheduled_total (log c').
  Proof.
    intros H. destruct H; simpl; try lia.
    - rewrite scheduled_total_app. simpl. lia.
    - rewrite !scheduled_total_app.
      pose proof (scheduled_total_nonneg (executed_event executed)).
      pose proof (scheduled_total_nonneg (map EvStarted (next_job next))). lia.
  Qed.

Lemma config_ok_step c c' :
    config_ok J c → step J getExceptionMessage c c' →
    scheduled_total (log c') < UInt64_modulus → config_ok J c'.
  Proof.
    intros HC Hstep Hn. destruct Hstep as
      [fuel jobs p s s' ex lg Hnd Hrun|fuel job p s s' ex lg Hrun
      |fuel job s s' ex lg Hrun|s ex lg|s ex lg
      |fuel executed next s s' ex lg Hsub Hrun]; simpl in Hn.
    - apply config_ok_schedule with (fuel := fuel); auto.
      rewrite scheduled_total_app in Hn. simpl in Hn. lia.
    - destruct (loader_ok_prioritize J _ fuel job p s s' (c_loader _ _ HC) Hrun) as (Hok & HS & _).
      apply (config_ok_quiet (λ _, False) (λ _, False) s); auto.
      apply (calm_prio_step J _ _ p s s' HS).
    - pose proof (c_loader _ _ HC) as Hok. simpl in Hok.
      apply (config_ok_quiet (λ x, x = job) (λ _, False) s); auto.
      + eapply loader_ok_remove_job; eauto.
      + eapply calm_remove_job; eauto.
      + intros x Hx ->. apply (remove_job_not_executing J getExceptionMessage _ _ _ _ Hrun).
        destruct (c_exec _ _ HC job Hx) as (i & Hi & Hd & Hz).
        simpl in Hi. split; [|eauto]. intros Hfin.
        destruct Hok as (HG & _). apply (g_disjoint _ _ HG job Hfin). eexists; eauto.
    - destruct (start_loop_frame (length (ready_queue (set_running true s))) 0
                  (set_running true s)) as (E1 & E2 & E3 & E4).
      apply (config_ok_quiet (λ _, False) (λ _, False) s); auto.
      + apply (loader_ok_frame J _ s); auto.
        * unfold start. rewrite start_loop_queue. reflexivity.
        * intros x. unfold start. rewrite E3. auto.
        * exact (c_loader _ _ HC).
      + apply calm_frame; auto.
    - apply (config_ok_quiet (λ _, False) (λ _, False) s); auto.
      + apply (loader_ok_frame J _ s); auto. exact (c_loader _ _ HC).
      + apply calm_frame; reflexivity.
    - unfold worker_iteration in Hrun. apply bind_Ok in Hrun as (s1 & Hcommit & Htake).
      injection Htake as Htake. rewrite app_assoc.
      apply (config_ok_take next s1 s'); [|exact Htake].
      eapply config_ok_commit; eauto.
  Qed.

  (** Every reachable configuration satisfies the invariant, as long as the
      number of scheduled jobs fits the counter. *)
Lemma reachable_config_ok max_threads_ c :
    reachable J getExceptionMessage max_threads_ c →
    scheduled_total (log c) < UInt64_modulus → config_ok J c.
  Proof.
    induction 1 as [|c c' Hreach IH Hstep]; intros Hn.
    - apply config_ok_initial.
    - eapply config_ok_step; [apply IH|exact Hstep|exact Hn].
      pose proof (scheduled_total_step _ _ Hstep). lia.
  Qed.
End ConfigOk.

(** ** Stamps along the steps of the loader *)

Section StepStamps.
Variable J : LoadJobPtr → LoadJob.
Variable getExceptionMessage : Exception → string.
Hypothesis J_wf : jobs_wf J.






End StepStamps.

(** ** What a successful [schedule] leaves behind *)

Lemma filter_ext_elem {A} (P Q : A → Prop) `{∀ x, Decision (P x)} `{∀ x, Decision (Q x)}
    (l : list A) :
  (∀ x, x ∈ l → P x ↔ Q x) → filter P l = filter Q l.
Proof.
  induction l as [|a l IH]; intros HPQ; [reflexivity|].
  rewrite !filter_cons. rewrite IH by (intros x Hx; apply HPQ; right; exact Hx).
  destruct (decide (P a)) as [Hp|Hp], (decide (Q a)) as [Hq|Hq]; try reflexivity.
  - exfalso. apply Hq, (HPQ a); [left|exact Hp].
  - exfalso. apply Hp, (HPQ a); [left|exact Hq].
Qed.

Section ScheduleClaim.
Variable J : LoadJobPtr → LoadJob.
Variable getExceptionMessage : Exception → string.
Hypothesis J_wf : jobs_wf J.

  (** C8: after [schedule] of a job set succeeds, the [dependencies_left] of
      each scheduled job is the number of its declared prerequisites that are
      in the pending map; each such prerequisite has the job in its
      [dependent_jobs], and nothing else has; and a job whose
      [dependencies_left] is zero is in the ready queue, under its key.  The
      loader is any loader that the operations can reach, with room in the
      [UInt64] counter for the jobs scheduled so far and the new ones. *)
Theorem schedule_registers_prerequisites max_threads_ c fuel jobs p s' :
    reachable J getExceptionMessage max_threads_ c →
    scheduled_total (log c) + Z.of_nat (length jobs) < UInt64_modulus →
    NoDup jobs →
    schedule J fuel jobs p (loader c) = Ok s' →
    ∀ x, x ∈ jobs →
      ∃ info, scheduled_jobs s' !! x = Some info ∧
        Info.dependencies_left info =
          Z.of_nat (length (filter (pending s') (dependencies (J x)))) ∧
        (∀ d, linked s' d x ↔ d ∈ dependencies (J x) ∧ pending s' d) ∧
        (Info.dependencies_left info = 0 → (Info.key info, x) ∈ ready_queue s').
  Proof.
    intros Hreach Hn Hnd Hrun x Hx.
    assert (Hc : config_ok J c).
    { apply (reachable_config_ok J getExceptionMessage J_wf max_threads_ c Hreach).
      pose proof (Nat2Z.is_nonneg (length jobs)). lia. }
    destruct (loader_ok_schedule J J_wf _ fuel jobs p _ s' Hnd (c_loader _ _ Hc) Hn Hrun)
      as [(HG' & HQ' & _) HS].
    destruct (ss_new _ _ _ _ _ HS x Hx) as (info & Hinfo & Hready & _).
    assert (Hlk : ∀ d, linked s' d x ↔ d ∈ dependencies (J x) ∧ pending s' d).
    { intros d. rewrite (ss_links _ _ _ _ _ HS). split.
      - intros [Hl|(_ & Hd & Hp)]; [|auto]. exfalso.
        destruct (c_loader _ _ Hc) as (HG & _).
        destruct (g_links _ _ HG _ _ Hl) as [Hp _].
        destruct (ss_fresh _ _ _ _ _ HS x Hx) as [Hnp _]. contradiction.
      - intros [Hd Hp]. right. auto. }
    exists info. split; [exact Hinfo|]. split; [|split; [exact Hlk|]].
    - rewrite (g_count _ _ HG' _ _ Hinfo). unfold registered_count. do 2 f_equal.
      apply filter_ext_elem. intros d Hd. rewrite linkedb_true, Hlk. tauto.
    - intros H0. apply (q_entries _ _ _ _ HQ'). exists info. auto.
  Qed.
End ScheduleClaim.

(** ** What a stretch of [remove] leaves behind *)

Section RemoveClaim.
Variable J : LoadJobPtr → LoadJob.
Variable getExceptionMessage : Exception → string.
Hypothesis J_wf : jobs_wf J.

Local Abbreviation remove_job' := (remove_job J getExceptionMessage).
Local Abbreviation remove' := (remove J getExceptionMessage).

Lemma failed_effect fuel job e s t :
    graph_ok J s → pending s job → failed J getExceptionMessage fuel job e s = Ok t →
    ¬ pending t job ∧ (∀ y, pending t y → pending s y) ∧
    (∀ y, y ∈ finished_jobs t → y ∈ finished_jobs s ∨ pending s y).
  Proof.
    intros HG Hjob Hrun.
    destruct (failed_step J getExceptionMessage _ _ _ _ _ Hrun) as (HS & Hgone & _).
    split; [exact Hgone|]. split.
    - intros y [i' Hy]. destruct (fs_sched _ _ _ _ _ HS _ _ Hy) as (i & Hi & _). eexists; eauto.
    - intros y Hy. destruct (fs_new _ _ _ _ _ HS y Hy) as [Hf|[->|(a & ia & Ha & Hin)]]; auto.
      right. apply (g_links _ _ HG a y). exists ia. auto.
  Qed.

Lemma loaded_effect n job info s :
    loader_ok J n s → scheduled_jobs s !! job = Some info →
    Info.dependencies_left info = 0 → Info.ready_seqno info = 0 →
    ¬ pending (loaded job s) job ∧ (∀ y, pending (loaded job s) y → pending s y) ∧
    (∀ y, y ∈ finished_jobs (loaded job s) → y ∈ finished_jobs s ∨ pending s y) ∧
    (dependents_total (scheduled_jobs (loaded job s)) ≤ dependents_total (scheduled_jobs s))%nat.
  Proof.
    intros (HG & HQ & HP) Hj Hd Hz.
    destruct (calm_loaded J J_wf n job info s HG HQ Hj Hd Hz) as (Hcalm & Hgone & _).
    destruct (loaded_spec J J_wf n job info s HG HQ Hj Hd Hz) as (_ & _ & s2 & HS & Heq).
    split; [exact Hgone|]. split; [apply (cs_old _ _ _ _ Hcalm)|]. split.
    - intros y. rewrite Heq. simpl. rewrite (ls_finished _ _ _ HS). simpl.
      intros Hy. apply elem_of_union in Hy as [Hy|Hy]; [|auto].
      apply elem_of_singleton in Hy as ->. right. eexists; eauto.
    - rewrite Heq. apply weigh_mono. intros y i' Hy. simpl in Hy.
      destruct (decide (y = job)) as [->|Hne]; [rewrite lookup_delete_eq in Hy; discriminate|].
      rewrite lookup_delete_ne in Hy by congruence.
      destruct (load_step_rev _ _ _ _ _ HS Hy) as (i & Hi & _ & Ed & _).
      exists i. rewrite Ed. auto.
  Qed.

Lemma set_finished_unknown job t :
    ¬ pending t job →
    unknown (set_finished (finished_jobs t ∖ {[job]}) t) job.
  Proof.
    intros Hp. split; [exact Hp|]. simpl. intros H.
    apply elem_of_difference in H as [_ H]. apply H, elem_of_singleton. reflexivity.
  Qed.

  (** One job of [remove]: the loader forgets the job, and learns of none. *)
Lemma remove_job_effect n fuel job s s' :
    loader_ok J n s → remove_job' fuel job s = Ok (Removed s') →
    unknown s' job ∧ (∀ y, pending s' y → pending s y) ∧
    (∀ y, y ∈ finished_jobs s' → y ∈ finished_jobs s ∨ pending s y).
  Proof.
    intros Hok Hrun. pose proof Hok as (HG & HQ & HP).
    destruct (decide (job ∈ finished_jobs s)) as [Hfin|Hfin].
    { unfold remove_job in Hrun. rewrite decide_True in Hrun by exact Hfin.
      injection Hrun as <-. split; [apply set_finished_unknown, (g_disjoint _ _ HG), Hfin|].
      split; [auto|]. simpl. intros y Hy. left. apply elem_of_difference in Hy as [Hy _]. exact Hy. }
    destruct (scheduled_jobs s !! job) as [info|] eqn:Hj.
    2: { unfold remove_job in Hrun. rewrite decide_False, Hj in Hrun by exact Hfin.
         injection Hrun as <-. split; [|auto]. split; [|exact Hfin].
         intros [i Hi]. congruence. }
    destruct (remove_job_pending J getExceptionMessage _ _ _ _ _ Hfin Hj Hrun)
      as (t & -> & Hcases).
    assert (Hjob : pending s job) by (eexists; eauto).
    assert (Ht' : ¬ pending t job ∧ (∀ y, pending t y → pending s y) ∧
                  (∀ y, y ∈ finished_jobs t → y ∈ finished_jobs s ∨ pending s y)).
    { destruct Hcases as [[Hd Ht]|(Hd & Hz & Ht)].
      { apply (failed_effect _ _ _ _ _ HG Hjob Ht). }
      destruct (loader_ok_unqueue J n job info s Hok Hj) as (HG1 & _); [lia|].
      assert (Hp1 : ∀ y, pending (update_info (Info.set_ready_seqno 0) job
                      (set_ready_queue (rq_erase (Info.key info) (ready_queue s)) s)) y →
                    pending s y).
      { intros y [i Hi]. rewrite (unqueue_eq _ _ _ Hj) in Hi. simpl in Hi.
        destruct (decide (y = job)) as [->|Hne]; [exact Hjob|].
        rewrite lookup_insert_ne in Hi by congruence. eexists; eauto. }
      assert (Hjob1 : pending (update_info (Info.set_ready_seqno 0) job
                        (set_ready_queue (rq_erase (Info.key info) (ready_queue s)) s)) job).
      { rewrite (unqueue_eq _ _ _ Hj). unfold pending. simpl. rewrite lookup_insert_eq. eexists; eauto. }
      destruct (failed_effect _ _ _ _ _ HG1 Hjob1 Ht) as (H1 & H2 & H3).
      split; [exact H1|]. split; [auto|]. intros y Hy.
      destruct (H3 y Hy) as [Hf|Hp]; [left; exact Hf|right; auto]. }
    destruct Ht' as (H1 & H2 & H3).
    split; [apply set_finished_unknown, H1|]. split; [exact H2|].
    simpl. intros y Hy. apply H3. apply elem_of_difference in Hy as [Hy _]. exact Hy.
  Qed.

  (** [remove] skips a job that the loader does not know. *)
Lemma remove_job_unknown fuel job s :
    unknown s job → remove_job' fuel job s = Ok (Removed s).
  Proof.
    intros [Hp Hf]. unfold remove_job. rewrite decide_False by exact Hf.
    destruct (scheduled_jobs s !! job) as [i|] eqn:Hj; [|reflexivity].
    exfalso. apply Hp. eexists; eauto.
  Qed.

Lemma remove_unknown fuel jobs s :
    (∀ x, x ∈ jobs → unknown s x) → remove' fuel jobs s = Ok (RemoveReturns, s).
  Proof.
    induction jobs as [|x jobs IH]; intros H; simpl; [reflexivity|].
    rewrite remove_job_unknown by (apply H; left). simpl.
    apply IH. intros y Hy. apply H. right. exact Hy.
  Qed.

  (** A stretch of [remove] under the lock: the loader has forgotten the jobs
      that the loop is through with, and has learnt of none; where the loop
      stops, the job is executing. *)
Lemma remove_effect n fuel jobs : ∀ s next s',
    loader_ok J n s → remove' fuel jobs s = Ok (next, s') →
    (∃ done, jobs = done ++ left_over next ∧ ∀ x, x ∈ done → unknown s' x) ∧
    (∀ y, unknown s y → unknown s' y) ∧
    (∀ job rest, next = RemoveWaits job rest → is_executing s' job).
  Proof.
    induction jobs as [|x jobs IH]; intros s next s' Hok Hrun; simpl in Hrun.
    - injection Hrun as <- <-. split; [|split; [auto|discriminate]].
      exists []. split; [reflexivity|]. intros x Hx. inversion Hx.
    - apply bind_Ok in Hrun as (r & Hx & Hrest). destruct r as [t|].
      + destruct (remove_job_effect n fuel x s t Hok Hx) as (Hgone & Hpend & Hfin).
        pose proof (loader_ok_remove_job J getExceptionMessage n fuel x s t Hok Hx) as Hokt.
        destruct (IH t next s' Hokt Hrest) as ((done & -> & Hdone) & Hkeep & Hwait).
        assert (Hst : ∀ y, unknown s y → unknown t y).
        { intros y [Hp Hf]. split; [intros Hy; apply Hp, Hpend, Hy|].
          intros Hy. destruct (Hfin y Hy); contradiction. }
        split; [|split; [auto|exact Hwait]]. exists (x :: done). split; [reflexivity|].
        intros y Hy. apply elem_of_cons in Hy as [->|Hy]; auto.
      + injection Hrest as <- <-. split; [|split; [auto|]].
        * exists []. split; [reflexivity|]. intros y Hy. inversion Hy.
        * intros job rest E. injection E as <- <-.
          destruct (remove_job_MustWait J getExceptionMessage _ _ _ Hx) as (Hfin & info & Hj & Hd & Hz).
          split; [exact Hfin|]. exists info. split; [exact Hj|]. split; [|exact Hz].
          destruct Hok as (HG & _). pose proof (g_count _ _ HG _ _ Hj) as Hc.
          pose proof (registered_count_bound J J_wf s x). lia.
  Qed.

  (** Enough fuel for one job of [remove] is enough for the next. *)
Lemma remove_job_enough n fuel job s :
    loader_ok J n s → (dependents_total (scheduled_jobs s) < fuel)%nat →
    remove_job' fuel job s = Ok MustWait ∨
    ∃ s', remove_job' fuel job s = Ok (Removed s') ∧
          (dependents_total (scheduled_jobs s') ≤ dependents_total (scheduled_jobs s))%nat.
  Proof.
    intros Hok Hfuel. pose proof Hok as (HG & HQ & HP).
    destruct (decide (job ∈ finished_jobs s)) as [Hfin|Hfin].
    { right. unfold remove_job. rewrite decide_True by exact Hfin. eexists. split; [reflexivity|].
      simpl. lia. }
    destruct (scheduled_jobs s !! job) as [info|] eqn:Hj.
    2: { right. unfold remove_job. rewrite decide_False, Hj by exact Hfin. eexists.
         split; [reflexivity|]. lia. }
    unfold remove_job. rewrite decide_False, Hj by exact Hfin.
    destruct (Info.dependencies_left info >? 0) eqn:Hd.
    { right. destruct (failed_enough J getExceptionMessage fuel job
                (mkException ASYNC_LOAD_CANCELED (quoted_job (name (J job)) +:+ " canceled")) s Hfuel)
        as (t & Ht & Hle).
      fold (canceled J getExceptionMessage fuel job s) in Ht. rewrite Ht. simpl.
      eexists. split; [reflexivity|]. simpl. exact Hle. }
    destruct (Info.ready_seqno info =? 0) eqn:Hz; simpl; [left; reflexivity|right].
    assert (E : dependents_total (scheduled_jobs (update_info (Info.set_ready_seqno 0) job
                  (set_ready_queue (rq_erase (Info.key info) (ready_queue s)) s))) =
                dependents_total (scheduled_jobs s)).
    { rewrite (unqueue_eq _ _ _ Hj). simpl.
      rewrite dependents_total_insert, (dependents_total_delete _ _ _ Hj). reflexivity. }
    destruct (failed_enough J getExceptionMessage fuel job
                (mkException ASYNC_LOAD_CANCELED (quoted_job (name (J job)) +:+ " canceled"))
                (update_info (Info.set_ready_seqno 0) job
                   (set_ready_queue (rq_erase (Info.key info) (ready_queue s)) s)))
      as (t & Ht & Hle); [rewrite E; exact Hfuel|].
    fold (canceled J getExceptionMessage fuel job
            (update_info (Info.set_ready_seqno 0) job
               (set_ready_queue (rq_erase (Info.key info) (ready_queue s)) s))) in Ht.
    rewrite Ht. simpl. eexists. split; [reflexivity|]. simpl. rewrite <- E. exact Hle.
  Qed.

  (** With enough fuel a stretch of [remove] under the lock comes to its
      end. *)
Lemma remove_enough n fuel jobs : ∀ s,
    loader_ok J n s → (dependents_total (scheduled_jobs s) < fuel)%nat →
    ∃ next s', remove' fuel jobs s = Ok (next, s').
  Proof.
    induction jobs as [|x jobs IH]; intros s Hok Hfuel; simpl; [eauto|].
    destruct (remove_job_enough n fuel x s Hok Hfuel) as [Hw|(t & Ht & Hle)].
    - rewrite Hw. simpl. eauto.
    - rewrite Ht. simpl. apply IH; [|lia].
      eapply loader_ok_remove_job; eauto.
  Qed.
End RemoveClaim.

(** ** Cancelling a job that has not started *)

Section CancelClaim.
Variable J : LoadJobPtr → LoadJob.
Variable getExceptionMessage : Exception → string.

Lemma registered_dependent_tc s job d : registered_dependent s job d → tc (linked s) job d.
  Proof.
    induction 1 as [info d Hj Hin _|x info d _ IH Hx Hin _].
    - apply tc_once. exists info. auto.
    - eapply tc_r; [exact IH|]. exists info. auto.
  Qed.

Lemma tc_linked_sub s s0 a b :
    (∀ x y, linked s0 x y → linked s x y) → tc (linked s0) a b → tc (linked s) a b.
  Proof.
    intros H. induction 1 as [x y Hxy|x y z Hxy _ IH].
    - apply tc_once, H, Hxy.
    - eapply tc_l; [apply H, Hxy|exact IH].
  Qed.

Lemma registered_dependent_sub s s0 job d :
    (∀ x i, scheduled_jobs s !! x = Some i →
       ∃ i0, scheduled_jobs s0 !! x = Some i0 ∧ Info.dependent_jobs i0 = Info.dependent_jobs i) →
    registered_dependent s job d → registered_dependent s0 job d.
  Proof.
    intros H. induction 1 as [info d Hj Hin [id Hd]|x info d _ IH Hx Hin [id Hd]].
    - destruct (H _ _ Hj) as (i0 & Hi0 & E), (H _ _ Hd) as (id0 & Hid0 & _).
      eapply registered_direct; [exact Hi0|rewrite E; exact Hin|eexists; eauto].
    - destruct (H _ _ Hx) as (i0 & Hi0 & E), (H _ _ Hd) as (id0 & Hid0 & _).
      eapply registered_next; [exact IH|exact Hi0|rewrite E; exact Hin|eexists; eauto].
  Qed.

  (** What cancelling the pending job [job] leaves behind, when no chain of
      back-links leads from [job] to itself. *)
Lemma canceled_effect fuel job s t :
    ¬ tc (linked s) job job →
    canceled J getExceptionMessage fuel job s = Ok t →
    exception (job_state t job) =
      Some (mkException ASYNC_LOAD_CANCELED (quoted_job (name (J job)) +:+ " canceled")) ∧
    is_finished (job_state t job) = true ∧
    ∀ d, registered_dependent s job d →
      is_finished (job_state t d) = true ∧
      ∃ e', exception (job_state t d) = Some e' ∧ code e' = ASYNC_LOAD_DEPENDENCY_FAILED.
  Proof.
    intros Hacyc Hrun. unfold canceled in Hrun.
    destruct (failed_spec J getExceptionMessage dependency_code
                (λ _ _, eq_refl) (λ _ _ _ _ H, H) fuel job _ s t Hrun)
      as (HS & Hgone & _ & [Hfin _] & Hexc).
    split; [|split; [exact Hfin|]].
    - destruct Hexc as [Hexc|Hcyc]; [exact Hexc|contradiction].
    - intros d Hd.
      assert (Hne : d ≠ job).
      { intros ->. apply Hacyc, registered_dependent_tc, Hd. }
      pose proof (registered_dependent_pending _ _ _ Hd) as Hp.
      pose proof (registered_dependent_gone J _ _ _ _ _ _ HS Hgone Hd) as Hg.
      destruct (fs_gone _ _ _ _ _ HS d Hp Hg) as (_ & (Hf & e' & He' & [Hc|[Heq _]]) & _).
      + split; [exact Hf|]. exists e'. auto.
      + congruence.
  Qed.

Lemma status_FAILED st e :
    is_finished st = true → exception st = Some e →
    status st = FAILED ∧ waitNoThrow st = Returned.
  Proof. intros Hf He. unfold status, waitNoThrow. rewrite Hf, He. auto. Qed.

  (** [remove] reaches a pending job that no worker has picked up and that
      no chain of back-links leads back to: it leaves the job [FAILED] with
      the [ASYNC_LOAD_CANCELED] exception, and every pending job registered
      as its direct or transitive dependent [FAILED] with an
      [ASYNC_LOAD_DEPENDENCY_FAILED] exception. *)
Lemma remove_job_cancels fuel job info s s' :
    scheduled_jobs s !! job = Some info → job ∉ finished_jobs s →
    ¬ tc (linked s) job job →
    remove_job J getExceptionMessage fuel job s = Ok (Removed s') →
    status (job_state s' job) = FAILED ∧
    exception (job_state s' job) =
      Some (mkException ASYNC_LOAD_CANCELED (quoted_job (name (J job)) +:+ " canceled")) ∧
    waitNoThrow (job_state s' job) = Returned ∧
    ∀ d, registered_dependent s job d →
      status (job_state s' d) = FAILED ∧
      (∃ e', exception (job_state s' d) = Some e' ∧
             code e' = ASYNC_LOAD_DEPENDENCY_FAILED) ∧
      waitNoThrow (job_state s' d) = Returned.
  Proof.
    intros Hj Hfin Hacyc Hrun.
    destruct (remove_job_pending J getExceptionMessage _ _ _ _ _ Hfin Hj Hrun)
      as (t & -> & Hcases).
    set (s0 := if Info.dependencies_left info >? 0 then s
               else update_info (Info.set_ready_seqno 0) job
                      (set_ready_queue (rq_erase (Info.key info) (ready_queue s)) s)).
    assert (Ht : canceled J getExceptionMessage fuel job s0 = Ok t).
    { unfold s0. destruct Hcases as [[-> Ht]|(-> & _ & Ht)]; exact Ht. }
    assert (Hsub : ∀ x i, scheduled_jobs s !! x = Some i →
              ∃ i0, scheduled_jobs s0 !! x = Some i0 ∧
                    Info.dependent_jobs i0 = Info.dependent_jobs i).
    { intros x i Hx. unfold s0. destruct (Info.dependencies_left info >? 0); [eauto|].
      rewrite (unqueue_eq _ _ _ Hj). simpl. destruct (decide (x = job)) as [->|Hne].
      - rewrite lookup_insert_eq. assert (i = info) by congruence. subst. eauto.
      - rewrite lookup_insert_ne by congruence. eauto. }
    assert (Hback : ∀ x y, linked s0 x y → linked s x y).
    { intros x y. unfold s0. destruct (Info.dependencies_left info >? 0); [auto|].
      intros (i0 & Hi0 & Hin). rewrite (unqueue_eq _ _ _ Hj) in Hi0. simpl in Hi0.
      destruct (decide (x = job)) as [->|Hne].
      - rewrite lookup_insert_eq in Hi0. injection Hi0 as <-. exists info. auto.
      - rewrite lookup_insert_ne in Hi0 by congruence. exists i0. auto. }
    destruct (canceled_effect _ _ _ _ (λ H, Hacyc (tc_linked_sub s s0 _ _ Hback H)) Ht)
      as (Hexc & Hf & Hdeps).
    change (job_state (set_finished (finished_jobs t ∖ {[job]}) t)) with (job_state t).
    destruct (status_FAILED _ _ Hf Hexc) as [Hst Hw].
    split; [exact Hst|]. split; [exact Hexc|]. split; [exact Hw|].
    intros d Hd. destruct (Hdeps d (registered_dependent_sub s s0 job d Hsub Hd)) as (Hfd & e' & He' & Hc).
    destruct (status_FAILED _ _ Hfd He') as [Hstd Hwd]. eauto.
  Qed.
End CancelClaim.

(** ** Order of execution and priorities *)

Section ThreadClaims.
Variable J : LoadJobPtr → LoadJob.
Variable getExceptionMessage : Exception → string.
Hypothesis J_wf : jobs_wf J.

Local Abbreviation reachable' := (reachable J getExceptionMessage).

  (** C2, amended: when a worker starts the body of a job, the body of every
      declared prerequisite that was in the pending map when the job was
      scheduled, or was scheduled in the same call, has returned before.  A
      prerequisite that was not pending then is not waited for.  (Fewer than
      [2^64] jobs have been scheduled.) *)
Theorem body_starts_after_registered_prerequisites max_threads_ c l1 l2 j jobs p P d :
    reachable' max_threads_ c → scheduled_total (log c) < UInt64_modulus →
    log c = l1 ++ EvStarted j :: l2 →
    EvScheduled jobs p P ∈ l1 → j ∈ jobs →
    d ∈ dependencies (J j) → d ∈ P ∨ d ∈ jobs →
    EvReturned d ∈ l1.
  Proof.
    intros Hreach Hn Hlog He Hj Hd HP.
    pose proof (reachable_config_ok J getExceptionMessage J_wf _ _ Hreach Hn) as Hc.
    exact (c_order _ _ Hc l1 l2 j Hlog jobs p P d He Hj Hd HP).
  Qed.

Lemma prio_ok_registered s a d : prio_ok s → registered_dependent s a d →
    ∀ ia id, scheduled_jobs s !! a = Some ia → scheduled_jobs s !! d = Some id →
             Info.priority id ≤ Info.priority ia.
  Proof.
    intros HP. induction 1 as [info d Hj Hin _|x info d _ IH Hx Hin _]; intros ia id Ha Hd.
    - assert (info = ia) by congruence. subst. eapply HP; eauto.
    - pose proof (IH ia info Ha Hx). pose proof (HP x d info id Hx Hin Hd). lia.
  Qed.

  (** C3, amended: in every reachable loader, the priority of a pending job is
      at least the priority it was scheduled with, and at least the priority
      of every pending job registered as its direct or transitive dependent.
      (Fewer than [2^64] jobs have been scheduled.) *)
Theorem priority_covers_registered_dependents max_threads_ c j info :
    reachable' max_threads_ c → scheduled_total (log c) < UInt64_modulus →
    scheduled_jobs (loader c) !! j = Some info →
    (∀ jobs p P, EvScheduled jobs p P ∈ log c → j ∈ jobs → p ≤ Info.priority info) ∧
    (∀ d id, registered_dependent (loader c) j d →
             scheduled_jobs (loader c) !! d = Some id →
             Info.priority id ≤ Info.priority info).
  Proof.
    intros Hreach Hn Hj.
    pose proof (reachable_config_ok J getExceptionMessage J_wf _ _ Hreach Hn) as Hc.
    split.
    - intros jobs p P He Hin. exact (c_prio _ _ Hc jobs p P j info He Hin Hj).
    - intros d id Hd Hid. destruct (c_loader _ _ Hc) as (_ & _ & HP).
      eapply prio_ok_registered; eauto.
  Qed.

  (** C5, amended: [prioritize job p] returns; if [job] is pending, then
      afterwards [job] and every pending job that has [job] as a registered
      direct or transitive dependent are at [p] or above; no priority has
      gone down; and if [job] is not pending nothing has changed.  (The loader
      is reachable, with fewer than [2^64] jobs scheduled.) *)
Theorem prioritize_raises_registered_prerequisites max_threads_ c job p :
    reachable' max_threads_ c → scheduled_total (log c) < UInt64_modulus →
    ∃ s', prioritize J (prioritize_fuel p (loader c)) job p (loader c) = Ok s' ∧
      (∀ i', scheduled_jobs s' !! job = Some i' →
         p ≤ Info.priority i' ∧
         ∀ a ia, registered_dependent s' a job → scheduled_jobs s' !! a = Some ia →
                 p ≤ Info.priority ia) ∧
      (∀ x i, scheduled_jobs (loader c) !! x = Some i →
         ∃ i', scheduled_jobs s' !! x = Some i' ∧ Info.priority i ≤ Info.priority i') ∧
      (¬ pending (loader c) job → s' = loader c).
  Proof.
    intros Hreach Hn.
    pose proof (c_loader _ _ (reachable_config_ok J getExceptionMessage J_wf _ _ Hreach Hn)) as Hok.
    destruct (prioritize_total J job p (loader c)) as [s' Hrun].
    exists s'. split; [exact Hrun|].
    destruct (loader_ok_prioritize J _ _ _ _ _ _ Hok Hrun) as ((_ & _ & HP') & HS & Hroot).
    split; [|split].
    - intros i' Hi'. pose proof (Hroot i' Hi') as Hp. split; [exact Hp|].
      intros a ia Ha Hia. pose proof (prio_ok_registered s' a job HP' Ha ia i' Hia Hi'). lia.
    - intros x i Hx. destruct (ps_fwd _ _ _ _ HS x i Hx) as (i' & Hi' & _ & _ & _ & Hp).
      exists i'. split; [exact Hi'|lia].
    - intros Hnp. unfold prioritize_fuel in Hrun. rewrite prioritize_S in Hrun.
      destruct (scheduled_jobs (loader c) !! job) as [i|] eqn:Hj.
      + exfalso. apply Hnp. eexists; eauto.
      + injection Hrun as <-. reflexivity.
  Qed.

End ThreadClaims.

(** ** Examples and counterexamples *)

Lemma plain_message_quotes e : contains (message e) (plain_message e).
Proof. apply contains_refl. Defined.

Lemma chain_jobs_wf : jobs_wf chain_jobs.
Proof.
  intros x. destruct x as [|[|[|x]]]; simpl; (split; [|reflexivity]).
  - apply NoDup_nil_2.
  - apply NoDup_singleton.
  - apply NoDup_singleton.
  - apply NoDup_nil_2.
Defined.

Lemma NoDup_one (x : LoadJobPtr) : NoDup [x].
Proof. apply NoDup_singleton. Defined.

Lemma reachable_late_b :
  reachable chain_jobs plain_message 1 (mkConfig late_b [] [EvScheduled [1%nat] 0 ∅]).
Proof.
  eapply reachable_step; [apply reachable_initial|].
  apply (step_schedule chain_jobs plain_message 4 [1%nat] 0 (new_loader 1) late_b).
  - apply NoDup_one.
  - vm_compute. reflexivity.
Defined.

Lemma reachable_late_ab :
  reachable chain_jobs plain_message 1
    (mkConfig late_ab [] [EvScheduled [1%nat] 0 ∅; EvScheduled [0%nat] 5 {[1%nat]}]).
Proof.
  eapply reachable_step; [|apply step_start].
  eapply reachable_step; [apply reachable_late_b|].
  apply (step_schedule chain_jobs plain_message 4 [0%nat] 5 late_b
           (ok_or late_b (schedule chain_jobs 4 [0%nat] 5 late_b))).
  - apply NoDup_one.
  - vm_compute. reflexivity.
Defined.

Lemma reachable_late_running_a :
  reachable chain_jobs plain_message 1
    (mkConfig late_running_a [0%nat]
       [EvScheduled [1%nat] 0 ∅;
        EvScheduled [0%nat] 5 {[1%nat]};
        EvStarted 0%nat]).
Proof.
  eapply reachable_step; [apply reachable_late_ab|].
  apply (step_worker chain_jobs plain_message 0 None (Run 0%nat) _ late_running_a).
  - apply list_subseteq_nil.
  - vm_compute. reflexivity.
Defined.

Lemma reachable_late_running_b :
  reachable chain_jobs plain_message 1
    (mkConfig late_running_b [1%nat]
       [EvScheduled [1%nat] 0 ∅;
        EvScheduled [0%nat] 0 {[1%nat]};
        EvStarted 1%nat]).
Proof.
  eapply reachable_step.
  - eapply reachable_step; [|apply step_start].
    eapply reachable_step; [apply reachable_late_b|].
    apply (step_schedule chain_jobs plain_message 4 [0%nat] 0 late_b
             (ok_or late_b (schedule chain_jobs 4 [0%nat] 0 late_b))).
    + apply NoDup_one.
    + vm_compute. reflexivity.
  - apply (step_worker chain_jobs plain_message 0 None (Run 1%nat) _ late_running_b).
    + apply list_subseteq_nil.
    + vm_compute. reflexivity.
Defined.

Lemma reachable_prio_ba :
  reachable chain_jobs plain_message 1
    (mkConfig prio_ba [] [EvScheduled [1%nat] 5 ∅; EvScheduled [0%nat] 0 {[1%nat]}]).
Proof.
  eapply reachable_step.
  - eapply reachable_step; [apply reachable_initial|].
    apply (step_schedule chain_jobs plain_message 4 [1%nat] 5 (new_loader 1) prio_b).
    + apply NoDup_one.
    + vm_compute. reflexivity.
  - apply (step_schedule chain_jobs plain_message 4 [0%nat] 0 prio_b prio_ba).
    + apply NoDup_one.
    + vm_compute. reflexivity.
Defined.

Lemma NoDup_chain : NoDup [0; 1; 2]%nat.
Proof.
  apply NoDup_cons. split; [|apply NoDup_cons; split; [|apply NoDup_one]].
  - intros H. apply elem_of_cons in H as [H|H]; [discriminate|].
    apply list_elem_of_singleton in H. discriminate.
  - intros H. apply list_elem_of_singleton in H. discriminate.
Defined.

Lemma reachable_chain_scheduled :
  reachable chain_jobs plain_message 1
    (mkConfig chain_scheduled [] [EvScheduled [0; 1; 2]%nat 0 ∅]).
Proof.
  eapply reachable_step; [apply reachable_initial|].
  apply (step_schedule chain_jobs plain_message 4 [0; 1; 2]%nat 0 (new_loader 1) chain_scheduled).
  - apply NoDup_chain.
  - vm_compute. reflexivity.
Defined.

Lemma reachable_chain_running_b :
  reachable chain_jobs plain_message 1
    (mkConfig chain_running_b [1%nat]
       [EvScheduled [0; 1; 2]%nat 0 ∅; EvStarted 0%nat; EvReturned 0%nat; EvStarted 1%nat]).
Proof.
  eapply reachable_step.
  - eapply reachable_step.
    + eapply reachable_step; [apply reachable_chain_scheduled|apply step_start].
    + apply (step_worker chain_jobs plain_message 0 None (Run 0%nat) _ chain_running_a).
      * apply list_subseteq_nil.
      * vm_compute. reflexivity.
  - apply (step_worker chain_jobs plain_message 4 (Some (0%nat, None)) (Run 1%nat)
             chain_running_a chain_running_b [0%nat]).
    + intros x Hx. exact Hx.
    + vm_compute. reflexivity.
Defined.

Lemma chain_scheduled_c_depends_on_a : registered_dependent chain_scheduled 0%nat 2%nat.
Proof.
  eapply registered_next.
  - eapply registered_direct.
    + vm_compute. reflexivity.
    + vm_compute. left.
    + vm_compute. eexists. reflexivity.
  - vm_compute. reflexivity.
  - vm_compute. left.
  - vm_compute. eexists. reflexivity.
Defined.

Lemma failure_reaches_registered_dependents_witness :
  ∃ s', handle_executed chain_jobs plain_message (failed_fuel chain_scheduled) 0%nat
          (Some "boom"%string) chain_scheduled = Ok s' ∧
    status (job_state s' 2%nat) = FAILED ∧
    (∃ e', exception (job_state s' 2%nat) = Some e' ∧
           code e' = ASYNC_LOAD_DEPENDENCY_FAILED ∧
           (∃ rest, message e' = quoted_job (name (chain_jobs 2%nat)) +:+ " -> " +:+ rest) ∧
           contains (quoted_job (name (chain_jobs 0%nat))) (message e')) ∧
    (∀ p info, p ∈ dependencies (chain_jobs 2%nat) → scheduled_jobs s' !! p = Some info →
               2%nat ∉ Info.dependent_jobs info) ∧
    ¬ pending s' 2%nat ∧ 2%nat ∈ finished_jobs s'.
Proof.
  apply (failure_reaches_registered_dependents chain_jobs plain_message plain_message_quotes
           chain_scheduled 0%nat "boom"%string 2%nat).
  - exact chain_scheduled_c_depends_on_a.
  - discriminate.
Defined.

(** C4 as stated fails: B declares A as its prerequisite and is pending when
    the body of A throws, yet B is not failed; it stays [PENDING] and is the
    next job the worker runs. *)
Lemma failure_misses_late_dependent :
  declared_dependent chain_jobs 0%nat 1%nat ∧
  pending late_running_a 1%nat ∧
  handle_executed chain_jobs plain_message (failed_fuel late_running_a) 0%nat
    (Some "boom"%string) late_running_a = Ok late_a_failed ∧
  status (job_state late_a_failed 1%nat) = PENDING ∧
  pending late_a_failed 1%nat ∧
  take_next late_a_failed = (Run 1%nat, (take_next late_a_failed).2).
Proof.
  split; [apply declared_direct; left|].
  split; [vm_compute; eexists; reflexivity|].
  split; [vm_compute; reflexivity|].
  split; [vm_compute; reflexivity|].
  split; [vm_compute; eexists; reflexivity|].
  vm_compute; reflexivity.
Qed.

(** *** Order of execution *)

Lemma body_starts_after_registered_prerequisites_witness :
  EvReturned 0%nat ∈ [EvScheduled [0; 1; 2]%nat 0 ∅; EvStarted 0%nat; EvReturned 0%nat].
Proof.
  apply (body_starts_after_registered_prerequisites chain_jobs plain_message chain_jobs_wf 1
           (mkConfig chain_running_b [1%nat]
              [EvScheduled [0; 1; 2]%nat 0 ∅; EvStarted 0%nat; EvReturned 0%nat; EvStarted 1%nat])
           [EvScheduled [0; 1; 2]%nat 0 ∅; EvStarted 0%nat; EvReturned 0%nat] []
           1%nat [0; 1; 2]%nat 0 ∅ 0%nat).
  - apply reachable_chain_running_b.
  - vm_compute. reflexivity.
  - reflexivity.
  - left.
  - right. left.
  - simpl. left.
  - right. left.
Defined.

(** C2 as stated fails: B is scheduled, then its declared prerequisite A; no
    body throws; the worker starts the body of B, which was enqueued first,
    while A is pending and its body has not run. *)
Lemma body_starts_before_late_prerequisite :
  reachable chain_jobs plain_message 1
    (mkConfig late_running_b [1%nat]
       [EvScheduled [1%nat] 0 ∅; EvScheduled [0%nat] 0 {[1%nat]}; EvStarted 1%nat]) ∧
  0%nat ∈ dependencies (chain_jobs 1%nat) ∧
  pending late_running_b 0%nat ∧
  status (job_state late_running_b 0%nat) = PENDING ∧
  EvReturned 0%nat ∉ [EvScheduled [1%nat] 0 ∅; EvScheduled [0%nat] 0 {[1%nat]}].
Proof.
  split; [apply reachable_late_running_b|].
  split; [left|].
  split; [vm_compute; eexists; reflexivity|].
  split; [vm_compute; reflexivity|].
  intros H. apply elem_of_cons in H as [H|H]; [discriminate|].
  apply list_elem_of_singleton in H. discriminate.
Qed.

(** *** Priorities *)

Lemma priority_covers_registered_dependents_witness :
  (∀ jobs p P, EvScheduled jobs p P ∈ [EvScheduled [0; 1; 2]%nat 0 ∅] → 0%nat ∈ jobs →
               p ≤ Info.priority (Info.mk 0 0 1 [1%nat])) ∧
  (∀ d id, registered_dependent chain_scheduled 0%nat d →
           scheduled_jobs chain_scheduled !! d = Some id →
           Info.priority id ≤ Info.priority (Info.mk 0 0 1 [1%nat])).
Proof.
  apply (priority_covers_registered_dependents chain_jobs plain_message chain_jobs_wf 1
           (mkConfig chain_scheduled [] [EvScheduled [0; 1; 2]%nat 0 ∅])
           0%nat (Info.mk 0 0 1 [1%nat])).
  - apply reachable_chain_scheduled.
  - vm_compute. reflexivity.
  - vm_compute. reflexivity.
Defined.

(** C3 as stated fails: B is scheduled at priority 5, then its declared
    prerequisite A at priority 0.  Both are pending, and A stays at 0. *)
Lemma late_prerequisite_keeps_low_priority :
  reachable chain_jobs plain_message 1
    (mkConfig prio_ba [] [EvScheduled [1%nat] 5 ∅; EvScheduled [0%nat] 0 {[1%nat]}]) ∧
  0%nat ∈ dependencies (chain_jobs 1%nat) ∧
  Info.priority <$> scheduled_jobs prio_ba !! 0%nat = Some 0 ∧
  Info.priority <$> scheduled_jobs prio_ba !! 1%nat = Some 5.
Proof.
  split; [apply reachable_prio_ba|].
  split; [left|].
  split; vm_compute; reflexivity.
Qed.

Lemma prioritize_raises_registered_prerequisites_witness :
  ∃ s', prioritize chain_jobs (prioritize_fuel 7 chain_scheduled) 2%nat 7 chain_scheduled = Ok s' ∧
    (∀ i', scheduled_jobs s' !! 2%nat = Some i' →
       7 ≤ Info.priority i' ∧
       ∀ a ia, registered_dependent s' a 2%nat → scheduled_jobs s' !! a = Some ia →
               7 ≤ Info.priority ia) ∧
    (∀ x i, scheduled_jobs chain_scheduled !! x = Some i →
       ∃ i', scheduled_jobs s' !! x = Some i' ∧ Info.priority i ≤ Info.priority i') ∧
    (¬ pending chain_scheduled 2%nat → s' = chain_scheduled).
Proof.
  apply (prioritize_raises_registered_prerequisites chain_jobs plain_message chain_jobs_wf 1
           (mkConfig chain_scheduled [] [EvScheduled [0; 1; 2]%nat 0 ∅]) 2%nat 7).
  - apply reachable_chain_scheduled.
  - vm_compute. reflexivity.
Defined.

(** C5 as stated fails: with B at priority 5 and its declared prerequisite A,
    scheduled later, at priority 0, [prioritize B 3] changes nothing, and the
    pending prerequisite A of B is left below 3. *)
Lemma prioritize_misses_late_prerequisite :
  reachable chain_jobs plain_message 1
    (mkConfig prio_ba [] [EvScheduled [1%nat] 5 ∅; EvScheduled [0%nat] 0 {[1%nat]}]) ∧
  pending prio_ba 1%nat ∧ 0%nat ∈ dependencies (chain_jobs 1%nat) ∧
  prioritize chain_jobs 4 1%nat 3 prio_ba = Ok prio_ba ∧
  Info.priority <$> scheduled_jobs prio_ba !! 0%nat = Some 0.
Proof.
  split; [apply reachable_prio_ba|].
  split; [vm_compute; eexists; reflexivity|].
  split; [left|].
  split; vm_compute; reflexivity.
Qed.

(** *** Removing jobs *)

Lemma chain_scheduled_linked a b : linked chain_scheduled a b → (a < b)%nat.
Proof.
  intros (i & Hi & Hin). apply elem_of_map_to_list in Hi.
  remember (map_to_list (scheduled_jobs chain_scheduled)) as l eqn:E.
  vm_compute in E. subst l.
  repeat (apply elem_of_cons in Hi as [Hi|Hi]); try (inversion Hi; fail);
    injection Hi as -> ->; simpl in Hin.
  - inversion Hin.
  - apply list_elem_of_singleton in Hin. subst. lia.
  - apply list_elem_of_singleton in Hin. subst. lia.
Defined.

Lemma chain_scheduled_acyclic a b : tc (linked chain_scheduled) a b → (a < b)%nat.
Proof.
  induction 1 as [x y Hxy|x y z Hxy _ IH].
  - apply chain_scheduled_linked, Hxy.
  - apply chain_scheduled_linked in Hxy. lia.
Defined.

Lemma chain_scheduled_no_loop : ¬ tc (linked chain_scheduled) 0%nat 0%nat.
Proof. intros H. apply chain_scheduled_acyclic in H. lia. Defined.

Lemma chain_scheduled_none_finished x : x ∉ finished_jobs chain_scheduled.
Proof. intros H. apply elem_of_elements in H. vm_compute in H. inversion H. Defined.

(** *** The ready queue and [schedule] *)


Lemma schedule_registers_prerequisites_witness :
  ∃ info, scheduled_jobs chain_scheduled !! 1%nat = Some info ∧
    Info.dependencies_left info =
      Z.of_nat (length (filter (pending chain_scheduled) (dependencies (chain_jobs 1%nat)))) ∧
    (∀ d, linked chain_scheduled d 1%nat ↔
          d ∈ dependencies (chain_jobs 1%nat) ∧ pending chain_scheduled d) ∧
    (Info.dependencies_left info = 0 → (Info.key info, 1%nat) ∈ ready_queue chain_scheduled).
Proof.
  apply (schedule_registers_prerequisites chain_jobs plain_message chain_jobs_wf 1
           (initial 1) 4 [0; 1; 2]%nat 0 chain_scheduled).
  - apply reachable_initial.
  - vm_compute. reflexivity.
  - apply NoDup_chain.
  - vm_compute. reflexivity.
  - right. left.
Defined.

(** * More of the loader *)

(** ** The completion state of the jobs along a run *)

Lemma settle_step_same s s' :
  (∀ x, is_finished (job_state s' x) = is_finished (job_state s x) ∧
        exception (job_state s' x) = exception (job_state s x)) →
  settle_step s s'.
Proof. intros H x. left. apply H. Qed.

Lemma settle_step_heap s s' : heap s' = heap s → settle_step s s'.
Proof. intros E. apply settle_step_same. intros x. unfold job_state. rewrite E. auto. Qed.

Lemma settle_step_trans a b c :
  settle_step a b → settle_step b c →
  (∀ x, pending c x → pending b x) → (∀ x, pending b x → pending a x) →
  settle_step a c.
Proof.
  intros Hab Hbc Hcb Hba x.
  destruct (Hab x) as [[E1 E2]|(P1 & P2 & F1)], (Hbc x) as [[E3 E4]|(P3 & P4 & F2)].
  - left. split; congruence.
  - right. auto.
  - right. split; [exact P1|]. split; [intros H; apply P2, Hcb, H|congruence].
  - contradiction.
Qed.

Section Settle.
Variable J : LoadJobPtr → LoadJob.
Variable getExceptionMessage : Exception → string.
Hypothesis J_wf : jobs_wf J.

  (** The jobs that a run of [failed] calls reaches have left the pending
      map. *)
Lemma fail_step_reach_gone Q (N : LoadJobPtr → Prop) s s' r x :
    fail_step J Q N s s' → ¬ pending s' r → rtc (linked s) r x → ¬ pending s' x.
  Proof.
    intros HS Hr Hpath.
    apply (rtc_ind_r (R := linked s) (λ z, ¬ pending s' z) r); [exact Hr| |exact Hpath].
    intros y z _ (i & Hi & Hin) IH. eapply (fs_closed _ _ _ _ _ HS); eauto.
  Qed.

Lemma settle_fail_step Q (N : LoadJobPtr → Prop) s s' :
    fail_step J Q N s s' → graph_ok J s →
    (∀ x st, Q x st → is_finished st = true) →
    (∀ r, N r → pending s r ∧ ¬ pending s' r) →
    settle_step s s'.
  Proof.
    intros HS HG HQ HN x.
    destruct (fs_heap _ _ _ _ _ HS x) as [E|(Hq & r & Hr & Hpath)]; [left; rewrite E; auto|].
    right. destruct (HN r Hr) as [Hp Hg]. split; [|split].
    - apply rtc_linked_end in Hpath as [->|(a & ia & Ha & Hin)]; [exact Hp|].
      apply (g_links _ _ HG a x). exists ia. auto.
    - eapply fail_step_reach_gone; eauto.
    - eapply HQ, Hq.
  Qed.

Lemma settle_failed fuel job e s s' :
    graph_ok J s → pending s job →
    failed J getExceptionMessage fuel job e s = Ok s' → settle_step s s'.
  Proof.
    intros HG Hp Hrun.
    destruct (failed_step J getExceptionMessage _ _ _ _ _ Hrun) as (HS & Hgone & _).
    eapply settle_fail_step; [exact HS|exact HG| |].
    - intros x st [Hf _]. exact Hf.
    - intros r ->. auto.
  Qed.

Lemma job_state_loaded n job info s x :
    graph_ok J s → queue_ok n 0 [] s → scheduled_jobs s !! job = Some info →
    Info.dependencies_left info = 0 → Info.ready_seqno info = 0 →
    job_state (loaded job s) x =
    if decide (x = job) then setSuccess (job_state s job) else job_state s x.
  Proof.
    intros HG HQ Hj Hd Hz.
    destruct (loaded_spec J J_wf n job info s HG HQ Hj Hd Hz) as (_ & _ & s2 & HS & ->).
    unfold job_state at 1. simpl. rewrite (ls_heap _ _ _ HS).
    apply (job_state_update_job setSuccess job s x).
  Qed.

Lemma settle_loaded n job info s :
    graph_ok J s → queue_ok n 0 [] s → scheduled_jobs s !! job = Some info →
    Info.dependencies_left info = 0 → Info.ready_seqno info = 0 →
    settle_step s (loaded job s).
  Proof.
    intros HG HQ Hj Hd Hz x.
    rewrite (job_state_loaded n job info s x HG HQ Hj Hd Hz).
    destruct (decide (x = job)) as [->|Hne]; [right|left; auto].
    destruct (calm_loaded J J_wf n job info s HG HQ Hj Hd Hz) as (_ & Hgone & _).
    split; [eexists; eauto|]. split; [exact Hgone|reflexivity].
  Qed.
End Settle.

Lemma started_app l1 l2 : started (l1 ++ l2) = started l1 ++ started l2.
Proof. apply omap_app. Qed.


Lemma status_fields st st' :
  is_finished st' = is_finished st → exception st' = exception st → status st' = status st.
Proof. intros E1 E2. unfold status. rewrite E1, E2. reflexivity. Qed.

(** A finished job is left alone. *)
Lemma settle_step_finished s s' x :
  (∀ y, pending s y → is_finished (job_state s y) = false) →
  settle_step s s' → is_finished (job_state s x) = true →
  is_finished (job_state s' x) = true ∧ exception (job_state s' x) = exception (job_state s x).
Proof.
  intros Hp HS Hx. destruct (HS x) as [[E1 E2]|(P1 & _ & _)]; [split; congruence|].
  rewrite (Hp x P1) in Hx. discriminate.
Qed.

Lemma run_ok_keep s ex lg s' ex' evs :
  run_ok (mkConfig s ex lg) → settle_step s s' → (∀ x, pending s' x → pending s x) →
  (∀ x, x ∈ ex' → x ∈ started (lg ++ evs)) →
  (∀ x, x ∈ started (lg ++ evs) → x ∈ ex' ∨ is_finished (job_state s' x) = true) →
  NoDup (started (lg ++ evs)) →
  (∀ x, EvReturned x ∈ evs → status (job_state s' x) = SUCCESS) →
  (∀ x, EvThrew x ∈ evs →
     ∃ e, exception (job_state s' x) = Some e ∧ code e = ASYNC_LOAD_FAILED ∧
          is_finished (job_state s' x) = true) →
  (∀ x, x ∈ started evs → pending s x) →
  (∀ x, EvReturned x ∈ evs ∨ EvThrew x ∈ evs → x ∈ started lg) →
  run_ok (mkConfig s' ex' (lg ++ evs)).
Proof.
  intros [R1 R2 R3 R4 R5 R6 R7 R8 R9 R10] HS Hold Hex Hst Hnd Hret Hthr Hnew Hout. simpl in *.
  assert (Hsub : ∀ jobs p P, EvScheduled jobs p P ∈ lg → EvScheduled jobs p P ∈ lg ++ evs).
  { intros jobs p P He. apply elem_of_app. left. exact He. }
  constructor; simpl.
  - intros x Hx. destruct (HS x) as [[E1 _]|(_ & P2 & _)]; [|contradiction].
    rewrite E1. apply R1, Hold, Hx.
  - intros x Hx. destruct (HS x) as [[E1 E2]|(_ & _ & F)]; [|congruence].
    rewrite E2. apply R2. congruence.
  - intros x Hx. destruct (R3 x (Hold x Hx)) as (jobs & p & P & He & Hin).
    exists jobs, p, P. split; [apply elem_of_app; left; exact He|exact Hin].
  - exact Hex.
  - exact Hst.
  - exact Hnd.
  - intros x Hx. apply elem_of_app in Hx as [Hx|Hx]; [|auto].
    pose proof (R7 x Hx) as Hs.
    assert (Hf : is_finished (job_state s x) = true).
    { unfold status in Hs. destruct (is_finished (job_state s x)); [reflexivity|discriminate]. }
    destruct (settle_step_finished s s' x R1 HS Hf) as [E1 E2].
    rewrite <- Hs. apply status_fields; congruence.
  - intros x Hx. apply elem_of_app in Hx as [Hx|Hx]; [|auto].
    destruct (R8 x Hx) as (e & He & Hc & Hf).
    destruct (settle_step_finished s s' x R1 HS Hf) as [E1 E2].
    exists e. split; [congruence|auto].
  - intros x Hx. rewrite started_app in Hx. apply elem_of_app in Hx as [Hx|Hx].
    + destruct (R9 x Hx) as (jobs & p & P & He & Hin). eauto 6.
    + destruct (R3 x (Hnew x Hx)) as (jobs & p & P & He & Hin). eauto 6.
  - intros x Hx. rewrite started_app. apply elem_of_app. left.
    destruct Hx as [Hx|Hx]; apply elem_of_app in Hx as [Hx|Hx]; auto.
Qed.

(** An operation that logs nothing and leaves the threads alone. *)
Lemma run_ok_quiet s ex lg s' :
  run_ok (mkConfig s ex lg) → settle_step s s' → (∀ x, pending s' x → pending s x) →
  run_ok (mkConfig s' ex lg).
Proof.
  intros HR HS Hold. rewrite <- (app_nil_r lg).
  apply (run_ok_keep s ex lg s' ex []); auto.
  - rewrite app_nil_r. exact (r_exec _ HR).
  - rewrite app_nil_r. intros x Hx. destruct (r_started _ HR x Hx) as [H|H]; [left; exact H|].
    right. apply (settle_step_finished s s' x (r_pending _ HR) HS H).
  - rewrite app_nil_r. exact (r_once _ HR).
  - intros x Hx. inversion Hx.
  - intros x Hx. inversion Hx.
  - intros x Hx. inversion Hx.
  - intros x [Hx|Hx]; inversion Hx.
Qed.

Lemma tc_last {A} (R : relation A) x y : tc R x y → ∃ z, R z y.
Proof. induction 1 as [x y H|x y z _ _ IH]; [eauto|exact IH]. Qed.

Section RunOk.
Variable J : LoadJobPtr → LoadJob.
Variable getExceptionMessage : Exception → string.
Hypothesis J_wf : jobs_wf J.

  (** No chain of back-links leads to a job that waits for nothing. *)
Lemma idle_acyclic s job info a :
    graph_ok J s → scheduled_jobs s !! job = Some info →
    Info.dependencies_left info = 0 → ¬ tc (linked s) a job.
  Proof.
    intros HG Hj Hd Hc. apply tc_last in Hc as [z Hz].
    destruct (g_links _ _ HG _ _ Hz) as [_ Hdep].
    pose proof (registered_count_pos J s z job Hz Hdep).
    pose proof (g_count _ _ HG _ _ Hj). lia.
  Qed.

Lemma settle_remove_job n fuel job s s' :
    loader_ok J n s → remove_job J getExceptionMessage fuel job s = Ok (Removed s') →
    settle_step s s'.
  Proof.
    intros Hok Hrun. pose proof Hok as (HG & HQ & HP).
    destruct (decide (job ∈ finished_jobs s)) as [Hfin|Hfin].
    { unfold remove_job in Hrun. rewrite decide_True in Hrun by exact Hfin.
      injection Hrun as <-. apply settle_step_heap. reflexivity. }
    destruct (scheduled_jobs s !! job) as [info|] eqn:Hj.
    2: { unfold remove_job in Hrun. rewrite decide_False, Hj in Hrun by exact Hfin.
         injection Hrun as <-. apply settle_step_heap. reflexivity. }
    destruct (remove_job_pending J getExceptionMessage _ _ _ _ _ Hfin Hj Hrun)
      as (t & -> & Hcases).
    assert (Hjob : pending s job) by (eexists; eauto).
    assert (HS : settle_step s t).
    { destruct Hcases as [[Hd Ht]|(Hd & Hz & Ht)].
      { eapply settle_failed; eauto. }
      destruct (loader_ok_unqueue J n job info s Hok Hj) as (HG1 & _); [lia|].
      assert (HS1 : settle_step
                      (update_info (Info.set_ready_seqno 0) job
                         (set_ready_queue (rq_erase (Info.key info) (ready_queue s)) s)) t).
      { eapply settle_failed; [exact HG1| |exact Ht].
        rewrite (unqueue_eq _ _ _ Hj). unfold pending. simpl. rewrite lookup_insert_eq. eauto. }
      intros x. destruct (HS1 x) as [E|(P1 & P2 & F)]; [left; exact E|right].
      split; [|auto]. destruct P1 as [i Hi]. rewrite (unqueue_eq _ _ _ Hj) in Hi.
      simpl in Hi. destruct (decide (x = job)) as [->|Hne]; [exact Hjob|].
      rewrite lookup_insert_ne in Hi by congruence. eexists; eauto. }
    intros x. destruct (HS x) as [E|H]; [left; exact E|right; exact H].
  Qed.

Lemma run_ok_schedule fuel jobs p s s' ex lg :
    config_ok J (mkConfig s ex lg) → run_ok (mkConfig s ex lg) → NoDup jobs →
    scheduled_total lg + Z.of_nat (length jobs) < UInt64_modulus →
    schedule J fuel jobs p s = Ok s' →
    run_ok (mkConfig s' ex (lg ++ [EvScheduled jobs p (dom (scheduled_jobs s))])).
  Proof.
    intros HC [R1 R2 R3 R4 R5 R6 R7 R8 R9 R10] Hnd Hn Hrun. simpl in *.
    destruct (loader_ok_schedule J J_wf _ fuel jobs p s s' Hnd (c_loader _ _ HC) Hn Hrun)
      as [_ HS].
    assert (Hst : started (lg ++ [EvScheduled jobs p (dom (scheduled_jobs s))]) = started lg).
    { rewrite started_app. simpl. apply app_nil_r. }
    assert (Hheap : ∀ y, is_finished (job_state s' y) = is_finished (job_state s y) ∧
                         exception (job_state s' y) = exception (job_state s y))
      by apply (ss_heap _ _ _ _ _ HS).
    constructor; simpl.
    - intros x Hx. rewrite (proj1 (Hheap x)). apply (ss_pending _ _ _ _ _ HS) in Hx as [Hx|Hx].
      + apply R1, Hx.
      + apply (ss_fresh _ _ _ _ _ HS x Hx).
    - intros x. destruct (Hheap x) as [-> ->]. apply R2.
    - intros x Hx. apply (ss_pending _ _ _ _ _ HS) in Hx as [Hx|Hx].
      + destruct (R3 x Hx) as (jobs0 & p0 & P0 & He & Hin). exists jobs0, p0, P0.
        split; [apply elem_of_app; left; exact He|exact Hin].
      + exists jobs, p, (dom (scheduled_jobs s)). split; [|exact Hx].
        apply elem_of_app. right. left.
    - rewrite Hst. exact R4.
    - rewrite Hst. intros x Hx. destruct (R5 x Hx) as [H|H]; [left; exact H|right].
      rewrite (proj1 (Hheap x)). exact H.
    - rewrite Hst. exact R6.
    - intros x Hx. apply elem_of_app in Hx as [Hx|Hx].
      + rewrite <- (R7 x Hx). destruct (Hheap x). apply status_fields; assumption.
      + apply list_elem_of_singleton in Hx. discriminate.
    - intros x Hx. apply elem_of_app in Hx as [Hx|Hx].
      + destruct (R8 x Hx) as (e & He & Hc & Hf). destruct (Hheap x) as [E1 E2].
        exists e. split; [congruence|]. split; [exact Hc|congruence].
      + apply list_elem_of_singleton in Hx. discriminate.
    - rewrite Hst. intros x Hx. destruct (R9 x Hx) as (jobs0 & p0 & P0 & He & Hin).
      exists jobs0, p0, P0. split; [apply elem_of_app; left; exact He|exact Hin].
    - rewrite Hst. intros x [Hx|Hx]; apply elem_of_app in Hx as [Hx|Hx]; auto;
        apply list_elem_of_singleton in Hx; discriminate.
  Qed.

  (** "Handle just executed job" *)
Lemma run_ok_commit fuel executed s s1 ex lg :
    config_ok J (mkConfig s ex lg) → run_ok (mkConfig s ex lg) →
    executed_job executed ⊆ ex →
    match executed with
    | Some (job, thrown) => handle_executed J getExceptionMessage fuel job thrown s
    | None => Ok s
    end = Ok s1 →
    run_ok (mkConfig s1 (filter (λ j, j ∉ executed_job executed) ex)
              (lg ++ executed_event executed)).
  Proof.
    intros HC HR Hsub Hrun. pose proof HR as [R1 R2 R3 R4 R5 R6 R7 R8 R9 R10]. simpl in *.
    destruct (c_loader _ _ HC) as (HG & HQ & HP). simpl in *.
    assert (Hquiet : started (executed_event executed) = []).
    { destruct executed as [[job [what|]]|]; reflexivity. }
    assert (Hout : ∀ x, EvReturned x ∈ executed_event executed ∨
                        EvThrew x ∈ executed_event executed → x ∈ started lg).
    { intros x Hx. apply R4, Hsub.
      destruct executed as [[job [what|]]|]; simpl in *; destruct Hx as [Hx|Hx];
        try (inversion Hx; fail); apply list_elem_of_singleton in Hx;
        try discriminate; injection Hx as ->; left. }
    assert (Hlog : started (lg ++ executed_event executed) = started lg).
    { rewrite started_app. destruct executed as [[job [what|]]|]; simpl; apply app_nil_r. }
    assert (Hmain : ∀ job, executed_job executed = [job] →
              settle_step s s1 → (∀ x, pending s1 x → pending s x) →
              is_finished (job_state s1 job) = true →
              (∀ x, EvReturned x ∈ executed_event executed →
                    status (job_state s1 x) = SUCCESS) →
              (∀ x, EvThrew x ∈ executed_event executed →
                    ∃ e, exception (job_state s1 x) = Some e ∧ code e = ASYNC_LOAD_FAILED ∧
                         is_finished (job_state s1 x) = true) →
              run_ok (mkConfig s1 (filter (λ j, j ∉ executed_job executed) ex)
                        (lg ++ executed_event executed))).
    { intros job Hjob HS Hold Hfin Hret Hthr.
      apply (run_ok_keep s ex lg); auto.
      - intros x Hx. apply list_elem_of_filter in Hx as [_ Hx]. rewrite Hlog. auto.
      - rewrite Hlog. intros x Hx. rewrite Hjob. destruct (decide (x = job)) as [->|Hne].
        + right. exact Hfin.
        + destruct (R5 x Hx) as [H|H].
          * left. apply list_elem_of_filter. split; [|exact H].
            intros Hin. apply list_elem_of_singleton in Hin. contradiction.
          * right. apply (settle_step_finished s s1 x R1 HS H).
      - rewrite Hlog. exact R6.
      - rewrite Hquiet. intros x Hx. inversion Hx. }
    destruct executed as [[job [what|]]|]; simpl in *.
    - assert (Hin : job ∈ ex) by (apply Hsub; left).
      destruct (c_exec _ _ HC job Hin) as (info & Hj & Hd & Hz). simpl in Hj.
      assert (Hp : pending s job) by (eexists; eauto).
      destruct (calm_failed J getExceptionMessage (λ _, False) _ _ _ _ _ HG Hrun)
        as (Hcalm & _ & Hfin).
      destruct (failed_spec J getExceptionMessage any_exception
                  (λ _ _, I) (λ _ _ _ _ _, I) fuel job _ s s1 Hrun) as (_ & _ & _ & _ & Hexc).
      destruct Hexc as [Hexc|Hc]; [|destruct (idle_acyclic s job info job HG Hj Hd Hc)].
      apply (Hmain job eq_refl).
      + eapply settle_failed; eauto.
      + apply (cs_old _ _ _ _ Hcalm).
      + exact Hfin.
      + intros x Hx. apply list_elem_of_singleton in Hx. discriminate.
      + intros x Hx. apply list_elem_of_singleton in Hx. injection Hx as ->.
        eexists. split; [exact Hexc|]. split; [reflexivity|exact Hfin].
    - assert (Hin : job ∈ ex) by (apply Hsub; left).
      destruct (c_exec _ _ HC job Hin) as (info & Hj & Hd & Hz). simpl in Hj.
      injection Hrun as <-.
      destruct (calm_loaded J J_wf _ job info s HG HQ Hj Hd Hz) as (Hcalm & _ & Hfin).
      apply (Hmain job eq_refl).
      + eapply settle_loaded; eauto.
      + apply (cs_old _ _ _ _ Hcalm).
      + exact Hfin.
      + intros x Hx. apply list_elem_of_singleton in Hx. injection Hx as ->.
        rewrite (job_state_loaded J J_wf _ job info s job HG HQ Hj Hd Hz), decide_True by reflexivity.
        unfold status. simpl. rewrite (R2 job); [reflexivity|]. apply R1. eexists; eauto.
      + intros x Hx. apply list_elem_of_singleton in Hx. discriminate.
    - injection Hrun as <-.
      apply (run_ok_keep s ex lg); auto.
      + apply settle_step_heap. reflexivity.
      + intros x Hx. apply list_elem_of_filter in Hx as [_ Hx]. rewrite Hlog. auto.
      + rewrite Hlog. intros x Hx. destruct (R5 x Hx) as [H|H]; [left|right; exact H].
        apply list_elem_of_filter. split; [apply not_elem_of_nil|exact H].
      + rewrite Hlog. exact R6.
      + intros x Hx. inversion Hx.
      + intros x Hx. inversion Hx.
      + intros x Hx. inversion Hx.
  Qed.

  (** "Take next job to be executed from the ready queue" *)
Lemma run_ok_take next s s' ex lg :
    config_ok J (mkConfig s ex lg) → run_ok (mkConfig s ex lg) →
    take_next s = (next, s') →
    run_ok (mkConfig s' (next_job next ++ ex) (lg ++ map EvStarted (next_job next))).
  Proof.
    intros HC HR Ht. pose proof HR as [R1 R2 R3 R4 R5 R6 R7 R8 R9 R10]. simpl in *.
    destruct next as [|job]; simpl.
    - rewrite app_nil_r. apply (run_ok_quiet s); [exact HR| |].
      + apply settle_step_heap. destruct (take_next_exit _ _ Ht) as [->| ->]; reflexivity.
      + intros x. destruct (take_next_exit _ _ Ht) as [->| ->]; auto.
    - destruct (loader_ok_take_next J _ s job s' (c_loader _ _ HC) Ht)
        as (_ & i & Hi & Hnz & Hd & Hm & Hheap & _).
      assert (Hold : ∀ x, pending s' x → pending s x).
      { intros x [j Hx]. rewrite Hm in Hx. destruct (decide (x = job)) as [->|Hne].
        - eexists; eauto.
        - rewrite lookup_insert_ne in Hx by congruence. eexists; eauto. }
      assert (Hnew : job ∉ started lg).
      { intros Hin. destruct (R5 job Hin) as [Hex|Hf].
        - destruct (c_exec _ _ HC job Hex) as (i2 & Hi2 & _ & Hz2). simpl in Hi2. congruence.
        - rewrite (R1 job) in Hf; [discriminate|eexists; eauto]. }
      assert (Hlog : started (lg ++ [EvStarted job]) = started lg ++ [job]).
      { rewrite started_app. reflexivity. }
      apply (run_ok_keep s ex lg); auto.
      + apply settle_step_heap, Hheap.
      + rewrite Hlog. intros x Hx. apply elem_of_app. apply elem_of_cons in Hx as [->|Hx].
        * right. left.
        * left. auto.
      + rewrite Hlog. intros x Hx. apply elem_of_app in Hx as [Hx|Hx].
        * destruct (R5 x Hx) as [H|H]; [left; right; exact H|right].
          unfold job_state. rewrite Hheap. exact H.
        * apply list_elem_of_singleton in Hx. subst. left. left.
      + rewrite Hlog. apply NoDup_app. split; [exact R6|]. split; [|apply NoDup_singleton].
        intros x Hx Hx'. apply list_elem_of_singleton in Hx'. subst. contradiction.
      + intros x Hx. apply list_elem_of_singleton in Hx. discriminate.
      + intros x Hx. apply list_elem_of_singleton in Hx. discriminate.
      + intros x Hx. apply list_elem_of_singleton in Hx. subst. eexists; eauto.
      + intros x [Hx|Hx]; apply list_elem_of_singleton in Hx; discriminate.
  Qed.

Lemma run_ok_initial max_threads_ : run_ok (initial max_threads_).
  Proof.
    constructor; simpl.
    - intros x [i Hi]. simpl in Hi. rewrite lookup_empty in Hi. discriminate.
    - intros x _. unfold job_state. simpl. rewrite lookup_empty. reflexivity.
    - intros x [i Hi]. simpl in Hi. rewrite lookup_empty in Hi. discriminate.
    - intros x Hx. inversion Hx.
    - intros x Hx. inversion Hx.
    - constructor.
    - intros x Hx. inversion Hx.
    - intros x Hx. inversion Hx.
    - intros x Hx. inversion Hx.
    - intros x [Hx|Hx]; inversion Hx.
  Qed.

Lemma run_ok_step c c' :
    config_ok J c → run_ok c → step J getExceptionMessage c c' →
    scheduled_total (log c') < UInt64_modulus → run_ok c'.
  Proof.
    intros HC HR Hstep Hn. destruct Hstep as
      [fuel jobs p s s' ex lg Hnd Hrun|fuel job p s s' ex lg Hrun
      |fuel job s s' ex lg Hrun|s ex lg|s ex lg
      |fuel executed next s s' ex lg Hsub Hrun]; simpl in Hn.
    - apply run_ok_schedule with (fuel := fuel); auto.
      rewrite scheduled_total_app in Hn. simpl in Hn. lia.
    - destruct (prioritize_spec J _ _ _ _ _ Hrun) as [HS _].
      apply (run_ok_quiet s); [exact HR| |].
      + apply settle_step_same, (ps_heap _ _ _ _ HS).
      + intros x. apply (prio_step_pending J p s s' x HS).
    - pose proof (c_loader _ _ HC) as Hok. simpl in Hok.
      apply (run_ok_quiet s); [exact HR| |].
      + eapply settle_remove_job; eauto.
      + apply (remove_job_effect J getExceptionMessage _ _ _ _ _ Hok Hrun).
    - destruct (start_loop_frame (length (ready_queue (set_running true s))) 0
                  (set_running true s)) as (E1 & E2 & _).
      apply (run_ok_quiet s); [exact HR| |].
      + apply settle_step_heap, E2.
      + intros x. unfold pending, start. rewrite E1. auto.
    - apply (run_ok_quiet s); [exact HR| |].
      + apply settle_step_heap. reflexivity.
      + auto.
    - unfold worker_iteration in Hrun. apply bind_Ok in Hrun as (s1 & Hcommit & Htake).
      injection Htake as Htake. rewrite app_assoc.
      apply (run_ok_take next s1 s'); [| |exact Htake].
      + eapply config_ok_commit; eauto.
      + eapply run_ok_commit; eauto.
  Qed.

  (** Every reachable configuration satisfies [run_ok] as well. *)
Lemma reachable_run_ok max_threads_ c :
    reachable J getExceptionMessage max_threads_ c →
    scheduled_total (log c) < UInt64_modulus → config_ok J c ∧ run_ok c.
  Proof.
    induction 1 as [|c c' Hreach IH Hstep]; intros Hn.
    - split; [apply config_ok_initial|apply run_ok_initial].
    - pose proof (scheduled_total_step J getExceptionMessage _ _ Hstep) as Hle.
      destruct IH as [HC HR]; [lia|].
      split; [eapply config_ok_step; eauto|eapply run_ok_step; eauto].
  Qed.
End RunOk.

(** ** Dependents that [loaded] releases *)

Lemma waiting_pos (m : gmap LoadJobPtr Info.t) x i :
  m !! x = Some i → Info.dependencies_left i ≠ 0 → (1 ≤ waiting [] m)%nat.
Proof.
  intros Hx Hd. pose proof (waiting_insert [] m x i (Info.set_dependencies_left 0 i) Hx) as H.
  assert (waits [] x i = 1%nat) as E.
  { unfold waits. rewrite bool_decide_eq_true_2; [reflexivity|left; exact Hd]. }
  assert (waits [] x (Info.set_dependencies_left 0 i) = 0%nat) as E0.
  { unfold waits. rewrite bool_decide_eq_false_2; [reflexivity|].
    intros [H0|H0]; [simpl in H0; lia|inversion H0]. }
  rewrite E, E0 in H. lia.
Qed.

(** The pass of the loop of [loaded] for a dependent that waits for one
    prerequisite only puts it in the ready queue. *)
Lemma loaded_dep_ready n x i s :
  queue_ok n 0 [] s → scheduled_jobs s !! x = Some i → Info.dependencies_left i = 1 →
  ∃ i', scheduled_jobs (loaded_dep x s) !! x = Some i' ∧ Info.ready_seqno i' ≠ 0.
Proof.
  intros HQ Hx Hd. unfold loaded_dep. cbv zeta.
  assert (E : info_at s x = i) by (unfold info_at; rewrite Hx; reflexivity).
  rewrite E, Hd. assert (wrap64 (1 - 1) = 0) as -> by reflexivity. simpl (0 =? 0).
  set (s1 := update_info (Info.set_dependencies_left 0) x s).
  assert (Hx1 : scheduled_jobs s1 !! x = Some (Info.set_dependencies_left 0 i)).
  { unfold s1, update_info. rewrite E. simpl. apply lookup_insert_eq. }
  cbv iota.
  rewrite (enqueue_lookup x _ s1 x Hx1). destruct (decide (x = x)) as [_|Hn]; [|contradiction].
  eexists. split; [reflexivity|]. simpl.
  assert (Hw : (1 ≤ waiting [] (scheduled_jobs s))%nat).
  { apply (waiting_pos _ x i Hx). lia. }
  pose proof (q_potential _ _ _ _ HQ). pose proof (q_bound _ _ _ _ HQ) as [? ?].
  rewrite wrap64_small; lia.
Qed.

Lemma loaded_deps_ready n : ∀ l s,
  NoDup l → queue_ok n 0 [] s →
  (∀ x, x ∈ l → ∃ i, scheduled_jobs s !! x = Some i ∧
                     1 ≤ Info.dependencies_left i < UInt64_modulus) →
  ∀ x i, x ∈ l → scheduled_jobs s !! x = Some i → Info.dependencies_left i = 1 →
  ∃ i', scheduled_jobs (foldl (λ s dep, loaded_dep dep s) s l) !! x = Some i' ∧
        Info.ready_seqno i' ≠ 0.
Proof.
  induction l as [|a l IH]; intros s Hnd HQ Hl x i Hx Hi Hd; [inversion Hx|].
  simpl. apply NoDup_cons in Hnd as [Ha Hnd].
  destruct (Hl a) as (ia & Hia & Hda); [left|].
  destruct (loaded_dep_spec n a ia s HQ Hia Hda) as [HQ1 HS1].
  assert (Hl1 : ∀ y, y ∈ l → ∃ j, scheduled_jobs (loaded_dep a s) !! y = Some j ∧
                       1 ≤ Info.dependencies_left j < UInt64_modulus).
  { intros y Hy. destruct (Hl y) as (j & Hj & Hdj); [right; exact Hy|].
    destruct (ls_fwd _ _ _ HS1 _ _ Hj) as (j1 & Hj1 & _ & _ & L1 & _).
    exists j1. split; [exact Hj1|]. rewrite L1.
    destruct (decide (y ∈ [a])) as [Hy'|_]; [|exact Hdj].
    apply list_elem_of_singleton in Hy'. subst. contradiction. }
  apply elem_of_cons in Hx as [->|Hx].
  - assert (ia = i) by congruence. subst ia.
    destruct (loaded_dep_ready n a i s HQ Hi Hd) as (i1 & Hi1 & Hne).
    destruct (loaded_deps_spec n l _ Hnd HQ1 Hl1) as [_ HS2].
    destruct (ls_fwd _ _ _ HS2 _ _ Hi1) as (i2 & Hi2 & _ & _ & _ & Hst).
    exists i2. split; [exact Hi2|]. rewrite (Hst Ha). exact Hne.
  - destruct (ls_fwd _ _ _ HS1 _ _ Hi) as (i1 & Hi1 & _ & _ & L1 & _).
    apply (IH (loaded_dep a s) Hnd HQ1 Hl1 x i1 Hx Hi1). rewrite L1.
    destruct (decide (x ∈ [a])) as [Hx'|_]; [|exact Hd].
    apply list_elem_of_singleton in Hx'. subst. contradiction.
Qed.

(** What the end of a worker's pass leaves alone. *)
Lemma take_next_frame next s s' :
  take_next s = (next, s') →
  heap s' = heap s ∧ finished_jobs s' = finished_jobs s ∧ (∀ x, pending s' x ↔ pending s x).
Proof.
  unfold take_next. destruct (negb (is_running s)).
  - intros H. injection H as _ <-. tauto.
  - destruct (ready_queue s) as [|[k job] rest].
    + intros H. injection H as _ <-. simpl. tauto.
    + intros H. injection H as _ <-. simpl. split; [reflexivity|]. split; [reflexivity|].
      intros x. unfold pending. simpl. destruct (decide (x = job)) as [->|Hne].
      * rewrite lookup_alter_eq. destruct (scheduled_jobs s !! job); simpl.
        -- split; eauto.
        -- split; intros [? ?]; discriminate.
      * rewrite lookup_alter_ne by congruence. tauto.
Qed.

(** ** Operations that never throw, and the worker count *)

Lemma for_each_no_throw {A S} (body : A → S → Result S) (l : list A) :
  (∀ x s e, x ∈ l → body x s ≠ Throw e) → ∀ s e, for_each body l s ≠ Throw e.
Proof.
  induction l as [|x l IH]; intros Hb s e; simpl; [discriminate|].
  destruct (body x s) as [s1|e1|] eqn:E; simpl.
  - apply IH. intros; apply Hb; right; assumption.
  - exfalso. apply (Hb x s e1); [left|exact E].
  - discriminate.
Qed.

Lemma for_each_mono {A S} (body body' : A → S → Result S) (l : list A) :
  (∀ x s s', x ∈ l → body x s = Ok s' → body' x s = Ok s') →
  ∀ s s', for_each body l s = Ok s' → for_each body' l s = Ok s'.
Proof.
  induction l as [|x l IH]; intros Hb s s' H; simpl in *; [exact H|].
  apply bind_Ok in H as (s1 & H1 & H2). rewrite (Hb x s s1); [|left|exact H1]. simpl.
  apply IH; [|exact H2]. intros; apply Hb; [right|]; assumption.
Qed.

Lemma spawn_step_refl s : spawn_step s s.
Proof. constructor; try reflexivity. intros. lia. Qed.

Lemma spawn_step_trans a b c : spawn_step a b → spawn_step b c → spawn_step a c.
Proof.
  intros [A1 A2 A3 A4] [B1 B2 B3 B4]. constructor.
  - congruence.
  - congruence.
  - intros H. rewrite B3, A3; [reflexivity|exact H|congruence].
  - intros H1 H2. specialize (A4 H1 H2). rewrite A1 in B4. specialize (B4 ltac:(lia) H2). lia.
Qed.

(** An operation that touches neither the count nor the flags. *)
Lemma spawn_step_same s s' :
  max_threads s' = max_threads s → is_running s' = is_running s → workers s' = workers s →
  spawn_step s s'.
Proof. intros E1 E2 E3. constructor; auto. intros. lia. Qed.

Lemma spawn_step_enqueue job s : spawn_step s (enqueue job s).
Proof.
  unfold enqueue. cbv zeta.
  set (s1 := set_ready_queue _ _).
  assert (E : max_threads s1 = max_threads s ∧ is_running s1 = is_running s ∧
              workers s1 = workers s) by (unfold s1; simpl; auto).
  destruct E as (E1 & E2 & E3). rewrite E2, E3, E1.
  destruct (is_running s) eqn:Hr; simpl.
  - destruct (Z.ltb_spec (workers s) (max_threads s)) as [Hlt|Hge].
    + unfold spawn. constructor; simpl.
      * exact E1.
      * congruence.
      * intros H. congruence.
      * intros H0 Hm. rewrite ?E3. rewrite wrap64_small; lia.
    + apply spawn_step_same; congruence.
  - apply spawn_step_same; congruence.
Qed.

Lemma spawn_step_loaded_dep dep s : spawn_step s (loaded_dep dep s).
Proof.
  unfold loaded_dep. cbv zeta. destruct (_ =? 0).
  - eapply spawn_step_trans; [|apply spawn_step_enqueue]. apply spawn_step_same; reflexivity.
  - apply spawn_step_same; reflexivity.
Qed.

Lemma spawn_step_loaded job s : spawn_step s (loaded job s).
Proof.
  unfold loaded. cbv zeta.
  set (s0 := update_info id job (update_job setSuccess job s)).
  assert (H0 : spawn_step s s0) by (apply spawn_step_same; reflexivity).
  generalize (Info.dependent_jobs (info_at s0 job)). intros l.
  assert (H : spawn_step s (foldl (λ s dep, loaded_dep dep s) s0 l)).
  { apply (foldl_inv (spawn_step s)); [|exact H0].
    intros t x _ Ht. eapply spawn_step_trans; [exact Ht|apply spawn_step_loaded_dep]. }
  eapply spawn_step_trans; [exact H|]. apply spawn_step_same; reflexivity.
Qed.

Section Operations.
Variable J : LoadJobPtr → LoadJob.
Variable getExceptionMessage : Exception → string.

Lemma prioritize_no_throw fuel : ∀ job p s e, prioritize J fuel job p s ≠ Throw e.
  Proof.
    induction fuel as [|fuel IH]; intros job p s e; [discriminate|].
    rewrite prioritize_S. destruct (scheduled_jobs s !! job) as [info|]; [|discriminate].
    destruct (Info.priority info >=? p); [discriminate|].
    apply for_each_no_throw. intros x t e' _. apply IH.
  Qed.

Lemma prioritize_mono fuel : ∀ job p s s',
    prioritize J fuel job p s = Ok s' → prioritize J (S fuel) job p s = Ok s'.
  Proof.
    induction fuel as [|fuel IH]; intros job p s s' H; [discriminate|].
    rewrite prioritize_S in H. rewrite prioritize_S.
    destruct (scheduled_jobs s !! job) as [info|]; [|exact H].
    destruct (Info.priority info >=? p); [exact H|].
    revert H. apply for_each_mono. intros x t t' _. apply IH.
  Qed.

Lemma prioritize_more fuel fuel' job p s s' :
    (fuel ≤ fuel')%nat → prioritize J fuel job p s = Ok s' → prioritize J fuel' job p s = Ok s'.
  Proof.
    intros Hle H. induction Hle as [|m _ IHm]; [exact H|]. apply prioritize_mono, IHm.
  Qed.

Lemma spawn_step_prioritize fuel job p s s' :
    prioritize J fuel job p s = Ok s' → spawn_step s s'.
  Proof.
    intros H. destruct (prioritize_spec J _ _ _ _ _ H) as [HS _].
    destruct (ps_workers _ _ _ _ HS) as [E1 E2].
    apply spawn_step_same; [exact E2|exact (ps_running _ _ _ _ HS)|exact E1].
  Qed.

Lemma spawn_step_failed fuel job e s s' :
    failed J getExceptionMessage fuel job e s = Ok s' → spawn_step s s'.
  Proof.
    intros H. destruct (failed_step J getExceptionMessage _ _ _ _ _ H) as (HS & _).
    destruct (fs_workers _ _ _ _ _ HS) as [E1 E2].
    apply spawn_step_same; [exact E2|exact (fs_running _ _ _ _ _ HS)|exact E1].
  Qed.

Lemma spawn_step_handle_executed fuel job thrown s s' :
    handle_executed J getExceptionMessage fuel job thrown s = Ok s' → spawn_step s s'.
  Proof.
    destruct thrown as [what|]; simpl.
    - apply spawn_step_failed.
    - intros H. injection H as <-. apply spawn_step_loaded.
  Qed.

Lemma spawn_step_schedule_dep fuel p job dep s s' :
    schedule_dep J fuel p job dep s = Ok s' → spawn_step s s'.
  Proof.
    unfold schedule_dep. intros H. apply spawn_step_prioritize in H.
    eapply spawn_step_trans; [|exact H].
    destruct (scheduled_jobs s !! dep); apply spawn_step_same; reflexivity.
  Qed.

Lemma spawn_step_schedule_job fuel p job s s' :
    schedule_job J fuel p job s = Ok s' → spawn_step s s'.
  Proof.
    unfold schedule_job. intros H. apply bind_Ok in H as (s1 & H1 & H2).
    injection H2 as <-.
    assert (spawn_step s s1) as H.
    { apply (for_each_rel spawn_step (λ _ _, True)) in H1 as [H _]; auto.
      - apply spawn_step_refl.
      - apply spawn_step_trans.
      - intros x t t' _ Hb. split; [eapply spawn_step_schedule_dep; eauto|exact I]. }
    destruct (_ =? 0); [|exact H].
    eapply spawn_step_trans; [exact H|apply spawn_step_enqueue].
  Qed.

Lemma spawn_step_schedule fuel jobs p s s' :
    schedule J fuel jobs p s = Ok s' → spawn_step s s'.
  Proof.
    unfold schedule. intros H. apply bind_Ok in H as (_ & _ & H).
    apply bind_Ok in H as (_ & _ & H).
    assert (H0 : spawn_step s (foldl (λ s job, emplace_job p job s) s jobs)).
    { apply (foldl_inv (spawn_step s)); [|apply spawn_step_refl].
      intros t x _ Ht. eapply spawn_step_trans; [exact Ht|].
      unfold emplace_job. destruct (scheduled_jobs t !! x); apply spawn_step_same; reflexivity. }
    eapply spawn_step_trans; [exact H0|].
    apply (for_each_rel spawn_step (λ _ _, True)) in H as [H _]; auto.
    - apply spawn_step_refl.
    - apply spawn_step_trans.
    - intros x t t' _ Hb. split; [eapply spawn_step_schedule_job; eauto|exact I].
  Qed.
End Operations.

(** ** [start] *)

Lemma set_workers_same s : set_workers (workers s) s = s.
Proof. destruct s; reflexivity. Qed.

Lemma start_loop_exact n : ∀ i s,
  0 ≤ workers s → max_threads s < UInt64_modulus → 0 ≤ i →
  Z.of_nat (length (ready_queue s)) ≤ i + Z.of_nat n →
  start_loop n i s =
  set_workers (workers s + Z.max 0 (Z.min (max_threads s - workers s)
                                      (Z.of_nat (length (ready_queue s)) - i))) s.
Proof.
  induction n as [|n IH]; intros i s Hw Hm Hi Hlen; simpl.
  - replace (workers s + _) with (workers s) by lia. symmetry. apply set_workers_same.
  - destruct (Z.ltb_spec (workers s) (max_threads s)) as [H1|H1];
      destruct (Z.ltb_spec i (Z.of_nat (length (ready_queue s)))) as [H2|H2]; simpl.
    + assert (Hs : workers (spawn s) = workers s + 1).
      { unfold spawn. simpl. apply wrap64_small. lia. }
      rewrite IH; [|lia|exact Hm|lia|simpl; lia].
      rewrite Hs. unfold spawn, set_workers. simpl. f_equal. lia.
    + replace (workers s + _) with (workers s) by lia. symmetry. apply set_workers_same.
    + replace (workers s + _) with (workers s) by lia. symmetry. apply set_workers_same.
    + replace (workers s + _) with (workers s) by lia. symmetry. apply set_workers_same.
Qed.

Section SanityChecks.
Variable J : LoadJobPtr → LoadJob.

Lemma sanity_checks_thrown s e : ∀ jobs,
    for_each (λ job _, sanity_check J s job) jobs tt = Throw e →
    ∃ job, job ∈ jobs ∧ sanity_check J s job = Throw e.
  Proof.
    induction jobs as [|x jobs IH]; intros H; [discriminate|]. simpl in H.
    destruct (sanity_check J s x) as [[]|e1|] eqn:E; simpl in H.
    - destruct (IH H) as (job & Hin & Hj). exists job. split; [right; exact Hin|exact Hj].
    - injection H as <-. exists x. split; [left|exact E].
    - discriminate.
  Qed.

Lemma sanity_check_thrown s job e :
    sanity_check J s job = Throw e →
    code e = ASYNC_LOAD_SCHEDULE_FAILED ∧
    ((status (job_state s job) ≠ PENDING ∧
      message e = "Trying to schedule already finished load job '" +:+ name (J job) +:+ "'") ∨
     (status (job_state s job) = PENDING ∧ pending s job ∧
      message e = quoted_job (name (J job)) +:+ " has been already scheduled")).
  Proof.
    unfold sanity_check. destruct (status (job_state s job)) eqn:Hs.
    - destruct (scheduled_jobs s !! job) as [i|] eqn:Hj; [|discriminate].
      intros H. injection H as <-. split; [reflexivity|]. right.
      split; [reflexivity|]. split; [exists i; exact Hj|reflexivity].
    - intros H. injection H as <-. split; [reflexivity|]. left. split; [discriminate|reflexivity].
    - intros H. injection H as <-. split; [reflexivity|]. left. split; [discriminate|reflexivity].
  Qed.
End SanityChecks.

(** ** What [checkCycle] throws *)

Section CheckCycleThrows.
Variable J : LoadJobPtr → LoadJob.

Lemma checkCycleImpl_throws fuel : ∀ job left visited e,
    checkCycleImpl J fuel job left visited = Throw e → code e = ASYNC_LOAD_SCHEDULE_FAILED.
  Proof.
    induction fuel as [|fuel IH]; intros job left visited e H; [discriminate|].
    simpl in H. destruct (decide (job ∈ left)); [|discriminate].
    destruct (decide (job ∈ visited)); [discriminate|].
    revert H. generalize (set_insert job visited). generalize left.
    induction (dependencies (J job)) as [|dep deps IHd]; intros left0 visited0 H;
      [discriminate|].
    destruct (checkCycleImpl J fuel dep left0 visited0) as [r|e1|] eqn:E; simpl in H.
    - destruct (decide (r.1 = EmptyString)); [exact (IHd _ _ H)|].
      destruct (decide (job ∈ r.2.2)); [discriminate|].
      injection H as <-. reflexivity.
    - injection H as <-. exact (IH _ _ _ _ E).
    - discriminate.
  Qed.

Lemma checkCycle_loop_S fuel job left visited :
    checkCycle_loop J (S fuel) (job :: left) visited =
    (do r <- checkCycleImpl J (S fuel) job (job :: left) visited;
     checkCycle_loop J fuel (r.2.1) (r.2.2)).
  Proof. reflexivity. Qed.

Lemma checkCycle_loop_throws fuel : ∀ left visited e,
    checkCycle_loop J fuel left visited = Throw e → code e = ASYNC_LOAD_SCHEDULE_FAILED.
  Proof.
    induction fuel as [|fuel IH]; intros left visited e H.
    - destruct left; discriminate.
    - destruct left as [|job left]; [discriminate|]. rewrite checkCycle_loop_S in H.
      destruct (checkCycleImpl J (S fuel) job (job :: left) visited) as [r|e1|] eqn:E.
      + exact (IH _ _ _ H).
      + simpl in H. injection H as <-. exact (checkCycleImpl_throws _ _ _ _ _ E).
      + discriminate.
  Qed.

Lemma checkCycle_throws fuel jobs e :
    checkCycle J fuel jobs = Throw e → code e = ASYNC_LOAD_SCHEDULE_FAILED.
  Proof. apply checkCycle_loop_throws. Qed.
End CheckCycleThrows.

(** ** Sets of jobs *)

Lemma elem_of_foldl_set_insert (l : LoadJobSet) : ∀ l0 x,
  x ∈ foldl (λ acc y, set_insert y acc) l0 l ↔ x ∈ l0 ∨ x ∈ l.
Proof.
  induction l as [|a l IH]; intros l0 x; simpl.
  - split; [auto|]. intros [H|H]; [exact H|inversion H].
  - rewrite IH, elem_of_set_insert, elem_of_cons. tauto.
Qed.

Lemma NoDup_foldl_set_insert (l : LoadJobSet) : ∀ l0,
  NoDup l0 → NoDup (foldl (λ acc y, set_insert y acc) l0 l).
Proof.
  induction l as [|a l IH]; intros l0 H; simpl; [exact H|].
  apply IH, NoDup_set_insert, H.
Qed.

Section RemoveAny.
Variable J : LoadJobPtr → LoadJob.
Variable getExceptionMessage : Exception → string.
Hypothesis J_wf : jobs_wf J.

Lemma calm_remove n fuel jobs : ∀ s next s',
    loader_ok J n s → remove J getExceptionMessage fuel jobs s = Ok (next, s') →
    calm_step (λ x, x ∈ jobs) (λ _, False) s s'.
  Proof.
    induction jobs as [|a jobs IH]; intros s next s' Hok Hrun; simpl in Hrun.
    - injection Hrun as <- <-. apply calm_step_refl.
    - apply bind_Ok in Hrun as (r & Ha & Hrest). destruct r as [t|].
      + pose proof (loader_ok_remove_job J getExceptionMessage n fuel a s t Hok Ha) as Hokt.
        apply (calm_step_trans _ _ s t).
        * eapply calm_step_mono; [| |exact (calm_remove_job J getExceptionMessage n fuel a s t Hok Ha)];
            [intros x ->; left|auto].
        * eapply calm_step_mono; [| |exact (IH t next s' Hokt Hrest)];
            [intros x Hx; right; exact Hx|auto].
      + injection Hrest as <- <-. apply calm_step_refl.
  Qed.
End RemoveAny.

(** ** [checkCycle] on a set without cycles *)

Lemma elem_of_erase (x y : LoadJobPtr) (l : LoadJobSet) : x ∈ set_erase y l ↔ x ∈ l ∧ x ≠ y.
Proof. unfold set_erase. rewrite list_elem_of_filter. tauto. Qed.

Lemma unvisited_insert job left visited :
  job ∈ left → job ∉ visited →
  (unvisited left (set_insert job visited) < unvisited left visited)%nat.
Proof.
  intros Hl Hv. unfold unvisited, set_insert. rewrite decide_False by exact Hv.
  apply subset_size. rewrite list_to_set_app_L. simpl.
  apply (strict_spec_alt (A := gset LoadJobPtr)). split.
  - intros x. rewrite !elem_of_difference, elem_of_union. tauto.
  - intros E. assert (job ∈ (list_to_set left ∖ list_to_set visited : gset LoadJobPtr)) as Hin.
    { apply elem_of_difference. rewrite !elem_of_list_to_set. auto. }
    rewrite <- E in Hin. apply elem_of_difference in Hin as [_ Hn]. apply Hn.
    apply elem_of_union. right. apply elem_of_union. left. apply elem_of_singleton. reflexivity.
Qed.

Lemma unvisited_mono left left' visited visited' :
  (∀ x, x ∈ left' → x ∈ left) → (∀ x, x ∈ visited → x ∈ visited') →
  (unvisited left' visited' ≤ unvisited left visited)%nat.
Proof.
  intros Hl Hv. unfold unvisited. apply subseteq_size.
  intros x. rewrite !elem_of_difference, !elem_of_list_to_set. intros [H1 H2].
  split; [apply Hl, H1|]. intros H. apply H2, Hv, H.
Qed.

Lemma unvisited_le left visited :
  (unvisited left visited ≤ size (list_to_set left : gset LoadJobPtr))%nat.
Proof.
  unfold unvisited. apply subseteq_size. intros x. rewrite elem_of_difference. tauto.
Qed.

Lemma size_lt_erased (left left' : LoadJobSet) job :
  (∀ x, x ∈ left' → x ∈ left) → job ∈ left → job ∉ left' →
  (size (list_to_set left' : gset LoadJobPtr) < size (list_to_set left : gset LoadJobPtr))%nat.
Proof.
  intros Hsub Hin Hout. apply subset_size.
  apply (strict_spec_alt (A := gset LoadJobPtr)). split.
  - intros x. rewrite !elem_of_list_to_set. apply Hsub.
  - intros E. apply Hout. apply (elem_of_list_to_set (C := gset LoadJobPtr)).
    rewrite E. apply elem_of_list_to_set. exact Hin.
Qed.

Lemma size_list_to_set_le (l : LoadJobSet) :
  (size (list_to_set l : gset LoadJobPtr) ≤ length l)%nat.
Proof.
  induction l as [|a l IH]; [rewrite list_to_set_nil, size_empty; simpl; lia|].
  rewrite list_to_set_cons. simpl length.
  pose proof (size_union_alt ({[a]} : gset LoadJobPtr) (list_to_set l)) as H.
  rewrite H, size_singleton.
  pose proof (subseteq_size (list_to_set l ∖ {[a]} : gset LoadJobPtr) (list_to_set l)) as H1.
  assert ((list_to_set l ∖ {[a]} : gset LoadJobPtr) ⊆ list_to_set l) as H2.
  { intros x. rewrite elem_of_difference. tauto. }
  specialize (H1 H2). lia.
Qed.

Section CheckCycleAccepts.
Variable J : LoadJobPtr → LoadJob.

Lemma check_deps_eq fuel job : ∀ deps left visited,
    (fix deps_loop (deps : list LoadJobPtr) (left visited : LoadJobSet) :=
       match deps with
       | [] => Ok (EmptyString, (set_erase job left, visited))
       | dep :: deps' =>
           do r <- checkCycleImpl J fuel dep left visited;
           let chain := r.1 in
           let left' := r.2.1 in
           let visited' := r.2.2 in
           if decide (chain = EmptyString) then deps_loop deps' left' visited'
           else if decide (job ∈ visited') then
             Ok (name (J job) +:+ " -> " +:+ chain, (left', visited'))
           else
             Throw (mkException ASYNC_LOAD_SCHEDULE_FAILED
                      ("Load job dependency cycle detected: "
                         +:+ name (J job) +:+ " -> " +:+ chain))
       end) deps left visited = check_deps J fuel job deps left visited.
  Proof.
    induction deps as [|dep deps IH]; intros left visited; [reflexivity|].
    simpl. destruct (checkCycleImpl J fuel dep left visited) as [r|e|]; simpl; try reflexivity.
    destruct (decide (r.1 = EmptyString)); [apply IH|reflexivity].
  Qed.

Lemma checkCycleImpl_S fuel job left visited :
    checkCycleImpl J (S fuel) job left visited =
    if decide (job ∈ left) then
      if decide (job ∈ visited) then Ok (name (J job), (left, set_erase job visited))
      else check_deps J fuel job (dependencies (J job)) left (set_insert job visited)
    else Ok (EmptyString, (left, visited)).
  Proof.
    simpl. destruct (decide (job ∈ left)); [|reflexivity].
    destruct (decide (job ∈ visited)); [reflexivity|]. apply check_deps_eq.
  Qed.

Variable jobs : LoadJobSet.
Hypothesis jobs_acyclic : acyclic_in J jobs.

  (** On a set without cycles a call of [checkCycleImpl] finds nothing: it
      returns the empty chain, with [job] and what it depends on taken out of
      [left].  The jobs of [left] that are in [visited] are those the
      enclosing calls are working on. *)
Lemma checkCycleImpl_accepts fuel : ∀ job left visited,
    (∀ x, x ∈ left → x ∈ jobs) →
    (job ∈ left → ∀ s, s ∈ left → s ∈ visited → tc (depends_in J jobs) s job) →
    (unvisited left visited < fuel)%nat →
    ∃ left' visited',
      checkCycleImpl J fuel job left visited = Ok (EmptyString, (left', visited')) ∧
      (∀ x, x ∈ left' → x ∈ left) ∧ job ∉ left' ∧
      (∀ x, x ∈ visited → x ∈ visited') ∧
      (∀ s, s ∈ left' → s ∈ visited' → s ∈ visited).
  Proof.
    induction fuel as [|fuel IH]; intros job left visited Hsub Hstack Hfuel; [lia|].
    rewrite checkCycleImpl_S. destruct (decide (job ∈ left)) as [Hjob|Hjob].
    2: { exists left, visited. repeat split; auto. }
    destruct (decide (job ∈ visited)) as [Hv|Hv].
    { exfalso. exact (jobs_acyclic job (Hstack Hjob job Hjob Hv)). }
    pose proof (unvisited_insert job left visited Hjob Hv) as Hm.
    set (v1 := set_insert job visited) in *.
    assert (Hv1 : ∀ x, x ∈ v1 ↔ x = job ∨ x ∈ visited) by (intros x; apply elem_of_set_insert).
    assert (Hloop : ∀ deps l v,
              (∀ d, d ∈ deps → d ∈ dependencies (J job)) →
              (∀ x, x ∈ l → x ∈ left) → (∀ x, x ∈ v1 → x ∈ v) →
              (∀ s, s ∈ l → s ∈ v → s ∈ v1) →
              ∃ left' visited',
                check_deps J fuel job deps l v = Ok (EmptyString, (left', visited')) ∧
                (∀ x, x ∈ left' → x ∈ left) ∧ job ∉ left' ∧
                (∀ x, x ∈ v1 → x ∈ visited') ∧
                (∀ s, s ∈ left' → s ∈ visited' → s ∈ visited)).
    { induction deps as [|dep deps IHd]; intros l v Hdeps Hl Hvv Hon; simpl.
      - exists (set_erase job l), v. split; [reflexivity|]. split.
        { intros x Hx. apply elem_of_erase in Hx as [Hx _]. apply Hl, Hx. }
        split. { intros Hx. apply elem_of_erase in Hx as [_ Hx]. apply Hx. reflexivity. }
        split; [exact Hvv|].
        intros s Hs Hsv. apply elem_of_erase in Hs as [Hs Hne].
        destruct (proj1 (Hv1 s) (Hon s Hs Hsv)) as [->|Hin]; [contradiction|exact Hin].
      - destruct (IH dep l v) as (l1 & v2 & Hrun & Hl1 & _ & Hv2 & Hon1).
        + intros x Hx. apply Hsub, Hl, Hx.
        + intros Hdep s Hs Hsv.
          assert (Hstep : depends_in J jobs job dep).
          { split; [apply Hsub, Hjob|]. split; [apply Hsub, Hl, Hdep|apply Hdeps; left]. }
          destruct (proj1 (Hv1 s) (Hon s Hs Hsv)) as [->|Hin].
          * apply tc_once, Hstep.
          * eapply tc_r; [apply (Hstack Hjob s (Hl s Hs) Hin)|exact Hstep].
        + pose proof (unvisited_mono left l v1 v Hl Hvv). lia.
        + rewrite Hrun. simpl.
          apply IHd.
          * intros d Hd. apply Hdeps. right. exact Hd.
          * intros x Hx. apply Hl, Hl1, Hx.
          * intros x Hx. apply Hv2, Hvv, Hx.
          * intros s Hs Hsv. apply Hon, Hon1; [apply Hl1, Hs|exact Hs|exact Hsv]. }
    destruct (Hloop (dependencies (J job)) left v1) as (left' & visited' & Hrun & H1 & H2 & H3 & H4);
      auto.
    exists left', visited'. split; [exact Hrun|]. split; [exact H1|]. split; [exact H2|].
    split; [|exact H4]. intros x Hx. apply H3, Hv1. right. exact Hx.
  Qed.

Lemma checkCycle_loop_accepts fuel : ∀ left visited,
    (∀ x, x ∈ left → x ∈ jobs) → (∀ s, s ∈ left → s ∉ visited) →
    (size (list_to_set left : gset LoadJobPtr) < fuel)%nat →
    checkCycle_loop J fuel left visited = Ok tt.
  Proof.
    induction fuel as [|fuel IH]; intros left visited Hsub Hfree Hfuel; [lia|].
    destruct left as [|job left]; [reflexivity|]. rewrite checkCycle_loop_S.
    destruct (checkCycleImpl_accepts (S fuel) job (job :: left) visited Hsub)
      as (left' & visited' & Hrun & H1 & H2 & H3 & H4).
    - intros _ s Hs Hv. exfalso. exact (Hfree s Hs Hv).
    - pose proof (unvisited_le (job :: left) visited). lia.
    - rewrite Hrun. simpl. apply IH.
      + intros x Hx. apply Hsub, H1, Hx.
      + intros s Hs Hv. apply (Hfree s (H1 s Hs)), (H4 s Hs Hv).
      + pose proof (size_lt_erased (job :: left) left' job H1 ltac:(left) H2). lia.
  Qed.
End CheckCycleAccepts.

(** ** [schedule] returns *)

Lemma below_update_info p f job t :
  pending t job → (∀ i, Info.priority (f i) = Info.priority i) →
  below p (scheduled_jobs (update_info f job t)) = below p (scheduled_jobs t) ∧
  (∀ x, pending (update_info f job t) x ↔ pending t x).
Proof.
  intros [i Hi] Hf. rewrite (update_info_eq f job t i Hi). simpl. split.
  - unfold below. rewrite weigh_insert, (weigh_delete _ _ _ _ Hi). rewrite Hf. reflexivity.
  - intros x. unfold pending. simpl. destruct (decide (x = job)) as [->|Hne].
    + rewrite lookup_insert_eq. split; eauto.
    + rewrite lookup_insert_ne by congruence. tauto.
Qed.

Lemma below_emplace_job p x t :
  below p (scheduled_jobs (emplace_job p x t)) = below p (scheduled_jobs t) ∧
  pending (emplace_job p x t) x ∧ (∀ y, pending t y → pending (emplace_job p x t) y).
Proof.
  unfold emplace_job. destruct (scheduled_jobs t !! x) as [i|] eqn:Hx; simpl.
  - split; [reflexivity|]. split; [exists i; exact Hx|auto].
  - split; [|split].
    + unfold below. rewrite (weigh_insert_fresh _ _ _ _ Hx). simpl.
      destruct (Z.ltb_spec p p); [lia|reflexivity].
    + exists (Info.init p). simpl. apply lookup_insert_eq.
    + intros y [i Hy]. exists i. simpl. rewrite lookup_insert_ne; [exact Hy|congruence].
Qed.

Lemma below_enqueue p job t :
  pending t job →
  below p (scheduled_jobs (enqueue job t)) = below p (scheduled_jobs t) ∧
  (∀ x, pending (enqueue job t) x ↔ pending t x).
Proof.
  intros Hj.
  assert (E : scheduled_jobs (enqueue job t) =
              scheduled_jobs (update_info (Info.set_ready_seqno (wrap64 (last_ready_seqno t + 1)))
                                job t)).
  { unfold enqueue. cbv zeta. destruct (_ && _); reflexivity. }
  unfold pending. rewrite E. apply (below_update_info p _ job t Hj). reflexivity.
Qed.

Section ScheduleReturns.
Variable J : LoadJobPtr → LoadJob.

Lemma sanity_checks_ok s : ∀ jobs,
    (∀ x, x ∈ jobs → status (job_state s x) = PENDING ∧ ¬ pending s x) →
    for_each (λ job _, sanity_check J s job) jobs tt = Ok tt.
  Proof.
    induction jobs as [|x jobs IH]; intros H; [reflexivity|]. simpl.
    destruct (H x) as [Hs Hp]; [left|]. unfold sanity_check at 1. rewrite Hs.
    destruct (scheduled_jobs s !! x) as [i|] eqn:Hx; [exfalso; apply Hp; exists i; exact Hx|].
    simpl. apply IH. intros y Hy. apply H. right. exact Hy.
  Qed.

Lemma schedule_dep_enough fuel p job dep t :
    pending t job → (below p (scheduled_jobs t) < fuel)%nat →
    ∃ t', schedule_dep J fuel p job dep t = Ok t' ∧
          (∀ x, pending t x → pending t' x) ∧
          (below p (scheduled_jobs t') ≤ below p (scheduled_jobs t))%nat.
  Proof.
    intros Hj Hfuel. unfold schedule_dep.
    set (t1 := match scheduled_jobs t !! dep with Some _ => _ | None => t end).
    assert (H1 : below p (scheduled_jobs t1) = below p (scheduled_jobs t) ∧
                 (∀ x, pending t1 x ↔ pending t x)).
    { unfold t1. destruct (scheduled_jobs t !! dep) as [di|] eqn:Hd; [|tauto].
      destruct (below_update_info p
                  (Info.set_dependent_jobs (set_insert job (Info.dependent_jobs di))) dep t)
        as [E1 P1]; [exists di; exact Hd|reflexivity|].
      destruct (below_update_info p
                  (λ info, Info.set_dependencies_left (wrap64 (Info.dependencies_left info + 1)) info)
                  job
                  (update_info (Info.set_dependent_jobs (set_insert job (Info.dependent_jobs di)))
                     dep t)) as [E2 P2]; [apply P1, Hj|reflexivity|].
      split; [congruence|]. intros x. rewrite P2. apply P1. }
    destruct H1 as [E1 P1].
    destruct (prioritize_enough J fuel dep p t1) as (t' & Hrun & Hle); [lia|].
    exists t'. split; [exact Hrun|]. split; [|lia].
    intros x Hx. apply P1 in Hx as [i Hi].
    destruct (prioritize_spec J _ _ _ _ _ Hrun) as [HS _].
    destruct (ps_fwd _ _ _ _ HS _ _ Hi) as (i' & Hi' & _). exists i'. exact Hi'.
  Qed.

Lemma schedule_job_enough fuel p job t :
    pending t job → (below p (scheduled_jobs t) < fuel)%nat →
    ∃ t', schedule_job J fuel p job t = Ok t' ∧
          (∀ x, pending t x → pending t' x) ∧
          (below p (scheduled_jobs t') ≤ below p (scheduled_jobs t))%nat.
  Proof.
    intros Hj Hfuel. unfold schedule_job.
    assert (Hloop : ∀ deps u, pending u job → (below p (scheduled_jobs u) < fuel)%nat →
              ∃ u', for_each (schedule_dep J fuel p job) deps u = Ok u' ∧
                    (∀ x, pending u x → pending u' x) ∧
                    (below p (scheduled_jobs u') ≤ below p (scheduled_jobs u))%nat).
    { induction deps as [|d deps IH]; intros u Hu Hb; simpl.
      - exists u. split; [reflexivity|]. split; [auto|lia].
      - destruct (schedule_dep_enough fuel p job d u Hu Hb) as (u1 & H1 & P1 & L1).
        rewrite H1. simpl. destruct (IH u1 (P1 _ Hu)) as (u2 & H2 & P2 & L2); [lia|].
        exists u2. split; [exact H2|]. split; [auto|lia]. }
    destruct (Hloop (dependencies (J job)) t Hj Hfuel) as (t1 & H1 & P1 & L1).
    rewrite H1. simpl. eexists. split; [reflexivity|].
    destruct (_ =? 0).
    - destruct (below_enqueue p job t1 (P1 _ Hj)) as [E P]. split; [|lia].
      intros x Hx. apply P, P1, Hx.
    - split; [exact P1|exact L1].
  Qed.

Lemma schedule_jobs_enough fuel p : ∀ jobs t,
    (∀ x, x ∈ jobs → pending t x) → (below p (scheduled_jobs t) < fuel)%nat →
    ∃ t', for_each (schedule_job J fuel p) jobs t = Ok t'.
  Proof.
    induction jobs as [|x jobs IH]; intros t Hp Hb; simpl; [eauto|].
    destruct (schedule_job_enough fuel p x t) as (t1 & H1 & P1 & L1); [apply Hp; left|exact Hb|].
    rewrite H1. simpl. apply IH; [|lia]. intros y Hy. apply P1, Hp. right. exact Hy.
  Qed.

Lemma below_emplace_jobs p : ∀ jobs t,
    below p (scheduled_jobs (foldl (λ s job, emplace_job p job s) t jobs)) =
      below p (scheduled_jobs t) ∧
    (∀ x, x ∈ jobs ∨ pending t x → pending (foldl (λ s job, emplace_job p job s) t jobs) x).
  Proof.
    induction jobs as [|a jobs IH]; intros t; simpl.
    - split; [reflexivity|]. intros x [H|H]; [inversion H|exact H].
    - destruct (below_emplace_job p a t) as (E & Pa & Pold).
      destruct (IH (emplace_job p a t)) as [E2 P2]. split; [congruence|].
      intros x [Hx|Hx]; apply P2.
      + apply elem_of_cons in Hx as [->|Hx]; [right; exact Pa|left; exact Hx].
      + right. apply Pold, Hx.
  Qed.

Lemma ranked_acyclic (jobs : LoadJobSet) (rank : LoadJobPtr → nat) :
    (∀ a b, depends_in J jobs a b → (rank b < rank a)%nat) → acyclic_in J jobs.
  Proof.
    intros Hr x Hx.
    assert (H : ∀ a b, tc (depends_in J jobs) a b → (rank b < rank a)%nat).
    { intros a b Hab. induction Hab as [a b Hab|a b c Hab _ IH].
      - apply Hr, Hab.
      - pose proof (Hr _ _ Hab). lia. }
    specialize (H x x Hx). lia.
  Qed.
End ScheduleReturns.

(** ** [checkCycle] on a set with a cycle *)

Lemma append_nonempty (a b : string) : b ≠ EmptyString → a +:+ b ≠ EmptyString.
Proof. intros Hb. destruct a; simpl; [exact Hb|discriminate]. Qed.

Lemma tc_first {A} (R : relation A) x z : tc R x z → ∃ y, R x y ∧ rtc R y z.
Proof.
  intros H. destruct H as [x z H|x y z H1 H2].
  - exists z. split; [exact H|apply rtc_refl].
  - exists y. split; [exact H1|apply tc_rtc, H2].
Qed.

Section CheckCycleFinds.
Variable J : LoadJobPtr → LoadJob.
Variable jobs : LoadJobSet.
Hypothesis jobs_named : ∀ x, x ∈ jobs → name (J x) ≠ EmptyString.

Lemma done_ok_closed left b c :
    done_ok J jobs left → rtc (depends_in J jobs) b c → b ∉ left → c ∉ left.
  Proof.
    intros [Hc _] Hbc. induction Hbc as [|x y z Hxy _ IH]; [auto|].
    intros Hx. apply IH. exact (Hc _ _ Hxy Hx).
  Qed.

  (** Taking [job] out of [left] once all it depends on is done with. *)
Lemma done_ok_erase job left :
    done_ok J jobs left → job ∈ left →
    (∀ b, depends_in J jobs job b → b ∉ left) →
    done_ok J jobs (set_erase job left).
  Proof.
    intros Hdone Hjob Hdeps. pose proof Hdone as [Hc Ha]. split.
    - intros a b Hab Hna. rewrite elem_of_erase. intros [Hb Hne].
      destruct (decide (a = job)) as [->|Hne'].
      + exact (Hdeps b Hab Hb).
      + apply (Hc a b Hab); [|exact Hb]. intros Hin. apply Hna, elem_of_erase. auto.
    - intros x Hx Hnx Hcyc. destruct (decide (x = job)) as [->|Hne].
      + apply tc_first in Hcyc as (b & Hjb & Hbj).
        exact (done_ok_closed left b job Hdone Hbj (Hdeps b Hjb) Hjob).
      + apply (Ha x Hx); [|exact Hcyc]. intros Hin. apply Hnx, elem_of_erase. auto.
  Qed.

  (** What a call of [checkCycleImpl] comes to when the jobs have names.  [S]
      holds the jobs that the enclosing calls are working on: they are the
      jobs of [left] that are in [visited].  The call returns the empty chain
      with [job] done with, or a chain that ends at a job of [S], which it has
      taken out of [visited], or it throws. *)
Lemma checkCycleImpl_finds fuel : ∀ job left visited (S : list LoadJobPtr),
    (∀ x, x ∈ left → x ∈ jobs) →
    (∀ s, s ∈ S ↔ s ∈ left ∧ s ∈ visited) →
    done_ok J jobs left →
    (unvisited left visited < fuel)%nat →
    match checkCycleImpl J fuel job left visited with
    | Ok r =>
        if decide (r.1 = EmptyString) then
          (∀ x, x ∈ r.2.1 → x ∈ left) ∧ job ∉ r.2.1 ∧
          (∀ x, x ∈ visited → x ∈ r.2.2) ∧
          (∀ s, s ∈ S ↔ s ∈ r.2.1 ∧ s ∈ r.2.2) ∧
          done_ok J jobs (r.2.1)
        else ∃ X, X ∈ S ∧ X ∉ r.2.2 ∧ ∀ s, s ∈ S → s ≠ X → s ∈ r.2.2
    | Throw e => code e = ASYNC_LOAD_SCHEDULE_FAILED
    | OutOfFuel => False
    end.
  Proof.
    induction fuel as [|fuel IH]; intros job left visited S Hsub HS Hdone Hfuel; [lia|].
    rewrite checkCycleImpl_S. destruct (decide (job ∈ left)) as [Hjob|Hjob].
    2: { simpl. split; [auto|]. split; [exact Hjob|]. split; [auto|]. split; [exact HS|exact Hdone]. }
    destruct (decide (job ∈ visited)) as [Hv|Hv].
    { simpl. rewrite decide_False by (apply jobs_named, Hsub, Hjob).
      exists job. split; [apply HS; auto|]. split.
      - rewrite elem_of_erase. intros [_ Hne]. apply Hne. reflexivity.
      - intros s Hs Hne. apply elem_of_erase. split; [apply HS, Hs|exact Hne]. }
    pose proof (unvisited_insert job left visited Hjob Hv) as Hm.
    set (v1 := set_insert job visited) in *.
    assert (Hv1 : ∀ x, x ∈ v1 ↔ x = job ∨ x ∈ visited) by (intros x; apply elem_of_set_insert).
    assert (HnS : job ∉ S) by (intros H; apply HS in H as [_ H]; contradiction).
    assert (Hloop : ∀ deps l v,
              (∀ b, depends_in J jobs job b → b ∈ deps ∨ b ∉ l) →
              (∀ x, x ∈ l → x ∈ left) → (∀ x, x ∈ v1 → x ∈ v) →
              (∀ s, s ∈ job :: S ↔ s ∈ l ∧ s ∈ v) →
              done_ok J jobs l →
              match check_deps J fuel job deps l v with
              | Ok r =>
                  if decide (r.1 = EmptyString) then
                    (∀ x, x ∈ r.2.1 → x ∈ left) ∧ job ∉ r.2.1 ∧
                    (∀ x, x ∈ visited → x ∈ r.2.2) ∧
                    (∀ s, s ∈ S ↔ s ∈ r.2.1 ∧ s ∈ r.2.2) ∧
                    done_ok J jobs (r.2.1)
                  else ∃ X, X ∈ S ∧ X ∉ r.2.2 ∧ ∀ s, s ∈ S → s ≠ X → s ∈ r.2.2
              | Throw e => code e = ASYNC_LOAD_SCHEDULE_FAILED
              | OutOfFuel => False
              end).
    { induction deps as [|dep deps IHd]; intros l v Hdeps Hl Hvv HS1 Hd; simpl.
      - assert (Hjl : job ∈ l) by (apply (HS1 job); left).
        split; [intros x Hx; apply elem_of_erase in Hx as [Hx _]; apply Hl, Hx|].
        split; [rewrite elem_of_erase; intros [_ Hne]; apply Hne; reflexivity|].
        split; [intros x Hx; apply Hvv, Hv1; right; exact Hx|].
        split.
        + intros s. rewrite elem_of_erase. split.
          * intros Hs. assert (s ∈ job :: S) as H1 by (right; exact Hs).
            apply HS1 in H1 as [H1 H2]. split; [|exact H2]. split; [exact H1|].
            intros ->. contradiction.
          * intros [[H1 Hne] H2]. assert (s ∈ job :: S) as H3 by (apply HS1; auto).
            apply elem_of_cons in H3 as [->|H3]; [contradiction|exact H3].
        + apply done_ok_erase; [exact Hd|exact Hjl|].
          intros b Hb. destruct (Hdeps b Hb) as [H|H]; [inversion H|exact H].
      - specialize (IH dep l v (job :: S)).
        destruct (checkCycleImpl J fuel dep l v) as [r|e|] eqn:Hrun; simpl.
        + specialize (IH ltac:(intros x Hx; apply Hsub, Hl, Hx) HS1 Hd).
          assert (Hb : (unvisited l v < fuel)%nat).
          { pose proof (unvisited_mono left l v1 v Hl Hvv). lia. }
          specialize (IH Hb). destruct (decide (r.1 = EmptyString)) as [Hr|Hr].
          * destruct IH as (A1 & A2 & A3 & A4 & A5). apply IHd; auto.
            intros b Hbd. destruct (Hdeps b Hbd) as [H|H].
            -- apply elem_of_cons in H as [->|H]; [right; exact A2|left; exact H].
            -- right. intros Hin. apply H, A1, Hin.
          * destruct IH as (X & HX & HXv & Hrest).
            destruct (decide (job ∈ r.2.2)) as [Hjv|Hjv]; simpl; [|reflexivity].
            rewrite decide_False.
            2: { apply append_nonempty, append_nonempty. exact Hr. }
            apply elem_of_cons in HX as [->|HX]; [contradiction|].
            exists X. split; [exact HX|]. split; [exact HXv|].
            intros s Hs Hne. apply Hrest; [right; exact Hs|exact Hne].
        + exact (checkCycleImpl_throws J _ _ _ _ _ Hrun).
        + apply (IH ltac:(intros x Hx; apply Hsub, Hl, Hx) HS1 Hd).
          pose proof (unvisited_mono left l v1 v Hl Hvv). lia. }
    apply Hloop; auto.
    - intros b (_ & _ & Hb). left. exact Hb.
    - intros s. rewrite elem_of_cons, Hv1, HS. split.
      + intros [->|[H1 H2]]; auto.
      + intros [H1 [->|H2]]; auto.
  Qed.

Lemma checkCycle_loop_finds fuel : ∀ left visited,
    (∀ x, x ∈ left → x ∈ jobs) → (∀ s, s ∈ left → s ∉ visited) →
    done_ok J jobs left →
    (size (list_to_set left : gset LoadJobPtr) < fuel)%nat →
    match checkCycle_loop J fuel left visited with
    | Ok _ => acyclic_in J jobs
    | Throw e => code e = ASYNC_LOAD_SCHEDULE_FAILED
    | OutOfFuel => False
    end.
  Proof.
    induction fuel as [|fuel IH]; intros left visited Hsub Hfree Hdone Hfuel; [lia|].
    destruct left as [|job left].
    { simpl. intros x Hx. destruct Hdone as [_ Ha]. apply (Ha x); [|inversion 1|exact Hx].
      apply tc_first in Hx as (b & (Hin & _) & _). exact Hin. }
    rewrite checkCycle_loop_S.
    pose proof (checkCycleImpl_finds (S fuel) job (job :: left) visited [] Hsub) as H.
    destruct (checkCycleImpl J (S fuel) job (job :: left) visited) as [r|e|] eqn:Hrun; simpl.
    - assert (HS : ∀ s, s ∈ [] ↔ s ∈ job :: left ∧ s ∈ visited).
      { intros s. split; [inversion 1|]. intros [H1 H2]. exfalso. exact (Hfree s H1 H2). }
      specialize (H HS Hdone). pose proof (unvisited_le (job :: left) visited) as Hle.
      specialize (H ltac:(lia)). destruct (decide (r.1 = EmptyString)) as [Hr|Hr].
      + destruct H as (A1 & A2 & A3 & A4 & A5). apply IH; [| |exact A5|].
        * intros x Hx. apply Hsub, A1, Hx.
        * intros s Hs Hsv. assert (s ∈ []) as H0 by (apply A4; auto). inversion H0.
        * pose proof (size_lt_erased (job :: left) (r.2.1) job A1 ltac:(left) A2). lia.
      + destruct H as (X & HX & _). inversion HX.
    - exact (checkCycleImpl_throws J _ _ _ _ _ Hrun).
    - apply H; auto.
      + intros s. split; [inversion 1|]. intros [H1 H2]. exfalso. exact (Hfree s H1 H2).
      + pose proof (unvisited_le (job :: left) visited). lia.
  Qed.

Lemma checkCycle_finds fuel :
    (length jobs < fuel)%nat →
    match checkCycle J fuel jobs with
    | Ok _ => acyclic_in J jobs
    | Throw e => code e = ASYNC_LOAD_SCHEDULE_FAILED
    | OutOfFuel => False
    end.
  Proof.
    intros Hfuel. unfold checkCycle. apply checkCycle_loop_finds; auto.
    - intros s _ Hs. inversion Hs.
    - split.
      + intros a b (Ha & _) Hna. contradiction.
      + intros x Hx Hnx. contradiction.
    - pose proof (size_list_to_set_le jobs). lia.
  Qed.
End CheckCycleFinds.

Lemma sanity_checks_return J s : ∀ jobs,
  for_each (λ job _, sanity_check J s job) jobs tt ≠ OutOfFuel.
Proof.
  induction jobs as [|x jobs IH]; simpl; [discriminate|].
  destruct (sanity_check J s x) as [[]|e|] eqn:E; simpl; [exact IH|discriminate|].
  unfold sanity_check in E. destruct (status _); [destruct (_ !! _)|..]; discriminate.
Qed.

(** ** The user-facing priority *)

Lemma prio_sync_keep s s' :
  (∀ x i', scheduled_jobs s' !! x = Some i' →
     ∃ i, scheduled_jobs s !! x = Some i ∧ Info.priority i' = Info.priority i) →
  (∀ x, priority (job_state s' x) = priority (job_state s x)) →
  prio_sync s → prio_sync s'.
Proof.
  intros Hmap Hheap HP x i' Hx. destruct (Hmap x i' Hx) as (i & Hi & E).
  rewrite Hheap, E. apply HP, Hi.
Qed.

Lemma prio_sync_update_info f job s :
  pending s job → (∀ i, Info.priority (f i) = Info.priority i) →
  prio_sync s → prio_sync (update_info f job s).
Proof.
  intros [i Hi] Hf. apply prio_sync_keep; [|reflexivity].
  intros x i' Hx. rewrite (update_info_lookup f job s i x Hi) in Hx.
  destruct (decide (x = job)) as [->|Hne]; [|eauto].
  injection Hx as <-. exists i. auto.
Qed.

Lemma prio_sync_enqueue job s : pending s job → prio_sync s → prio_sync (enqueue job s).
Proof.
  intros [i Hi]. apply prio_sync_keep.
  - intros x i' Hx. rewrite (enqueue_lookup job i s x Hi) in Hx.
    destruct (decide (x = job)) as [->|Hne]; [|eauto].
    injection Hx as <-. exists i. auto.
  - intros x. unfold job_state. rewrite (proj1 (enqueue_other job s)). reflexivity.
Qed.

Lemma prio_sync_emplace_job p x s :
  ¬ pending s x → prio_sync s → prio_sync (emplace_job p x s).
Proof.
  intros Hx HP y i Hy. unfold emplace_job in *.
  destruct (scheduled_jobs s !! x) as [ix|] eqn:E; [exfalso; apply Hx; exists ix; exact E|].
  rewrite job_state_update_job. simpl in Hy. destruct (decide (y = x)) as [->|Hne].
  - rewrite lookup_insert_eq in Hy. injection Hy as <-. reflexivity.
  - rewrite lookup_insert_ne in Hy by congruence. apply HP, Hy.
Qed.

Lemma prio_sync_emplace_jobs p : ∀ jobs s,
  NoDup jobs → (∀ x, x ∈ jobs → ¬ pending s x) → prio_sync s →
  prio_sync (foldl (λ s job, emplace_job p job s) s jobs).
Proof.
  induction jobs as [|a jobs IH]; intros s Hnd Hfresh HP; simpl; [exact HP|].
  apply NoDup_cons in Hnd as [Ha Hnd]. apply IH; [exact Hnd| |].
  - intros x Hx [i Hi].
    unfold emplace_job in Hi. destruct (scheduled_jobs s !! a) eqn:E; simpl in Hi.
    + apply (Hfresh x); [right; exact Hx|exists i; exact Hi].
    + rewrite lookup_insert_ne in Hi by (intros ->; contradiction).
      apply (Hfresh x); [right; exact Hx|exists i; exact Hi].
  - apply prio_sync_emplace_job; [apply Hfresh; left|exact HP].
Qed.

Section PrioritySync.
Variable J : LoadJobPtr → LoadJob.
Variable getExceptionMessage : Exception → string.

Lemma prio_sync_raise job p info s :
    scheduled_jobs s !! job = Some info → prio_sync s → prio_sync (raise job p info s).
  Proof.
    intros Hj HP x i Hx. rewrite (raise_lookup job p info s x Hj) in Hx.
    unfold raise. rewrite job_state_set_ready_queue, job_state_update_job.
    destruct (decide (x = job)) as [->|Hne].
    - injection Hx as <-. reflexivity.
    - unfold job_state. simpl. apply HP, Hx.
  Qed.

Lemma prio_sync_prioritize fuel : ∀ job p s s',
    prioritize J fuel job p s = Ok s' → prio_sync s → prio_sync s'.
  Proof.
    induction fuel as [|fuel IH]; intros job p s s' H HP; [discriminate|].
    rewrite prioritize_S in H. destruct (scheduled_jobs s !! job) as [info|] eqn:Hj.
    2: { injection H as <-. exact HP. }
    destruct (Info.priority info >=? p); [injection H as <-; exact HP|].
    revert H. apply for_each_inv; [|apply prio_sync_raise; assumption].
    intros x t t' Ht Hrun. exact (IH _ _ _ _ Hrun Ht).
  Qed.

Lemma failed_priority fuel : ∀ job e s s',
    failed J getExceptionMessage fuel job e s = Ok s' →
    ∀ x, priority (job_state s' x) = priority (job_state s x).
  Proof.
    induction fuel as [|fuel IH]; intros job e s s' H; [discriminate|].
    rewrite failed_S in H. apply bind_Ok in H as (s2 & Hloop & Hfin). injection Hfin as <-.
    set (s1 := update_info (Info.set_dependent_jobs []) job (update_job (setFailure e) job s)) in *.
    assert (H1 : ∀ x, priority (job_state s1 x) = priority (job_state s x)).
    { intros x. unfold s1. change (job_state (update_info _ job ?t) x) with (job_state t x).
      rewrite job_state_update_job. destruct (decide (x = job)) as [->|_]; reflexivity. }
    assert (H2 : ∀ x, priority (job_state s2 x) = priority (job_state s x)).
    { revert Hloop. apply (for_each_inv (λ t, ∀ x, priority (job_state t x) = priority (job_state s x)));
        [|exact H1].
      intros d t t' Ht Hrun x. rewrite (IH _ _ _ _ Hrun x). apply Ht. }
    assert (Hh : heap (foldl (λ s dep, clean_edge job dep s) s2 (dependencies (J job))) = heap s2).
    { apply (foldl_inv (λ t, heap t = heap s2)); [|reflexivity].
      intros t d _ Ht. unfold clean_edge. destruct (scheduled_jobs t !! d); exact Ht. }
    intros x. rewrite <- H2. unfold job_state. simpl. rewrite Hh. reflexivity.
  Qed.

Lemma prio_sync_failed fuel job e s s' :
    failed J getExceptionMessage fuel job e s = Ok s' → prio_sync s → prio_sync s'.
  Proof.
    intros H. apply prio_sync_keep; [|apply (failed_priority _ _ _ _ _ H)].
    destruct (failed_step J getExceptionMessage _ _ _ _ _ H) as (HS & _).
    intros x i' Hx. destruct (fs_sched _ _ _ _ _ HS x i' Hx) as (i & Hi & E & _). eauto.
  Qed.

Lemma prio_sync_schedule_dep fuel p job dep s s' :
    schedule_dep J fuel p job dep s = Ok s' → pending s job → prio_sync s → prio_sync s'.
  Proof.
    unfold schedule_dep. intros H Hj HP. apply (prio_sync_prioritize _ _ _ _ _ H).
    destruct (scheduled_jobs s !! dep) as [di|] eqn:Hd; [|exact HP].
    apply prio_sync_update_info; [| reflexivity |].
    - apply below_update_info with (p := 0); [exists di; exact Hd|reflexivity|exact Hj].
    - apply prio_sync_update_info; [exists di; exact Hd|reflexivity|exact HP].
  Qed.

Lemma prio_sync_schedule_job fuel p job s s' :
    schedule_job J fuel p job s = Ok s' → pending s job → prio_sync s →
    prio_sync s' ∧ ∀ x, pending s x → pending s' x.
  Proof.
    unfold schedule_job. intros H Hj HP. apply bind_Ok in H as (s1 & Hloop & Hret).
    injection Hret as <-.
    assert (H1 : prio_sync s1 ∧ ∀ x, pending s x → pending s1 x).
    { revert Hloop.
      apply (for_each_inv (λ t, prio_sync t ∧ ∀ x, pending s x → pending t x)); [|auto].
      intros d t t' [Ht Hp] Hrun. split.
      - exact (prio_sync_schedule_dep _ _ _ _ _ _ Hrun (Hp _ Hj) Ht).
      - intros x Hx.
        unfold schedule_dep in Hrun.
        destruct (prioritize_spec J _ _ _ _ _ Hrun) as [HS _].
        assert (Hx1 : pending t x) by (apply Hp, Hx).
        assert (Hx2 : pending
                  match scheduled_jobs t !! d with
                  | Some dep_info =>
                      update_info
                        (λ info, Info.set_dependencies_left
                                   (wrap64 (Info.dependencies_left info + 1)) info) job
                        (update_info
                           (Info.set_dependent_jobs (set_insert job (Info.dependent_jobs dep_info)))
                           d t)
                  | None => t
                  end x).
        { destruct (scheduled_jobs t !! d) as [di|] eqn:Hd; [|exact Hx1].
          destruct (below_update_info 0
                      (Info.set_dependent_jobs (set_insert job (Info.dependent_jobs di))) d t)
            as [_ P1]; [exists di; exact Hd|reflexivity|].
          apply below_update_info with (p := 0); [apply P1, Hp, Hj|reflexivity|].
          apply P1, Hx1. }
        destruct Hx2 as [i Hi]. destruct (ps_fwd _ _ _ _ HS _ _ Hi) as (i' & Hi' & _).
        exists i'. exact Hi'. }
    destruct H1 as [HP1 Hp1]. destruct (_ =? 0); [|auto]. split.
    - apply prio_sync_enqueue; [apply Hp1, Hj|exact HP1].
    - intros x Hx. apply (below_enqueue 0 job s1 (Hp1 _ Hj)), Hp1, Hx.
  Qed.

Lemma prio_sync_schedule fuel jobs p s s' :
    NoDup jobs → schedule J fuel jobs p s = Ok s' → prio_sync s → prio_sync s'.
  Proof.
    intros Hnd H HP. unfold schedule in H. apply bind_Ok in H as ([] & Hsane & H).
    apply bind_Ok in H as (_ & _ & H).
    pose proof (sanity_checks_pass J s jobs Hsane) as Hfresh.
    set (s1 := foldl (λ s job, emplace_job p job s) s jobs) in *.
    assert (HP1 : prio_sync s1).
    { apply prio_sync_emplace_jobs; [exact Hnd| |exact HP].
      intros x Hx [i Hi]. destruct (Hfresh x Hx) as [E _]. congruence. }
    assert (Hp1 : ∀ x, x ∈ jobs → pending s1 x).
    { intros x Hx. apply (proj2 (below_emplace_jobs p jobs s)). left. exact Hx. }
    apply (for_each_rel (λ a b, (prio_sync a ∧ ∀ x, x ∈ jobs → pending a x) →
                                (prio_sync b ∧ ∀ x, x ∈ jobs → pending b x))
             (λ _ _, True)) in H as [Hrel _].
    - exact (proj1 (Hrel (conj HP1 Hp1))).
    - auto.
    - auto.
    - auto.
    - intros x t t' Hx Hrun. split; [|exact I]. intros [Ht Hp].
      destruct (prio_sync_schedule_job _ _ _ _ _ Hrun (Hp _ Hx) Ht) as [Ht' Hp'].
      split; [exact Ht'|]. intros y Hy. apply Hp', Hp, Hy.
  Qed.
End PrioritySync.

Section PriorityReachable.
Variable J : LoadJobPtr → LoadJob.
Variable getExceptionMessage : Exception → string.
Hypothesis J_wf : jobs_wf J.

Lemma prio_sync_loaded n job info s :
    graph_ok J s → queue_ok n 0 [] s → scheduled_jobs s !! job = Some info →
    Info.dependencies_left info = 0 → Info.ready_seqno info = 0 →
    prio_sync s → prio_sync (loaded job s).
  Proof.
    intros HG HQ Hj Hd Hz. apply prio_sync_keep.
    - destruct (loaded_spec J J_wf n job info s HG HQ Hj Hd Hz) as (_ & _ & s2 & HS & ->).
      intros x i' Hx. simpl in Hx. destruct (decide (x = job)) as [->|Hne].
      + rewrite lookup_delete_eq in Hx. discriminate.
      + rewrite lookup_delete_ne in Hx by congruence.
        destruct (load_step_rev _ _ _ _ _ HS Hx) as (i & Hi & E & _). exists i. auto.
    - intros x. rewrite (job_state_loaded J J_wf n job info s x HG HQ Hj Hd Hz).
      destruct (decide (x = job)) as [->|_]; reflexivity.
  Qed.

Lemma prio_sync_handle_executed n fuel job thrown info s s' :
    loader_ok J n s → scheduled_jobs s !! job = Some info →
    Info.dependencies_left info = 0 → Info.ready_seqno info = 0 →
    handle_executed J getExceptionMessage fuel job thrown s = Ok s' →
    prio_sync s → prio_sync s'.
  Proof.
    intros (HG & HQ & _) Hj Hd Hz Hrun. destruct thrown as [what|]; simpl in Hrun.
    - exact (prio_sync_failed J getExceptionMessage _ _ _ _ _ Hrun).
    - injection Hrun as <-. exact (prio_sync_loaded n job info s HG HQ Hj Hd Hz).
  Qed.

Lemma prio_sync_frame s s' :
    scheduled_jobs s' = scheduled_jobs s → heap s' = heap s → prio_sync s → prio_sync s'.
  Proof.
    intros E1 E2. apply prio_sync_keep.
    - intros x i' Hx. rewrite E1 in Hx. eauto.
    - intros x. unfold job_state. rewrite E2. reflexivity.
  Qed.

Lemma prio_sync_remove_job n fuel job s s' :
    loader_ok J n s → remove_job J getExceptionMessage fuel job s = Ok (Removed s') →
    prio_sync s → prio_sync s'.
  Proof.
    intros Hok Hrun HP. pose proof Hok as (HG & HQ & _).
    destruct (decide (job ∈ finished_jobs s)) as [Hfin|Hfin].
    { unfold remove_job in Hrun. rewrite decide_True in Hrun by exact Hfin.
      injection Hrun as <-. exact (prio_sync_frame s _ eq_refl eq_refl HP). }
    destruct (scheduled_jobs s !! job) as [info|] eqn:Hj.
    2: { unfold remove_job in Hrun. rewrite decide_False, Hj in Hrun by exact Hfin.
         injection Hrun as <-. exact HP. }
    destruct (remove_job_pending J getExceptionMessage _ _ _ _ _ Hfin Hj Hrun)
      as (t & -> & [[Hd Ht]|(Hd & Hz & Ht)]).
    all: apply (prio_sync_frame t); [reflexivity|reflexivity|].
    { exact (prio_sync_failed J getExceptionMessage _ _ _ _ _ Ht HP). }
    apply (prio_sync_failed J getExceptionMessage _ _ _ _ _ Ht).
    apply prio_sync_update_info; [exists info; exact Hj|reflexivity|].
    exact (prio_sync_frame s _ eq_refl eq_refl HP).
  Qed.

Lemma prio_sync_take_next next s s' :
    take_next s = (next, s') → prio_sync s → prio_sync s'.
  Proof.
    intros Htake. destruct (take_next_frame _ _ _ Htake) as (Eh & _ & _).
    apply prio_sync_keep; [|intros x; unfold job_state; rewrite Eh; reflexivity].
    destruct next as [|job].
    - destruct (take_next_exit _ _ Htake) as [->| ->]; simpl; eauto.
    - destruct (take_next_run _ _ _ Htake) as (k & rest & _ & _ & ->). simpl.
      intros x i' Hx. destruct (decide (x = job)) as [->|Hne].
      + rewrite lookup_alter_eq in Hx. destruct (scheduled_jobs s !! job) as [i|]; [|discriminate].
        injection Hx as <-. exists i. auto.
      + rewrite lookup_alter_ne in Hx by congruence. eauto.
  Qed.

Lemma prio_sync_step c c' :
    config_ok J c → step J getExceptionMessage c c' →
    prio_sync (loader c) → prio_sync (loader c').
  Proof.
    intros HC Hstep HP. pose proof (c_loader _ _ HC) as Hok. destruct Hstep as
      [fuel jobs p s s' ex lg Hnd Hrun|fuel job p s s' ex lg Hrun
      |fuel job s s' ex lg Hrun|s ex lg|s ex lg
      |fuel executed next s s' ex lg Hsub Hrun]; simpl in *.
    - exact (prio_sync_schedule J _ _ _ _ _ Hnd Hrun HP).
    - exact (prio_sync_prioritize J _ _ _ _ _ Hrun HP).
    - exact (prio_sync_remove_job _ _ _ _ _ Hok Hrun HP).
    - destruct (start_loop_frame (length (ready_queue (set_running true s))) 0
                  (set_running true s)) as (E1 & E2 & _).
      exact (prio_sync_frame s _ E1 E2 HP).
    - exact HP.
    - unfold worker_iteration in Hrun. apply bind_Ok in Hrun as (s1 & Hcommit & Htake).
      injection Htake as Htake. apply (prio_sync_take_next _ _ _ Htake).
      destruct executed as [[job thrown]|]; [|injection Hcommit as <-; exact HP].
      destruct (c_exec _ _ HC job) as (info & Hj & Hd & Hz); [apply Hsub; left|].
      exact (prio_sync_handle_executed _ _ _ _ _ _ _ Hok Hj Hd Hz Hcommit HP).
  Qed.

Lemma reachable_prio_sync max_threads_ c :
    reachable J getExceptionMessage max_threads_ c →
    scheduled_total (log c) < UInt64_modulus → prio_sync (loader c).
  Proof.
    induction 1 as [|c c' Hreach IH Hstep]; intros Hn.
    - intros x i Hx. simpl in Hx. rewrite lookup_empty in Hx. discriminate.
    - pose proof (scheduled_total_step J getExceptionMessage _ _ Hstep) as Hle.
      apply (prio_sync_step c c'); [|exact Hstep|apply IH; lia].
      apply (reachable_config_ok J getExceptionMessage J_wf _ _ Hreach). lia.
  Qed.
End PriorityReachable.

(** ** The cycle check does not depend on the recursion budget *)

Section CheckCycleBudget.
Variable J : LoadJobPtr → LoadJob.

Lemma check_deps_mono fuel job :
    (∀ j l v r, checkCycleImpl J fuel j l v = Ok r → checkCycleImpl J (S fuel) j l v = Ok r) →
    ∀ deps l v r, check_deps J fuel job deps l v = Ok r →
                  check_deps J (S fuel) job deps l v = Ok r.
  Proof.
    intros IH. induction deps as [|dep deps IHd]; intros l v r H; [exact H|].
    simpl in H. change (check_deps J (S fuel) job (dep :: deps) l v) with
      (do r0 <- checkCycleImpl J (S fuel) dep l v;
       if decide (r0.1 = EmptyString) then check_deps J (S fuel) job deps (r0.2.1) (r0.2.2)
       else if decide (job ∈ r0.2.2) then
         Ok (name (J job) +:+ " -> " +:+ r0.1, (r0.2.1, r0.2.2))
       else
         Throw (mkException ASYNC_LOAD_SCHEDULE_FAILED
                  ("Load job dependency cycle detected: "
                     +:+ name (J job) +:+ " -> " +:+ r0.1))).
    destruct (checkCycleImpl J fuel dep l v) as [r0|e|] eqn:E; [|discriminate|discriminate].
    rewrite (IH _ _ _ _ E). simpl in *.
    destruct (decide (r0.1 = EmptyString)); [apply IHd, H|exact H].
  Qed.

Lemma checkCycleImpl_mono fuel : ∀ job left visited r,
    checkCycleImpl J fuel job left visited = Ok r →
    checkCycleImpl J (S fuel) job left visited = Ok r.
  Proof.
    induction fuel as [|fuel IH]; intros job left visited r H; [discriminate|].
    rewrite checkCycleImpl_S in H. rewrite checkCycleImpl_S.
    destruct (decide (job ∈ left)); [|exact H].
    destruct (decide (job ∈ visited)); [exact H|].
    apply (check_deps_mono fuel job IH), H.
  Qed.

Lemma checkCycle_loop_mono fuel : ∀ left visited,
    checkCycle_loop J fuel left visited = Ok tt →
    checkCycle_loop J (S fuel) left visited = Ok tt.
  Proof.
    induction fuel as [|fuel IH]; intros left visited H.
    - destruct left; [reflexivity|discriminate].
    - destruct left as [|job left]; [reflexivity|].
      rewrite checkCycle_loop_S in H. rewrite checkCycle_loop_S.
      apply bind_Ok in H as (r & Hr & Hrest).
      rewrite (checkCycleImpl_mono _ _ _ _ _ Hr). simpl. apply IH, Hrest.
  Qed.

Lemma checkCycle_more fuel fuel' jobs :
    (fuel ≤ fuel')%nat → checkCycle J fuel jobs = Ok tt → checkCycle J fuel' jobs = Ok tt.
  Proof.
    unfold checkCycle. intros Hle H. induction Hle as [|m _ IHm]; [exact H|].
    apply checkCycle_loop_mono, IHm.
  Qed.

  (** A set that [checkCycle] has let through has no cycle, when its jobs
      have names. *)
Lemma checkCycle_Ok_acyclic fuel jobs :
    (∀ x, x ∈ jobs → name (J x) ≠ EmptyString) →
    checkCycle J fuel jobs = Ok tt → acyclic_in J jobs.
  Proof.
    intros Hnames H.
    pose proof (checkCycle_more fuel (fuel + S (length jobs)) jobs ltac:(lia) H) as H'.
    pose proof (checkCycle_finds J jobs Hnames (fuel + S (length jobs)) ltac:(lia)) as Hf.
    rewrite H' in Hf. exact Hf.
  Qed.
End CheckCycleBudget.

(** ** Where pending entries come from *)

Lemma origin_step_refl T s : origin_step T s s.
Proof. intros x i Hx. exists i. auto. Qed.

Lemma origin_step_trans T1 T2 a b c :
  origin_step T1 a b → origin_step T2 b c → origin_step (λ x, T1 x ∨ T2 x) a c.
Proof.
  intros H1 H2 x i'' Hx. destruct (H2 x i'' Hx) as (i' & Hi' & D2 & I2).
  destruct (H1 x i' Hi') as (i & Hi & D1 & I1). exists i. split; [exact Hi|]. split; [auto|].
  intros Hd Hz. destruct (I2 Hd Hz) as [[Hd' Hz']|HT]; [|auto].
  destruct (I1 Hd' Hz') as [H|HT]; auto.
Qed.

Lemma origin_step_weaken (T T' : LoadJobPtr → Prop) s s' :
  origin_step T s s' → (∀ x, T x → pending s' x → T' x) → origin_step T' s s'.
Proof.
  intros H HT x i' Hx. destruct (H x i' Hx) as (i & Hi & D & I). exists i.
  split; [exact Hi|]. split; [exact D|]. intros Hd Hz.
  destruct (I Hd Hz) as [H0|H0]; [auto|]. right. apply HT; [exact H0|exists i'; exact Hx].
Qed.

Lemma origin_step_frame T s s' : scheduled_jobs s' = scheduled_jobs s → origin_step T s s'.
Proof. intros E x i Hx. rewrite E in Hx. exists i. auto. Qed.

Lemma origin_step_linked T s s' a y : origin_step T s s' → linked s' a y → linked s a y.
Proof.
  intros H (i' & Hi' & Hin). destruct (H a i' Hi') as (i & Hi & D & _). exists i. auto.
Qed.

Lemma tc_sub {A} (R R' : relation A) x y : (∀ a b, R a b → R' a b) → tc R x y → tc R' x y.
Proof.
  intros H. induction 1 as [a b Hab|a b c Hab _ IH].
  - apply tc_once, H, Hab.
  - eapply tc_l; [apply H, Hab|exact IH].
Qed.

Lemma origin_step_acyclic T s s' : origin_step T s s' → links_acyclic s → links_acyclic s'.
Proof.
  intros H Hac x Hx. apply (Hac x). revert Hx. apply tc_sub.
  intros a b. apply (origin_step_linked T), H.
Qed.

Section Origin.
Variable J : LoadJobPtr → LoadJob.
Variable getExceptionMessage : Exception → string.
Hypothesis J_wf : jobs_wf J.

Lemma origin_prioritize fuel job p s s' :
    prioritize J fuel job p s = Ok s' → origin_step (λ _, False) s s'.
  Proof.
    intros H x i' Hx. destruct (prioritize_spec J _ _ _ _ _ H) as [HS _].
    destruct (prio_step_rev J _ _ _ _ _ HS Hx) as (i & Hi & E1 & E2 & E3 & _).
    exists i. split; [exact Hi|]. rewrite E1, E2, E3. auto.
  Qed.

Lemma origin_failed fuel job e s s' :
    failed J getExceptionMessage fuel job e s = Ok s' → origin_step (λ _, False) s s'.
  Proof.
    intros H x i' Hx. destruct (failed_step J getExceptionMessage _ _ _ _ _ H) as (HS & _).
    destruct (fs_sched _ _ _ _ _ HS x i' Hx) as (i & Hi & _ & E1 & E2 & D & _).
    exists i. split; [exact Hi|]. split; [exact D|]. rewrite E1, E2. auto.
  Qed.

Lemma origin_loaded n job info s :
    graph_ok J s → queue_ok n 0 [] s → scheduled_jobs s !! job = Some info →
    Info.dependencies_left info = 0 → Info.ready_seqno info = 0 →
    origin_step (λ _, False) s (loaded job s).
  Proof.
    intros HG HQ Hj Hd Hz. rewrite (loaded_unfold _ _ _ Hj).
    set (l := Info.dependent_jobs info). set (s0 := update_job setSuccess job s).
    destruct HG as [G1 G2 G3 G4 G5].
    assert (Hl : ∀ x, x ∈ l → ∃ i, scheduled_jobs s0 !! x = Some i ∧
                       1 ≤ Info.dependencies_left i < UInt64_modulus).
    { intros x Hx. assert (linked s job x) as Hlk by (exists info; auto).
      destruct (G1 _ _ Hlk) as [[j Hj0] Hdep]. exists j. split; [exact Hj0|].
      rewrite (G3 _ _ Hj0). pose proof (registered_count_pos J s job x Hlk Hdep).
      pose proof (registered_count_bound J J_wf s x). lia. }
    pose proof (queue_ok_update_job _ 0 [] setSuccess job s HQ) as HQ0.
    destruct (loaded_deps_spec _ l s0 (G2 _ _ Hj) HQ0 Hl) as [_ HS2].
    intros x i' Hx. simpl in Hx. destruct (decide (x = job)) as [->|Hne].
    { rewrite lookup_delete_eq in Hx. discriminate. }
    rewrite lookup_delete_ne in Hx by congruence.
    destruct (load_step_rev _ _ _ _ _ HS2 Hx) as (i & Hi & _ & E2 & E3 & E4).
    exists i. split; [exact Hi|]. split; [rewrite E2; auto|]. intros Hd' Hz'. left.
    destruct (decide (x ∈ l)) as [Hin|Hin].
    - exfalso.
      destruct (loaded_deps_ready _ l s0 (G2 _ _ Hj) HQ0 Hl x i Hin Hi) as (i2 & Hi2 & Hready);
        [lia|].
      assert (i2 = i') by congruence. subst i2. contradiction.
    - rewrite <- E3, <- (E4 Hin). auto.
  Qed.

Lemma origin_handle_executed n fuel job thrown info s s' :
    loader_ok J n s → scheduled_jobs s !! job = Some info →
    Info.dependencies_left info = 0 → Info.ready_seqno info = 0 →
    handle_executed J getExceptionMessage fuel job thrown s = Ok s' →
    origin_step (λ _, False) s s'.
  Proof.
    intros (HG & HQ & _) Hj Hd Hz Hrun. destruct thrown as [what|]; simpl in Hrun.
    - exact (origin_failed _ _ _ _ _ Hrun).
    - injection Hrun as <-. exact (origin_loaded n job info s HG HQ Hj Hd Hz).
  Qed.

Lemma origin_remove_job n fuel job s s' :
    loader_ok J n s → remove_job J getExceptionMessage fuel job s = Ok (Removed s') →
    origin_step (λ _, False) s s'.
  Proof.
    intros Hok Hrun. pose proof Hok as (HG & HQ & _).
    destruct (decide (job ∈ finished_jobs s)) as [Hfin|Hfin].
    { unfold remove_job in Hrun. rewrite decide_True in Hrun by exact Hfin.
      injection Hrun as <-. apply origin_step_frame. reflexivity. }
    destruct (scheduled_jobs s !! job) as [info|] eqn:Hj.
    2: { unfold remove_job in Hrun. rewrite decide_False, Hj in Hrun by exact Hfin.
         injection Hrun as <-. apply origin_step_refl. }
    destruct (remove_job_pending J getExceptionMessage _ _ _ _ _ Hfin Hj Hrun)
      as (t & -> & Hcases).
    assert (HO : origin_step (λ _, False) s t).
    { destruct Hcases as [[Hd Ht]|(Hd & Hz & Ht)].
      { exact (origin_failed _ _ _ _ _ Ht). }
      destruct (failed_step J getExceptionMessage _ _ _ _ _ Ht) as (_ & Hgone & _).
      apply (origin_step_weaken (λ x, x = job ∨ False)).
      - eapply origin_step_trans; [|exact (origin_failed _ _ _ _ _ Ht)].
        rewrite (unqueue_eq _ _ _ Hj). intros x i' Hx. simpl in Hx.
        destruct (decide (x = job)) as [->|Hne].
        + rewrite lookup_insert_eq in Hx. injection Hx as <-. exists info. simpl. auto.
        + rewrite lookup_insert_ne in Hx by congruence. exists i'. auto.
      - intros x [->|[]] Hp. contradiction. }
    intros x i' Hx. exact (HO x i' Hx).
  Qed.

Lemma origin_take_next next s s' :
    take_next s = (next, s') → origin_step (λ x, x ∈ next_job next) s s'.
  Proof.
    intros Htake. destruct next as [|job].
    - destruct (take_next_exit _ _ Htake) as [->| ->]; [apply origin_step_refl|].
      apply origin_step_frame. reflexivity.
    - destruct (take_next_run _ _ _ Htake) as (k & rest & _ & _ & ->).
      intros x i' Hx. simpl in Hx. destruct (decide (x = job)) as [->|Hne].
      + rewrite lookup_alter_eq in Hx. destruct (scheduled_jobs s !! job) as [i|]; [|discriminate].
        injection Hx as <-. exists i. split; [reflexivity|]. split; [auto|].
        intros _ _. right. left.
      + rewrite lookup_alter_ne in Hx by congruence. exists i'. auto.
  Qed.
End Origin.

(** ** No job waits for ever *)

Lemma tc_flip_inv {A} (R : relation A) x y : tc (flip R) x y → tc R y x.
Proof.
  induction 1 as [a b Hab|a b c Hab _ IH].
  - apply tc_once, Hab.
  - eapply tc_r; [exact IH|exact Hab].
Qed.

Section Progress.
Variable J : LoadJobPtr → LoadJob.
Variable getExceptionMessage : Exception → string.
Hypothesis J_wf : jobs_wf J.

  (** A step is a [schedule], or it adds nothing to the pending map. *)
Lemma step_origin c c' :
    config_ok J c → step J getExceptionMessage c c' →
    (∃ fuel jobs p, NoDup jobs ∧ schedule J fuel jobs p (loader c) = Ok (loader c') ∧
                    executing c' = executing c ∧
                    log c' = log c ++ [EvScheduled jobs p (dom (scheduled_jobs (loader c)))]) ∨
    (origin_step (λ x, x ∈ executing c') (loader c) (loader c') ∧
     ∀ x, x ∈ executing c → pending (loader c') x → x ∈ executing c').
  Proof.
    intros HC Hstep. pose proof (c_loader _ _ HC) as Hok. destruct Hstep as
      [fuel jobs p s s' ex lg Hnd Hrun|fuel job p s s' ex lg Hrun
      |fuel job s s' ex lg Hrun|s ex lg|s ex lg
      |fuel executed next s s' ex lg Hsub Hrun]; simpl in *.
    - left. exists fuel, jobs, p. auto.
    - right. split; [|auto].
      apply (origin_step_weaken (λ _, False)); [exact (origin_prioritize J _ _ _ _ _ Hrun)|].
      intros x [].
    - right. split; [|auto].
      apply (origin_step_weaken (λ _, False));
        [exact (origin_remove_job J getExceptionMessage _ _ _ _ _ Hok Hrun)|].
      intros x [].
    - right. split; [|auto]. apply origin_step_frame.
      exact (proj1 (start_loop_frame _ 0 (set_running true s))).
    - right. split; [|auto]. apply origin_step_frame. reflexivity.
    - right. unfold worker_iteration in Hrun. apply bind_Ok in Hrun as (s1 & Hcommit & Htake).
      injection Htake as Htake.
      destruct (take_next_frame _ _ _ Htake) as (_ & _ & Hpend).
      assert (H1 : origin_step (λ _, False) s s1 ∧ ∀ x, x ∈ executed_job executed → ¬ pending s1 x).
      { destruct executed as [[job thrown]|].
        - destruct (c_exec _ _ HC job) as (info & Hj & Hd & Hz); [apply Hsub; left|].
          simpl in Hj. split.
          + exact (origin_handle_executed J getExceptionMessage J_wf _ _ _ _ _ _ _ Hok Hj Hd Hz Hcommit).
          + intros x Hx. apply list_elem_of_singleton in Hx as ->.
            destruct Hok as (HG & HQ & _). destruct thrown as [what|]; simpl in Hcommit.
            * exact (proj1 (proj2 (calm_failed J getExceptionMessage (λ _, False) _ _ _ _ _ HG Hcommit))).
            * injection Hcommit as <-.
              exact (proj1 (proj2 (calm_loaded J J_wf _ job info s HG HQ Hj Hd Hz))).
        - injection Hcommit as <-. split; [apply origin_step_refl|]. intros x Hx. inversion Hx. }
      destruct H1 as [HO1 Hgone]. split.
      + apply (origin_step_weaken (λ x, False ∨ x ∈ next_job next)).
        * eapply origin_step_trans; [exact HO1|exact (origin_take_next _ _ _ Htake)].
        * intros x [[]|Hx] _. apply elem_of_app. left. exact Hx.
      + intros x Hx Hp. apply elem_of_app. right. apply list_elem_of_filter. split; [|exact Hx].
        intros Hin. apply (Hgone x Hin), Hpend, Hp.
  Qed.

Lemma reachable_idle_ok max_threads_ c :
    reachable J getExceptionMessage max_threads_ c →
    scheduled_total (log c) < UInt64_modulus → idle_ok c.
  Proof.
    induction 1 as [|c c' Hreach IH Hstep]; intros Hn.
    - intros x i Hx. simpl in Hx. rewrite lookup_empty in Hx. discriminate.
    - pose proof (scheduled_total_step J getExceptionMessage _ _ Hstep) as Hle.
      pose proof (IH ltac:(lia)) as Hidle.
      assert (HC : config_ok J c).
      { apply (reachable_config_ok J getExceptionMessage J_wf _ _ Hreach). lia. }
      destruct (step_origin c c' HC Hstep) as
        [(fuel & jobs & p & Hnd & Hrun & Hex & Hlog)|[HO Hkeep]].
      + rewrite Hlog, scheduled_total_app in Hn. simpl in Hn.
        assert (Hn' : scheduled_total (log c) + Z.of_nat (length jobs) < UInt64_modulus) by lia.
        destruct (loader_ok_schedule J J_wf _ fuel jobs p _ _ Hnd (c_loader _ _ HC) Hn' Hrun)
          as [_ HS].
        intros x i' Hx Hd Hz. rewrite Hex. destruct (decide (x ∈ jobs)) as [Hin|Hin].
        * destruct (ss_new _ _ _ _ _ HS x Hin) as (i2 & Hi2 & Hready & _).
          assert (i2 = i') by congruence. subst i2. exfalso. exact (Hready Hd Hz).
        * destruct (proj1 (ss_pending _ _ _ _ _ HS x)) as [[i Hi]|Hj];
            [exists i'; exact Hx| |contradiction].
          destruct (ss_old _ _ _ _ _ HS x i Hin Hi) as (i2 & Hi2 & E1 & E2 & _).
          assert (i2 = i') by congruence. subst i2.
          apply (Hidle x i Hi); congruence.
      + intros x i' Hx Hd Hz. destruct (HO x i' Hx) as (i & Hi & _ & I).
        destruct (I Hd Hz) as [[Hd0 Hz0]|HT]; [|exact HT].
        apply Hkeep; [exact (Hidle x i Hi Hd0 Hz0)|exists i'; exact Hx].
  Qed.

Hypothesis J_named : ∀ x, name (J x) ≠ EmptyString.

Lemma acyclic_schedule n fuel jobs p s s' :
    NoDup jobs → loader_ok J n s → n + Z.of_nat (length jobs) < UInt64_modulus →
    schedule J fuel jobs p s = Ok s' → links_acyclic s → links_acyclic s'.
  Proof.
    intros Hnd Hok Hn Hrun Hac.
    assert (Hcyc : acyclic_in J jobs).
    { unfold schedule in Hrun. apply bind_Ok in Hrun as (_ & _ & Hrun).
      apply bind_Ok in Hrun as ([] & Hcheck & _).
      apply (checkCycle_Ok_acyclic J fuel jobs); [intros x _; apply J_named|exact Hcheck]. }
    destruct (loader_ok_schedule J J_wf _ fuel jobs p s s' Hnd Hok Hn Hrun) as [_ HS].
    destruct Hok as (HG & _ & _).
    assert (Hold : ∀ a y, linked s a y → a ∉ jobs ∧ y ∉ jobs).
    { intros a y Hl. split; intros Hin; apply (proj1 (ss_fresh _ _ _ _ _ HS _ Hin)).
      - destruct Hl as (i & Hi & _). exists i. exact Hi.
      - exact (proj1 (g_links _ _ HG _ _ Hl)). }
    assert (Hpath : ∀ x y, tc (linked s') x y →
              (x ∉ jobs ∧ y ∉ jobs ∧ tc (linked s) x y) ∨
              (y ∈ jobs ∧ (x ∈ jobs → tc (depends_in J jobs) y x))).
    { intros x y H. induction H as [x y Hxy|x y z Hxy _ IH].
      - apply (ss_links _ _ _ _ _ HS) in Hxy as [Hl|(Hy & Hdep & _)].
        + left. destruct (Hold _ _ Hl). auto using tc_once.
        + right. split; [exact Hy|]. intros Hx. apply tc_once. split; [exact Hy|]. auto.
      - apply (ss_links _ _ _ _ _ HS) in Hxy as [Hl|(Hy & Hdep & _)].
        + destruct (Hold _ _ Hl) as [Hx Hy]. destruct IH as [(_ & Hz & Hyz)|[Hz Hyz]].
          * left. split; [exact Hx|]. split; [exact Hz|]. eapply tc_l; eauto.
          * right. split; [exact Hz|]. intros Hx'. contradiction.
        + destruct IH as [(Hy' & _)|[Hz Hyz]]; [contradiction|].
          right. split; [exact Hz|]. intros Hx. eapply tc_r; [exact (Hyz Hy)|].
          split; [exact Hy|]. auto. }
    intros x Hx. destruct (Hpath x x Hx) as [(_ & _ & H)|[Hin H]].
    - exact (Hac x H).
    - exact (Hcyc x (H Hin)).
  Qed.

Lemma reachable_links_acyclic max_threads_ c :
    reachable J getExceptionMessage max_threads_ c →
    scheduled_total (log c) < UInt64_modulus → links_acyclic (loader c).
  Proof.
    induction 1 as [|c c' Hreach IH Hstep]; intros Hn.
    - intros x Hx. apply tc_last in Hx as (z & i & Hi & _). simpl in Hi.
      rewrite lookup_empty in Hi. discriminate.
    - pose proof (scheduled_total_step J getExceptionMessage _ _ Hstep) as Hle.
      pose proof (IH ltac:(lia)) as Hac.
      assert (HC : config_ok J c).
      { apply (reachable_config_ok J getExceptionMessage J_wf _ _ Hreach). lia. }
      destruct (step_origin c c' HC Hstep) as
        [(fuel & jobs & p & Hnd & Hrun & Hex & Hlog)|[HO Hkeep]].
      + rewrite Hlog, scheduled_total_app in Hn. simpl in Hn.
        assert (Hn' : scheduled_total (log c) + Z.of_nat (length jobs) < UInt64_modulus) by lia.
        exact (acyclic_schedule _ fuel jobs p _ _ Hnd (c_loader _ _ HC) Hn' Hrun Hac).
      + exact (origin_step_acyclic _ _ _ HO Hac).
  Qed.

  (** From a pending job, the back-links lead back to a job that waits for
      nothing. *)
Lemma find_ready s x :
    graph_ok J s → links_acyclic s → pending s x →
    ∃ y i, scheduled_jobs s !! y = Some i ∧ Info.dependencies_left i = 0 ∧
           rtc (linked s) y x.
  Proof.
    intros HG Hac Hx.
    assert (Hsn : Acc (linked s) x).
    { apply (tc_finite_sn (R := flip (linked s))).
      - intros y Hy. exact (Hac y (tc_flip_inv _ _ _ Hy)).
      - exists ((map_to_list (scheduled_jobs s)).*1). intros p Hp.
        apply tc_last in Hp as (z & i & Hi & _).
        apply list_elem_of_fmap. exists (p, i). split; [reflexivity|].
        apply elem_of_map_to_list, Hi. }
    induction Hsn as [x _ IH]. destruct Hx as [i Hi].
    destruct (decide (Info.dependencies_left i = 0)) as [Hd|Hd].
    { exists x, i. split; [exact Hi|]. split; [exact Hd|apply rtc_refl]. }
    rewrite (g_count _ _ HG _ _ Hi) in Hd. unfold registered_count in Hd.
    destruct (filter (λ p, linkedb s p x = true) (dependencies (J x))) as [|p l] eqn:Hf;
      [contradiction|].
    assert (Hp : p ∈ filter (λ p, linkedb s p x = true) (dependencies (J x))).
    { rewrite Hf. left. }
    apply list_elem_of_filter in Hp as [Hp _]. apply linkedb_true in Hp.
    destruct (IH p Hp) as (y & iy & Hy & Hdy & Hpath).
    { destruct Hp as (ip & Hip & _). exists ip. exact Hip. }
    exists y, iy. split; [exact Hy|]. split; [exact Hdy|]. eapply rtc_r; eauto.
  Qed.
End Progress.

(** ** What [remove] leaves alone *)

Lemma untouched_refl s y : untouched s s y.
Proof. split; [reflexivity|]. split; [auto|]. intros i Hi. exists i. auto. Qed.

Lemma untouched_trans a b c y : untouched a b y → untouched b c y → untouched a c y.
Proof.
  intros (A1 & A2 & A3) (B1 & B2 & B3). split; [congruence|]. split; [auto|].
  intros i Hi. destruct (A3 i Hi) as (i1 & Hi1 & E1 & E2 & E3).
  destruct (B3 i1 Hi1) as (i2 & Hi2 & F1 & F2 & F3). exists i2. split; [exact Hi2|].
  split; [congruence|]. split; congruence.
Qed.

Lemma untouched_frame s s' y :
  scheduled_jobs s' = scheduled_jobs s → heap s' = heap s → untouched s s' y.
Proof.
  intros E1 E2. split; [unfold job_state; rewrite E2; reflexivity|]. split.
  - unfold pending. rewrite E1. auto.
  - intros i Hi. exists i. rewrite E1. auto.
Qed.

Lemma rtc_sub {A} (R R' : relation A) x y : (∀ a b, R a b → R' a b) → rtc R x y → rtc R' x y.
Proof.
  intros H. induction 1 as [|a b c Hab _ IH]; [apply rtc_refl|].
  eapply rtc_l; [apply H, Hab|exact IH].
Qed.

Section RemoveFrame.
Variable J : LoadJobPtr → LoadJob.
Variable getExceptionMessage : Exception → string.
Hypothesis J_wf : jobs_wf J.

Lemma untouched_failed fuel job e s s' y :
    failed J getExceptionMessage fuel job e s = Ok s' →
    ¬ rtc (linked s) job y → untouched s s' y.
  Proof.
    intros H Hy. destruct (failed_step J getExceptionMessage _ _ _ _ _ H) as (HS & _).
    pose proof (origin_failed J getExceptionMessage _ _ _ _ _ H) as HO.
    split; [|split].
    - destruct (fs_heap _ _ _ _ _ HS y) as [E|(_ & r & -> & Hr)]; [exact E|contradiction].
    - intros [i' Hi']. destruct (HO y i' Hi') as (i & Hi & _). exists i. exact Hi.
    - intros i Hi. destruct (scheduled_jobs s' !! y) as [i'|] eqn:Hi'.
      + destruct (fs_sched _ _ _ _ _ HS y i' Hi') as (i0 & Hi0 & E1 & E2 & E3 & _).
        assert (i0 = i) by congruence. subst i0. exists i'. auto.
      + exfalso. destruct (fs_gone _ _ _ _ _ HS y) as (_ & _ & r & -> & Hr).
        * exists i. exact Hi.
        * intros [i' Hp]. congruence.
        * contradiction.
  Qed.

Lemma untouched_loaded n job info s y :
    graph_ok J s → queue_ok n 0 [] s → scheduled_jobs s !! job = Some info →
    Info.dependencies_left info = 0 → Info.ready_seqno info = 0 →
    ¬ rtc (linked s) job y → untouched s (loaded job s) y.
  Proof.
    intros HG HQ Hj Hd Hz Hy.
    assert (Hne : y ≠ job) by (intros ->; apply Hy, rtc_refl).
    assert (Hnl : y ∉ Info.dependent_jobs info).
    { intros Hin. apply Hy, rtc_once. exists info. auto. }
    pose proof (origin_loaded J J_wf n job info s HG HQ Hj Hd Hz) as HO.
    split; [|split].
    - rewrite (job_state_loaded J J_wf n job info s y HG HQ Hj Hd Hz).
      destruct (decide (y = job)); [contradiction|reflexivity].
    - intros [i' Hi']. destruct (HO y i' Hi') as (i & Hi & _). exists i. exact Hi.
    - intros i Hi.
      destruct (loaded_spec J J_wf n job info s HG HQ Hj Hd Hz) as (_ & _ & s2 & HS & ->).
      destruct (ls_fwd _ _ _ HS y i Hi) as (i' & Hi' & E1 & _ & E3 & E4).
      exists i'. simpl. rewrite lookup_delete_ne by congruence. split; [exact Hi'|].
      split; [exact E1|]. rewrite decide_False in E3 by exact Hnl. auto.
  Qed.

Lemma untouched_remove_job n fuel job s s' y :
    loader_ok J n s → remove_job J getExceptionMessage fuel job s = Ok (Removed s') →
    ¬ rtc (linked s) job y → untouched s s' y.
  Proof.
    intros Hok Hrun Hy. pose proof Hok as (HG & HQ & _).
    destruct (decide (job ∈ finished_jobs s)) as [Hfin|Hfin].
    { unfold remove_job in Hrun. rewrite decide_True in Hrun by exact Hfin.
      injection Hrun as <-. apply untouched_frame; reflexivity. }
    destruct (scheduled_jobs s !! job) as [info|] eqn:Hj.
    2: { unfold remove_job in Hrun. rewrite decide_False, Hj in Hrun by exact Hfin.
         injection Hrun as <-. apply untouched_refl. }
    destruct (remove_job_pending J getExceptionMessage _ _ _ _ _ Hfin Hj Hrun)
      as (t & -> & [[Hd Ht]|(Hd & Hz & Ht)]).
    all: apply (untouched_trans s t); [|apply untouched_frame; reflexivity].
    { exact (untouched_failed _ _ _ _ _ _ Ht Hy). }
    assert (Hne : y ≠ job) by (intros ->; apply Hy, rtc_refl).
    set (s1 := update_info (Info.set_ready_seqno 0) job
                 (set_ready_queue (rq_erase (Info.key info) (ready_queue s)) s)) in *.
    assert (E1 : scheduled_jobs s1 = <[job := Info.set_ready_seqno 0 info]> (scheduled_jobs s)).
    { unfold s1. rewrite (unqueue_eq _ _ _ Hj). reflexivity. }
    apply (untouched_trans s s1).
    - split; [reflexivity|]. split.
      + unfold pending. rewrite E1, lookup_insert_ne by congruence. auto.
      + intros i Hi. exists i. rewrite E1, lookup_insert_ne by congruence. auto.
    - apply (untouched_failed _ _ _ _ _ _ Ht). intros Hr. apply Hy. revert Hr.
      apply rtc_sub. intros a b (i & Hi & Hin). rewrite E1 in Hi.
      destruct (decide (a = job)) as [->|Ha].
      + rewrite lookup_insert_eq in Hi. injection Hi as <-. exists info. auto.
      + rewrite lookup_insert_ne in Hi by congruence. exists i. auto.
  Qed.

  (** A stretch of [remove] under the lock leaves alone every job that no
      chain of back-links leads to from a job that the loop is through
      with. *)
Lemma untouched_remove n fuel jobs y : ∀ s next s',
    loader_ok J n s → remove J getExceptionMessage fuel jobs s = Ok (next, s') →
    (∀ r, r ∈ jobs → ¬ rtc (linked s) r y) → untouched s s' y.
  Proof.
    induction jobs as [|a jobs IH]; intros s next s' Hok Hrun Hy; simpl in Hrun.
    - injection Hrun as <- <-. apply untouched_refl.
    - apply bind_Ok in Hrun as (r & Ha & Hrest). destruct r as [t|].
      + pose proof (loader_ok_remove_job J getExceptionMessage n fuel a s t Hok Ha) as Hokt.
        pose proof (origin_remove_job J getExceptionMessage _ _ _ _ _ Hok Ha) as HO.
        apply (untouched_trans s t).
        * apply (untouched_remove_job n fuel a s t y Hok Ha). apply Hy. left.
        * apply (IH t next s' Hokt Hrest). intros r Hr Hpath. apply (Hy r); [right; exact Hr|].
          revert Hpath. apply rtc_sub. intros u v. apply (origin_step_linked _ _ _ _ _ HO).
      + injection Hrest as <- <-. apply untouched_refl.
  Qed.
End RemoveFrame.
(** ** When [remove] has to wait *)

Section RemoveIdle.
Variable J : LoadJobPtr → LoadJob.
Variable getExceptionMessage : Exception → string.
Hypothesis J_wf : jobs_wf J.

  (** [remove] makes no job look like an executing one. *)
Lemma remove_job_idle n fuel job s s' x :
    loader_ok J n s → remove_job J getExceptionMessage fuel job s = Ok (Removed s') →
    is_executing s' x → is_executing s x.
  Proof.
    intros Hok Hrun (Hfin & i' & Hx & Hd & Hz).
    destruct (origin_remove_job J getExceptionMessage _ _ _ _ _ Hok Hrun x i' Hx)
      as (i & Hi & _ & Hidle).
    destruct (Hidle Hd Hz) as [[Hd0 Hz0]|[]].
    split; [|exists i; auto].
    destruct Hok as (HG & _). intros Hf. apply (g_disjoint _ _ HG x Hf). exists i. exact Hi.
  Qed.

  (** A call of [remove] for jobs none of which is executing goes through
      without giving up the lock. *)
Lemma remove_idle n fuel jobs : ∀ s next s',
    loader_ok J n s → (∀ x, x ∈ jobs → ¬ is_executing s x) →
    remove J getExceptionMessage fuel jobs s = Ok (next, s') → next = RemoveReturns.
  Proof.
    induction jobs as [|a jobs IH]; intros s next s' Hok Hidle Hrun; simpl in Hrun.
    - injection Hrun as <- _. reflexivity.
    - apply bind_Ok in Hrun as (r & Ha & Hrest). destruct r as [t|].
      + apply (IH t next s'); [eapply loader_ok_remove_job; eauto| |exact Hrest].
        intros x Hx He. apply (Hidle x); [right; exact Hx|].
        exact (remove_job_idle n fuel a s t x Hok Ha He).
      + exfalso. apply (Hidle a); [left|].
        destruct (remove_job_MustWait J getExceptionMessage _ _ _ Ha) as (Hfin & info & Hj & Hd & Hz).
        split; [exact Hfin|]. exists info. split; [exact Hj|]. split; [|exact Hz].
        destruct Hok as (HG & _). pose proof (g_count _ _ HG _ _ Hj) as Hc.
        pose proof (registered_count_bound J J_wf s a). lia.
  Qed.

  (** The jobs that [remove] is through with when it gives up the lock, and
      the jobs that are left. *)
Lemma remove_waits_split n fuel jobs : ∀ s job rest s',
    loader_ok J n s →
    remove J getExceptionMessage fuel jobs s = Ok (RemoveWaits job rest, s') →
    ∃ done, jobs = done ++ job :: rest ∧ is_executing s job ∧ is_executing s' job ∧
            remove J getExceptionMessage fuel done s = Ok (RemoveReturns, s').
  Proof.
    induction jobs as [|a jobs IH]; intros s job rest s' Hok Hrun; simpl in Hrun.
    - discriminate.
    - apply bind_Ok in Hrun as (r & Ha & Hrest). destruct r as [t|].
      + pose proof (loader_ok_remove_job J getExceptionMessage n fuel a s t Hok Ha) as Hokt.
        destruct (IH t job rest s' Hokt Hrest) as (done & -> & He & He' & Hdone).
        exists (a :: done). split; [reflexivity|].
        split; [exact (remove_job_idle n fuel a s t job Hok Ha He)|]. split; [exact He'|].
        simpl. rewrite Ha. simpl. exact Hdone.
      + injection Hrest as <- <- <-. exists []. split; [reflexivity|].
        assert (He : is_executing s a).
        { destruct (remove_job_MustWait J getExceptionMessage _ _ _ Ha) as (Hfin & info & Hj & Hd & Hz).
          split; [exact Hfin|]. exists info. split; [exact Hj|]. split; [|exact Hz].
          destruct Hok as (HG & _). pose proof (g_count _ _ HG _ _ Hj) as Hc.
          pose proof (registered_count_bound J J_wf s a). lia. }
        split; [exact He|]. split; [exact He|reflexivity].
  Qed.
End RemoveIdle.
(** ** The order of the events of a job *)



Section Outcome.
Variable J : LoadJobPtr → LoadJob.
Variable getExceptionMessage : Exception → string.
Hypothesis J_wf : jobs_wf J.

Lemma outcome_ok_step c c' :
    outcome_ok c → step J getExceptionMessage c c' → outcome_ok c'.
  Proof.
    intros HO Hstep. destruct Hstep as
      [fuel jobs p s s' ex lg Hnd Hrun|fuel job p s s' ex lg Hrun
      |fuel job s s' ex lg Hrun|s ex lg|s ex lg
      |fuel executed next s s' ex lg Hsub Hrun]; try exact HO.
    - intros x Hx. simpl in *. rewrite started_app in Hx. simpl in Hx. rewrite app_nil_r in Hx.
      destruct (HO x Hx) as [H|[H|H]]; [left; exact H|right; left|right; right];
        apply elem_of_app; left; exact H.
    - intros x Hx. simpl in *. rewrite !started_app in Hx.
      apply elem_of_app in Hx as [Hx|Hx].
      + destruct (HO x Hx) as [H|[H|H]].
        * destruct (decide (x ∈ executed_job executed)) as [Hin|Hin].
          -- right. destruct executed as [[job [what|]]|]; simpl in Hin;
               try (inversion Hin; fail); apply list_elem_of_singleton in Hin; subst x.
             ++ right. apply elem_of_app. right. left.
             ++ left. apply elem_of_app. right. left.
          -- left. apply elem_of_app. right. apply list_elem_of_filter. auto.
        * right. left. apply elem_of_app. left. exact H.
        * right. right. apply elem_of_app. left. exact H.
      + apply elem_of_app in Hx as [Hx|Hx].
        * destruct executed as [[job [what|]]|]; simpl in Hx; inversion Hx.
        * left. apply elem_of_app. left. destruct next as [|job]; simpl in *; [inversion Hx|].
          exact Hx.
  Qed.


Lemma reachable_outcome_ok max_threads_ c :
    reachable J getExceptionMessage max_threads_ c → outcome_ok c.
  Proof.
    induction 1 as [|c c' Hreach IH Hstep].
    - intros x Hx. inversion Hx.
    - eapply outcome_ok_step; eauto.
  Qed.

End Outcome.
(** ** Runs of the loader *)

Section Runs.
Variable J : LoadJobPtr → LoadJob.
Variable getExceptionMessage : Exception → string.
Hypothesis J_wf : jobs_wf J.

Lemma reachable_rtc max_threads_ c c' :
    reachable J getExceptionMessage max_threads_ c → rtc (step J getExceptionMessage) c c' →
    reachable J getExceptionMessage max_threads_ c'.
  Proof.
    intros Hreach Hrun. induction Hrun as [|a b d Hab _ IH]; [exact Hreach|].
    apply IH. eapply reachable_step; eauto.
  Qed.

Lemma step_log c c' : step J getExceptionMessage c c' → ∃ l, log c' = log c ++ l.
  Proof.
    intros H. destruct H; simpl; eauto; exists []; rewrite app_nil_r; reflexivity.
  Qed.

Lemma rtc_step_log c c' : rtc (step J getExceptionMessage) c c' → ∃ l, log c' = log c ++ l.
  Proof.
    induction 1 as [|a b d Hab _ [l2 IH]]; [exists []; rewrite app_nil_r; reflexivity|].
    destruct (step_log _ _ Hab) as [l1 E]. exists (l1 ++ l2). rewrite IH, E, app_assoc. reflexivity.
  Qed.

Lemma scheduled_total_rtc c c' :
    rtc (step J getExceptionMessage) c c' → scheduled_total (log c) ≤ scheduled_total (log c').
  Proof.
    induction 1 as [|a b d Hab _ IH]; [lia|].
    pose proof (scheduled_total_step J getExceptionMessage _ _ Hab). lia.
  Qed.

  (** One job of [remove] that does not have to wait is a step of the
      loader, and so is every stretch of [remove] under the lock a run of
      steps. *)
Lemma remove_run fuel jobs c next s' :
    remove J getExceptionMessage fuel jobs (loader c) = Ok (next, s') →
    rtc (step J getExceptionMessage) c (mkConfig s' (executing c) (log c)).
  Proof.
    destruct c as [s ex lg]. simpl. revert s next s'.
    induction jobs as [|a jobs IH]; intros s next s' Hrun; simpl in Hrun.
    - injection Hrun as <- <-. apply rtc_refl.
    - apply bind_Ok in Hrun as (r & Ha & Hrest). destruct r as [t|].
      + eapply rtc_l; [exact (step_remove J getExceptionMessage fuel a s t ex lg Ha)|].
        exact (IH t next s' Hrest).
      + injection Hrest as <- <-. apply rtc_refl.
  Qed.

  (** [finished_jobs.erase] of a job that is not pending is a step of the
      loader, if it does anything. *)
Lemma erase_run job c :
    ¬ pending (loader c) job →
    rtc (step J getExceptionMessage) c
      (mkConfig (set_finished (finished_jobs (loader c) ∖ {[job]}) (loader c))
         (executing c) (log c)).
  Proof.
    destruct c as [s ex lg]. simpl.
    intros Hp. destruct (decide (job ∈ finished_jobs s)) as [Hfin|Hfin].
    - apply rtc_once. apply (step_remove J getExceptionMessage 0 job).
      unfold remove_job. rewrite decide_True by exact Hfin. reflexivity.
    - replace (finished_jobs s ∖ {[job]}) with (finished_jobs s).
      + destruct s; apply rtc_refl.
      + apply set_eq. intros x. rewrite elem_of_difference, elem_of_singleton.
        split; [|tauto]. intros Hx. split; [exact Hx|]. intros ->. contradiction.
  Qed.

Lemma remove_rest_total next c c' :
    remove_rest J getExceptionMessage next c c' →
    scheduled_total (log c) ≤ scheduled_total (log c').
  Proof.
    induction 1 as [c|fuel job rest next s2 c c2 c' Hwin Hw Hres Hrest IH]; [lia|].
    pose proof (scheduled_total_rtc _ _ Hwin). simpl in IH. lia.
  Qed.

  (** When [remove] takes the lock again after a wait: the job is not
      pending, and what [remove] does then is a run of steps. *)
Lemma remove_resumed_run fuel job rest c2 next s2 :
    (∀ x, pending (loader c2) x → is_finished (job_state (loader c2) x) = false) →
    waitNoThrow (job_state (loader c2) job) = Returned →
    remove_resumed J getExceptionMessage fuel job rest (loader c2) = Ok (next, s2) →
    rtc (step J getExceptionMessage) c2 (mkConfig s2 (executing c2) (log c2)).
  Proof.
    intros Hinv Hw Hres.
    assert (Hp : ¬ pending (loader c2) job).
    { intros Hp. pose proof (Hinv job Hp) as Hf.
      unfold waitNoThrow in Hw. rewrite Hf in Hw. discriminate. }
    eapply rtc_trans; [exact (erase_run job c2 Hp)|].
    exact (remove_run fuel rest (mkConfig _ (executing c2) (log c2)) next s2 Hres).
  Qed.

  (** A call of [remove] is a run of the loader. *)
Lemma remove_rest_run next c c' :
    remove_rest J getExceptionMessage next c c' →
    (∀ c2, rtc (step J getExceptionMessage) c c2 →
           scheduled_total (log c2) ≤ scheduled_total (log c') →
           ∀ x, pending (loader c2) x → is_finished (job_state (loader c2) x) = false) →
    rtc (step J getExceptionMessage) c c'.
  Proof.
    induction 1 as [c|fuel job rest next s2 c c2 c' Hwin Hw Hres Hrest IH]; intros Hinv;
      [apply rtc_refl|].
    pose proof (remove_rest_total _ _ _ Hrest) as Hle. simpl in Hle.
    pose proof (remove_resumed_run fuel job rest c2 next s2 (Hinv c2 Hwin Hle) Hw Hres) as Hseg.
    eapply rtc_trans; [exact Hwin|]. eapply rtc_trans; [exact Hseg|].
    apply IH. intros c3 H3 Hle3. apply Hinv; [|exact Hle3].
    eapply rtc_trans; [exact Hwin|]. eapply rtc_trans; [exact Hseg|exact H3].
  Qed.

Lemma remove_call_run max_threads_ jobs c c' :
    reachable J getExceptionMessage max_threads_ c →
    remove_call J getExceptionMessage jobs c c' →
    scheduled_total (log c') < UInt64_modulus →
    rtc (step J getExceptionMessage) c c'.
  Proof.
    intros Hreach [fuel next s' Hrun Hrest] Hn.
    pose proof (remove_run fuel jobs c next s' Hrun) as H1.
    eapply rtc_trans; [exact H1|]. apply (remove_rest_run _ _ _ Hrest).
    intros c2 H2 Hle x Hx.
    assert (Hr2 : reachable J getExceptionMessage max_threads_ c2).
    { eapply reachable_rtc; [exact Hreach|]. eapply rtc_trans; eauto. }
    destruct (reachable_run_ok J getExceptionMessage J_wf _ _ Hr2) as [_ HR]; [lia|].
    exact (r_pending _ HR x Hx).
  Qed.
End Runs.
(** ** Which jobs [failed] sets the failure of *)

Section FailedCalls.
Variable J : LoadJobPtr → LoadJob.
Variable getExceptionMessage : Exception → string.

End FailedCalls.

(** ** What holds in every reachable loader *)

Section ReachableLoader.
Variable J : LoadJobPtr → LoadJob.
Variable getExceptionMessage : Exception → string.
Hypothesis J_wf : jobs_wf J.

Local Abbreviation reachable' := (reachable J getExceptionMessage).

Lemma step_settle c c' :
    config_ok J c → step J getExceptionMessage c c' →
    scheduled_total (log c') < UInt64_modulus →
    settle_step (loader c) (loader c').
  Proof.
    intros HC Hstep Hn. pose proof (c_loader _ _ HC) as Hok. destruct Hstep as
      [fuel jobs p s s' ex lg Hnd Hrun|fuel job p s s' ex lg Hrun
      |fuel job s s' ex lg Hrun|s ex lg|s ex lg
      |fuel executed next s s' ex lg Hsub Hrun]; simpl in *.
    - rewrite scheduled_total_app in Hn. simpl in Hn.
      destruct (loader_ok_schedule J J_wf _ fuel jobs p s s' Hnd Hok) as [_ HS]; [lia|exact Hrun|].
      apply settle_step_same, (ss_heap _ _ _ _ _ HS).
    - destruct (prioritize_spec J _ _ _ _ _ Hrun) as [HS _].
      apply settle_step_same, (ps_heap _ _ _ _ HS).
    - eapply settle_remove_job; eauto.
    - destruct (start_loop_frame (length (ready_queue (set_running true s))) 0
                  (set_running true s)) as (_ & E2 & _).
      apply settle_step_heap, E2.
    - apply settle_step_heap. reflexivity.
    - unfold worker_iteration in Hrun. apply bind_Ok in Hrun as (s1 & Hcommit & Htake).
      injection Htake as Htake.
      assert (Hs1 : heap s' = heap s1 ∧ ∀ x, pending s' x → pending s1 x).
      { destruct next as [|job].
        - destruct (take_next_exit _ _ Htake) as [->| ->]; auto.
        - destruct (take_next_run _ _ _ Htake) as (k & rest & _ & _ & ->). split; [reflexivity|].
          intros x [i Hi]. simpl in Hi. destruct (decide (x = job)) as [->|Hne].
          + rewrite lookup_alter_eq in Hi. destruct (scheduled_jobs s1 !! job) eqn:E;
              [eexists; eauto|discriminate].
          + rewrite lookup_alter_ne in Hi by congruence. eexists; eauto. }
      destruct Hs1 as [Hheap Hold].
      assert (HS : settle_step s s1).
      { destruct (Hok) as (HG & HQ & _).
        destruct executed as [[job thrown]|]; [|injection Hcommit as <-; apply settle_step_heap; reflexivity].
        destruct (c_exec _ _ HC job) as (info & Hj & Hd & Hz); [apply Hsub; left|]. simpl in Hj.
        destruct thrown as [what|]; simpl in Hcommit.
        - eapply settle_failed; [exact HG|eexists; eauto|exact Hcommit].
        - injection Hcommit as <-. eapply settle_loaded; eauto. }
      intros x. unfold job_state. rewrite Hheap. fold (job_state s1 x).
      destruct (HS x) as [E|(P1 & P2 & F)]; [left; exact E|right].
      split; [exact P1|]. split; [intros H; apply P2, Hold, H|exact F].
  Qed.

  (** X1: A pending job has status [PENDING] and is not in the finished set; a
      job of the finished set is not pending and its status is [SUCCESS] or
      [FAILED]; a job with status [PENDING] holds no exception. *)
Theorem job_status_consistent max_threads_ c x :
    reachable' max_threads_ c → scheduled_total (log c) < UInt64_modulus →
    (pending (loader c) x →
       status (job_state (loader c) x) = PENDING ∧ x ∉ finished_jobs (loader c)) ∧
    (x ∈ finished_jobs (loader c) →
       ¬ pending (loader c) x ∧ status (job_state (loader c) x) ≠ PENDING) ∧
    (status (job_state (loader c) x) = PENDING → exception (job_state (loader c) x) = None).
  Proof.
    intros Hreach Hn.
    destruct (reachable_run_ok J getExceptionMessage J_wf _ _ Hreach Hn) as [HC HR].
    destruct (c_loader _ _ HC) as (HG & _ & _).
    split; [|split].
    - intros Hp. split.
      + unfold status. rewrite (r_pending _ HR x Hp). reflexivity.
      + intros Hf. exact (g_disjoint _ _ HG x Hf Hp).
    - intros Hf. split; [exact (g_disjoint _ _ HG x Hf)|].
      unfold status. rewrite (g_finished _ _ HG x Hf). simpl.
      destruct (exception (job_state (loader c) x)); discriminate.
    - intros Hs. apply (r_fresh _ HR). unfold status in Hs.
      destruct (is_finished (job_state (loader c) x)); [|reflexivity].
      simpl in Hs. destruct (exception (job_state (loader c) x)); discriminate.
  Qed.

  (** X2: The ready queue is in key order, higher priorities first, and holds
      no key twice.  It holds exactly the pending jobs that carry a
      [ready_seqno], each under the key made of its priority and its
      [ready_seqno]; such a job waits for no prerequisite; the [ready_seqno]s
      of different jobs differ, and none is above [last_ready_seqno]. *)
Theorem ready_queue_consistent max_threads_ c :
    reachable' max_threads_ c → scheduled_total (log c) < UInt64_modulus →
    rq_sorted (ready_queue (loader c)) ∧
    (∀ k x, (k, x) ∈ ready_queue (loader c) ↔
       ∃ info, scheduled_jobs (loader c) !! x = Some info ∧
               Info.ready_seqno info ≠ 0 ∧ k = Info.key info) ∧
    (∀ x info, scheduled_jobs (loader c) !! x = Some info →
       (Info.ready_seqno info ≠ 0 → Info.dependencies_left info = 0) ∧
       0 ≤ Info.ready_seqno info ≤ last_ready_seqno (loader c)) ∧
    (∀ x y ix iy, scheduled_jobs (loader c) !! x = Some ix →
       scheduled_jobs (loader c) !! y = Some iy →
       Info.ready_seqno ix = Info.ready_seqno iy → Info.ready_seqno ix ≠ 0 → x = y) ∧
    last_ready_seqno (loader c) ≤ scheduled_total (log c).
  Proof.
    intros Hreach Hn.
    destruct (c_loader _ _ (reachable_config_ok J getExceptionMessage J_wf _ _ Hreach Hn))
      as (_ & [Q1 Q2 Q3 Q4 Q5 Q6 Q7] & _).
    split; [exact Q1|]. split; [exact Q2|]. split; [|split; [exact Q3|]].
    - intros x info Hx. split; [apply (Q5 x info Hx)|apply (Q4 x info Hx)].
    - pose proof (Nat2Z.is_nonneg (waiting [] (scheduled_jobs (loader c)))). lia.
  Qed.

  (** X3: The back-links mirror the declared dependencies: a job in the
      [dependent_jobs] of a pending job is pending and declares that job as a
      prerequisite; no [dependent_jobs] holds a job twice; and the
      [dependencies_left] of a pending job is the number of its declared
      prerequisites that hold a back-link to it ([registered_count]), so it
      never wraps around. *)
Theorem dependency_graph_consistent max_threads_ c :
    reachable' max_threads_ c → scheduled_total (log c) < UInt64_modulus →
    (∀ p x, linked (loader c) p x → pending (loader c) x ∧ p ∈ dependencies (J x)) ∧
    (∀ x info, scheduled_jobs (loader c) !! x = Some info →
       NoDup (Info.dependent_jobs info) ∧
       Info.dependencies_left info = registered_count J (loader c) x ∧
       0 ≤ Info.dependencies_left info ≤ Z.of_nat (length (dependencies (J x)))).
  Proof.
    intros Hreach Hn.
    destruct (c_loader _ _ (reachable_config_ok J getExceptionMessage J_wf _ _ Hreach Hn))
      as ([G1 G2 G3 G4 G5] & _ & _).
    split; [exact G1|]. intros x info Hx. split; [apply (G2 x info Hx)|].
    rewrite (G3 x info Hx). split; [reflexivity|]. unfold registered_count.
    pose proof (length_filter (λ p, linkedb (loader c) p x = true) (dependencies (J x))). lia.
  Qed.


End ReachableLoader.
(** ** A finished job along a run *)

Section Settled.
Variable J : LoadJobPtr → LoadJob.
Variable getExceptionMessage : Exception → string.
Hypothesis J_wf : jobs_wf J.

Lemma settled_rtc max_threads_ c c2 x :
    reachable J getExceptionMessage max_threads_ c →
    rtc (step J getExceptionMessage) c c2 →
    scheduled_total (log c2) < UInt64_modulus →
    is_finished (job_state (loader c) x) = true →
    is_finished (job_state (loader c2) x) = true ∧
    exception (job_state (loader c2) x) = exception (job_state (loader c) x).
  Proof.
    intros Hreach Hrun. revert Hreach.
    induction Hrun as [c|c c1 c2 Hstep Hrun IH]; intros Hreach Hn Hf; [auto|].
    pose proof (scheduled_total_rtc J getExceptionMessage _ _ Hrun) as Hle.
    pose proof (scheduled_total_step J getExceptionMessage _ _ Hstep) as Hle1.
    destruct (reachable_run_ok J getExceptionMessage J_wf _ _ Hreach) as [HC HR]; [lia|].
    destruct (settle_step_finished _ _ x (r_pending _ HR)
                (step_settle J getExceptionMessage J_wf c c1 HC Hstep ltac:(lia)) Hf) as [F1 E1].
    destruct (IH (reachable_step _ _ _ _ _ Hreach Hstep) Hn F1) as [F2 E2].
    split; [exact F2|congruence].
  Qed.
End Settled.

(** ** What a worker does with a body that ended *)

Section WorkerOutcome.
Variable J : LoadJobPtr → LoadJob.
Variable getExceptionMessage : Exception → string.
Hypothesis J_wf : jobs_wf J.

  (** X6: When the body of an executing job throws, the worker's pass ends, and
      after it the job is finished and failed, out of the pending map and in
      the finished set; [wait] rethrows [load_failed job what], the
      [ASYNC_LOAD_FAILED] exception that names the job and quotes what the
      body threw; no job has become pending. *)
Theorem worker_fails_job_whose_body_threw max_threads_ c job what :
    reachable J getExceptionMessage max_threads_ c →
    scheduled_total (log c) < UInt64_modulus →
    job ∈ executing c →
    (∃ next s', worker_iteration J getExceptionMessage (failed_fuel (loader c))
                  (Some (job, Some what)) (loader c) = Ok (next, s')) ∧
    ∀ fuel next s',
      worker_iteration J getExceptionMessage fuel (Some (job, Some what)) (loader c)
        = Ok (next, s') →
      wait (job_state s' job) = Raised (load_failed J job what) ∧
      status (job_state s' job) = FAILED ∧
      job ∈ finished_jobs s' ∧ ¬ pending s' job ∧
      (∀ y, pending s' y → pending (loader c) y).
  Proof.
    intros Hreach Hn Hex.
    pose proof (reachable_config_ok J getExceptionMessage J_wf _ _ Hreach Hn) as HC.
    destruct (c_loader _ _ HC) as (HG & _ & _).
    destruct (c_exec _ _ HC job Hex) as (info & Hj & Hd & _).
    split.
    - destruct (failed_total J getExceptionMessage job (load_failed J job what) (loader c))
        as [s1 H1].
      unfold worker_iteration, handle_executed. rewrite H1. simpl.
      destruct (take_next s1) as [next s']. eauto.
    - intros fuel next s' Hrun. unfold worker_iteration in Hrun.
      apply bind_Ok in Hrun as (s1 & Hfail & Htake). injection Htake as Htake.
      simpl in Hfail.
      destruct (take_next_frame _ _ _ Htake) as (Eh & Ef & Ep).
      destruct (failed_spec J getExceptionMessage any_exception
                  (λ _ _, I) (λ _ _ _ _ _, I) fuel job _ _ _ Hfail)
        as (_ & Hgone & Hfin & _ & [He|Hcyc]).
      2: { exfalso. exact (idle_acyclic J _ _ _ _ HG Hj Hd Hcyc). }
      destruct (calm_failed J getExceptionMessage (λ _, False) fuel job _ _ _ HG Hfail) as (Hcalm & _ & Hf).
      assert (Es : job_state s' job = job_state s1 job).
      { unfold job_state. rewrite Eh. reflexivity. }
      rewrite Es. unfold wait, status. rewrite Hf, He. rewrite Ef.
      split; [reflexivity|]. split; [reflexivity|]. split; [exact Hfin|].
      split; [intros Hp; apply Hgone, Ep, Hp|].
      intros y Hy. apply (cs_old _ _ _ _ Hcalm), Ep, Hy.
  Qed.

  (** X7: When the body of an executing job returns, [loaded] makes the job
      [SUCCESS], so that [wait] returns, and moves it from the pending map to
      the finished set.  No other job's state changes.  Each pending job in
      its [dependent_jobs] waits for one prerequisite less, and is in the
      ready queue if it waits for none; the other pending jobs keep their
      entries. *)
Theorem loaded_releases_dependents max_threads_ c job info :
    reachable J getExceptionMessage max_threads_ c →
    scheduled_total (log c) < UInt64_modulus →
    job ∈ executing c → scheduled_jobs (loader c) !! job = Some info →
    wait (job_state (loaded job (loader c)) job) = Returned ∧
    status (job_state (loaded job (loader c)) job) = SUCCESS ∧
    job ∈ finished_jobs (loaded job (loader c)) ∧ ¬ pending (loaded job (loader c)) job ∧
    (∀ y, y ≠ job → job_state (loaded job (loader c)) y = job_state (loader c) y) ∧
    (∀ y i, y ≠ job → scheduled_jobs (loader c) !! y = Some i →
       ∃ i', scheduled_jobs (loaded job (loader c)) !! y = Some i' ∧
             Info.priority i' = Info.priority i ∧
             Info.dependent_jobs i' = Info.dependent_jobs i ∧
             Info.dependencies_left i' =
               (if decide (y ∈ Info.dependent_jobs info) then Info.dependencies_left i - 1
                else Info.dependencies_left i) ∧
             (y ∉ Info.dependent_jobs info → Info.ready_seqno i' = Info.ready_seqno i) ∧
             (y ∈ Info.dependent_jobs info → Info.dependencies_left i' = 0 →
              (Info.key i', y) ∈ ready_queue (loaded job (loader c)))).
  Proof.
    intros Hreach Hn Hex Hj.
    destruct (reachable_run_ok J getExceptionMessage J_wf _ _ Hreach Hn) as [HC HR].
    destruct (c_loader _ _ HC) as (HG & HQ & _).
    destruct (c_exec _ _ HC job Hex) as (info' & Hj' & Hd & Hz).
    assert (info' = info) by congruence. subst info'.
    set (s := loader c) in *.
    pose proof (λ x, job_state_loaded J J_wf _ job info s x HG HQ Hj Hd Hz) as Hstate.
    destruct (loaded_spec J J_wf _ job info s HG HQ Hj Hd Hz) as (_ & HQ' & _).
    destruct (calm_loaded J J_wf _ job info s HG HQ Hj Hd Hz) as (_ & Hgone & _).
    assert (Hfresh : exception (job_state s job) = None).
    { apply (r_fresh _ HR), (r_pending _ HR). exists info. exact Hj. }
    assert (Hst : job_state (loaded job s) job = setSuccess (job_state s job)).
    { rewrite Hstate. destruct (decide (job = job)); [reflexivity|contradiction]. }
    split; [rewrite Hst; unfold wait; simpl; rewrite Hfresh; reflexivity|].
    split; [rewrite Hst; unfold status; simpl; rewrite Hfresh; reflexivity|].
    split; [rewrite (loaded_unfold _ _ _ Hj); simpl; apply elem_of_union; left;
            apply elem_of_singleton; reflexivity|].
    split; [exact Hgone|].
    split; [intros y Hne; rewrite Hstate; destruct (decide (y = job)); [contradiction|reflexivity]|].
    intros y i Hne Hy.
    set (l := Info.dependent_jobs info) in *.
    set (s0 := update_job setSuccess job s).
    destruct HG as [G1 G2 G3 G4 G5].
    assert (Hl : ∀ x, x ∈ l → ∃ i, scheduled_jobs s0 !! x = Some i ∧
                       1 ≤ Info.dependencies_left i < UInt64_modulus).
    { intros x Hx. assert (linked s job x) as Hlk by (exists info; auto).
      destruct (G1 _ _ Hlk) as [[j Hj0] Hdep]. exists j. split; [exact Hj0|].
      rewrite (G3 _ _ Hj0). pose proof (registered_count_pos J s job x Hlk Hdep).
      pose proof (registered_count_bound J J_wf s x). lia. }
    pose proof (queue_ok_update_job _ 0 [] setSuccess job s HQ) as HQ0.
    destruct (loaded_deps_spec _ l s0 (G2 _ _ Hj) HQ0 Hl) as [_ HS2].
    assert (Hy0 : scheduled_jobs s0 !! y = Some i) by exact Hy.
    destruct (ls_fwd _ _ _ HS2 _ _ Hy0) as (i' & Hi' & E1 & E2 & E3 & E4).
    assert (Hi2 : scheduled_jobs (loaded job s) !! y = Some i').
    { rewrite (loaded_unfold _ _ _ Hj). simpl. rewrite lookup_delete_ne by congruence.
      exact Hi'. }
    exists i'. split; [exact Hi2|]. split; [exact E1|]. split; [exact E2|].
    split; [exact E3|]. split; [exact E4|].
    intros Hin Hzero. apply (q_entries _ _ _ _ HQ'). exists i'. split; [exact Hi2|].
    split; [|reflexivity].
    destruct (decide (y ∈ l)) as [_|Hnl]; [|contradiction].
    destruct (loaded_deps_ready _ l s0 (G2 _ _ Hj) HQ0 Hl y i Hin Hy0) as (i2 & Hi2' & Hready);
      [lia|].
    assert (i2 = i') by congruence. subst i2. exact Hready.
  Qed.
End WorkerOutcome.

(** ** The operations of the loader *)

Section OperationFacts.
Variable J : LoadJobPtr → LoadJob.
Variable getExceptionMessage : Exception → string.

  (** X8: [prioritize] returns on every state of the loader, whatever the
      dependencies of the jobs are, cyclic ones included, and with the same
      result for every amount of fuel from [prioritize_fuel] on; it never
      throws. *)
Theorem prioritize_terminates job p s :
    (∃ s', ∀ fuel, (prioritize_fuel p s ≤ fuel)%nat → prioritize J fuel job p s = Ok s') ∧
    (∀ fuel e, prioritize J fuel job p s ≠ Throw e).
  Proof.
    split; [|intros fuel e; apply prioritize_no_throw].
    destruct (prioritize_total J job p s) as [s' H]. exists s'.
    intros fuel Hle. exact (prioritize_more J _ _ _ _ _ _ Hle H).
  Qed.

  (** X9: [prioritize] changes nothing but priorities: every pending job stays
      pending with the same [dependencies_left], [ready_seqno] and
      [dependent_jobs], and its priority is the old one or, if that was
      lower, the new one; no job becomes pending, the finished set and the
      status of every job stay.  Afterwards the job, if pending, has at least
      the new priority, and [prioritize] with the same or a lower priority
      changes nothing. *)
Theorem prioritize_only_raises fuel job p s s' :
    prioritize J fuel job p s = Ok s' →
    (∀ x i, scheduled_jobs s !! x = Some i →
       ∃ i', scheduled_jobs s' !! x = Some i' ∧
             Info.dependencies_left i' = Info.dependencies_left i ∧
             Info.ready_seqno i' = Info.ready_seqno i ∧
             Info.dependent_jobs i' = Info.dependent_jobs i ∧
             (Info.priority i' = Info.priority i ∨
              (Info.priority i < p ∧ Info.priority i' = p))) ∧
    (∀ x, scheduled_jobs s !! x = None → scheduled_jobs s' !! x = None) ∧
    finished_jobs s' = finished_jobs s ∧
    (∀ x, status (job_state s' x) = status (job_state s x)) ∧
    (∀ i', scheduled_jobs s' !! job = Some i' → p ≤ Info.priority i') ∧
    (∀ fuel' q, q ≤ p → prioritize J (S fuel') job q s' = Ok s').
  Proof.
    intros H. destruct (prioritize_spec J _ _ _ _ _ H) as [HS Hjob].
    split; [exact (ps_fwd _ _ _ _ HS)|]. split; [exact (ps_bwd _ _ _ _ HS)|].
    split; [exact (ps_finished _ _ _ _ HS)|].
    split; [intros x; apply status_fields; apply (ps_heap _ _ _ _ HS)|].
    split; [exact Hjob|].
    intros fuel' q Hq. rewrite prioritize_S.
    destruct (scheduled_jobs s' !! job) as [i'|] eqn:Hj; [|reflexivity].
    specialize (Hjob i' eq_refl).
    destruct (Z.geb_spec (Info.priority i') q); [reflexivity|lia].
  Qed.

  (** X10: [schedule] throws only [ASYNC_LOAD_SCHEDULE_FAILED], and only from its
      checks, before it has changed anything: either a job of the set is
      finished or already pending, and the message says which of the two, or
      [checkCycle] threw.  And it does throw whenever a job of the set is
      finished or pending. *)
Theorem schedule_throws_from_checks fuel jobs p s :
    ((∃ job, job ∈ jobs ∧ (status (job_state s job) ≠ PENDING ∨ pending s job)) →
     ∃ e, schedule J fuel jobs p s = Throw e ∧ code e = ASYNC_LOAD_SCHEDULE_FAILED) ∧
    ∀ e, schedule J fuel jobs p s = Throw e →
      code e = ASYNC_LOAD_SCHEDULE_FAILED ∧
      ((∃ job, job ∈ jobs ∧
          ((status (job_state s job) ≠ PENDING ∧
            message e =
              "Trying to schedule already finished load job '" +:+ name (J job) +:+ "'") ∨
           (status (job_state s job) = PENDING ∧ pending s job ∧
            message e = quoted_job (name (J job)) +:+ " has been already scheduled"))) ∨
       checkCycle J fuel jobs = Throw e).
  Proof.
    split; [apply schedule_rejects_finished_or_scheduled|].
    intros e H. unfold schedule in H.
    destruct (for_each (λ job _, sanity_check J s job) jobs tt) as [[]|e1|] eqn:E1;
      simpl in H; [|injection H as <-|discriminate].
    - destruct (checkCycle J fuel jobs) as [[]|e2|] eqn:E2; simpl in H;
        [|injection H as <-|discriminate].
      + exfalso. revert H. apply for_each_no_throw. intros x t e' _ Hx.
        unfold schedule_job in Hx.
        destruct (for_each (schedule_dep J fuel p x) (dependencies (J x)) t) as [t1|e3|] eqn:E3;
          simpl in Hx; [discriminate| |discriminate].
        revert E3. apply for_each_no_throw. intros d u e4 _. apply prioritize_no_throw.
      + split; [exact (checkCycle_throws J _ _ _ E2)|right; reflexivity].
    - destruct (sanity_checks_thrown J s e1 jobs E1) as (job & Hin & Hj).
      destruct (sanity_check_thrown J s job e1 Hj) as [Hc Hm].
      split; [exact Hc|]. left. exists job. split; [exact Hin|exact Hm].
  Qed.

  (** X11: [start] sets [is_running] and spawns one worker for each ready job, up
      to the limit [max_threads]; it changes nothing else.  ([workers] and
      [max_threads] are [size_t] values.) *)
Theorem start_spawns_up_to_limit s :
    0 ≤ workers s → max_threads s < UInt64_modulus →
    start s =
    set_workers (workers s + Z.max 0 (Z.min (max_threads s - workers s)
                                        (Z.of_nat (length (ready_queue s)))))
      (set_running true s).
  Proof.
    intros Hw Hm. unfold start. cbv zeta.
    rewrite start_loop_exact; simpl; try lia.
    do 2 f_equal. lia.
  Qed.

  (** X12: [schedule] leaves [max_threads] and [is_running] alone; on a stopped
      loader it spawns no worker, and on a running one it never takes
      [workers] beyond [max_threads] (or beyond what it was). *)
Theorem schedule_spawns_within_limit fuel jobs p s s' :
    schedule J fuel jobs p s = Ok s' →
    0 ≤ workers s → max_threads s < UInt64_modulus →
    max_threads s' = max_threads s ∧ is_running s' = is_running s ∧
    workers s ≤ workers s' ≤ Z.max (workers s) (max_threads s) ∧
    (is_running s = false → workers s' = workers s).
  Proof.
    intros H Hw Hm. destruct (spawn_step_schedule J _ _ _ _ _ H) as [S1 S2 S3 S4]. auto.
  Qed.

  (** X13: On a stopped loader a worker's pass records the job it has executed,
      if any, and exits: it starts no job, spawns no worker, and leaves
      [workers] as it is, so the count still includes the worker that has
      gone. *)
Theorem stopped_worker_exits fuel executed s next s' :
    is_running s = false →
    worker_iteration J getExceptionMessage fuel executed s = Ok (next, s') →
    next = Exit ∧ is_running s' = false ∧ workers s' = workers s ∧
    max_threads s' = max_threads s ∧
    (executed = None → s' = s).
  Proof.
    intros Hr H. unfold worker_iteration in H. apply bind_Ok in H as (s1 & H1 & H2).
    injection H2 as H2.
    assert (HS : spawn_step s s1).
    { destruct executed as [[job thrown]|].
      - eapply spawn_step_handle_executed; eauto.
      - injection H1 as <-. apply spawn_step_refl. }
    destruct HS as [S1 S2 S3 _].
    unfold take_next in H2. rewrite S2, Hr in H2. simpl in H2. injection H2 as <- <-.
    split; [reflexivity|]. split; [congruence|]. split; [auto|]. split; [exact S1|].
    intros ->. injection H1 as <-. reflexivity.
  Qed.
End OperationFacts.

(** ** Tasks *)

Section TaskFacts.
Variable J : LoadJobPtr → LoadJob.
Variable getExceptionMessage : Exception → string.
Hypothesis J_wf : jobs_wf J.

  (** X14: [merge] leaves the source task without a loader, so that destroying it
      removes nothing.  A target that has a loader keeps it and holds the
      jobs of both tasks afterwards, each once; what stays in the source are
      jobs that both held.  A target without a loader becomes what the
      source was. *)
Theorem task_merge_owns_both (moved_from : LoadJobSet → LoadJobSet) (this o : Task.t) :
    Task.loader (Task.merge moved_from this o).2 = false ∧
    (∀ fuel s,
       Task.remove J getExceptionMessage fuel (Task.merge moved_from this o).2 s =
       Ok (RemoveReturns, (Task.merge moved_from this o).2, s)) ∧
    (Task.loader this = true →
       Task.loader (Task.merge moved_from this o).1 = true ∧
       (∀ x, x ∈ Task.jobs (Task.merge moved_from this o).1 ↔
             x ∈ Task.jobs this ∨ x ∈ Task.jobs o) ∧
       (NoDup (Task.jobs this) → NoDup (Task.jobs (Task.merge moved_from this o).1)) ∧
       (∀ x, x ∈ Task.jobs (Task.merge moved_from this o).2 →
             x ∈ Task.jobs this ∧ x ∈ Task.jobs o)) ∧
    (Task.loader this = false → (Task.merge moved_from this o).1 = o).
  Proof.
    unfold Task.merge, Task.move_assign, Task.remove.
    destruct this as [[] js], o as [lo jo]; simpl.
    - split; [reflexivity|]. split; [reflexivity|]. split; [|discriminate].
      intros _. split; [reflexivity|]. split; [apply elem_of_foldl_set_insert|].
      split; [apply NoDup_foldl_set_insert|].
      intros x Hx. apply list_elem_of_filter in Hx. exact Hx.
    - split; [reflexivity|]. split; [reflexivity|]. split; [discriminate|reflexivity].
  Qed.

  (** X15: Scheduling a set of jobs and then destroying the task that [schedule]
      returned: [remove] returns without having to wait, the task is left
      empty, and every job of the set is finished and gone from the pending
      map and from the finished set; destroying the task once more changes
      nothing. *)
Theorem dropped_task_forgets_jobs max_threads_ c fuel jobs p t s1 :
    reachable J getExceptionMessage max_threads_ c → NoDup jobs →
    scheduled_total (log c) + Z.of_nat (length jobs) < UInt64_modulus →
    schedule_task J fuel jobs p (loader c) = Ok (t, s1) →
    t = Task.make jobs ∧
    (∃ s2, Task.remove J getExceptionMessage (failed_fuel s1) t s1 =
           Ok (RemoveReturns, Task.empty, s2)) ∧
    ∀ fuel' next t' s2, Task.remove J getExceptionMessage fuel' t s1 = Ok (next, t', s2) →
      next = RemoveReturns ∧ t' = Task.empty ∧
      (∀ x, x ∈ jobs →
         ¬ pending s2 x ∧ x ∉ finished_jobs s2 ∧ status (job_state s2 x) ≠ PENDING) ∧
      (∀ fuel'', Task.remove J getExceptionMessage fuel'' t' s2 = Ok (RemoveReturns, t', s2)).
  Proof.
    intros Hreach Hnd Hn Hrun. unfold schedule_task in Hrun.
    apply bind_Ok in Hrun as (s1' & Hsched & Hret). injection Hret as <- <-.
    assert (Hc : config_ok J c).
    { apply (reachable_config_ok J getExceptionMessage J_wf max_threads_ c Hreach).
      pose proof (Nat2Z.is_nonneg (length jobs)). lia. }
    destruct (loader_ok_schedule J J_wf _ fuel jobs p _ s1' Hnd (c_loader _ _ Hc) Hn Hsched)
      as [Hok HS].
    assert (Hidle : ∀ x, x ∈ jobs → ¬ is_executing s1' x).
    { intros x Hx (_ & i & Hi & Hd & Hz).
      destruct (ss_new _ _ _ _ _ HS x Hx) as (i' & Hi' & Hstamp & _).
      assert (i' = i) by congruence. subst i'. exact (Hstamp Hd Hz). }
    assert (Hall : ∀ fuel' next s2,
              remove J getExceptionMessage fuel' jobs s1' = Ok (next, s2) →
              next = RemoveReturns ∧
              ∀ x, x ∈ jobs →
                ¬ pending s2 x ∧ x ∉ finished_jobs s2 ∧ status (job_state s2 x) ≠ PENDING).
    { intros fuel' next s2 Hrem.
      pose proof (remove_idle J getExceptionMessage J_wf _ _ _ _ _ _ Hok Hidle Hrem) as ->.
      split; [reflexivity|].
      destruct (remove_effect J getExceptionMessage J_wf _ _ _ _ _ _ Hok Hrem)
        as ((done & Hdone & Hjobs) & _).
      simpl in Hdone. rewrite app_nil_r in Hdone. subst done.
      pose proof (calm_remove J getExceptionMessage _ _ _ _ _ _ Hok Hrem) as Hcalm.
      intros x Hx. destruct (Hjobs x Hx) as [Hp Hf]. split; [exact Hp|]. split; [exact Hf|].
      assert (Hp1 : pending s1' x) by (apply (ss_pending _ _ _ _ _ HS); right; exact Hx).
      destruct (cs_gone _ _ _ _ Hcalm x Hp1) as [Hp2|Hfin]; [contradiction|].
      unfold status. rewrite Hfin. destruct (exception (job_state s2 x)); discriminate. }
    split; [reflexivity|]. split.
    - destruct (remove_enough J getExceptionMessage _ (failed_fuel s1') jobs s1' Hok)
        as (next & s2 & H2); [unfold failed_fuel; lia|].
      destruct (Hall _ _ _ H2) as [-> _].
      exists s2. unfold Task.remove. simpl. rewrite H2. reflexivity.
    - intros fuel' next t' s2 Hrem. unfold Task.remove in Hrem. simpl in Hrem.
      apply bind_Ok in Hrem as ([next' s2'] & Hrem & Hret).
      destruct (Hall _ _ _ Hrem) as [-> Hjobs]. simpl in Hret. injection Hret as <- <- <-.
      split; [reflexivity|]. split; [reflexivity|]. split; [exact Hjobs|reflexivity].
  Qed.

  (** X16: A job is scheduled at most once in its life: once a [schedule] call has
      accepted it, every later [schedule] of a set that holds it throws
      [ASYNC_LOAD_SCHEDULE_FAILED], whether the job is still pending, has
      finished, or was removed. *)
Theorem job_is_scheduled_once max_threads_ c jobs p P x :
    reachable J getExceptionMessage max_threads_ c →
    scheduled_total (log c) < UInt64_modulus →
    EvScheduled jobs p P ∈ log c → x ∈ jobs →
    ∀ fuel jobs' p', x ∈ jobs' →
      ∃ e, schedule J fuel jobs' p' (loader c) = Throw e ∧ code e = ASYNC_LOAD_SCHEDULE_FAILED.
  Proof.
    intros Hreach Hn He Hx fuel jobs' p' Hx'.
    pose proof (reachable_config_ok J getExceptionMessage J_wf _ _ Hreach Hn) as HC.
    apply schedule_rejects_finished_or_scheduled. exists x. split; [exact Hx'|].
    destruct (c_once _ _ HC jobs p P x He Hx) as [Hp|Hf]; [right; exact Hp|left].
    unfold status. rewrite Hf. destruct (exception (job_state (loader c) x)); discriminate.
  Qed.
End TaskFacts.

(** ** Sets that [schedule] accepts *)

Section ScheduleAccepts.
Variable J : LoadJobPtr → LoadJob.

  (** X17: [checkCycle] raises no false alarm: on a set in which no job depends on
      itself through jobs of the set it returns without throwing, once its
      recursion budget exceeds the number of jobs. *)
Theorem checkCycle_accepts_acyclic fuel jobs :
    acyclic_in J jobs → (length jobs < fuel)%nat → checkCycle J fuel jobs = Ok tt.
  Proof.
    intros Hac Hfuel. unfold checkCycle.
    apply (checkCycle_loop_accepts J jobs Hac); [auto| |].
    - intros s _ Hs. inversion Hs.
    - pose proof (size_list_to_set_le jobs). lia.
  Qed.

  (** X18: [schedule] returns, without throwing, for every set of jobs that are
      neither finished nor pending and do not depend on themselves through
      jobs of the set, whatever the state of the loader, once the recursion
      budget covers the jobs of the set and the pending jobs below the
      priority. *)
Theorem schedule_accepts_valid_set fuel jobs p s :
    (∀ x, x ∈ jobs → status (job_state s x) = PENDING ∧ ¬ pending s x) →
    acyclic_in J jobs →
    (length jobs < fuel)%nat → (prioritize_fuel p s ≤ fuel)%nat →
    ∃ s', schedule J fuel jobs p s = Ok s'.
  Proof.
    intros Hfresh Hac Hlen Hfuel. unfold schedule.
    rewrite (sanity_checks_ok J s jobs Hfresh). simpl.
    assert (Hcycle : checkCycle J fuel jobs = Ok tt).
    { unfold checkCycle. apply (checkCycle_loop_accepts J jobs Hac); [auto| |].
      - intros x _ Hx. inversion Hx.
      - pose proof (size_list_to_set_le jobs). lia. }
    rewrite Hcycle. simpl.
    destruct (below_emplace_jobs p jobs s) as [E P].
    apply (schedule_jobs_enough J fuel p).
    - intros x Hx. apply P. left. exact Hx.
    - rewrite E. unfold prioritize_fuel in Hfuel. lia.
  Qed.
End ScheduleAccepts.

(** ** Sets that [schedule] rejects *)

Section ScheduleRejectsCycle.
Variable J : LoadJobPtr → LoadJob.

  (** X19: When every job of the set has a name that is not empty, [checkCycle]
      (with a recursion budget above the number of jobs) returns exactly for
      the sets in which no job depends on itself through jobs of the set; for
      any other set it throws, and so does [schedule], with
      [ASYNC_LOAD_SCHEDULE_FAILED], on every loader. *)
Theorem schedule_rejects_named_cycle fuel jobs :
    (∀ x, x ∈ jobs → name (J x) ≠ EmptyString) → (length jobs < fuel)%nat →
    (checkCycle J fuel jobs = Ok tt ↔ acyclic_in J jobs) ∧
    (¬ acyclic_in J jobs →
     (∃ e, checkCycle J fuel jobs = Throw e ∧ code e = ASYNC_LOAD_SCHEDULE_FAILED) ∧
     ∀ p s, ∃ e, schedule J fuel jobs p s = Throw e ∧ code e = ASYNC_LOAD_SCHEDULE_FAILED).
  Proof.
    intros Hnames Hfuel. pose proof (checkCycle_finds J jobs Hnames fuel Hfuel) as Hfinds.
    assert (Hthrows : ¬ acyclic_in J jobs →
              ∃ e, checkCycle J fuel jobs = Throw e ∧ code e = ASYNC_LOAD_SCHEDULE_FAILED).
    { intros Hcyc. destruct (checkCycle J fuel jobs) as [[]|e|]; [contradiction|eauto|contradiction]. }
    split; [split|].
    - intros H. rewrite H in Hfinds. exact Hfinds.
    - intros Hac. unfold checkCycle. apply (checkCycle_loop_accepts J jobs Hac); [auto| |].
      + intros x _ Hx. inversion Hx.
      + pose proof (size_list_to_set_le jobs). lia.
    - intros Hcyc. split; [exact (Hthrows Hcyc)|]. intros p s.
      destruct (Hthrows Hcyc) as (e & He & Hcode). unfold schedule.
      destruct (for_each (λ job _, sanity_check J s job) jobs tt) as [[]|e1|] eqn:E1; simpl.
      + rewrite He. simpl. eauto.
      + exists e1. split; [reflexivity|].
        destruct (sanity_checks_thrown J s e1 jobs E1) as (job & _ & Hj).
        exact (proj1 (sanity_check_thrown J s job e1 Hj)).
      + exfalso. exact (sanity_checks_return J s jobs E1).
  Qed.
End ScheduleRejectsCycle.

(** ** The priority a user sees *)

Section PriorityField.
Variable J : LoadJobPtr → LoadJob.
Variable getExceptionMessage : Exception → string.
Hypothesis J_wf : jobs_wf J.

  (** X20: The user-facing [priority] of a pending job is the priority the loader
      schedules it with, in every loader state the operations can reach; it
      is at least the priority of the [schedule] call that accepted the
      job. *)
Theorem priority_field_follows max_threads_ c x i :
    reachable J getExceptionMessage max_threads_ c →
    scheduled_total (log c) < UInt64_modulus →
    scheduled_jobs (loader c) !! x = Some i →
    priority (job_state (loader c) x) = Info.priority i ∧
    (∀ jobs p P, EvScheduled jobs p P ∈ log c → x ∈ jobs →
       p ≤ priority (job_state (loader c) x)).
  Proof.
    intros Hreach Hn Hx.
    pose proof (reachable_prio_sync J getExceptionMessage J_wf _ _ Hreach Hn x i Hx) as E.
    split; [exact E|]. intros jobs p P He Hin. rewrite E.
    exact (c_prio _ _ (reachable_config_ok J getExceptionMessage J_wf _ _ Hreach Hn)
             jobs p P x i He Hin Hx).
  Qed.
End PriorityField.

(** ** What [schedule] leaves alone *)

Section ScheduleFrame.
Variable J : LoadJobPtr → LoadJob.
Variable getExceptionMessage : Exception → string.
Hypothesis J_wf : jobs_wf J.

  (** X21: A successful [schedule] adds the jobs of the set to the pending
      map, each with the priority of the call and status [PENDING], and
      removes none; a job that was pending before keeps its
      [dependencies_left] and its [ready_seqno], and its priority does not
      go down; the status of every job and the finished set stay as they
      were. *)
Theorem schedule_leaves_others_alone max_threads_ c fuel jobs p s' :
    reachable J getExceptionMessage max_threads_ c → NoDup jobs →
    scheduled_total (log c) + Z.of_nat (length jobs) < UInt64_modulus →
    schedule J fuel jobs p (loader c) = Ok s' →
    (∀ y, pending s' y ↔ pending (loader c) y ∨ y ∈ jobs) ∧
    (∀ x, x ∈ jobs →
       ¬ pending (loader c) x ∧
       ∃ i', scheduled_jobs s' !! x = Some i' ∧ Info.priority i' = p ∧
             status (job_state s' x) = PENDING) ∧
    (∀ y i, y ∉ jobs → scheduled_jobs (loader c) !! y = Some i →
       ∃ i', scheduled_jobs s' !! y = Some i' ∧
             Info.ready_seqno i' = Info.ready_seqno i ∧
             Info.dependencies_left i' = Info.dependencies_left i ∧
             Info.priority i ≤ Info.priority i') ∧
    (∀ y, status (job_state s' y) = status (job_state (loader c) y)) ∧
    finished_jobs s' = finished_jobs (loader c).
  Proof.
    intros Hreach Hnd Hn Hrun.
    assert (Hc : config_ok J c).
    { apply (reachable_config_ok J getExceptionMessage J_wf max_threads_ c Hreach).
      pose proof (Nat2Z.is_nonneg (length jobs)). lia. }
    destruct (loader_ok_schedule J J_wf _ fuel jobs p _ s' Hnd (c_loader _ _ Hc) Hn Hrun)
      as [_ [S1 S2 S3 S4 S5 S6 S7 S8]].
    assert (Hst : ∀ y, status (job_state s' y) = status (job_state (loader c) y)).
    { intros y. apply status_fields; apply (S6 y). }
    split; [exact S2|]. split; [|split; [exact S5|split; [exact Hst|exact S7]]].
    intros x Hx. destruct (S1 x Hx) as [Hp Hf]. split; [exact Hp|].
    destruct (S4 x Hx) as (i' & Hi' & _ & Hprio). exists i'.
    split; [exact Hi'|]. split; [exact Hprio|]. rewrite Hst. unfold status. rewrite Hf.
    reflexivity.
  Qed.
End ScheduleFrame.

(** ** Progress *)

Section ProgressFacts.
Variable J : LoadJobPtr → LoadJob.
Variable getExceptionMessage : Exception → string.
Hypothesis J_wf : jobs_wf J.

  (** X22: When no job has an empty name, the jobs of a reachable loader
      cannot block each other: no job waits for itself through the
      back-links, and every pending job is, or waits through back-links
      for, a pending job with [dependencies_left = 0], and that job is in
      the ready queue or a worker is executing it. *)
Theorem pending_job_can_progress max_threads_ c x :
    (∀ y, name (J y) ≠ EmptyString) →
    reachable J getExceptionMessage max_threads_ c →
    scheduled_total (log c) < UInt64_modulus →
    pending (loader c) x →
    (∀ y, ¬ tc (linked (loader c)) y y) ∧
    ∃ y i, scheduled_jobs (loader c) !! y = Some i ∧
           rtc (linked (loader c)) y x ∧
           Info.dependencies_left i = 0 ∧
           ((Info.key i, y) ∈ ready_queue (loader c) ∨ y ∈ executing c).
  Proof.
    intros Hnamed Hreach Hn Hx.
    pose proof (reachable_links_acyclic J getExceptionMessage J_wf Hnamed _ _ Hreach Hn) as Hac.
    pose proof (reachable_idle_ok J getExceptionMessage J_wf _ _ Hreach Hn) as Hidle.
    destruct (c_loader _ _ (reachable_config_ok J getExceptionMessage J_wf _ _ Hreach Hn))
      as (HG & HQ & _).
    split; [exact Hac|].
    destruct (find_ready J (loader c) x HG Hac Hx) as (y & i & Hy & Hd & Hpath).
    exists y, i. split; [exact Hy|]. split; [exact Hpath|]. split; [exact Hd|].
    destruct (decide (Info.ready_seqno i = 0)) as [Hz|Hz].
    - right. exact (Hidle y i Hy Hd Hz).
    - left. apply (q_entries _ _ _ _ HQ). exists i. auto.
  Qed.

  (** X23: [remove] tells the state of a pending job from its entry, and it is
      right: in every reachable loader a pending job with
      [dependencies_left > 0] is neither in the ready queue nor being
      executed; one with [dependencies_left = 0] and a [ready_seqno] is in
      the ready queue and is not being executed; and one with
      [dependencies_left = 0] and no [ready_seqno] is being executed by a
      worker and is not in the ready queue.  No job is executed by two workers
      at once, and every executing job is pending with status [PENDING]. *)
Theorem pending_job_is_waiting_ready_or_executing max_threads_ c :
    reachable J getExceptionMessage max_threads_ c →
    scheduled_total (log c) < UInt64_modulus →
    NoDup (executing c) ∧
    (∀ x, x ∈ executing c →
       pending (loader c) x ∧ status (job_state (loader c) x) = PENDING) ∧
    ∀ x i, scheduled_jobs (loader c) !! x = Some i →
      0 ≤ Info.dependencies_left i ∧
      (0 < Info.dependencies_left i →
         Info.ready_seqno i = 0 ∧ x ∉ executing c ∧ ∀ k, (k, x) ∉ ready_queue (loader c)) ∧
      (Info.dependencies_left i = 0 → Info.ready_seqno i ≠ 0 →
         (Info.key i, x) ∈ ready_queue (loader c) ∧ x ∉ executing c) ∧
      (Info.dependencies_left i = 0 → Info.ready_seqno i = 0 →
         x ∈ executing c ∧ ∀ k, (k, x) ∉ ready_queue (loader c)).
  Proof.
    intros Hreach Hn.
    destruct (reachable_run_ok J getExceptionMessage J_wf _ _ Hreach Hn) as [HC HR].
    pose proof (reachable_idle_ok J getExceptionMessage J_wf _ _ Hreach Hn) as Hidle.
    destruct (c_loader _ _ HC) as (HG & HQ & _).
    split; [exact (c_nodup _ _ HC)|]. split.
    - intros x Hx. destruct (c_exec _ _ HC x Hx) as (i & Hi & _).
      assert (Hp : pending (loader c) x) by (exists i; exact Hi).
      split; [exact Hp|]. unfold status. rewrite (r_pending _ HR x Hp). reflexivity.
    - intros x i Hi.
      assert (Hq : ∀ k, (k, x) ∈ ready_queue (loader c) → Info.ready_seqno i ≠ 0).
      { intros k Hk. apply (q_entries _ _ _ _ HQ) in Hk as (i2 & Hi2 & Hnz & _).
        assert (i2 = i) by congruence. subst. exact Hnz. }
      assert (Hex : x ∈ executing c → Info.dependencies_left i = 0 ∧ Info.ready_seqno i = 0).
      { intros Hx. destruct (c_exec _ _ HC x Hx) as (i2 & Hi2 & Hd & Hz).
        assert (i2 = i) by congruence. subst. auto. }
      pose proof (g_count _ _ HG _ _ Hi) as Hc.
      pose proof (registered_count_bound J J_wf (loader c) x) as Hb.
      split; [lia|]. split; [|split].
      + intros Hpos.
        assert (Hz : Info.ready_seqno i = 0).
        { destruct (decide (Info.ready_seqno i = 0)) as [E|E]; [exact E|].
          pose proof (q_ready _ _ _ _ HQ _ _ Hi E). lia. }
        split; [exact Hz|]. split.
        * intros Hx. destruct (Hex Hx). lia.
        * intros k Hk. exact (Hq k Hk Hz).
      + intros Hd Hnz. split.
        * apply (q_entries _ _ _ _ HQ). exists i. auto.
        * intros Hx. destruct (Hex Hx). contradiction.
      + intros Hd Hz. split; [exact (Hidle x i Hi Hd Hz)|].
        intros k Hk. exact (Hq k Hk Hz).
  Qed.
End ProgressFacts.

(** ** Jobs that have started *)

Section StartedFacts.
Variable J : LoadJobPtr → LoadJob.
Variable getExceptionMessage : Exception → string.
Hypothesis J_wf : jobs_wf J.

  (** X24: A job does not run after a prerequisite has failed or was
      canceled: once the body of a job has started, every declared
      prerequisite that was pending when the job was scheduled, or was
      scheduled in the same call, has status [SUCCESS], now and in every
      later state; its body has not thrown, and [wait] on it returns. *)
Theorem started_job_has_successful_prerequisites max_threads_ c l1 l2 j jobs p P d :
    reachable J getExceptionMessage max_threads_ c →
    scheduled_total (log c) < UInt64_modulus →
    log c = l1 ++ EvStarted j :: l2 →
    EvScheduled jobs p P ∈ l1 → j ∈ jobs →
    d ∈ dependencies (J j) → d ∈ P ∨ d ∈ jobs →
    status (job_state (loader c) d) = SUCCESS ∧
    wait (job_state (loader c) d) = Returned ∧
    EvThrew d ∉ log c ∧ ¬ pending (loader c) d.
  Proof.
    intros Hreach Hn Hlog He Hj Hd HP.
    destruct (reachable_run_ok J getExceptionMessage J_wf _ _ Hreach Hn) as [HC HR].
    pose proof (c_order _ _ HC l1 l2 j Hlog jobs p P d He Hj Hd HP) as Hret.
    assert (Hin : EvReturned d ∈ log c).
    { rewrite Hlog. apply elem_of_app. left. exact Hret. }
    pose proof (r_returned _ HR d Hin) as Hs.
    assert (Hfin : is_finished (job_state (loader c) d) = true ∧
                   exception (job_state (loader c) d) = None).
    { unfold status in Hs. destruct (is_finished (job_state (loader c) d)); [|discriminate].
      destruct (exception (job_state (loader c) d)); [discriminate|auto]. }
    destruct Hfin as [Hf Hx].
    split; [exact Hs|]. split; [unfold wait; rewrite Hf, Hx; reflexivity|]. split.
    - intros Ht. destruct (r_threw _ HR d Ht) as (e & He' & _). congruence.
    - intros Hp. rewrite (r_pending _ HR d Hp) in Hf. discriminate.
  Qed.
End StartedFacts.
(** ** Jobs that [remove] does not concern *)

Section RemoveFrameFacts.
Variable J : LoadJobPtr → LoadJob.
Variable getExceptionMessage : Exception → string.
Hypothesis J_wf : jobs_wf J.

  (** X25: What [remove] does under the lock, until it returns or gives up
      the lock to wait for an executing job, concerns the jobs of its set that
      it has gone through and the jobs that wait for them through back-links,
      and no others: any other job keeps its status and its exception, and if
      it was pending it is still pending with the same priority,
      [dependencies_left] and [ready_seqno]; no job has become pending. *)
Theorem remove_leaves_unrelated_jobs_alone max_threads_ c fuel jobs next s' done y :
    reachable J getExceptionMessage max_threads_ c →
    scheduled_total (log c) < UInt64_modulus →
    remove J getExceptionMessage fuel jobs (loader c) = Ok (next, s') →
    jobs = done ++ left_over next →
    (∀ r, r ∈ done → ¬ rtc (linked (loader c)) r y) →
    job_state s' y = job_state (loader c) y ∧
    (pending s' y ↔ pending (loader c) y) ∧
    (∀ i, scheduled_jobs (loader c) !! y = Some i →
       ∃ i', scheduled_jobs s' !! y = Some i' ∧
             Info.priority i' = Info.priority i ∧
             Info.dependencies_left i' = Info.dependencies_left i ∧
             Info.ready_seqno i' = Info.ready_seqno i) ∧
    (∀ x, pending s' x → pending (loader c) x).
  Proof.
    intros Hreach Hn Hrun Hsplit Hy.
    pose proof (c_loader _ _ (reachable_config_ok J getExceptionMessage J_wf _ _ Hreach Hn)) as Hok.
    assert (Hdone : remove J getExceptionMessage fuel done (loader c) = Ok (RemoveReturns, s')).
    { destruct next as [|job rest]; simpl in Hsplit.
      - rewrite app_nil_r in Hsplit. subst done. exact Hrun.
      - destruct (remove_waits_split J getExceptionMessage J_wf _ _ _ _ _ _ _ Hok Hrun)
          as (done' & E & _ & _ & Hd).
        rewrite Hsplit in E. apply app_inj_2 in E as [-> _]; [exact Hd|reflexivity]. }
    destruct (untouched_remove J getExceptionMessage _ _ _ y _ _ _ Hok Hdone Hy)
      as (U1 & U2 & U3).
    split; [exact U1|]. split; [|split; [exact U3|]].
    - split; [exact U2|]. intros [i Hi]. destruct (U3 i Hi) as (i' & Hi' & _). exists i'. exact Hi'.
    - exact (cs_old _ _ _ _ (calm_remove J getExceptionMessage _ _ _ _ _ _ Hok Hrun)).
  Qed.
End RemoveFrameFacts.
(** ** Removing a job that is being executed *)

Section RemoveExecuting.
Variable J : LoadJobPtr → LoadJob.
Variable getExceptionMessage : Exception → string.
Hypothesis J_wf : jobs_wf J.

Local Abbreviation step' := (step J getExceptionMessage).

  (** X26: [remove] does not cancel a job that a worker is executing: it
      gives up the lock, with the loader as it found it, and waits for the
      job.  The wait can end: the worker that executes the job can take its
      step.  Whatever the other threads do while [remove] waits, once
      [waitNoThrow] has returned the job is not pending and has ended the way
      its body did, [SUCCESS] if the body returned and [FAILED] with an
      [ASYNC_LOAD_FAILED] exception if it threw, never canceled; [remove]
      then takes the lock and goes on, to its return or to the next wait,
      and from then the loader knows nothing of the job any more. *)
Theorem remove_waits_for_executing_job max_threads_ c fuel job rest :
    reachable J getExceptionMessage max_threads_ c →
    scheduled_total (log c) < UInt64_modulus →
    job ∈ executing c →
    remove J getExceptionMessage fuel (job :: rest) (loader c) =
      Ok (RemoveWaits job rest, loader c) ∧
    (∃ c2, step' c c2 ∧ waitNoThrow (job_state (loader c2) job) = Returned) ∧
    ∀ c2, rtc step' c c2 → scheduled_total (log c2) < UInt64_modulus →
      waitNoThrow (job_state (loader c2) job) = Returned →
      ¬ pending (loader c2) job ∧
      ((EvReturned job ∈ log c2 ∧ status (job_state (loader c2) job) = SUCCESS ∧
        wait (job_state (loader c2) job) = Returned) ∨
       (EvThrew job ∈ log c2 ∧ status (job_state (loader c2) job) = FAILED ∧
        ∃ e, wait (job_state (loader c2) job) = Raised e ∧ code e = ASYNC_LOAD_FAILED)) ∧
      (∃ next s2, remove_resumed J getExceptionMessage (failed_fuel (loader c2)) job rest
                    (loader c2) = Ok (next, s2)) ∧
      ∀ fuel' next s2,
        remove_resumed J getExceptionMessage fuel' job rest (loader c2) = Ok (next, s2) →
        unknown s2 job.
  Proof.
    intros Hreach Hn Hex.
    destruct (reachable_run_ok J getExceptionMessage J_wf _ _ Hreach Hn) as [HC HR].
    pose proof (c_loader _ _ HC) as Hok. pose proof Hok as (HG & HQ & _).
    destruct (c_exec _ _ HC job Hex) as (info & Hj & Hd & Hz).
    assert (Hp : pending (loader c) job) by (exists info; exact Hj).
    assert (Hfin : job ∉ finished_jobs (loader c)).
    { intros Hf. exact (g_disjoint _ _ HG job Hf Hp). }
    split; [|split].
    - simpl. rewrite (remove_job_executing J getExceptionMessage fuel job (loader c)); [reflexivity|].
      split; [exact Hfin|]. exists info. auto.
    - destruct c as [s ex lg]. simpl in *.
      destruct (take_next (loaded job s)) as [next s'] eqn:Htake.
      eexists. split.
      + apply (step_worker J getExceptionMessage 0 (Some (job, None)) next s s' ex lg).
        * intros x Hx. apply list_elem_of_singleton in Hx as ->. exact Hex.
        * unfold worker_iteration. simpl. rewrite Htake. reflexivity.
      + simpl. destruct (take_next_frame _ _ _ Htake) as (Hheap & _).
        unfold waitNoThrow, job_state. rewrite Hheap. fold (job_state (loaded job s) job).
        rewrite (job_state_loaded J J_wf _ job info s job HG HQ Hj Hd Hz).
        rewrite decide_True by reflexivity. reflexivity.
    - intros c2 Hrun Hn2 Hw.
      pose proof (reachable_rtc J getExceptionMessage _ _ _ Hreach Hrun) as Hreach2.
      destruct (reachable_run_ok J getExceptionMessage J_wf _ _ Hreach2 Hn2) as [HC2 HR2].
      assert (Hf : is_finished (job_state (loader c2) job) = true).
      { unfold waitNoThrow in Hw. destruct (is_finished (job_state (loader c2) job));
          [reflexivity|discriminate]. }
      assert (Hnp : ¬ pending (loader c2) job).
      { intros Hp2. rewrite (r_pending _ HR2 job Hp2) in Hf. discriminate. }
      split; [exact Hnp|]. split.
      + assert (Hst : job ∈ started (log c2)).
        { destruct (rtc_step_log J getExceptionMessage _ _ Hrun) as [l ->].
          rewrite started_app. apply elem_of_app. left. exact (r_exec _ HR job Hex). }
        destruct (reachable_outcome_ok J getExceptionMessage _ _ Hreach2 job Hst) as [H|[H|H]].
        * exfalso. apply Hnp. destruct (c_exec _ _ HC2 job H) as (i & Hi & _). exists i. exact Hi.
        * left. split; [exact H|]. pose proof (r_returned _ HR2 job H) as Hs.
          split; [exact Hs|]. unfold status in Hs. unfold wait. rewrite Hf in *. simpl in Hs.
          destruct (exception (job_state (loader c2) job)); [discriminate|reflexivity].
        * right. split; [exact H|]. destruct (r_threw _ HR2 job H) as (e & He & Hc & _).
          split; [unfold status; rewrite Hf, He; reflexivity|].
          exists e. split; [unfold wait; rewrite Hf, He; reflexivity|exact Hc].
      + pose proof (c_loader _ _ HC2) as Hok2.
        assert (Hok3 : loader_ok J (scheduled_total (log c2))
                         (set_finished (finished_jobs (loader c2) ∖ {[job]}) (loader c2))).
        { apply loader_ok_set_finished; [|exact Hok2].
          intros x Hx. apply elem_of_difference in Hx. tauto. }
        split.
        { unfold remove_resumed.
          eapply (remove_enough J getExceptionMessage); [exact Hok3|].
          unfold failed_fuel. simpl. lia. }
        intros fuel' next s2 Hres. unfold remove_resumed in Hres.
        destruct (remove_effect J getExceptionMessage J_wf _ _ _ _ _ _ Hok3 Hres) as (_ & Hkeep & _).
        apply Hkeep. apply set_finished_unknown. exact Hnp.
  Qed.
End RemoveExecuting.
(** ** Cancelling the jobs of a set *)

Section CancelSet.
Variable J : LoadJobPtr → LoadJob.
Variable getExceptionMessage : Exception → string.
Hypothesis J_wf : jobs_wf J.

Local Abbreviation step' := (step J getExceptionMessage).
Local Abbreviation remove' := (remove J getExceptionMessage).
Local Abbreviation reachable' := (reachable J getExceptionMessage).

Lemma tc_registered_dependent s a d :
    graph_ok J s → tc (linked s) a d → registered_dependent s a d.
  Proof.
    intros HG. apply (tc_ind_r (R := linked s) (registered_dependent s a)).
    - intros z (i & Hi & Hin). eapply registered_direct; eauto.
      apply (g_links _ _ HG a z). exists i. auto.
    - intros y z _ (i & Hi & Hin) IH. eapply registered_next; eauto.
      apply (g_links _ _ HG y z). exists i. auto.
  Qed.

  (** A job that one job of [remove] takes out of the pending map is that
      job or one that back-links lead to from it. *)
Lemma remove_job_gone fuel a s t x :
    remove_job J getExceptionMessage fuel a s = Ok (Removed t) →
    pending s x → ¬ pending t x → rtc (linked s) a x.
  Proof.
    intros Hrun Hx Hgone.
    destruct (decide (a ∈ finished_jobs s)) as [Hfin|Hfin].
    { unfold remove_job in Hrun. rewrite decide_True in Hrun by exact Hfin.
      injection Hrun as <-. contradiction. }
    destruct (scheduled_jobs s !! a) as [info|] eqn:Hj.
    2: { unfold remove_job in Hrun. rewrite decide_False, Hj in Hrun by exact Hfin.
         injection Hrun as <-. contradiction. }
    destruct (remove_job_pending J getExceptionMessage _ _ _ _ _ Hfin Hj Hrun)
      as (t' & -> & [[Hd Ht]|(Hd & Hz & Ht)]).
    - destruct (failed_step J getExceptionMessage _ _ _ _ _ Ht) as (HS & _).
      destruct (fs_gone _ _ _ _ _ HS x Hx Hgone) as (_ & _ & r & -> & Hr). exact Hr.
    - destruct (failed_step J getExceptionMessage _ _ _ _ _ Ht) as (HS & _).
      rewrite (unqueue_eq _ _ _ Hj) in HS.
      destruct (fs_gone _ _ _ _ _ HS x) as (_ & _ & r & -> & Hr).
      + destruct Hx as [i Hi]. unfold pending. simpl.
        destruct (decide (x = a)) as [->|Hne]; [rewrite lookup_insert_eq; eauto|].
        rewrite lookup_insert_ne by congruence. eauto.
      + exact Hgone.
      + revert Hr. apply rtc_sub. intros u v (i & Hi & Hin). simpl in Hi.
        destruct (decide (u = a)) as [->|Hne].
        * rewrite lookup_insert_eq in Hi. injection Hi as <-. exists info. auto.
        * rewrite lookup_insert_ne in Hi by congruence. exists i. auto.
  Qed.

  (** One job of [remove] keeps the chains of back-links that lead to a job
      it does not reach. *)
Lemma remove_job_keeps_rtc n fuel a s t x z :
    loader_ok J n s → remove_job J getExceptionMessage fuel a s = Ok (Removed t) →
    ¬ rtc (linked s) a x → rtc (linked s) z x → rtc (linked t) z x.
  Proof.
    intros Hok Hrun Hnr Hpath. pose proof Hok as (HG & _).
    pose proof (calm_remove_job J getExceptionMessage n fuel a s t Hok Hrun) as Hcalm.
    induction Hpath as [|z y x Hzy Hyx IH]; [apply rtc_refl|].
    eapply rtc_l; [|apply IH; exact Hnr].
    assert (Hny : ¬ rtc (linked s) a y).
    { intros H. apply Hnr. eapply rtc_trans; eauto. }
    destruct (untouched_remove_job J getExceptionMessage n fuel a s t y Hok Hrun Hny)
      as (_ & _ & U3).
    destruct (g_links _ _ HG z y Hzy) as [[iy Hiy] _].
    destruct (U3 iy Hiy) as (iy' & Hiy' & _).
    destruct (cs_links _ _ _ _ Hcalm z y) as [H|[]]; [exists iy'; exact Hiy'|exact Hzy|exact H].
  Qed.

Lemma remove_job_keeps_tc n fuel a s t x z :
    loader_ok J n s → remove_job J getExceptionMessage fuel a s = Ok (Removed t) →
    ¬ rtc (linked s) a x → tc (linked s) z x → tc (linked t) z x.
  Proof.
    intros Hok Hrun Hnr Hpath. pose proof Hok as (HG & _).
    pose proof (calm_remove_job J getExceptionMessage n fuel a s t Hok Hrun) as Hcalm.
    apply tc_first in Hpath as (y & Hzy & Hyx).
    eapply tc_rtc_r; [apply tc_once|exact (remove_job_keeps_rtc n fuel a s t x y Hok Hrun Hnr Hyx)].
    assert (Hny : ¬ rtc (linked s) a y).
    { intros H. apply Hnr. eapply rtc_trans; eauto. }
    destruct (untouched_remove_job J getExceptionMessage n fuel a s t y Hok Hrun Hny)
      as (_ & _ & U3).
    destruct (g_links _ _ HG z y Hzy) as [[iy Hiy] _].
    destruct (U3 iy Hiy) as (iy' & Hiy' & _).
    destruct (cs_links _ _ _ _ Hcalm z y) as [H|[]]; [exists iy'; exact Hiy'|exact Hzy|exact H].
  Qed.

Lemma NoDup_head_split {A} (a x : A) rest l1 l2 :
    NoDup (a :: rest) → a :: rest = l1 ++ x :: l2 →
    (x = a ∧ l1 = [] ∧ rest = l2) ∨ (x ≠ a ∧ ∃ l1', l1 = a :: l1' ∧ rest = l1' ++ x :: l2).
  Proof.
    intros Hnd E. destruct l1 as [|b l1']; simpl in E.
    - injection E as -> ->. left. auto.
    - injection E as -> ->. right. split; [|eauto].
      intros ->. apply NoDup_cons in Hnd as [Hnot _]. apply Hnot.
      apply elem_of_app. right. left.
  Qed.

  (** What a stretch of [remove] that goes through the jobs of [done] leaves
      of a pending job that it reaches. *)
Lemma cancel_set max_threads_ fuel ex lg done : ∀ s s',
    reachable' max_threads_ (mkConfig s ex lg) → scheduled_total lg < UInt64_modulus →
    links_acyclic s → NoDup done →
    remove' fuel done s = Ok (RemoveReturns, s') →
    ∀ x, pending s x → (∃ a, a ∈ done ∧ rtc (linked s) a x) →
      is_finished (job_state s' x) = true ∧
      ∃ e, exception (job_state s' x) = Some e ∧
        (∀ l1 l2, done = l1 ++ x :: l2 → (∀ a, a ∈ l1 → ¬ tc (linked s) a x) →
           e = load_canceled J x) ∧
        ((x ∉ done ∨ ∃ l1 l2 a, done = l1 ++ x :: l2 ∧ a ∈ l1 ∧ tc (linked s) a x) →
           code e = ASYNC_LOAD_DEPENDENCY_FAILED).
  Proof.
    induction done as [|a rest IH]; intros s s' Hreach Hn Hacyc Hnd Hrun x Hx (a0 & Ha0 & Hpath).
    { inversion Ha0. }
    simpl in Hrun. apply bind_Ok in Hrun as (r & Ha & Hrest). destruct r as [t|]; [|discriminate].
    destruct (reachable_run_ok J getExceptionMessage J_wf _ _ Hreach Hn) as [HC HR].
    pose proof (c_loader _ _ HC) as Hok. simpl in Hok. pose proof Hok as (HG & _).
    assert (Hreach_t : reachable' max_threads_ (mkConfig t ex lg)).
    { eapply reachable_step; [exact Hreach|]. apply (step_remove J getExceptionMessage fuel a). exact Ha. }
    destruct (reachable_run_ok J getExceptionMessage J_wf _ _ Hreach_t Hn) as [HCt HRt].
    assert (Hcancel : ∀ info, scheduled_jobs s !! a = Some info →
              exception (job_state t a) = Some (load_canceled J a) ∧
              is_finished (job_state t a) = true ∧
              ∀ d, tc (linked s) a d →
                is_finished (job_state t d) = true ∧
                ∃ e', exception (job_state t d) = Some e' ∧
                      code e' = ASYNC_LOAD_DEPENDENCY_FAILED).
    { intros info Hj.
      assert (Hfin : a ∉ finished_jobs s).
      { intros Hf. apply (g_disjoint _ _ HG a Hf). exists info. exact Hj. }
      destruct (remove_job_cancels J getExceptionMessage fuel a info s t Hj Hfin (Hacyc a) Ha)
        as (Hst & Hexc & _ & Hdeps).
      split; [exact Hexc|]. split.
      { unfold status in Hst. destruct (is_finished (job_state t a)); [reflexivity|discriminate]. }
      intros d Hd. destruct (Hdeps d (tc_registered_dependent s a d HG Hd)) as (Hsd & He' & _).
      split; [|exact He'].
      unfold status in Hsd. destruct (is_finished (job_state t d)); [reflexivity|discriminate]. }
    assert (Hstable : ∀ y, is_finished (job_state t y) = true →
              is_finished (job_state s' y) = true ∧
              exception (job_state s' y) = exception (job_state t y)).
    { intros y Hy.
      apply (settled_rtc J getExceptionMessage J_wf max_threads_ (mkConfig t ex lg)
               (mkConfig s' ex lg) y Hreach_t); [|exact Hn|exact Hy].
      exact (remove_run J getExceptionMessage fuel rest (mkConfig t ex lg) _ _ Hrest). }
    destruct (decide (pending t x)) as [Hpt|Hgone].
    - (* [x] is left alone by the first job *)
      assert (Hnr : ¬ rtc (linked s) a x).
      { intros Hr. apply rtc_inv in Hr as [->|(y & Hay & Hyx)].
        - destruct (remove_job_effect J getExceptionMessage _ fuel x s t Hok Ha) as ([Hnp _] & _).
          contradiction.
        - pose proof Hay as (info & Hj & _).
          destruct (Hcancel info Hj) as (_ & _ & Hdeps).
          destruct (Hdeps x) as (Hf & _); [eapply tc_rtc_r; [apply tc_once; exact Hay|exact Hyx]|].
          pose proof (r_pending _ HRt x Hpt) as Hnf. simpl in Hnf. congruence. }
      assert (Hne : a0 ≠ a) by (intros ->; contradiction).
      apply elem_of_cons in Ha0 as [Ha0|Ha0]; [contradiction|].
      apply NoDup_cons in Hnd as Hnd'. destruct Hnd' as [Hnot Hnd'].
      destruct (IH t s' Hreach_t Hn
                  (origin_step_acyclic _ _ _ (origin_remove_job J getExceptionMessage _ _ _ _ _ Hok Ha) Hacyc)
                  Hnd' Hrest x Hpt)
        as (Hf & e & He & Hc1 & Hc2).
      { exists a0. split; [exact Ha0|].
        exact (remove_job_keeps_rtc _ fuel a s t x a0 Hok Ha Hnr Hpath). }
      split; [exact Hf|]. exists e. split; [exact He|]. split.
      + intros l1 l2 E Hno.
        destruct (NoDup_head_split a x rest l1 l2 Hnd E) as [(-> & _)|(Hxa & l1' & -> & E')].
        { exfalso. apply Hnr, rtc_refl. }
        apply (Hc1 l1' l2 E'). intros a' Ha' Htc. apply (Hno a'); [right; exact Ha'|].
        revert Htc. apply tc_sub. intros u v.
        apply (origin_step_linked _ _ _ _ _ (origin_remove_job J getExceptionMessage _ _ _ _ _ Hok Ha)).
      + intros [Hout|(l1 & l2 & a' & E & Ha' & Htc)]; apply Hc2.
        * left. intros Hin. apply Hout. right. exact Hin.
        * destruct (NoDup_head_split a x rest l1 l2 Hnd E) as [(-> & _)|(Hxa & l1' & -> & E')].
          { exfalso. apply Hnr, rtc_refl. }
          right. exists l1', l2, a'. split; [exact E'|].
          apply elem_of_cons in Ha' as [->|Ha'].
          { exfalso. apply Hnr, tc_rtc, Htc. }
          split; [exact Ha'|].
          exact (remove_job_keeps_tc _ fuel a s t x a' Hok Ha Hnr Htc).
    - (* the first job takes [x] along *)
      pose proof (remove_job_gone fuel a s t x Ha Hx Hgone) as Hr.
      destruct (decide (x = a)) as [->|Hxa].
      + destruct Hx as [info Hj]. destruct (Hcancel info Hj) as (Hexc & Hf & _).
        destruct (Hstable a Hf) as [Hf' He'].
        split; [exact Hf'|]. exists (load_canceled J a). split; [congruence|]. split; [auto|].
        intros [Hout|(l1 & l2 & a' & E & Ha' & Htc)].
        * exfalso. apply Hout. left.
        * destruct (NoDup_head_split a a rest l1 l2 Hnd E) as [(_ & -> & _)|(Hxa & _)];
            [inversion Ha'|contradiction].
      + assert (Htc : tc (linked s) a x).
        { apply rtc_inv in Hr as [->|(y & Hay & Hyx)]; [contradiction|].
          eapply tc_rtc_r; [apply tc_once; exact Hay|exact Hyx]. }
        pose proof Htc as Htc'. apply tc_first in Htc' as (y & (info & Hj & _) & _).
        destruct (Hcancel info Hj) as (_ & _ & Hdeps).
        destruct (Hdeps x Htc) as (Hf & e' & He' & Hcode).
        destruct (Hstable x Hf) as [Hf' Hes].
        split; [exact Hf'|]. exists e'. split; [congruence|]. split; [|auto].
        intros l1 l2 E Hno. exfalso.
        destruct (NoDup_head_split a x rest l1 l2 Hnd E) as [(-> & _)|(_ & l1' & -> & _)];
          [contradiction|].
        apply (Hno a); [left|exact Htc].
  Qed.

  (** The same for a stretch that ends in a wait: [done] is what the loop
      has gone through. *)
Lemma cancel_stretch max_threads_ c jobs fuel next s' done x :
    reachable' max_threads_ c → scheduled_total (log c) < UInt64_modulus →
    links_acyclic (loader c) → NoDup jobs →
    remove' fuel jobs (loader c) = Ok (next, s') →
    jobs = done ++ left_over next →
    pending (loader c) x → (∃ a, a ∈ done ∧ rtc (linked (loader c)) a x) →
    ∃ e,
      (∀ c2, rtc step' (mkConfig s' (executing c) (log c)) c2 →
             scheduled_total (log c2) < UInt64_modulus →
             status (job_state (loader c2) x) = FAILED ∧
             exception (job_state (loader c2) x) = Some e ∧
             waitNoThrow (job_state (loader c2) x) = Returned) ∧
      (∀ l1 l2, done = l1 ++ x :: l2 →
         (∀ a, a ∈ l1 → ¬ tc (linked (loader c)) a x) → e = load_canceled J x) ∧
      ((x ∉ done ∨ ∃ l1 l2 a, done = l1 ++ x :: l2 ∧ a ∈ l1 ∧ tc (linked (loader c)) a x) →
         code e = ASYNC_LOAD_DEPENDENCY_FAILED).
  Proof.
    intros Hreach Hn Hacyc Hnd Hrun Hsplit Hx Hreachx.
    pose proof (c_loader _ _ (reachable_config_ok J getExceptionMessage J_wf _ _ Hreach Hn)) as Hok.
    assert (Hdone : remove' fuel done (loader c) = Ok (RemoveReturns, s')).
    { destruct next as [|job rest]; simpl in Hsplit.
      - rewrite app_nil_r in Hsplit. subst done. exact Hrun.
      - destruct (remove_waits_split J getExceptionMessage J_wf _ _ _ _ _ _ _ Hok Hrun)
          as (done' & E & _ & _ & Hd).
        rewrite Hsplit in E. apply app_inj_2 in E as [-> _]; [exact Hd|reflexivity]. }
    assert (Hndd : NoDup done).
    { rewrite Hsplit in Hnd. apply NoDup_app in Hnd. tauto. }
    destruct c as [s ex lg]. simpl in *.
    destruct (cancel_set max_threads_ fuel ex lg done s s' Hreach Hn Hacyc Hndd Hdone x Hx Hreachx)
      as (Hf & e & He & Hc1 & Hc2).
    exists e. split; [|split; [exact Hc1|exact Hc2]].
    intros c2 Hrun2 Hn2.
    assert (Hreach' : reachable' max_threads_ (mkConfig s' ex lg)).
    { eapply reachable_rtc; [exact Hreach|].
      exact (remove_run J getExceptionMessage fuel done (mkConfig s ex lg) _ _ Hdone). }
    destruct (settled_rtc J getExceptionMessage J_wf max_threads_ _ c2 x Hreach' Hrun2 Hn2 Hf)
      as [Hf2 He2].
    simpl in He2. rewrite He in He2.
    unfold status, waitNoThrow. rewrite Hf2, He2. auto.
  Qed.

  (** C6, amended: [remove] of a set of jobs, in each stretch that it runs
      under the lock: from the call to its return or, where a job of the set
      is executing, to the wait for that job, and again from where it goes on
      after a wait.  (With no job of the set executing, the first stretch is
      the whole call.)  A job that is pending when the stretch begins and
      that the loop goes through in it, or that back-links lead to from such
      a job, is left [FAILED], and [waitNoThrow] on it returns from then on.
      Its exception is the [ASYNC_LOAD_CANCELED] one when the job is in the
      set and the iteration comes to it before it comes to any job that
      back-links lead from to it; otherwise, when it is not in the set or
      the iteration comes to such a job first, it is an
      [ASYNC_LOAD_DEPENDENCY_FAILED] one.  (The loader is reachable, with
      fewer than [2^64] jobs scheduled, and no chain of back-links leads from
      a job to itself when the stretch begins.) *)
Theorem remove_cancels_pending_jobs max_threads_ c jobs :
    reachable' max_threads_ c → scheduled_total (log c) < UInt64_modulus →
    links_acyclic (loader c) → NoDup jobs →
    (∃ next s', remove' (failed_fuel (loader c)) jobs (loader c) = Ok (next, s')) ∧
    (∀ fuel next s', remove' fuel jobs (loader c) = Ok (next, s') →
      ((∀ x, x ∈ jobs → ¬ is_executing (loader c) x) → next = RemoveReturns) ∧
      ∀ done x, jobs = done ++ left_over next →
        pending (loader c) x → (∃ a, a ∈ done ∧ rtc (linked (loader c)) a x) →
        ∃ e,
          (∀ c2, rtc step' (mkConfig s' (executing c) (log c)) c2 →
                 scheduled_total (log c2) < UInt64_modulus →
                 status (job_state (loader c2) x) = FAILED ∧
                 exception (job_state (loader c2) x) = Some e ∧
                 waitNoThrow (job_state (loader c2) x) = Returned) ∧
          (∀ l1 l2, done = l1 ++ x :: l2 →
             (∀ a, a ∈ l1 → ¬ tc (linked (loader c)) a x) → e = load_canceled J x) ∧
          ((x ∉ done ∨ ∃ l1 l2 a, done = l1 ++ x :: l2 ∧ a ∈ l1 ∧ tc (linked (loader c)) a x) →
             code e = ASYNC_LOAD_DEPENDENCY_FAILED)) ∧
    (∀ c2 fuel job rest next s2,
      rtc step' c c2 → scheduled_total (log c2) < UInt64_modulus →
      links_acyclic (loader c2) → NoDup rest →
      waitNoThrow (job_state (loader c2) job) = Returned →
      remove_resumed J getExceptionMessage fuel job rest (loader c2) = Ok (next, s2) →
      ∀ done x, rest = done ++ left_over next →
        pending (loader c2) x → (∃ a, a ∈ done ∧ rtc (linked (loader c2)) a x) →
        ∃ e,
          (∀ c3, rtc step' (mkConfig s2 (executing c2) (log c2)) c3 →
                 scheduled_total (log c3) < UInt64_modulus →
                 status (job_state (loader c3) x) = FAILED ∧
                 exception (job_state (loader c3) x) = Some e ∧
                 waitNoThrow (job_state (loader c3) x) = Returned) ∧
          (∀ l1 l2, done = l1 ++ x :: l2 →
             (∀ a, a ∈ l1 → ¬ tc (linked (loader c2)) a x) → e = load_canceled J x) ∧
          ((x ∉ done ∨ ∃ l1 l2 a, done = l1 ++ x :: l2 ∧ a ∈ l1 ∧ tc (linked (loader c2)) a x) →
             code e = ASYNC_LOAD_DEPENDENCY_FAILED)).
  Proof.
    intros Hreach Hn Hacyc Hnd.
    pose proof (c_loader _ _ (reachable_config_ok J getExceptionMessage J_wf _ _ Hreach Hn)) as Hok.
    split; [|split].
    - eapply remove_enough; [exact Hok|]. unfold failed_fuel. lia.
    - intros fuel next s' Hrun. split.
      + intros Hidle. exact (remove_idle J getExceptionMessage J_wf _ _ _ _ _ _ Hok Hidle Hrun).
      + intros done x Hsplit Hx Hreachx.
        exact (cancel_stretch max_threads_ c jobs fuel next s' done x Hreach Hn Hacyc Hnd Hrun
                 Hsplit Hx Hreachx).
    - intros c2 fuel job rest next s2 Hrun2 Hn2 Hacyc2 Hnd2 Hw Hres done x Hsplit Hx Hreachx.
      pose proof (reachable_rtc J getExceptionMessage _ _ _ Hreach Hrun2) as Hreach2.
      destruct (reachable_run_ok J getExceptionMessage J_wf _ _ Hreach2 Hn2) as [_ HR2].
      assert (Hp : ¬ pending (loader c2) job).
      { intros Hp. pose proof (r_pending _ HR2 job Hp) as Hf.
        unfold waitNoThrow in Hw. rewrite Hf in Hw. discriminate. }
      pose proof (erase_run J getExceptionMessage job c2 Hp) as Herase.
      pose proof (reachable_rtc J getExceptionMessage _ _ _ Hreach2 Herase) as Hreach3.
      exact (cancel_stretch max_threads_ _ rest fuel next s2 done x Hreach3 Hn2 Hacyc2 Hnd2 Hres
               Hsplit Hx Hreachx).
  Qed.
End CancelSet.
(** ** Jobs that the loader has forgotten *)

Section Forgotten.
Variable J : LoadJobPtr → LoadJob.
Variable getExceptionMessage : Exception → string.
Hypothesis J_wf : jobs_wf J.

Local Abbreviation step' := (step J getExceptionMessage).
Local Abbreviation reachable' := (reachable J getExceptionMessage).

  (** A job enters the finished set from the pending map. *)
Lemma step_finished c c' :
    config_ok J c → step' c c' → scheduled_total (log c') < UInt64_modulus →
    ∀ y, y ∈ finished_jobs (loader c') → y ∈ finished_jobs (loader c) ∨ pending (loader c) y.
  Proof.
    intros HC Hstep Hn. pose proof (c_loader _ _ HC) as Hok. destruct Hstep as
      [fuel jobs p s s' ex lg Hnd Hrun|fuel job p s s' ex lg Hrun
      |fuel job s s' ex lg Hrun|s ex lg|s ex lg
      |fuel executed next s s' ex lg Hsub Hrun]; simpl in *; intros y Hy.
    - rewrite scheduled_total_app in Hn. simpl in Hn.
      destruct (loader_ok_schedule J J_wf _ fuel jobs p s s' Hnd Hok) as [_ HS]; [lia|exact Hrun|].
      rewrite (ss_finished _ _ _ _ _ HS) in Hy. auto.
    - destruct (prioritize_spec J _ _ _ _ _ Hrun) as [HS _].
      rewrite (ps_finished _ _ _ _ HS) in Hy. auto.
    - exact (proj2 (proj2 (remove_job_effect J getExceptionMessage _ _ _ _ _ Hok Hrun)) y Hy).
    - left. unfold start in Hy.
      destruct (start_loop_frame (length (ready_queue (set_running true s))) 0
                  (set_running true s)) as (_ & _ & E & _).
      rewrite E in Hy. exact Hy.
    - left. exact Hy.
    - unfold worker_iteration in Hrun. apply bind_Ok in Hrun as (s1 & Hcommit & Htake).
      injection Htake as Htake. destruct (take_next_frame _ _ _ Htake) as (_ & E & _).
      rewrite E in Hy. destruct executed as [[job thrown]|]; [|injection Hcommit as <-; auto].
      destruct (c_exec _ _ HC job) as (info & Hj & Hd & Hz); [apply Hsub; left|]. simpl in Hj.
      destruct Hok as (HG & HQ & HP). destruct thrown as [what|]; simpl in Hcommit.
      + refine (proj2 (proj2 (failed_effect J getExceptionMessage _ _ _ _ _ HG _ Hcommit)) y Hy).
        exists info. exact Hj.
      + injection Hcommit as <-.
        destruct (loaded_effect J J_wf _ job info s (conj HG (conj HQ HP)) Hj Hd Hz)
          as (_ & _ & H & _).
        exact (H y Hy).
  Qed.

Lemma forgotten_rtc max_threads_ c c' x :
    reachable' max_threads_ c → rtc step' c c' → scheduled_total (log c') < UInt64_modulus →
    forgotten (loader c) x → forgotten (loader c') x.
  Proof.
    intros Hreach Hrun. revert Hreach.
    induction Hrun as [c|c c1 c2 Hstep Hrun IH]; intros Hreach Hn Hx; [exact Hx|].
    pose proof (scheduled_total_rtc J getExceptionMessage _ _ Hrun) as Hle.
    pose proof (scheduled_total_step J getExceptionMessage _ _ Hstep) as Hle1.
    pose proof (reachable_step _ _ _ _ _ Hreach Hstep) as Hreach1.
    apply (IH Hreach1 Hn).
    destruct (reachable_run_ok J getExceptionMessage J_wf _ _ Hreach) as [HC HR]; [lia|].
    destruct (reachable_run_ok J getExceptionMessage J_wf _ _ Hreach1) as [HC1 HR1]; [lia|].
    destruct Hx as [[Hnp Hnf] Hf].
    destruct (settled_rtc J getExceptionMessage J_wf _ c c1 x Hreach (rtc_once _ _ Hstep)
                ltac:(lia) Hf) as [Hf1 _].
    split; [split|exact Hf1].
    - intros Hp. rewrite (r_pending _ HR1 x Hp) in Hf1. discriminate.
    - intros Hin. destruct (step_finished c c1 HC Hstep ltac:(lia) x Hin); contradiction.
  Qed.

  (** A job that is pending or finished is pending or finished later on. *)
Lemma known_rtc max_threads_ c c' x :
    reachable' max_threads_ c → rtc step' c c' → scheduled_total (log c') < UInt64_modulus →
    pending (loader c) x ∨ is_finished (job_state (loader c) x) = true →
    pending (loader c') x ∨ is_finished (job_state (loader c') x) = true.
  Proof.
    intros Hreach Hrun Hn [Hp|Hf].
    - pose proof (scheduled_total_rtc J getExceptionMessage _ _ Hrun) as Hle.
      destruct (reachable_run_ok J getExceptionMessage J_wf _ _ Hreach) as [HC HR]; [lia|].
      destruct (r_known _ HR x Hp) as (jobs & p & P & He & Hin).
      pose proof (reachable_rtc J getExceptionMessage _ _ _ Hreach Hrun) as Hreach'.
      pose proof (reachable_config_ok J getExceptionMessage J_wf _ _ Hreach' Hn) as HC'.
      destruct (rtc_step_log J getExceptionMessage _ _ Hrun) as [l El].
      apply (c_once _ _ HC' jobs p P x); [|exact Hin].
      rewrite El. apply elem_of_app. left. exact He.
    - right. exact (proj1 (settled_rtc J getExceptionMessage J_wf _ c c' x Hreach Hrun Hn Hf)).
  Qed.

  (** A job that the loader knows is one that a [schedule] call of the log
      has accepted. *)
Lemma known_scheduled max_threads_ c x :
    reachable' max_threads_ c → scheduled_total (log c) < UInt64_modulus →
    pending (loader c) x ∨ x ∈ finished_jobs (loader c) →
    ∃ jobs p P, EvScheduled jobs p P ∈ log c ∧ x ∈ jobs.
  Proof.
    induction 1 as [|c c' Hreach IH Hstep]; intros Hn Hx.
    - exfalso. destruct Hx as [[i Hi]|Hx]; simpl in *.
      + rewrite lookup_empty in Hi. discriminate.
      + apply elem_of_empty in Hx. exact Hx.
    - pose proof (scheduled_total_step J getExceptionMessage _ _ Hstep) as Hle.
      pose proof (reachable_step _ _ _ _ _ Hreach Hstep) as Hreach'.
      destruct (reachable_run_ok J getExceptionMessage J_wf _ _ Hreach') as [HC' HR']; [lia|].
      destruct Hx as [Hp|Hf]; [exact (r_known _ HR' x Hp)|].
      destruct (reachable_run_ok J getExceptionMessage J_wf _ _ Hreach) as [HC HR]; [lia|].
      destruct (IH ltac:(lia)) as (jobs & p & P & He & Hin).
      { destruct (step_finished c c' HC Hstep Hn x Hf); auto. }
      destruct (step_log J getExceptionMessage _ _ Hstep) as [l ->].
      exists jobs, p, P. split; [apply elem_of_app; left; exact He|exact Hin].
  Qed.

Lemma forgotten_erase s job x :
    forgotten s x → forgotten (set_finished (finished_jobs s ∖ {[job]}) s) x.
  Proof.
    intros [[Hp Hf] Hfin]. split; [split|exact Hfin]; [exact Hp|].
    simpl. intros H. apply elem_of_difference in H as [H _]. contradiction.
  Qed.

  (** What a call of [remove] has done when it returns, from a point where it
      gives up the lock: the jobs that it had still to deal with and that
      were pending or finished are forgotten, and so are the jobs that were
      forgotten already. *)
Lemma remove_rest_forgets max_threads_ next c c' :
    remove_rest J getExceptionMessage next c c' →
    reachable' max_threads_ c → scheduled_total (log c') < UInt64_modulus →
    ∀ x, (forgotten (loader c) x → forgotten (loader c') x) ∧
         (x ∈ left_over next →
          pending (loader c) x ∨ is_finished (job_state (loader c) x) = true →
          forgotten (loader c') x).
  Proof.
    induction 1 as [c|fuel job rest next s2 c c2 c' Hwin Hw Hres Hrest IH]; intros Hreach Hn x.
    { split; [auto|]. intros Hx. inversion Hx. }
    pose proof (remove_rest_total J getExceptionMessage _ _ _ Hrest) as Hle. simpl in Hle.
    pose proof (reachable_rtc J getExceptionMessage _ _ _ Hreach Hwin) as Hreach2.
    destruct (reachable_run_ok J getExceptionMessage J_wf _ _ Hreach2) as [HC2 HR2]; [lia|].
    assert (Hfj : is_finished (job_state (loader c2) job) = true).
    { unfold waitNoThrow in Hw. destruct (is_finished (job_state (loader c2) job));
        [reflexivity|discriminate]. }
    assert (Hnpj : ¬ pending (loader c2) job).
    { intros Hp. rewrite (r_pending _ HR2 job Hp) in Hfj. discriminate. }
    set (c2e := mkConfig (set_finished (finished_jobs (loader c2) ∖ {[job]}) (loader c2))
                  (executing c2) (log c2)).
    assert (Hreach2e : reachable' max_threads_ c2e).
    { eapply reachable_rtc; [exact Hreach2|]. exact (erase_run J getExceptionMessage job c2 Hnpj). }
    unfold remove_resumed in Hres.
    set (c3 := mkConfig s2 (executing c2) (log c2)) in *.
    assert (Hseg : rtc step' c2e c3).
    { exact (remove_run J getExceptionMessage fuel rest c2e next s2 Hres). }
    assert (Hreach3 : reachable' max_threads_ c3).
    { eapply reachable_rtc; [exact Hreach2e|exact Hseg]. }
    destruct (IH Hreach3 Hn x) as [IH1 IH2].
    assert (Hkeep : forgotten (loader c2e) x → forgotten (loader c') x).
    { intros H. apply IH1.
      apply (forgotten_rtc max_threads_ c2e c3 x Hreach2e Hseg); [simpl; lia|exact H]. }
    split.
    - intros Hx. apply Hkeep. simpl. apply forgotten_erase.
      apply (forgotten_rtc max_threads_ c c2 x Hreach Hwin); [lia|exact Hx].
    - intros Hin Hk.
      pose proof (known_rtc max_threads_ c c2 x Hreach Hwin ltac:(lia) Hk) as Hk2.
      simpl in Hin. apply elem_of_cons in Hin as [->|Hin].
      + apply Hkeep. split; [|exact Hfj]. simpl. apply set_finished_unknown. exact Hnpj.
      + assert (Hk2e : pending (loader c2e) x ∨ is_finished (job_state (loader c2e) x) = true)
          by exact Hk2.
        pose proof (known_rtc max_threads_ c2e c3 x Hreach2e Hseg ltac:(simpl; lia) Hk2e) as Hk3.
        assert (Hok2e : loader_ok J (scheduled_total (log c2)) (loader c2e)).
        { refine (c_loader _ _ (reachable_config_ok J getExceptionMessage J_wf _ _ Hreach2e _)).
          simpl. lia. }
        destruct (remove_effect J getExceptionMessage J_wf _ _ _ _ _ _ Hok2e Hres)
          as ((done & Hsplit & Hdone) & _).
        rewrite Hsplit in Hin. apply elem_of_app in Hin as [Hin|Hin].
        * apply IH1. split; [exact (Hdone x Hin)|].
          destruct Hk3 as [Hp|Hf]; [|exact Hf].
          exfalso. exact (proj1 (Hdone x Hin) Hp).
        * apply IH2; [exact Hin|exact Hk3].
  Qed.
End Forgotten.
(** ** A call of [remove] can return *)

Section RemoveCanReturn.
Variable J : LoadJobPtr → LoadJob.
Variable getExceptionMessage : Exception → string.
Hypothesis J_wf : jobs_wf J.

Local Abbreviation step' := (step J getExceptionMessage).
Local Abbreviation reachable' := (reachable J getExceptionMessage).

  (** The worker that executes a job can take its step when the body has
      returned, and [waitNoThrow] on the job returns after it. *)
Lemma executing_job_returns max_threads_ c job :
    reachable' max_threads_ c → scheduled_total (log c) < UInt64_modulus →
    job ∈ executing c →
    ∃ c2, step' c c2 ∧ waitNoThrow (job_state (loader c2) job) = Returned ∧
          scheduled_total (log c2) = scheduled_total (log c).
  Proof.
    intros Hreach Hn Hex.
    destruct (reachable_run_ok J getExceptionMessage J_wf _ _ Hreach Hn) as [HC HR].
    pose proof (c_loader _ _ HC) as (HG & HQ & _).
    destruct (c_exec _ _ HC job Hex) as (info & Hj & Hd & Hz).
    destruct c as [s ex lg]. simpl in *.
    destruct (take_next (loaded job s)) as [next s'] eqn:Htake.
    eexists. split; [|split].
    - apply (step_worker J getExceptionMessage 0 (Some (job, None)) next s s' ex lg).
      + intros x Hx. apply list_elem_of_singleton in Hx as ->. exact Hex.
      + unfold worker_iteration. simpl. rewrite Htake. reflexivity.
    - simpl. destruct (take_next_frame _ _ _ Htake) as (Hheap & _).
      unfold waitNoThrow, job_state. rewrite Hheap. fold (job_state (loaded job s) job).
      rewrite (job_state_loaded J J_wf _ job info s job HG HQ Hj Hd Hz).
      rewrite decide_True by reflexivity. reflexivity.
    - simpl. rewrite !scheduled_total_app. destruct next; simpl; lia.
  Qed.

  (** From every state of the loader a call of [remove] can return: each job
      it has to wait for is being executed by a worker, and when that body
      has returned and the worker has taken its step, [remove] goes on with
      the rest of the set. *)
Lemma remove_call_exists max_threads_ n : ∀ jobs c,
    (length jobs ≤ n)%nat →
    reachable' max_threads_ c → scheduled_total (log c) < UInt64_modulus →
    ∃ c', remove_call J getExceptionMessage jobs c c' ∧
          scheduled_total (log c') = scheduled_total (log c).
  Proof.
    induction n as [|n IH]; intros jobs c Hlen Hreach Hn.
    all: pose proof (reachable_config_ok J getExceptionMessage J_wf _ _ Hreach Hn) as HC.
    all: pose proof (c_loader _ _ HC) as Hok.
    all: destruct (remove_enough J getExceptionMessage _ (failed_fuel (loader c)) jobs
                     (loader c) Hok ltac:(unfold failed_fuel; lia)) as (next & s' & Hrun).
    all: destruct (remove_effect J getExceptionMessage J_wf _ _ _ _ _ _ Hok Hrun)
           as ((done & Hsplit & _) & _ & Hwait).
    all: destruct next as [|job rest].
    1, 3: exists (mkConfig s' (executing c) (log c)); split; [|reflexivity].
    1, 2: apply (remove_call_runs J getExceptionMessage jobs c _ _ RemoveReturns s' Hrun).
    1, 2: apply remove_rest_returns.
    - exfalso. rewrite Hsplit, length_app in Hlen. simpl in Hlen. lia.
    - set (c1 := mkConfig s' (executing c) (log c)).
      pose proof (remove_run J getExceptionMessage _ jobs c _ s' Hrun) as Hseg.
      fold c1 in Hseg.
      pose proof (reachable_rtc J getExceptionMessage _ _ _ Hreach Hseg) as Hreach1.
      assert (Hn1 : scheduled_total (log c1) < UInt64_modulus) by exact Hn.
      pose proof (reachable_idle_ok J getExceptionMessage J_wf _ _ Hreach1 Hn1) as Hidle.
      destruct (Hwait job rest eq_refl) as (_ & info & Hj & Hd & Hz).
      pose proof (Hidle job info Hj Hd Hz) as Hex.
      destruct (executing_job_returns max_threads_ c1 job Hreach1 Hn1 Hex)
        as (c2 & Hstep & Hw & Ht2).
      pose proof (reachable_step _ _ _ _ _ Hreach1 Hstep) as Hreach2.
      assert (Hn2 : scheduled_total (log c2) < UInt64_modulus) by (rewrite Ht2; exact Hn1).
      destruct (reachable_run_ok J getExceptionMessage J_wf _ _ Hreach2 Hn2) as [_ HR2].
      assert (Hp : ¬ pending (loader c2) job).
      { intros Hp. pose proof (r_pending _ HR2 job Hp) as Hf.
        unfold waitNoThrow in Hw. rewrite Hf in Hw. discriminate. }
      pose proof (erase_run J getExceptionMessage job c2 Hp) as Herase.
      set (c3 := mkConfig (set_finished (finished_jobs (loader c2) ∖ {[job]}) (loader c2))
                   (executing c2) (log c2)) in *.
      pose proof (reachable_rtc J getExceptionMessage _ _ _ Hreach2 Herase) as Hreach3.
      assert (Hlen3 : (length rest ≤ n)%nat).
      { rewrite Hsplit, length_app in Hlen. simpl in Hlen. lia. }
      destruct (IH rest c3 Hlen3 Hreach3 Hn2) as (c' & [fuel next s3 Hrun3 Hrest3] & Ht3).
      exists c'. split; [|simpl in Ht3; rewrite Ht3, Ht2; reflexivity].
      apply (remove_call_runs J getExceptionMessage jobs c _ _ (RemoveWaits job rest) s' Hrun).
      apply (remove_rest_waits J getExceptionMessage fuel job rest next s3 c1 c2 c');
        [apply rtc_once; exact Hstep|exact Hw|exact Hrun3|exact Hrest3].
  Qed.
End RemoveCanReturn.
(** ** What a call of [remove] leaves behind *)

Section RemoveCall.
Variable J : LoadJobPtr → LoadJob.
Variable getExceptionMessage : Exception → string.
Hypothesis J_wf : jobs_wf J.

Local Abbreviation step' := (step J getExceptionMessage).
Local Abbreviation remove' := (remove J getExceptionMessage).
Local Abbreviation reachable' := (reachable J getExceptionMessage).

Lemma status_finished st : status st ≠ PENDING → is_finished st = true.
  Proof. unfold status. destruct (is_finished st); [reflexivity|contradiction]. Qed.

Lemma remove_call_forgets max_threads_ jobs c c' x :
    reachable' max_threads_ c → remove_call J getExceptionMessage jobs c c' →
    scheduled_total (log c') < UInt64_modulus → x ∈ jobs →
    pending (loader c) x ∨ is_finished (job_state (loader c) x) = true →
    forgotten (loader c') x.
  Proof.
    intros Hreach [fuel next s' Hrun Hrest] Hn Hx Hk.
    pose proof (remove_rest_total J getExceptionMessage _ _ _ Hrest) as Hle. simpl in Hle.
    set (c1 := mkConfig s' (executing c) (log c)) in *.
    pose proof (remove_run J getExceptionMessage fuel jobs c next s' Hrun) as Hseg.
    pose proof (reachable_rtc J getExceptionMessage _ _ _ Hreach Hseg) as Hreach1.
    pose proof (known_rtc J getExceptionMessage J_wf max_threads_ c c1 x Hreach Hseg
                  ltac:(simpl; lia) Hk) as Hk1.
    destruct (remove_rest_forgets J getExceptionMessage J_wf max_threads_ next c1 c' Hrest
                Hreach1 Hn x) as [H1 H2].
    assert (Hok : loader_ok J (scheduled_total (log c)) (loader c)).
    { refine (c_loader _ _ (reachable_config_ok J getExceptionMessage J_wf _ _ Hreach _)). lia. }
    destruct (remove_effect J getExceptionMessage J_wf _ _ _ _ _ _ Hok Hrun)
      as ((done & Hsplit & Hdone) & _).
    rewrite Hsplit in Hx. apply elem_of_app in Hx as [Hx|Hx].
    - apply H1. split; [exact (Hdone x Hx)|].
      destruct Hk1 as [Hp|Hf]; [|exact Hf]. exfalso. exact (proj1 (Hdone x Hx) Hp).
    - apply H2; [exact Hx|exact Hk1].
  Qed.

  (** C10, amended: [remove] skips a job that the loader does not know.  A
      call that does not have to wait, as is the case when no job of the set
      is executing, returns with every job of the set absent from the pending
      map and from the finished set, and a second [remove] of the set changes
      nothing.  A call that has to wait for executing jobs can return, as it
      does when their bodies return.  Of such a call, with the other threads
      running meanwhile: when it returns, every job of the set that
      was pending or finished (or had finished before) when [remove] was
      called is absent from the pending map and from the finished set,
      whether [remove] erased it, cancelled it, failed it as a dependent or
      waited for it; and a job of the set is present then only if a
      [schedule] call has accepted it during the call.  (The loader is
      reachable, with fewer than [2^64] jobs scheduled.) *)
Theorem remove_forgets_jobs max_threads_ c jobs :
    reachable' max_threads_ c → scheduled_total (log c) < UInt64_modulus →
    (∃ next s', remove' (failed_fuel (loader c)) jobs (loader c) = Ok (next, s')) ∧
    (∀ fuel x, unknown (loader c) x →
       remove_job J getExceptionMessage fuel x (loader c) = Ok (Removed (loader c))) ∧
    (∀ fuel next s', remove' fuel jobs (loader c) = Ok (next, s') →
       ((∀ x, x ∈ jobs → ¬ is_executing (loader c) x) → next = RemoveReturns) ∧
       (next = RemoveReturns →
        (∀ x, x ∈ jobs → ¬ pending s' x ∧ x ∉ finished_jobs s') ∧
        (∀ fuel', remove' fuel' jobs s' = Ok (RemoveReturns, s')))) ∧
    (∃ c', remove_call J getExceptionMessage jobs c c' ∧
           scheduled_total (log c') = scheduled_total (log c)) ∧
    (∀ c', remove_call J getExceptionMessage jobs c c' →
       scheduled_total (log c') < UInt64_modulus →
       rtc step' c c' ∧
       ∀ x, x ∈ jobs →
         (pending (loader c) x ∨ status (job_state (loader c) x) ≠ PENDING →
          ¬ pending (loader c') x ∧ x ∉ finished_jobs (loader c')) ∧
         ((¬ pending (loader c') x ∧ x ∉ finished_jobs (loader c')) ∨
          ∃ l1 jobs' p P l2,
            log c' = log c ++ l1 ++ EvScheduled jobs' p P :: l2 ∧ x ∈ jobs')).
  Proof.
    intros Hreach Hn.
    pose proof (reachable_config_ok J getExceptionMessage J_wf _ _ Hreach Hn) as HC.
    pose proof (c_loader _ _ HC) as Hok.
    split; [|split; [|split; [|split]]].
    - eapply remove_enough; [exact Hok|]. unfold failed_fuel. lia.
    - intros fuel x Hx. apply remove_job_unknown, Hx.
    - intros fuel next s' Hrun. split.
      + intros Hidle. exact (remove_idle J getExceptionMessage J_wf _ _ _ _ _ _ Hok Hidle Hrun).
      + intros ->.
        destruct (remove_effect J getExceptionMessage J_wf _ _ _ _ _ _ Hok Hrun)
          as ((done & Hsplit & Hdone) & _).
        simpl in Hsplit. rewrite app_nil_r in Hsplit. subst done.
        split; [exact Hdone|]. intros fuel'. apply remove_unknown, Hdone.
    - exact (remove_call_exists J getExceptionMessage J_wf max_threads_ (length jobs) jobs c
               (le_n _) Hreach Hn).
    - intros c' Hcall Hn'.
      pose proof (remove_call_run J getExceptionMessage J_wf _ _ _ _ Hreach Hcall Hn') as Hrun.
      split; [exact Hrun|]. intros x Hx.
      assert (H1 : pending (loader c) x ∨ is_finished (job_state (loader c) x) = true →
                   ¬ pending (loader c') x ∧ x ∉ finished_jobs (loader c')).
      { intros Hk.
        exact (proj1 (remove_call_forgets max_threads_ jobs c c' x Hreach Hcall Hn' Hx Hk)). }
      split.
      { intros [Hp|Hs]; apply H1; [left; exact Hp|right; apply status_finished, Hs]. }
      destruct (decide (pending (loader c') x)) as [Hp|Hp];
        [|destruct (decide (x ∈ finished_jobs (loader c'))) as [Hf|Hf]; [|left; auto]].
      all: right.
      all: pose proof (reachable_rtc J getExceptionMessage _ _ _ Hreach Hrun) as Hreach'.
      all: destruct (known_scheduled J getExceptionMessage J_wf _ c' x Hreach' Hn')
             as (jobs' & p & P & He & Hin); [auto|].
      all: destruct (rtc_step_log J getExceptionMessage _ _ Hrun) as [l El].
      all: rewrite El in He; apply elem_of_app in He as [He|He].
      all: try (exfalso; destruct (H1 (c_once _ _ HC jobs' p P x He Hin)); contradiction).
      all: apply list_elem_of_split in He as (l1 & l2 & ->).
      all: exists l1, jobs', p, P, l2; split; [exact El|exact Hin].
  Qed.
End RemoveCall.

(** ** The properties at work on the chain A, B, C *)

Lemma job_status_consistent_witness :
  status (job_state chain_running_b 1%nat) = PENDING ∧ 1%nat ∉ finished_jobs chain_running_b.
Proof.
  refine (proj1 (job_status_consistent chain_jobs plain_message chain_jobs_wf 1
                   chain_running_b_config 1%nat _ _) _).
  - apply reachable_chain_running_b.
  - vm_compute. reflexivity.
  - exists (Info.mk 0 0 0 [2%nat]). vm_compute. reflexivity.
Defined.

Lemma ready_queue_consistent_witness :
  last_ready_seqno chain_scheduled ≤ scheduled_total (log chain_scheduled_config).
Proof.
  refine (proj2 (proj2 (proj2 (proj2
            (ready_queue_consistent chain_jobs plain_message chain_jobs_wf 1
               chain_scheduled_config _ _))))).
  - apply reachable_chain_scheduled.
  - vm_compute. reflexivity.
Defined.

Lemma dependency_graph_consistent_witness :
  pending chain_scheduled 1%nat ∧ 0%nat ∈ dependencies (chain_jobs 1%nat).
Proof.
  refine (proj1 (dependency_graph_consistent chain_jobs plain_message chain_jobs_wf 1
                   chain_scheduled_config _ _) 0%nat 1%nat _).
  - apply reachable_chain_scheduled.
  - vm_compute. reflexivity.
  - exists (Info.mk 0 0 1 [1%nat]). split; [vm_compute; reflexivity|left].
Defined.



Lemma worker_fails_job_whose_body_threw_witness :
  ∃ next s', worker_iteration chain_jobs plain_message (failed_fuel chain_running_b)
               (Some (1%nat, Some "boom"%string)) chain_running_b = Ok (next, s').
Proof.
  refine (proj1 (worker_fails_job_whose_body_threw chain_jobs plain_message chain_jobs_wf 1
                   chain_running_b_config 1%nat "boom"%string _ _ _)).
  - apply reachable_chain_running_b.
  - vm_compute. reflexivity.
  - left.
Defined.

Lemma loaded_releases_dependents_witness :
  wait (job_state (loaded 1%nat chain_running_b) 1%nat) = Returned.
Proof.
  refine (proj1 (loaded_releases_dependents chain_jobs plain_message chain_jobs_wf 1
                   chain_running_b_config 1%nat (Info.mk 0 0 0 [2%nat]) _ _ _ _)).
  - apply reachable_chain_running_b.
  - vm_compute. reflexivity.
  - left.
  - vm_compute. reflexivity.
Defined.

Lemma prioritize_only_raises_witness :
  prioritize chain_jobs 1 2%nat 3 chain_prio_c = Ok chain_prio_c.
Proof.
  refine (proj2 (proj2 (proj2 (proj2 (proj2
            (prioritize_only_raises chain_jobs 4 2%nat 7 chain_scheduled chain_prio_c _)))))
            0%nat 3 _).
  - vm_compute. reflexivity.
  - vm_compute. discriminate.
Defined.

Lemma start_spawns_up_to_limit_witness :
  start chain_scheduled =
  set_workers (workers chain_scheduled +
               Z.max 0 (Z.min (max_threads chain_scheduled - workers chain_scheduled)
                          (Z.of_nat (length (ready_queue chain_scheduled)))))
    (set_running true chain_scheduled).
Proof.
  refine (start_spawns_up_to_limit chain_scheduled _ _).
  - vm_compute. discriminate.
  - vm_compute. reflexivity.
Defined.

Lemma schedule_spawns_within_limit_witness :
  max_threads chain_scheduled = max_threads (new_loader 1) ∧
  is_running chain_scheduled = is_running (new_loader 1) ∧
  workers (new_loader 1) ≤ workers chain_scheduled
    ≤ Z.max (workers (new_loader 1)) (max_threads (new_loader 1)) ∧
  (is_running (new_loader 1) = false → workers chain_scheduled = workers (new_loader 1)).
Proof.
  refine (schedule_spawns_within_limit chain_jobs 4 [0; 1; 2]%nat 0 (new_loader 1)
            chain_scheduled _ _ _).
  - vm_compute. reflexivity.
  - vm_compute. discriminate.
  - vm_compute. reflexivity.
Defined.

Lemma stopped_worker_exits_witness :
  Exit = Exit ∧ is_running chain_stopped_after_a = false ∧
  workers chain_stopped_after_a = workers (stop chain_running_a) ∧
  max_threads chain_stopped_after_a = max_threads (stop chain_running_a) ∧
  (Some (0%nat, @None string) = None → chain_stopped_after_a = stop chain_running_a).
Proof.
  refine (stopped_worker_exits chain_jobs plain_message 4 (Some (0%nat, None))
            (stop chain_running_a) Exit chain_stopped_after_a _ _).
  - reflexivity.
  - vm_compute. reflexivity.
Defined.

Lemma dropped_task_forgets_jobs_witness :
  ∃ s2, Task.remove chain_jobs plain_message (failed_fuel chain_scheduled)
          (Task.make [0; 1; 2]%nat) chain_scheduled = Ok (RemoveReturns, Task.empty, s2).
Proof.
  refine (proj1 (proj2 (dropped_task_forgets_jobs chain_jobs plain_message chain_jobs_wf 1
                          (initial 1) 4 [0; 1; 2]%nat 0 (Task.make [0; 1; 2]%nat)
                          chain_scheduled _ _ _ _))).
  - apply reachable_initial.
  - apply NoDup_chain.
  - vm_compute. reflexivity.
  - vm_compute. reflexivity.
Defined.

Lemma job_is_scheduled_once_witness :
  ∃ e, schedule chain_jobs 4 [0%nat] 0 chain_scheduled = Throw e ∧
       code e = ASYNC_LOAD_SCHEDULE_FAILED.
Proof.
  refine (job_is_scheduled_once chain_jobs plain_message chain_jobs_wf 1
            chain_scheduled_config [0; 1; 2]%nat 0 ∅ 0%nat _ _ _ _ 4%nat [0%nat] 0 _).
  - apply reachable_chain_scheduled.
  - vm_compute. reflexivity.
  - left.
  - left.
  - left.
Defined.

Lemma chain_acyclic : acyclic_in chain_jobs [0; 1; 2]%nat.
Proof.
  apply (ranked_acyclic chain_jobs _ (λ x, x)). intros a b (Ha & _ & Hb).
  destruct a as [|[|[|a]]]; simpl in Hb.
  - inversion Hb.
  - apply list_elem_of_singleton in Hb. subst. lia.
  - apply list_elem_of_singleton in Hb. subst. lia.
  - inversion Hb.
Defined.

Lemma checkCycle_accepts_acyclic_witness : checkCycle chain_jobs 4 [0; 1; 2]%nat = Ok tt.
Proof.
  refine (checkCycle_accepts_acyclic chain_jobs 4 [0; 1; 2]%nat _ _).
  - exact chain_acyclic.
  - simpl. lia.
Defined.

Lemma schedule_accepts_valid_set_witness :
  ∃ s', schedule chain_jobs 4 [0; 1; 2]%nat 0 (new_loader 1) = Ok s'.
Proof.
  refine (schedule_accepts_valid_set chain_jobs 4 [0; 1; 2]%nat 0 (new_loader 1) _ _ _ _).
  - intros x _. split; [reflexivity|]. intros [i Hi]. simpl in Hi.
    rewrite lookup_empty in Hi. discriminate.
  - exact chain_acyclic.
  - simpl. lia.
  - vm_compute. lia.
Defined.

Lemma schedule_rejects_named_cycle_witness :
  ∃ e, schedule named_cycle 4 [0; 1]%nat 0 (new_loader 1) = Throw e ∧
       code e = ASYNC_LOAD_SCHEDULE_FAILED.
Proof.
  refine (proj2 (proj2 (schedule_rejects_named_cycle named_cycle 4 [0; 1]%nat _ _) _)
            0 (new_loader 1)).
  - intros x _. destruct x; simpl; discriminate.
  - simpl. lia.
  - intros H. apply (H 0%nat). apply (tc_l _ 0%nat 1%nat 0%nat).
    + split; [left|]. split; [right; left|left].
    + apply tc_once. split; [right; left|]. split; [left|left].
Defined.

Lemma priority_field_follows_witness :
  priority (job_state chain_running_b 1%nat) = Info.priority (Info.mk 0 0 0 [2%nat]).
Proof.
  refine (proj1 (priority_field_follows chain_jobs plain_message chain_jobs_wf 1
                   chain_running_b_config 1%nat (Info.mk 0 0 0 [2%nat]) _ _ _)).
  - apply reachable_chain_running_b.
  - vm_compute. reflexivity.
  - vm_compute. reflexivity.
Defined.

Lemma schedule_leaves_others_alone_witness :
  finished_jobs chain_scheduled = finished_jobs (loader (initial 1)).
Proof.
  refine (proj2 (proj2 (proj2 (proj2
            (schedule_leaves_others_alone chain_jobs plain_message chain_jobs_wf 1
               (initial 1) 4 [0; 1; 2]%nat 0 chain_scheduled _ _ _ _))))).
  - apply reachable_initial.
  - apply NoDup_chain.
  - vm_compute. reflexivity.
  - vm_compute. reflexivity.
Defined.

Lemma chain_jobs_named : ∀ y, name (chain_jobs y) ≠ EmptyString.
Proof. intros y. destruct y as [|[|[|y]]]; simpl; discriminate. Defined.

Lemma pending_job_can_progress_witness :
  ∃ y i, scheduled_jobs chain_scheduled !! y = Some i ∧
         rtc (linked chain_scheduled) y 2%nat ∧
         Info.dependencies_left i = 0 ∧
         ((Info.key i, y) ∈ ready_queue chain_scheduled ∨ y ∈ executing chain_scheduled_config).
Proof.
  refine (proj2 (pending_job_can_progress chain_jobs plain_message chain_jobs_wf 1
                   chain_scheduled_config 2%nat _ _ _ _)).
  - exact chain_jobs_named.
  - apply reachable_chain_scheduled.
  - vm_compute. reflexivity.
  - exists (Info.mk 0 1 0 []). vm_compute. reflexivity.
Defined.

Lemma pending_job_is_waiting_ready_or_executing_witness : NoDup (executing chain_running_b_config).
Proof.
  refine (proj1 (pending_job_is_waiting_ready_or_executing chain_jobs plain_message
                   chain_jobs_wf 1 chain_running_b_config _ _)).
  - apply reachable_chain_running_b.
  - vm_compute. reflexivity.
Defined.

Lemma started_job_has_successful_prerequisites_witness :
  status (job_state chain_running_b 0%nat) = SUCCESS ∧
  wait (job_state chain_running_b 0%nat) = Returned ∧
  EvThrew 0%nat ∉ log chain_running_b_config ∧ ¬ pending chain_running_b 0%nat.
Proof.
  refine (started_job_has_successful_prerequisites chain_jobs plain_message chain_jobs_wf 1
            chain_running_b_config
            [EvScheduled [0; 1; 2]%nat 0 ∅; EvStarted 0%nat; EvReturned 0%nat] []
            1%nat [0; 1; 2]%nat 0 ∅ 0%nat _ _ _ _ _ _ _).
  - apply reachable_chain_running_b.
  - vm_compute. reflexivity.
  - reflexivity.
  - left.
  - right. left.
  - simpl. left.
  - right. left.
Defined.

Lemma remove_leaves_unrelated_jobs_alone_witness :
  job_state chain_without_c 0%nat = job_state chain_scheduled 0%nat.
Proof.
  refine (proj1 (remove_leaves_unrelated_jobs_alone chain_jobs plain_message chain_jobs_wf 1
                   chain_scheduled_config 4 [2%nat] RemoveReturns chain_without_c [2%nat] 0%nat
                   _ _ _ _ _)).
  - apply reachable_chain_scheduled.
  - vm_compute. reflexivity.
  - vm_compute. reflexivity.
  - reflexivity.
  - intros r Hr Hpath. apply list_elem_of_singleton in Hr. subst r.
    inversion Hpath as [|a b c0 (i & Hi & Hin) _]; subst.
    vm_compute in Hi. injection Hi as <-. inversion Hin.
Defined.

Lemma remove_waits_for_executing_job_witness :
  remove chain_jobs plain_message 0 [1; 2]%nat chain_running_b =
    Ok (RemoveWaits 1%nat [2%nat], chain_running_b).
Proof.
  refine (proj1 (remove_waits_for_executing_job chain_jobs plain_message chain_jobs_wf 1
                   chain_running_b_config 0 1%nat [2%nat] _ _ _)).
  - apply reachable_chain_running_b.
  - vm_compute. reflexivity.
  - left.
Defined.

(** *** Removing sets of jobs *)

Lemma chain_scheduled_links_acyclic : links_acyclic chain_scheduled.
Proof. intros x H. apply chain_scheduled_acyclic in H. lia. Defined.

Lemma NoDup_pair : NoDup [0; 1]%nat.
Proof.
  apply NoDup_cons. split; [|apply NoDup_one].
  intros H. apply list_elem_of_singleton in H. discriminate.
Defined.

Lemma remove_cancels_pending_jobs_witness :
  ∃ next s', remove chain_jobs plain_message (failed_fuel chain_scheduled) [0; 1]%nat
               chain_scheduled = Ok (next, s').
Proof.
  refine (proj1 (remove_cancels_pending_jobs chain_jobs plain_message chain_jobs_wf 1
                   chain_scheduled_config [0; 1]%nat _ _ _ _)).
  - apply reachable_chain_scheduled.
  - vm_compute. reflexivity.
  - apply chain_scheduled_links_acyclic.
  - apply NoDup_pair.
Defined.

(** C6 as stated fails: A and B are pending, B depends on A, and no worker has
    picked up either.  [remove] of the set {A, B} leaves B with
    [ASYNC_LOAD_DEPENDENCY_FAILED] when the iteration reaches A first, and
    with [ASYNC_LOAD_CANCELED] when it reaches B first. *)
Lemma remove_kind_depends_on_order :
  reachable chain_jobs plain_message 1
    (mkConfig pair_scheduled [] [EvScheduled [0; 1]%nat 0 ∅]) ∧
  pending pair_scheduled 0%nat ∧ pending pair_scheduled 1%nat ∧
  0%nat ∈ dependencies (chain_jobs 1%nat) ∧
  (∃ s', remove chain_jobs plain_message 4 [0; 1]%nat pair_scheduled = Ok (RemoveReturns, s') ∧
         code <$> exception (job_state s' 1%nat) = Some ASYNC_LOAD_DEPENDENCY_FAILED) ∧
  (∃ s', remove chain_jobs plain_message 4 [1; 0]%nat pair_scheduled = Ok (RemoveReturns, s') ∧
         code <$> exception (job_state s' 1%nat) = Some ASYNC_LOAD_CANCELED).
Proof.
  split.
  { eapply reachable_step; [apply reachable_initial|].
    apply (step_schedule chain_jobs plain_message 4 [0; 1]%nat 0 (new_loader 1) pair_scheduled).
    - apply NoDup_pair.
    - vm_compute. reflexivity. }
  split; [vm_compute; eexists; reflexivity|].
  split; [vm_compute; eexists; reflexivity|].
  split; [left|].
  split; eexists; (split; [vm_compute; reflexivity|vm_compute; reflexivity]).
Qed.

Lemma remove_forgets_jobs_witness :
  ∃ next s', remove chain_jobs plain_message (failed_fuel chain_scheduled) [0; 1]%nat
               chain_scheduled = Ok (next, s').
Proof.
  refine (proj1 (remove_forgets_jobs chain_jobs plain_message chain_jobs_wf 1
                   chain_scheduled_config [0; 1]%nat _ _)).
  - apply reachable_chain_scheduled.
  - vm_compute. reflexivity.
Defined.

Lemma reachable_solo_running_a :
  reachable chain_jobs plain_message 1 solo_running_a_config.
Proof.
  eapply reachable_step.
  - eapply reachable_step; [|apply step_start].
    eapply reachable_step; [apply reachable_initial|].
    apply (step_schedule chain_jobs plain_message 4 [0%nat] 0 (new_loader 1) solo_a).
    + apply NoDup_one.
    + vm_compute. reflexivity.
  - apply (step_worker chain_jobs plain_message 0 None (Run 0%nat) _ solo_running_a).
    + apply list_subseteq_nil.
    + vm_compute. reflexivity.
Qed.

(** C10 as stated fails: A is executing and the loader does not know X.
    [remove] of the set {X, A} skips X and waits for A; meanwhile X is
    scheduled, the body of A returns, and the worker takes X.  Then [remove]
    goes on, erases A from the finished set and returns: X, a job of the set,
    is in the pending map. *)
Lemma remove_returns_with_job_pending :
  reachable chain_jobs plain_message 1 solo_running_a_config ∧
  ¬ pending solo_running_a 3%nat ∧
  remove_call chain_jobs plain_message [3; 0]%nat solo_running_a_config solo_a_erased_config ∧
  3%nat ∈ [3; 0]%nat ∧
  pending (loader solo_a_erased_config) 3%nat.
Proof.
  split; [apply reachable_solo_running_a|].
  split; [intros [i Hi]; vm_compute in Hi; discriminate|].
  split; [|split; [left|vm_compute; eexists; reflexivity]].
  apply (remove_call_runs chain_jobs plain_message [3; 0]%nat solo_running_a_config
           solo_a_erased_config 0 (RemoveWaits 0%nat []) solo_running_a).
  - vm_compute. reflexivity.
  - apply (remove_rest_waits chain_jobs plain_message 0 0%nat [] RemoveReturns solo_a_erased
             solo_running_a_config solo_running_x_config solo_a_erased_config).
    + apply (rtc_l _ _ solo_x_scheduled_config).
      * apply (step_schedule chain_jobs plain_message 4 [3%nat] 0 solo_running_a
                 solo_x_scheduled [0%nat] [EvScheduled [0%nat] 0 ∅; EvStarted 0%nat]).
        -- apply NoDup_one.
        -- vm_compute. reflexivity.
      * apply rtc_once.
        apply (step_worker chain_jobs plain_message 4 (Some (0%nat, None)) (Run 3%nat)
                 solo_x_scheduled solo_running_x [0%nat]
                 [EvScheduled [0%nat] 0 ∅; EvStarted 0%nat; EvScheduled [3%nat] 0 {[0%nat]}]).
        -- intros x Hx. exact Hx.
        -- vm_compute. reflexivity.
    + vm_compute. reflexivity.
    + reflexivity.
    + apply remove_rest_returns.
Qed.

(** B depends on A, and D on A and on B.  When A is canceled, [failed] comes
    to D through B and once more from A itself, and sets the failure of D
    both times: D, pending when [remove] began, is finished after the first
    of the two calls, and the second replaces its exception. *)
Lemma diamond_dependent_fails_twice :
  reachable diamond_jobs plain_message 1 diamond_scheduled_config ∧
  ∃ e1 e2,
    failed_calls diamond_jobs plain_message 4 0%nat (load_canceled diamond_jobs 0%nat)
      diamond_scheduled =
    [(0%nat, load_canceled diamond_jobs 0%nat);
     (1%nat, dependency_failed diamond_jobs plain_message 1%nat (load_canceled diamond_jobs 0%nat));
     (2%nat, e1); (2%nat, e2)] ∧
    e1 ≠ e2 ∧
    ∃ s', remove diamond_jobs plain_message 4 [0%nat] diamond_scheduled = Ok (RemoveReturns, s') ∧
          exception (job_state s' 2%nat) = Some e2.
Proof.
  split.
  - eapply reachable_step; [apply reachable_initial|].
    apply (step_schedule diamond_jobs plain_message 4 [0; 1; 2]%nat 0 (new_loader 1)
             diamond_scheduled).
    + apply NoDup_chain.
    + vm_compute. reflexivity.
  - eexists _, _. split; [vm_compute; reflexivity|]. split; [discriminate|].
    eexists. split; vm_compute; reflexivity.
Qed.
